(** * Zabbix network discovery: result cache, drainer, scheduler, workers, ICMP sweep

    A shallow embedding of src/zabbix_server/discoverer/discoverer.c.
    Every definition below is named after the C function it follows.
    Shared state (the two hash sets of the discovery manager, the job
    references, the task queue) is passed explicitly; calls into the
    persistence layer and into the rule store are recorded as a trace. *)

From Stdlib Require Import ZArith Lia Ascii.
From stdpp Require Import gmap strings list fin_maps pretty sorting.

Local Open Scope Z_scope.

(** ** Constants and collaborators declared outside discoverer.c *)

(** The headers that define these macros are not part of the sources at
    hand; the code only names them, so they are kept symbolic. *)
Class Constants := {
  DOBJECT_STATUS_UP : Z;
  DOBJECT_STATUS_DOWN : Z;
  DISCOVERER_QUEUE_MAX_SIZE : Z;
  ZBX_DEFAULT_INTERVAL : Z;
  (** size of the [error] buffers written with zbx_snprintf *)
  MAX_STRING_LEN : nat;
  (** sizeof(cmp.ip): the ip buffer of zbx_discoverer_check_count_t *)
  CHECK_COUNT_IP_SIZE : nat
}.

(** DISCOVERER_BATCH_RESULTS_NUM is defined inside process_results. *)
Definition DISCOVERER_BATCH_RESULTS_NUM : Z := 1000.

(** zbx_uint64_t arithmetic wraps around. *)
Definition u64 (x : Z) : Z := x mod 2 ^ 64.

(** zbx_strlcpy(dst, src, siz) keeps at most siz - 1 characters. *)
Definition zbx_strlcpy (src : string) (siz : nat) : string :=
  String.substring 0 (siz - 1) src.

(** The double quote character, as a string. *)
Definition dquote : string := String (Ascii.ascii_of_nat 34) EmptyString.

(** zbx_snprintf(buf, size, ...) keeps at most size - 1 characters of the
    formatted text. *)
Definition zbx_snprintf (size : nat) (text : string) : string :=
  String.substring 0 (size - 1) text.

(** ** Data model *)

(** zbx_discoverer_dservice_t *)
Record zbx_discoverer_dservice_t := mk_dservice {
  dcheckid : Z;
  port : Z;
  status : Z;
  value : string
}.

(** zbx_discoverer_results_t; [dnsname] is a char pointer that may be NULL. *)
Record zbx_discoverer_results_t := mk_results {
  druleid : Z;
  ip : string;
  dnsname : option string;
  now : Z;
  unique_dcheckid : Z;
  processed_checks_per_ip : Z;
  services : list zbx_discoverer_dservice_t
}.

(** zbx_discoverer_drule_error_t *)
Record zbx_discoverer_drule_error_t := mk_drule_error {
  err_druleid : Z;
  error : string
}.

(** Both hash sets of the manager are keyed by (druleid, ip), see
    discoverer_result_compare and discoverer_check_count_compare. *)
Abbreviation hkey := (Z * string)%type.
Abbreviation results_hashset := (gmap hkey zbx_discoverer_results_t).
Abbreviation check_counts_hashset := (gmap hkey Z).

Definition result_key (r : zbx_discoverer_results_t) : hkey := (druleid r, ip r).

Section CheckCount.
Context `{Constants}.

(** The key built in [cmp]: the ip is copied with zbx_strlcpy. *)
Definition check_count_key (druleid' : Z) (ip' : string) : hkey :=
  (druleid', zbx_strlcpy ip' CHECK_COUNT_IP_SIZE).

(** discoverer_check_count_decrease: [None] is FAIL (nothing written),
    [Some (check_counts', current_count)] is SUCCEED. *)
Definition discoverer_check_count_decrease (check_counts : check_counts_hashset)
    (druleid' : Z) (ip' : string) (count : Z) : option (check_counts_hashset * Z) :=
  match check_counts !! check_count_key druleid' ip' with
  | None => None
  | Some c =>
      if decide (c = 0) then None
      else Some (<[check_count_key druleid' ip' := u64 (c - count)]> check_counts,
                 u64 (c - count))
  end.
End CheckCount.

(** ** Calls into the persistence layer, in the order they are made *)

Inductive db_call :=
  | zbx_discovery_update_service
      (druleid' dcheckid' unique_dcheckid' : Z) (ip' dns : string)
      (port' status' : Z) (value' : string) (now' : Z)
  | zbx_discovery_find_host (druleid' : Z) (ip' : string)
  | zbx_discovery_update_service_down (dhostid now' : Z)
  | zbx_discovery_update_host
      (druleid' : Z) (ip' dns : string) (host_status now' : Z)
  | zbx_discovery_update_drule (druleid' : Z) (err : option string) (now' : Z)
  | zbx_discovery_open
  | zbx_discovery_close
  | process_events_cb
  | clean_events_cb.

Section ProcessServices.
Context `{Constants}.

(** Body of the loop over the services: the update of [host_status]. *)
Definition host_status_next (host_status : Z) (service : zbx_discoverer_dservice_t) : Z :=
  if (bool_decide (-1 = host_status) || bool_decide (DOBJECT_STATUS_UP = status service))
     && negb (bool_decide (host_status = status service))
  then status service
  else host_status.

Definition services_update_calls (druleid' : Z) (ip' dns : string) (now' unique : Z)
    (services' : list zbx_discoverer_dservice_t) : list db_call :=
  (λ s, zbx_discovery_update_service druleid' (dcheckid s) unique ip' dns
          (port s) (status s) (value s) now') <$> services'.

(** process_services. [dhostid_after] stands for dhost->dhostid as the
    persistence layer leaves it after the calls made for this host. *)
Definition process_services (dhostid_after : list db_call → Z)
    (druleid' : Z) (ip' dns : string) (now' unique : Z)
    (services' : list zbx_discoverer_dservice_t) : Z * list db_call :=
  let host_status := fold_left host_status_next services' (-1) in
  let calls := services_update_calls druleid' ip' dns now' unique services' in
  let '(host_status, calls) :=
    if decide (length services' = 0%nat)
    then (DOBJECT_STATUS_DOWN, calls ++ [zbx_discovery_find_host druleid' ip'])
    else (host_status, calls) in
  let dhostid := dhostid_after calls in
  (host_status,
   if decide (dhostid = 0) then calls
   else calls ++ [zbx_discovery_update_service_down dhostid now']).
End ProcessServices.

(** ** The result drainer: process_results *)

(** zbx_events_funcs_t: which of the optional callbacks are set. *)
Record zbx_events_funcs_t := mk_events_funcs {
  has_process_events_cb : bool;
  has_clean_events_cb : bool
}.

(** State of the scan over manager->results. *)
Record scan_state := mk_scan {
  sc_results : results_hashset;            (* manager->results *)
  sc_check_counts : check_counts_hashset;  (* manager->incomplete_checks_count *)
  sc_incomplete_druleids : gset Z;
  sc_vector : list zbx_discoverer_results_t;  (* the local vector [results] *)
  res_check_total : Z;
  res_check_count : Z
}.

(** What process_results leaves behind. *)
Record process_results_out := mk_process_results_out {
  pr_results : results_hashset;
  pr_check_counts : check_counts_hashset;
  pr_incomplete_druleids : gset Z;
  pr_drule_errors : list zbx_discoverer_drule_error_t;
  pr_unsaved_checks : Z;
  pr_vector : list zbx_discoverer_results_t;  (* the results handed to persistence *)
  pr_calls : list db_call;
  pr_ret : Z
}.

(** zbx_vector_discoverer_drule_error_search with
    ZBX_DEFAULT_UINT64_COMPARE_FUNC: first index whose druleid matches. *)
Definition drule_error_search (drule_errors : list zbx_discoverer_drule_error_t)
    (druleid' : Z) : option (nat * zbx_discoverer_drule_error_t) :=
  list_find (λ e, err_druleid e = druleid') drule_errors.

Section ProcessResults.
Context `{Constants}.
Variable dhostid_after : list db_call → Z.

(** process_results_incompletecheckscount_remove *)
Definition process_results_incompletecheckscount_remove
    (check_counts : check_counts_hashset) (del_druleids : list Z) : check_counts_hashset :=
  filter (λ kv, kv.1.1 ∉ del_druleids) check_counts.

(** process_results_incompleteresult_remove *)
Definition process_results_incompleteresult_remove
    (results : results_hashset) (check_counts : check_counts_hashset)
    (drule_errors : list zbx_discoverer_drule_error_t)
    : results_hashset * check_counts_hashset :=
  (filter (λ kv, druleid kv.2 ∉ err_druleid <$> drule_errors) results,
   filter (λ kv, kv.1.1 ∉ err_druleid <$> drule_errors) check_counts).

(** Body of the while loop over the hash set iterator. *)
Definition process_results_step (del_druleids : list Z) (st : scan_state)
    (result : zbx_discoverer_results_t) : scan_state :=
  let cmp := check_count_key (druleid result) (ip result) in
  if decide (druleid result ∈ del_druleids) then
    mk_scan (delete (result_key result) (sc_results st)) (sc_check_counts st)
      (sc_incomplete_druleids st) (sc_vector st) (res_check_total st) (res_check_count st)
  else
    let total := u64 (res_check_total st + Z.of_nat (length (services result))) in
    let check_count := sc_check_counts st !! cmp in
    if bool_decide (DISCOVERER_BATCH_RESULTS_NUM ≤ res_check_count st)
       || match check_count with Some c => bool_decide (0 ≠ c) | None => false end
    then
      mk_scan (sc_results st) (sc_check_counts st)
        ({[druleid result]} ∪ sc_incomplete_druleids st) (sc_vector st)
        total (res_check_count st)
    else
      mk_scan (delete (result_key result) (sc_results st))
        (match check_count with
         | Some _ => delete cmp (sc_check_counts st)
         | None => sc_check_counts st
         end)
        (sc_incomplete_druleids st) (sc_vector st ++ [result])
        total (u64 (res_check_count st + Z.of_nat (length (services result)))).

(** The scan; [entries] are the elements of manager->results in the
    order the iterator visits them. *)
Definition process_results_scan (del_druleids : list Z)
    (results : results_hashset) (check_counts : check_counts_hashset)
    (entries : list zbx_discoverer_results_t) : scan_state :=
  fold_left (process_results_step del_druleids) entries
    (mk_scan results check_counts ∅ [] 0 0).

(** Body of the for loop over the local vector. *)
Definition process_results_emit (events_cbs : zbx_events_funcs_t)
    (st : list zbx_discoverer_drule_error_t * list db_call)
    (result : zbx_discoverer_results_t)
    : list zbx_discoverer_drule_error_t * list db_call :=
  let '(drule_errors, calls) := st in
  if decide (ip result = EmptyString) then
    match drule_error_search drule_errors (druleid result) with
    | Some (j, e) =>
        (delete j drule_errors,
         calls ++ [zbx_discovery_update_drule (druleid result) (Some (error e)) (now result)])
    | None =>
        (drule_errors,
         calls ++ [zbx_discovery_update_drule (druleid result) None (now result)])
    end
  else
    match dnsname result with
    | None => (drule_errors, calls)
    | Some dns =>
        let '(host_status, service_calls) :=
          process_services dhostid_after (druleid result) (ip result) dns (now result)
            (unique_dcheckid result) (services result) in
        (drule_errors,
         calls ++ service_calls
           ++ [zbx_discovery_update_host (druleid result) (ip result) dns host_status
                 (now result)]
           ++ (if has_process_events_cb events_cbs then [process_events_cb] else [])
           ++ (if has_clean_events_cb events_cbs then [clean_events_cb] else []))
    end.

(** process_results, with the visiting order of the iterator given. *)
Definition process_results_in_order (entries : list zbx_discoverer_results_t)
    (results : results_hashset) (check_counts : check_counts_hashset)
    (del_druleids : list Z) (drule_errors : list zbx_discoverer_drule_error_t)
    (events_cbs : zbx_events_funcs_t) : process_results_out :=
  let st := process_results_scan del_druleids results
              (process_results_incompletecheckscount_remove check_counts del_druleids)
              entries in
  let cleaned :=
    process_results_incompleteresult_remove (sc_results st) (sc_check_counts st)
      drule_errors in
  let emitted :=
    match sc_vector st with
    | [] => (drule_errors, [])
    | _ =>
        let e := fold_left (process_results_emit events_cbs) (sc_vector st)
                   (drule_errors, [zbx_discovery_open]) in
        (e.1, e.2 ++ [zbx_discovery_close])
    end in
  mk_process_results_out cleaned.1 cleaned.2 (sc_incomplete_druleids st)
    emitted.1 (u64 (res_check_total st - res_check_count st))
    (sc_vector st) emitted.2
    (if bool_decide (DISCOVERER_BATCH_RESULTS_NUM ≤ res_check_count st) then 1 else 0).

(** process_results on the manager state. *)
Definition process_results (results : results_hashset)
    (check_counts : check_counts_hashset) (del_druleids : list Z)
    (drule_errors : list zbx_discoverer_drule_error_t)
    (events_cbs : zbx_events_funcs_t) : process_results_out :=
  process_results_in_order (map_to_list results).*2 results check_counts
    del_druleids drule_errors events_cbs.
End ProcessResults.

(** discoverer_thread: the seconds to sleep after a cycle, from the value
    process_results returned; [calculated] is what
    zbx_calculate_sleeptime(nextcheck, DISCOVERER_DELAY) gives. *)
Definition discoverer_thread_sleeptime (more_results calculated : Z) : Z :=
  if decide (0 ≠ more_results) then 0 else calculated.

(** ** Checks, tasks and the collaborators of the workers *)

(** The service types named in discover_service and dcheck_is_async. *)
Inductive svc_type :=
  | SVC_SSH | SVC_LDAP | SVC_SMTP | SVC_FTP | SVC_HTTP | SVC_POP | SVC_NNTP
  | SVC_IMAP | SVC_TCP | SVC_AGENT | SVC_SNMPv1 | SVC_SNMPv2c | SVC_ICMPPING
  | SVC_SNMPv3 | SVC_HTTPS | SVC_TELNET.

#[global] Instance svc_type_eq_dec : EqDecision svc_type.
Proof. solve_decision. Defined.

(** zbx_dc_dcheck_t, the fields read in discoverer.c *)
Record zbx_dc_dcheck_t := mk_dcheck {
  dc_dcheckid : Z;
  dc_druleid : Z;
  dc_type : svc_type;
  dc_uniq : Z;
  dc_timeout : Z
}.

(** zbx_iprange_t is handled by the ip range library only; a range is
    represented by its textual expression. *)
Definition zbx_iprange_t := string.

(** zbx_discoverer_task_t, the fields read in discoverer.c.
    [state_ip] is the text zbx_iprange_ip2str produces for
    range.state.index_ip and range.state.ipaddress. *)
Record zbx_discoverer_task_t := mk_task {
  dchecks : list zbx_dc_dcheck_t;
  task_unique_dcheckid : Z;
  ipranges : list zbx_iprange_t;
  index_dcheck : nat;
  state_ip : string;
  state_port : Z;
  checks_per_ip : Z
}.

(** Functions of other compilation units that the worker side relies on. *)
Class TaskCollaborators := {
  (** the addresses zbx_iprange_uniq_next writes to [ip], starting from
      the empty string, up to the call that returns FAIL *)
  zbx_iprange_uniq_ips : list zbx_iprange_t → list string;
  discoverer_task_check_count_get : zbx_discoverer_task_t → Z
}.

(** task->dchecks.values[0]->druleid; every task carries at least one check. *)
Definition task_druleid (task : zbx_discoverer_task_t) : Z :=
  match dchecks task with
  | dcheck :: _ => dc_druleid dcheck
  | [] => 0
  end.

(** dcheck_is_async: [true] is SUCCEED. *)
Definition dcheck_is_async (dcheck : zbx_dc_dcheck_t) : bool :=
  match dc_type dcheck with
  | SVC_AGENT | SVC_ICMPPING | SVC_SNMPv1 | SVC_SNMPv2c | SVC_SNMPv3 | SVC_TCP
  | SVC_SMTP | SVC_FTP | SVC_POP | SVC_NNTP | SVC_IMAP | SVC_HTTP | SVC_HTTPS
  | SVC_SSH | SVC_TELNET => true
  | _ => false
  end.

(** discover_service: [agent_check_up] tells whether zbx_execute_agent_check
    succeeded with a non-zero unsigned result. *)
Definition discover_service (dcheck : zbx_dc_dcheck_t) (agent_check_up : bool) : bool :=
  match dc_type dcheck with
  | SVC_LDAP | SVC_HTTPS => agent_check_up
  | _ => false
  end.

(** result_dservice_create; the port is an unsigned short. The C function
    leaves [status] unset, every caller assigns it right after. *)
Definition result_dservice_create (port' dcheckid' : Z) : zbx_discoverer_dservice_t :=
  mk_dservice dcheckid' (port' mod 2 ^ 16) 0 EmptyString.

Definition dservice_set_status (service : zbx_discoverer_dservice_t) (status' : Z)
    : zbx_discoverer_dservice_t :=
  mk_dservice (dcheckid service) (port service) status' (value service).

(** ** The result cache *)

(** discover_results_host_reg: the entry is created only when the key is
    absent; [time_now] is the reading of time(NULL). *)
Definition discover_results_host_reg (hr_dst : results_hashset)
    (druleid' unique_dcheckid' : Z) (ip' : string) (time_now : Z) : results_hashset :=
  match hr_dst !! (druleid', ip') with
  | Some _ => hr_dst
  | None =>
      <[(druleid', ip') :=
          mk_results druleid' ip' (Some EmptyString) time_now unique_dcheckid' 0 []]>
        hr_dst
  end.

(** discover_results_move_value. An entry of the cache always has a
    dnsname (both functions that insert set one). *)
Definition discover_results_move_value (src : zbx_discoverer_results_t)
    (hr_dst : results_hashset) : results_hashset :=
  let src_dnsname := default EmptyString (dnsname src) in
  match hr_dst !! result_key src with
  | None =>
      <[result_key src :=
          mk_results (druleid src) (ip src) (Some src_dnsname) (now src)
            (unique_dcheckid src) (processed_checks_per_ip src) (services src)]> hr_dst
  | Some dst =>
      let dnsname' :=
        if bool_decide (dnsname dst = Some EmptyString)
           && negb (bool_decide (src_dnsname = EmptyString))
        then Some src_dnsname else dnsname dst in
      <[result_key src :=
          mk_results (druleid dst) (ip dst) dnsname' (now dst) (unique_dcheckid dst)
            (processed_checks_per_ip dst) (services dst ++ services src)]> hr_dst
  end.

(** zbx_vector_discoverer_results_ptr_bsearch with
    discoverer_results_ptr_compare on a vector sorted by (druleid, ip). *)
Definition results_ptr_bsearch (vr : list zbx_discoverer_results_t) (key : hkey)
    : option (nat * zbx_discoverer_results_t) :=
  list_find (λ r, result_key r = key) vr.

Section ResultCache.
Context `{Constants} `{TaskCollaborators}.

(** State shared by both merges: manager->incomplete_checks_count, the
    destination hash set and the worker's source vector. *)
Definition merge_state : Type :=
  check_counts_hashset * results_hashset * list zbx_discoverer_results_t.

(** Body of the loop of discover_results_partrange_merge for one element. *)
Definition partrange_merge_step (task : zbx_discoverer_task_t) (force : Z)
    (src : zbx_discoverer_results_t) (st : merge_state) : merge_state :=
  let '(check_counts, hr_dst, vr_src) := st in
  if bool_decide (0 = force)
     && negb (bool_decide (processed_checks_per_ip src = checks_per_ip task))
  then (check_counts, hr_dst, src :: vr_src)
  else
    match discoverer_check_count_decrease check_counts (task_druleid task) (ip src)
            (processed_checks_per_ip src) with
    | None => (check_counts, hr_dst, src :: vr_src)
    | Some (check_counts', _) =>
        (check_counts', discover_results_move_value src hr_dst, vr_src)
    end.

(** discover_results_partrange_merge: the vector is walked from its last
    element to its first, merged elements are removed from it. *)
Definition discover_results_partrange_merge (check_counts : check_counts_hashset)
    (hr_dst : results_hashset) (vr_src : list zbx_discoverer_results_t)
    (task : zbx_discoverer_task_t) (force : Z) : merge_state :=
  foldr (partrange_merge_step task force) (check_counts, hr_dst, []) vr_src.

(** Body of the loop of discover_results_merge for one address. *)
Definition results_merge_step (task : zbx_discoverer_task_t) (time_now : Z)
    (st : merge_state) (ip' : string) : merge_state :=
  let '(check_counts, hr_dst, vr_src) := st in
  match discoverer_check_count_decrease check_counts (task_druleid task) ip'
          (discoverer_task_check_count_get task) with
  | None => st
  | Some (check_counts', check_count_rest) =>
      match results_ptr_bsearch vr_src (task_druleid task, ip') with
      | None =>
          (check_counts',
           if decide (0 = check_count_rest)
           then discover_results_host_reg hr_dst (task_druleid task)
                  (task_unique_dcheckid task) ip' time_now
           else hr_dst,
           vr_src)
      | Some (i, src) =>
          (check_counts', discover_results_move_value src hr_dst, delete i vr_src)
      end
  end.

(** discover_results_merge *)
Definition discover_results_merge (check_counts : check_counts_hashset)
    (hr_dst : results_hashset) (vr_src : list zbx_discoverer_results_t)
    (task : zbx_discoverer_task_t) (time_now : Z) : merge_state :=
  fold_left (results_merge_step task time_now)
    (zbx_iprange_uniq_ips (ipranges task)) (check_counts, hr_dst, vr_src).

(** What a run of discoverer_net_check_common leaves behind. *)
Record net_check_out := mk_net_check_out {
  nc_ret : bool;                                  (* SUCCEED is true *)
  nc_check_counts : check_counts_hashset;
  nc_results : results_hashset;
  nc_freed : list zbx_discoverer_dservice_t       (* passed to service_free *)
}.

(** discoverer_net_check_common. [agent_check_up] is the outcome of the
    probe, [dns] what zbx_gethost_by_ip wrote. The function has no error
    output: its only result is the return code, always SUCCEED. An
    [index_dcheck] outside the task's checks does not occur. *)
Definition discoverer_net_check_common (check_counts : check_counts_hashset)
    (results : results_hashset) (druleid' : Z) (task : zbx_discoverer_task_t)
    (agent_check_up : bool) (dns : string) (time_now : Z) : net_check_out :=
  match dchecks task !! index_dcheck task with
  | None => mk_net_check_out true check_counts results []
  | Some dcheck =>
      let ip' := state_ip task in
      if negb (discover_service dcheck agent_check_up)
      then mk_net_check_out true check_counts results []
      else
        let service :=
          dservice_set_status (result_dservice_create (state_port task) (dc_dcheckid dcheck))
            DOBJECT_STATUS_UP in
        match discoverer_check_count_decrease check_counts druleid' ip' 1 with
        | Some (check_counts', _) =>
            let results' :=
              discover_results_host_reg results druleid' (task_unique_dcheckid task) ip'
                time_now in
            let results'' :=
              match results' !! (druleid', ip') with
              | Some result =>
                  let dnsname' :=
                    match dnsname result with
                    | None => Some dns
                    | Some d =>
                        if bool_decide (d = EmptyString)
                           && negb (bool_decide (dns = EmptyString))
                        then Some dns else Some d
                    end in
                  <[(druleid', ip') :=
                      mk_results (druleid result) (ip result) dnsname' (now result)
                        (unique_dcheckid result) (processed_checks_per_ip result)
                        (services result ++ [service])]> results'
              | None => results'
              end in
            mk_net_check_out true check_counts' results'' []
        | None => mk_net_check_out true check_counts results [service]
        end
  end.
End ResultCache.

(** ** The rule scheduler: process_discovery *)

(** zbx_dc_drule_t, the fields read in process_discovery *)
Record zbx_dc_drule_t := mk_drule {
  dr_druleid : Z;
  delay_str : string;
  dr_dchecks : list zbx_dc_dcheck_t;
  dr_unique_dcheckid : Z;
  dr_revision : Z
}.

Inductive discoverer_job_status :=
  | DISCOVERER_JOB_STATUS_QUEUED
  | DISCOVERER_JOB_STATUS_WAITING
  | DISCOVERER_JOB_STATUS_REMOVING.

#[global] Instance discoverer_job_status_eq_dec : EqDecision discoverer_job_status.
Proof. solve_decision. Defined.

(** zbx_discoverer_job_t *)
Record zbx_discoverer_job_t := mk_job {
  job_druleid : Z;
  drule_revision : Z;
  workers_used : Z;
  workers_max : Z;
  job_status : discoverer_job_status;
  tasks : list zbx_discoverer_task_t
}.

Inductive item_type := ITEM_TYPE_ZABBIX | ITEM_TYPE_SNMP | ITEM_TYPE_SIMPLE.

(** What process_rule hands back through its output parameters. *)
Record process_rule_out := mk_process_rule_out {
  pro_queue_capacity : Z;
  pro_tasks : list zbx_discoverer_task_t;
  pro_check_counts : list (hkey * Z);
  pro_dchecks_common : list zbx_dc_dcheck_t;
  pro_ipranges : list zbx_iprange_t
}.

(** Functions of other compilation units called by process_discovery. *)
Class SchedulerCollaborators := {
  zbx_substitute_simple_macros : string → string;
  (** [Some delay] is SUCCEED *)
  zbx_is_time_suffix : string → option Z;
  (** [inl timeout_sec] is SUCCEED, [inr error_val] is FAIL *)
  dcheck_get_timeout : item_type → Z + string;
  process_rule : zbx_dc_drule_t → Z → process_rule_out;
  discoverer_queue_append_error :
    list zbx_discoverer_drule_error_t → Z → string → list zbx_discoverer_drule_error_t;
  discoverer_job_create :
    zbx_dc_drule_t → list zbx_dc_dcheck_t → list zbx_iprange_t → zbx_discoverer_job_t;
  (** 0 != (zbx_get_program_type_cb() & ZBX_PROGRAM_TYPE_SERVER) *)
  program_type_server : bool
}.

(** Calls process_discovery makes besides building jobs. *)
Inductive scheduler_call :=
  | discoverer_task_clear (task : zbx_discoverer_task_t)
  | discovery_clean_services (druleid' : Z)
  | zbx_dc_drule_queue (now' druleid' delay : Z).

(** The locals of process_discovery that live across loop iterations,
    and its output parameters. *)
Record pd_state := mk_pd {
  pd_delay : Z;
  pd_tmt_simple : Z;
  pd_tmt_agent : Z;
  pd_tmt_snmp : Z;
  pd_queue_checks_count : Z;
  pd_rule_count : Z;
  pd_jobs : list zbx_discoverer_job_t;
  pd_check_counts : check_counts_hashset;
  pd_drule_errors : list zbx_discoverer_drule_error_t;
  pd_err_druleids : list Z;
  pd_calls : list scheduler_call
}.

(** What one loop iteration reads from its surroundings: time(NULL), the
    pending checks of the queue and the rules that have a job in
    dmanager.job_refs. *)
Record pd_env := mk_pd_env {
  env_now : Z;
  env_pending_checks_count : Z;
  env_job_refs : list Z
}.

(** zbx_hashset_insert keeps the entry that is already stored under the key. *)
Definition zbx_hashset_insert {V} (h : gmap hkey V) (k : hkey) (v : V) : gmap hkey V :=
  match h !! k with
  | Some _ => h
  | None => <[k := v]> h
  end.

Section ProcessDiscovery.
Context `{Constants} `{SchedulerCollaborators}.

Definition pd_set_delay (st : pd_state) (delay : Z) : pd_state :=
  mk_pd delay (pd_tmt_simple st) (pd_tmt_agent st) (pd_tmt_snmp st)
    (pd_queue_checks_count st) (pd_rule_count st) (pd_jobs st) (pd_check_counts st)
    (pd_drule_errors st) (pd_err_druleids st) (pd_calls st).

Definition pd_set_timeouts (st : pd_state) (tmt_simple tmt_agent tmt_snmp : Z) : pd_state :=
  mk_pd (pd_delay st) tmt_simple tmt_agent tmt_snmp
    (pd_queue_checks_count st) (pd_rule_count st) (pd_jobs st) (pd_check_counts st)
    (pd_drule_errors st) (pd_err_druleids st) (pd_calls st).

(** discoverer_queue_append_error followed by the append to err_druleids *)
Definition pd_rule_error (st : pd_state) (druleid' : Z) (text : string) : pd_state :=
  mk_pd (pd_delay st) (pd_tmt_simple st) (pd_tmt_agent st) (pd_tmt_snmp st)
    (pd_queue_checks_count st) (pd_rule_count st) (pd_jobs st) (pd_check_counts st)
    (discoverer_queue_append_error (pd_drule_errors st) druleid' text)
    (pd_err_druleids st ++ [druleid']) (pd_calls st).

Definition pd_call (st : pd_state) (calls : list scheduler_call) : pd_state :=
  mk_pd (pd_delay st) (pd_tmt_simple st) (pd_tmt_agent st) (pd_tmt_snmp st)
    (pd_queue_checks_count st) (pd_rule_count st) (pd_jobs st) (pd_check_counts st)
    (pd_drule_errors st) (pd_err_druleids st) (pd_calls st ++ calls).

Definition dcheck_set_timeout (dcheck : zbx_dc_dcheck_t) (timeout : Z) : zbx_dc_dcheck_t :=
  mk_dcheck (dc_dcheckid dcheck) (dc_druleid dcheck) (dc_type dcheck) (dc_uniq dcheck) timeout.

Definition invalid_update_interval (drule_delay_str delay_str' : string) : string :=
  zbx_snprintf MAX_STRING_LEN
    ("discovery rule " +:+ dquote +:+ drule_delay_str +:+ dquote
       +:+ ": invalid update interval " +:+ dquote +:+ delay_str' +:+ dquote).

(** Which global timeout a check uses: the three branches on dcheck->type. *)
Definition dcheck_item_type (dcheck : zbx_dc_dcheck_t) : item_type :=
  match dc_type dcheck with
  | SVC_AGENT => ITEM_TYPE_ZABBIX
  | SVC_SNMPv1 | SVC_SNMPv2c | SVC_SNMPv3 => ITEM_TYPE_SNMP
  | _ => ITEM_TYPE_SIMPLE
  end.

Definition invalid_global_timeout (type : item_type) (err : string) : string :=
  zbx_snprintf MAX_STRING_LEN
    (match type with
     | ITEM_TYPE_ZABBIX => "invalid global timeout for Zabbix Agent checks:"
     | ITEM_TYPE_SNMP => "invalid global timeout for SNMP checks:"
     | ITEM_TYPE_SIMPLE => "invalid global timeout for simple checks:"
     end +:+ dquote +:+ err +:+ dquote).

(** tmt_simple, tmt_agent, tmt_snmp *)
Definition timeouts : Type := Z * Z * Z.

Definition timeout_get (tmts : timeouts) (type : item_type) : Z :=
  let '(tmt_simple, tmt_agent, tmt_snmp) := tmts in
  match type with
  | ITEM_TYPE_ZABBIX => tmt_agent
  | ITEM_TYPE_SNMP => tmt_snmp
  | ITEM_TYPE_SIMPLE => tmt_simple
  end.

Definition timeout_set (tmts : timeouts) (type : item_type) (v : Z) : timeouts :=
  let '(tmt_simple, tmt_agent, tmt_snmp) := tmts in
  match type with
  | ITEM_TYPE_ZABBIX => (tmt_simple, v, tmt_snmp)
  | ITEM_TYPE_SNMP => (tmt_simple, tmt_agent, v)
  | ITEM_TYPE_SIMPLE => (v, tmt_agent, tmt_snmp)
  end.

(** The loop over drule->dchecks. [inl] carries the timeouts, the checks
    with their timeout assigned and drule->unique_dcheckid; [inr] the
    timeouts and the error text. The timeout is fetched only while the
    cached one is 0; the loop stops at the first check flagged uniq. *)
Fixpoint resolve_timeouts (dchecks' : list zbx_dc_dcheck_t) (tmts : timeouts)
    (unique : Z) : (timeouts * list zbx_dc_dcheck_t * Z) + (timeouts * string) :=
  match dchecks' with
  | [] => inl (tmts, [], unique)
  | dcheck :: rest =>
      let type := dcheck_item_type dcheck in
      match (if decide (0 = timeout_get tmts type) then dcheck_get_timeout type
             else inl (timeout_get tmts type)) with
      | inr err => inr (tmts, invalid_global_timeout type err)
      | inl tmt =>
          let tmts' := timeout_set tmts type tmt in
          let dcheck' := dcheck_set_timeout dcheck tmt in
          if decide (0 = dc_uniq dcheck) then
            match resolve_timeouts rest tmts' unique with
            | inl (tmts'', rest', unique') => inl (tmts'', dcheck' :: rest', unique')
            | inr e => inr e
            end
          else inl (tmts', dcheck' :: rest, dc_dcheckid dcheck)
      end
  end.

Definition queue_full_text : string :=
  "discoverer queue is full, skipping discovery rule".

(** The part of one loop iteration that lies before the label [next]. *)
Definition process_discovery_rule (incomplete_druleids : gset Z) (env : pd_env)
    (st : pd_state) (drule : zbx_dc_drule_t) : pd_state :=
  let queue_capacity := u64 (DISCOVERER_QUEUE_MAX_SIZE - env_pending_checks_count env) in
  let queue_capacity_local := u64 (queue_capacity - pd_queue_checks_count st) in
  if bool_decide (dr_druleid drule ∈ env_job_refs env)
     || bool_decide (dr_druleid drule ∈ incomplete_druleids)
  then st
  else
    let delay_str' := zbx_substitute_simple_macros (delay_str drule) in
    match zbx_is_time_suffix delay_str' with
    | None =>
        pd_set_delay
          (pd_rule_error st (dr_druleid drule)
             (invalid_update_interval (delay_str drule) delay_str'))
          ZBX_DEFAULT_INTERVAL
    | Some delay =>
        let st := pd_set_delay st delay in
        match resolve_timeouts (dr_dchecks drule)
                (pd_tmt_simple st, pd_tmt_agent st, pd_tmt_snmp st)
                (dr_unique_dcheckid drule) with
        | inr (tmts, text) =>
            pd_rule_error (pd_set_timeouts st tmts.1.1 tmts.1.2 tmts.2)
              (dr_druleid drule) text
        | inl (tmts, dchecks', unique) =>
            let st := pd_set_timeouts st tmts.1.1 tmts.1.2 tmts.2 in
            let drule' :=
              mk_drule (dr_druleid drule) (delay_str drule) dchecks' unique
                (dr_revision drule) in
            let out := process_rule drule' queue_capacity_local in
            if decide (0 = pro_queue_capacity out) then
              pd_call (pd_rule_error st (dr_druleid drule) queue_full_text)
                (discoverer_task_clear <$> pro_tasks out)
            else
              let job := discoverer_job_create drule' (pro_dchecks_common out)
                           (pro_ipranges out) in
              let job :=
                mk_job (job_druleid job) (drule_revision job) (workers_used job)
                  (workers_max job) (job_status job) (tasks job ++ pro_tasks out) in
              mk_pd (pd_delay st) (pd_tmt_simple st) (pd_tmt_agent st) (pd_tmt_snmp st)
                (u64 (queue_capacity - pro_queue_capacity out))
                (pd_rule_count st + 1) (pd_jobs st ++ [job])
                (fold_left (λ h kv, zbx_hashset_insert h kv.1 kv.2)
                   (pro_check_counts out) (pd_check_counts st))
                (pd_drule_errors st) (pd_err_druleids st) (pd_calls st)
        end
    end.

(** One loop iteration: the rule, then the code at the label [next]. *)
Definition process_discovery_step (incomplete_druleids : gset Z) (st : pd_state)
    (it : pd_env * zbx_dc_drule_t) : pd_state :=
  let '(env, drule) := it in
  let st' := process_discovery_rule incomplete_druleids env st drule in
  pd_call st'
    ((if program_type_server then [discovery_clean_services (dr_druleid drule)] else [])
       ++ [zbx_dc_drule_queue (env_now env) (dr_druleid drule) (pd_delay st')]).

(** process_discovery over the due rules delivered by zbx_dc_drules_get,
    each paired with what its iteration reads. [delay] has no initial
    value in the C code; [delay_indeterminate] stands for whatever the
    variable holds at entry. The loop is followed to its end (the
    process is not asked to stop); the next wake-up time, which
    zbx_dc_drules_get supplies, is left out. *)
Definition process_discovery (delay_indeterminate : Z) (incomplete_druleids : gset Z)
    (check_counts : check_counts_hashset)
    (drule_errors : list zbx_discoverer_drule_error_t) (err_druleids : list Z)
    (drules : list (pd_env * zbx_dc_drule_t)) : pd_state :=
  fold_left (process_discovery_step incomplete_druleids) drules
    (mk_pd delay_indeterminate 0 0 0 0 0 [] check_counts drule_errors err_druleids []).
End ProcessDiscovery.

(** ** The worker loop: discoverer_worker_entry *)

(** zbx_discoverer_queue_t. The queue holds pointers to jobs; a job is
    referred to by the druleid under which dmanager.job_refs keeps it. *)
Record zbx_discoverer_queue_t := mk_queue {
  queue_jobs : list Z;
  pending_checks_count : Z;
  snmpv3_allowed_workers : Z;
  queue_errors : list zbx_discoverer_drule_error_t
}.

(** zbx_discoverer_manager_t, the state shared by scheduler and workers. *)
Record zbx_discoverer_manager_t := mk_manager {
  m_queue : zbx_discoverer_queue_t;
  m_job_refs : gmap Z zbx_discoverer_job_t;
  m_results : results_hashset;
  m_incomplete_checks_count : check_counts_hashset
}.

Definition job_set_status (job : zbx_discoverer_job_t) (st : discoverer_job_status)
    : zbx_discoverer_job_t :=
  mk_job (job_druleid job) (drule_revision job) (workers_used job) (workers_max job)
    st (tasks job).

Definition job_set_workers_used (job : zbx_discoverer_job_t) (n : Z) : zbx_discoverer_job_t :=
  mk_job (job_druleid job) (drule_revision job) n (workers_max job)
    (job_status job) (tasks job).

Definition queue_set_pending (queue : zbx_discoverer_queue_t) (n : Z)
    : zbx_discoverer_queue_t :=
  mk_queue (queue_jobs queue) n (snmpv3_allowed_workers queue) (queue_errors queue).

(** Modelled from the spec: discoverer_queue_push is defined in
    discoverer_queue.c, which is not among the sources. It appends the job
    at the tail of the queue and sets its status to Queued. *)
Definition discoverer_queue_push (queue : zbx_discoverer_queue_t)
    (job : zbx_discoverer_job_t) : zbx_discoverer_queue_t * zbx_discoverer_job_t :=
  (mk_queue (queue_jobs queue ++ [job_druleid job]) (pending_checks_count queue)
     (snmpv3_allowed_workers queue) (queue_errors queue),
   job_set_status job DISCOVERER_JOB_STATUS_QUEUED).

(** Modelled from the spec: discoverer_queue_pop is defined in
    discoverer_queue.c, which is not among the sources. It returns and
    removes the job at the head of the queue; [None] when there is none. *)
Definition discoverer_queue_pop (queue : zbx_discoverer_queue_t)
    : option (Z * zbx_discoverer_queue_t) :=
  match queue_jobs queue with
  | [] => None
  | ref :: rest =>
      Some (ref, mk_queue rest (pending_checks_count queue)
                   (snmpv3_allowed_workers queue) (queue_errors queue))
  end.

(** Modelled from the spec: discoverer_task_pop is defined in
    discoverer_job.c, which is not among the sources. It pops the next task
    from the job and returns [None] when the job is drained. *)
Definition discoverer_task_pop (job : zbx_discoverer_job_t)
    : option (zbx_discoverer_task_t * zbx_discoverer_job_t) :=
  match tasks job with
  | [] => None
  | task :: rest =>
      Some (task, mk_job (job_druleid job) (drule_revision job) (workers_used job)
                    (workers_max job) (job_status job) rest)
  end.

(** discoverer_job_abort belongs to discoverer_job.c; it works on the job,
    on queue->pending_checks_count and on queue->errors. *)
Class WorkerCollaborators := {
  discoverer_job_abort :
    zbx_discoverer_job_t → Z → list zbx_discoverer_drule_error_t → string →
    zbx_discoverer_job_t * Z * list zbx_discoverer_drule_error_t
}.

(** What the worker does with a popped job, up to the unlock of the queue. *)
Record worker_take_out := mk_worker_take_out {
  wt_manager : zbx_discoverer_manager_t;
  (** the task to run with druleid and worker_max, if one was popped *)
  wt_task : option (zbx_discoverer_task_t * Z * Z);
  (** discoverer_queue_notify was called *)
  wt_notify : bool;
  (** the job passed to discoverer_job_remove *)
  wt_removed : option Z
}.

Section Worker.
Context `{Constants} `{TaskCollaborators} `{WorkerCollaborators}.

(** The statements between the successful discoverer_task_pop and the
    unlock: the pending checks are reduced, the job gets one more
    worker and is pushed back or set to Waiting. The result tells
    whether the queue was notified. *)
Definition worker_dispatch (queue : zbx_discoverer_queue_t) (job : zbx_discoverer_job_t)
    (task : zbx_discoverer_task_t)
    : zbx_discoverer_queue_t * zbx_discoverer_job_t * bool :=
  let async := match dchecks task with
               | dcheck :: _ => dcheck_is_async dcheck
               | [] => false
               end in
  let queue :=
    queue_set_pending queue
      (if async
       then u64 (pending_checks_count queue - discoverer_task_check_count_get task)
       else u64 (pending_checks_count queue - 1)) in
  let job := job_set_workers_used job (workers_used job + 1) in
  if bool_decide (0 = workers_max job)
     || negb (bool_decide (workers_used job = workers_max job))
  then
    let '(queue, job) := discoverer_queue_push queue job in
    (queue, job, true)
  else (queue, job_set_status job DISCOVERER_JOB_STATUS_WAITING, false).

(** discover_results_host_reg(&dmanager.results, job->druleid, 0, EmptyString)
    followed by discoverer_job_remove(job). *)
Definition worker_job_remove (m : zbx_discoverer_manager_t) (queue : zbx_discoverer_queue_t)
    (job : zbx_discoverer_job_t) (time_now : Z) : zbx_discoverer_manager_t :=
  mk_manager queue (delete (job_druleid job) (m_job_refs m))
    (discover_results_host_reg (m_results m) (job_druleid job) 0 EmptyString time_now)
    (m_incomplete_checks_count m).

(** The loop body from discoverer_queue_pop to the unlock of the queue.
    [None]: the queue is empty and the worker goes to wait. *)
Definition worker_take (m : zbx_discoverer_manager_t) (time_now : Z)
    : option worker_take_out :=
  match discoverer_queue_pop (m_queue m) with
  | None => None
  | Some (ref, queue) =>
      match m_job_refs m !! ref with
      | None => Some (mk_worker_take_out
                        (mk_manager queue (m_job_refs m) (m_results m)
                           (m_incomplete_checks_count m)) None false None)
      | Some job =>
          match discoverer_task_pop job with
          | None =>
              if decide (0 = workers_used job) then
                Some (mk_worker_take_out (worker_job_remove m queue job time_now)
                        None false (Some (job_druleid job)))
              else
                Some (mk_worker_take_out
                        (mk_manager queue
                           (<[ref := job_set_status job DISCOVERER_JOB_STATUS_REMOVING]>
                              (m_job_refs m))
                           (m_results m) (m_incomplete_checks_count m))
                        None false None)
          | Some (task, job) =>
              let '(queue, job, notify) := worker_dispatch queue job task in
              Some (mk_worker_take_out
                      (mk_manager queue (<[ref := job]> (m_job_refs m)) (m_results m)
                         (m_incomplete_checks_count m))
                      (Some (task, job_druleid job, workers_max job)) notify None)
          end
      end
  end.

(** The loop body after the checks of the task were processed, from the
    lock of the queue on. [dcheck_type] is the type of the task's first
    check, [error'] the error the net check left, if any. The result
    carries the job passed to discoverer_job_remove. *)
Definition worker_finish (m : zbx_discoverer_manager_t) (ref : Z) (dcheck_type : svc_type)
    (error' : option string) (time_now : Z) : zbx_discoverer_manager_t * option Z :=
  match m_job_refs m !! ref with
  | None => (m, None)
  | Some job =>
      let job := job_set_workers_used job (workers_used job - 1) in
      let '(job, pending, errors) :=
        match error' with
        | Some e => discoverer_job_abort job (pending_checks_count (m_queue m))
                      (queue_errors (m_queue m)) e
        | None => (job, pending_checks_count (m_queue m), queue_errors (m_queue m))
        end in
      let queue :=
        mk_queue (queue_jobs (m_queue m)) pending
          (if decide (dcheck_type = SVC_SNMPv3)
           then snmpv3_allowed_workers (m_queue m) + 1
           else snmpv3_allowed_workers (m_queue m))
          errors in
      if decide (job_status job = DISCOVERER_JOB_STATUS_WAITING) then
        let '(queue, job) :=
          discoverer_queue_push queue (job_set_status job DISCOVERER_JOB_STATUS_QUEUED) in
        (mk_manager queue (<[ref := job]> (m_job_refs m)) (m_results m)
           (m_incomplete_checks_count m), None)
      else if decide (job_status job = DISCOVERER_JOB_STATUS_REMOVING
                      ∧ 0 = workers_used job) then
        (worker_job_remove m queue job time_now, Some (job_druleid job))
      else
        (mk_manager queue (<[ref := job]> (m_job_refs m)) (m_results m)
           (m_incomplete_checks_count m), None)
  end.
End Worker.

(** ** Decidable equality of results, services and calls *)

#[global] Instance zbx_discoverer_dservice_eq_dec : EqDecision zbx_discoverer_dservice_t.
Proof. solve_decision. Defined.

#[global] Instance zbx_discoverer_results_eq_dec : EqDecision zbx_discoverer_results_t.
Proof. solve_decision. Defined.

#[global] Instance db_call_eq_dec : EqDecision db_call.
Proof. solve_decision. Defined.

(** ** The order of the result vectors *)

(** discoverer_result_compare: the rules are compared first, strcmp
    decides between results of one rule. *)
Definition discoverer_result_compare (r1 r2 : zbx_discoverer_results_t) : comparison :=
  match druleid r1 ?= druleid r2 with
  | Eq => String.compare (ip r1) (ip r2)
  | c => c
  end.

(** The order of a vector sorted with discoverer_results_ptr_compare. *)
Definition results_le (r1 r2 : zbx_discoverer_results_t) : Prop :=
  discoverer_result_compare r1 r2 ≠ Gt.

#[global] Instance results_le_dec r1 r2 : Decision (results_le r1 r2).
Proof. unfold results_le. apply _. Defined.

#[global] Instance item_type_eq_dec : EqDecision item_type.
Proof. solve_decision. Defined.

(** ** The scheduler loop and the stop of the process *)

Section ProcessDiscoveryLoop.
Context `{Constants} `{SchedulerCollaborators}.

(** The for loop of process_discovery with its test
    [ZBX_IS_RUNNING() && k < drules.values_num]: [running k] is what
    ZBX_IS_RUNNING() returns when it is read before iteration [k]. The
    loop ends at the first reading that is false, or after the last
    rule; a rule it does not reach gets no iteration at all, so the code
    at the label [next] is not run for it either. *)
Fixpoint process_discovery_loop (running : nat → bool) (incomplete_druleids : gset Z)
    (k : nat) (drules : list (pd_env * zbx_dc_drule_t)) (st : pd_state) : pd_state :=
  match drules with
  | [] => st
  | it :: rest =>
      if running k
      then process_discovery_loop running incomplete_druleids (S k) rest
             (process_discovery_step incomplete_druleids st it)
      else st
  end.

(** process_discovery in a process that may be asked to stop: the
    locals start as in [process_discovery], and the loop reads
    ZBX_IS_RUNNING() before every iteration. *)
Definition process_discovery_running (running : nat → bool) (delay_indeterminate : Z)
    (incomplete_druleids : gset Z) (check_counts : check_counts_hashset)
    (drule_errors : list zbx_discoverer_drule_error_t) (err_druleids : list Z)
    (drules : list (pd_env * zbx_dc_drule_t)) : pd_state :=
  process_discovery_loop running incomplete_druleids 0 drules
    (mk_pd delay_indeterminate 0 0 0 0 0 [] check_counts drule_errors err_druleids []).
End ProcessDiscoveryLoop.

(** ** The scheduler loop: discoverer_thread *)

(** discoverer_job_tasks_free belongs to discoverer_job.c: it frees the
    tasks of the job and returns the number of checks they stood for. *)
Class ThreadCollaborators := {
  discoverer_job_tasks_free : zbx_discoverer_job_t → zbx_discoverer_job_t * Z
}.

(** What the first critical section of a cycle hands on. *)
Record thread_revisions_out := mk_thread_revisions_out {
  tr_manager : zbx_discoverer_manager_t;
  tr_del_druleids : list Z;
  tr_drule_errors : list zbx_discoverer_drule_error_t;
  (** nextcheck was set to 0 *)
  tr_nextcheck_reset : bool;
  tr_processing_rules_num : nat;
  tr_queue_used : Z
}.

Section Thread.
Context `{Constants} `{ThreadCollaborators}.

(** The test on a job of dmanager.job_refs: its rule is missing from the
    revisions (zbx_vector_uint64_pair_bsearch fails) or has another
    revision than the job. *)
Definition revision_changed (revisions : list (Z * Z)) (job : zbx_discoverer_job_t)
    : bool :=
  match list_find (λ revision, revision.1 = job_druleid job) revisions with
  | None => true
  | Some (_, revision) => negb (bool_decide (revision.2 = drule_revision job))
  end.

(** Body of the loop over dmanager.job_refs; the state is del_druleids,
    queue.pending_checks_count and the jobs. *)
Definition thread_revisions_step (revisions : list (Z * Z))
    (st : list Z * Z * gmap Z zbx_discoverer_job_t) (it : Z * zbx_discoverer_job_t)
    : list Z * Z * gmap Z zbx_discoverer_job_t :=
  if revision_changed revisions it.2 then
    (st.1.1 ++ [job_druleid it.2],
     u64 (st.1.2 - (discoverer_job_tasks_free it.2).2),
     <[it.1 := (discoverer_job_tasks_free it.2).1]> st.2)
  else st.

(** discoverer_thread, from the top of the loop to the sort of
    del_druleids: [revisions] is [Some] when zbx_dc_drule_revisions_get
    reports an update. The errors the workers left in the queue are moved
    to drule_errors. *)
Definition discoverer_thread_revisions (m : zbx_discoverer_manager_t)
    (drule_errors : list zbx_discoverer_drule_error_t)
    (revisions : option (list (Z * Z))) : thread_revisions_out :=
  let st :=
    match revisions with
    | Some revisions' =>
        fold_left (thread_revisions_step revisions') (map_to_list (m_job_refs m))
          ([], pending_checks_count (m_queue m), m_job_refs m)
    | None => ([], pending_checks_count (m_queue m), m_job_refs m)
    end in
  mk_thread_revisions_out
    (mk_manager
       (mk_queue (queue_jobs (m_queue m)) st.1.2 (snmpv3_allowed_workers (m_queue m)) [])
       st.2 (m_results m) (m_incomplete_checks_count m))
    (merge_sort Z.le st.1.1)
    (drule_errors ++ queue_errors (m_queue m))
    (bool_decide (is_Some revisions))
    (size st.2)
    st.1.2.

(** Body of the loop over the new jobs: the job is pushed to the queue
    and appended to dmanager.job_refs. *)
Definition thread_commit_job (st : zbx_discoverer_queue_t * gmap Z zbx_discoverer_job_t)
    (job : zbx_discoverer_job_t) : zbx_discoverer_queue_t * gmap Z zbx_discoverer_job_t :=
  let pushed := discoverer_queue_push st.1 job in
  (pushed.1, <[job_druleid pushed.2 := pushed.2]> st.2).

(** discoverer_thread, after process_discovery returned: the rules with
    an error get their entry with the empty ip, and when rules were
    expanded their outstanding counts and jobs are handed to the workers.
    [pd] holds rule_count, jobs, check_counts and err_druleids as
    process_discovery left them. *)
Definition discoverer_thread_commit (m : zbx_discoverer_manager_t) (pd : pd_state)
    (time_now : Z) : zbx_discoverer_manager_t :=
  let results' :=
    if decide (length (pd_err_druleids pd) ≠ 0%nat) then
      fold_left (λ results druleid',
                   discover_results_host_reg results druleid' 0 EmptyString time_now)
        (pd_err_druleids pd) (m_results m)
    else m_results m in
  if decide (0 < pd_rule_count pd) then
    let counts := map_to_list (pd_check_counts pd) in
    let queued := fold_left (λ queued count, u64 (queued + count.2)) counts 0 in
    let incomplete_checks_count :=
      fold_left (λ h count, zbx_hashset_insert h count.1 count.2) counts
        (m_incomplete_checks_count m) in
    let queue :=
      queue_set_pending (m_queue m) (u64 (pending_checks_count (m_queue m) + queued)) in
    let st := fold_left thread_commit_job (pd_jobs pd) (queue, m_job_refs m) in
    mk_manager st.1 st.2 results' incomplete_checks_count
  else
    mk_manager (m_queue m) (m_job_refs m) results' (m_incomplete_checks_count m).
End Thread.

(** ** Port lists: dcheck_port_ranges_get *)

(** zbx_range_t *)
Record zbx_range_t := mk_range {
  range_from : Z;
  range_to : Z
}.

(** atoi belongs to the C library. *)
Class LibcCollaborators := {
  atoi : string → Z
}.

(** strchr(s, c) for a character c other than the terminator: the text
    before the first c and the text after it, [None] when c does not
    occur. *)
Fixpoint strchr (s : string) (c : Ascii.ascii) : option (string * string) :=
  match s with
  | EmptyString => None
  | String a rest =>
      if decide (a = c) then Some (EmptyString, rest)
      else match strchr rest c with
           | Some (before, after) => Some (String a before, after)
           | None => None
           end
  end.

Section PortRanges.
Context `{LibcCollaborators}.

(** The range read from one piece of the list, the text between two
    commas: with a dash in it, the numbers before and after the first
    dash. *)
Definition port_range (piece : string) : zbx_range_t :=
  match strchr piece "-"%char with
  | Some (first_port, last_port) => mk_range (atoi first_port) (atoi last_port)
  | None => mk_range (atoi piece) (atoi piece)
  end.

(** The for loop; every turn moves [start] behind a comma, so the length
    of the text bounds the number of turns. *)
Fixpoint dcheck_port_ranges_loop (turns : nat) (start : string)
    (ranges : list zbx_range_t) : list zbx_range_t :=
  match turns with
  | O => ranges
  | S turns =>
      match start with
      | EmptyString => ranges
      | _ =>
          match strchr start ","%char with
          | Some (piece, rest) =>
              dcheck_port_ranges_loop turns rest (ranges ++ [port_range piece])
          | None => ranges ++ [port_range start]
          end
      end
  end.

(** dcheck_port_ranges_get appends to [ranges]. *)
Definition dcheck_port_ranges_get (ports : string) (ranges : list zbx_range_t)
    : list zbx_range_t :=
  dcheck_port_ranges_loop (S (String.length ports)) ports ranges.
End PortRanges.

(** ** Clean-up of hosts and services outside the range of a rule *)

Module CleanServices.

(** A row of the second select: dh.dhostid, ds.dserviceid and ds.ip. The
    join is a left join: a host without services gives one row whose
    dserviceid is NULL. *)
Record dhost_row := mk_row {
  row_dhostid : Z;
  row_dserviceid : option Z;
  row_ip : string
}.

(** The statements passed to zbx_db_execute, with the ids of their
    condition. *)
Inductive sql_call :=
  | delete_from_dservices (dserviceids : list Z)
  | delete_from_dhosts (dhostids : list Z).

(** zbx_ip_in_list belongs to the ip library; [true] is SUCCEED. *)
Class Collaborators := {
  zbx_ip_in_list : string → string → bool
}.

(** zbx_vector_uint64_sort with ZBX_DEFAULT_UINT64_COMPARE_FUNC *)
Definition zbx_vector_uint64_sort (values : list Z) : list Z := merge_sort Z.le values.

(** zbx_vector_uint64_uniq: of equal neighbours one is kept. *)
Fixpoint zbx_vector_uint64_uniq (values : list Z) : list Z :=
  match values with
  | x :: rest =>
      match rest with
      | y :: _ => if decide (x = y) then zbx_vector_uint64_uniq rest
                  else x :: zbx_vector_uint64_uniq rest
      | [] => [x]
      end
  | [] => []
  end.

(** zbx_vector_uint64_remove_noorder: the last value takes the place of
    the removed one. *)
Definition zbx_vector_uint64_remove_noorder (values : list Z) (index : nat) : list Z :=
  match last values with
  | Some x => take (length values - 1) (<[index := x]> values)
  | None => values
  end.

Section CleanServices.
Context `{Collaborators}.

(** Body of the loop over the rows; the state is keep_dhostids,
    del_dhostids and del_dserviceids. *)
Definition clean_rows_step (iprange : string) (st : list Z * list Z * list Z)
    (row : dhost_row) : list Z * list Z * list Z :=
  match row_dserviceid row with
  | None => (st.1.1, st.1.2 ++ [row_dhostid row], st.2)
  | Some dserviceid =>
      if negb (zbx_ip_in_list iprange (row_ip row))
      then (st.1.1, st.1.2 ++ [row_dhostid row], st.2 ++ [dserviceid])
      else (st.1.1 ++ [row_dhostid row], st.1.2, st.2)
  end.

(** The loop that takes the hosts to keep out of del_dhostids. A turn
    either removes a value or moves on, so the length of the vector
    bounds the number of turns. zbx_vector_uint64_bsearch finds a value
    of the sorted keep_dhostids exactly when it is in it. *)
Fixpoint clean_dhosts_loop (turns : nat) (keep_dhostids del_dhostids : list Z) (i : nat)
    : list Z :=
  match turns with
  | O => del_dhostids
  | S turns =>
      match del_dhostids !! i with
      | None => del_dhostids
      | Some dhostid =>
          if bool_decide (dhostid ∈ keep_dhostids)
          then clean_dhosts_loop turns keep_dhostids
                 (zbx_vector_uint64_remove_noorder del_dhostids i) i
          else clean_dhosts_loop turns keep_dhostids del_dhostids (S i)
      end
  end.

(** discovery_clean_services: [iprange] is the answer to the first
    select, [None] when the rule has no row; [rows] the answer to the
    second. The result lists the delete statements in the order they are
    executed. *)
Definition discovery_clean_services (iprange : option string) (rows : list dhost_row)
    : list sql_call :=
  match iprange with
  | None => []
  | Some iprange =>
      let st := fold_left (clean_rows_step iprange) rows ([], [], []) in
      let del_dserviceids := st.2 in
      let del_dhostids :=
        if decide (length del_dserviceids ≠ 0%nat) then
          let keep_dhostids := zbx_vector_uint64_uniq (zbx_vector_uint64_sort st.1.1) in
          let del_dhostids := zbx_vector_uint64_uniq (zbx_vector_uint64_sort st.1.2) in
          clean_dhosts_loop (length del_dhostids) keep_dhostids del_dhostids 0
        else st.1.2 in
      (if decide (length del_dserviceids ≠ 0%nat)
       then [delete_from_dservices (zbx_vector_uint64_sort del_dserviceids)] else [])
      ++ (if decide (length del_dhostids ≠ 0%nat)
          then [delete_from_dhosts (zbx_vector_uint64_sort del_dhostids)] else [])
  end.
End CleanServices.

End CleanServices.

(** ** The ICMP sweep: discover_icmp and discoverer_net_check_icmp *)

(** ZBX_FPING_HOST, the fields read in discoverer.c; [fping_dnsname] is a
    char pointer that may be NULL. *)
Record ZBX_FPING_HOST := mk_fping_host {
  fping_addr : string;
  fping_rcv : Z;
  fping_dnsname : option string
}.

Class IcmpCollaborators := {
  DISCOVERER_JOB_TASKS_INPROGRESS_MAX : Z;
  (** zbx_ping on the hosts of one batch for a check: [inl] is SUCCEED
      with the hosts as the call left them, [inr] the failure with its
      message *)
  zbx_ping : zbx_dc_dcheck_t → list ZBX_FPING_HOST → list ZBX_FPING_HOST + string
}.

(** zbx_vector_discoverer_results_ptr_sort with discoverer_results_ptr_compare *)
Definition zbx_vector_discoverer_results_ptr_sort
    (vr : list zbx_discoverer_results_t) : list zbx_discoverer_results_t :=
  merge_sort results_le vr.

(** zbx_vector_discoverer_results_ptr_nearestindex on a sorted vector that
    has no element equal to [r]: the position of the first element that
    is not before [r], the length of the vector when there is none. *)
Definition zbx_vector_discoverer_results_ptr_nearestindex
    (vr : list zbx_discoverer_results_t) (r : zbx_discoverer_results_t) : nat :=
  match list_find (λ x, results_le r x) vr with
  | Some (idx, _) => idx
  | None => length vr
  end.

(** zbx_vector_discoverer_results_ptr_insert *)
Definition zbx_vector_discoverer_results_ptr_insert
    (vr : list zbx_discoverer_results_t) (r : zbx_discoverer_results_t) (idx : nat)
    : list zbx_discoverer_results_t :=
  take idx vr ++ r :: drop idx vr.

(** discovery_result_create; ip is NULL until the caller sets it. *)
Definition discovery_result_create (druleid' unique_dcheckid' time_now : Z)
    : zbx_discoverer_results_t :=
  mk_results druleid' EmptyString None time_now unique_dcheckid' 0 [].

Definition result_set_ip (result : zbx_discoverer_results_t) (ip' : string)
    : zbx_discoverer_results_t :=
  mk_results (druleid result) ip' (dnsname result) (now result) (unique_dcheckid result)
    (processed_checks_per_ip result) (services result).

(** What one loop of the ICMP sweep hands to the next: ret (SUCCEED is
    [true]), the results vector, the text written to *error and the
    batches of addresses passed to zbx_ping so far. *)
Record discover_icmp_out := mk_discover_icmp_out {
  icmp_ret : bool;
  icmp_results : list zbx_discoverer_results_t;
  icmp_error : option string;
  icmp_pings : list (list string)
}.

(** What discoverer_net_check_icmp leaves behind: ret, *error, the
    manager's outstanding counts and cache after the merge, and the
    batches pinged for each check. *)
Record net_check_icmp_out := mk_net_check_icmp_out {
  nci_ret : bool;
  nci_error : option string;
  nci_check_counts : check_counts_hashset;
  nci_results : results_hashset;
  nci_pings : list (list (list string))
}.

Section Icmp.
Context `{Constants} `{TaskCollaborators} `{IcmpCollaborators}.

(** The end of the loop body of discovery_icmp_result_proc: the dnsname
    of the host is taken when the result has none, and a service with
    port 0 and status Up is appended. *)
Definition icmp_result_fill (dcheckid' : Z) (h : ZBX_FPING_HOST)
    (result : zbx_discoverer_results_t) : zbx_discoverer_results_t :=
  mk_results (druleid result) (ip result)
    (match dnsname result with
     | None => fping_dnsname h
     | Some d => Some d
     end)
    (now result) (unique_dcheckid result) (processed_checks_per_ip result)
    (services result
       ++ [dservice_set_status (result_dservice_create 0 dcheckid') DOBJECT_STATUS_UP]).

(** Body of the loop of discovery_icmp_result_proc for one host. *)
Definition icmp_result_step (druleid' : Z) (dcheck_idx : nat)
    (task : zbx_discoverer_task_t) (dcheckid' time_now : Z)
    (results : list zbx_discoverer_results_t) (h : ZBX_FPING_HOST)
    : list zbx_discoverer_results_t :=
  if decide (0 = fping_rcv h) then results
  else
    match (if decide (dcheck_idx = 0%nat) then None
           else results_ptr_bsearch results (druleid', fping_addr h)) with
    | None =>
        let result :=
          result_set_ip
            (discovery_result_create druleid' (task_unique_dcheckid task) time_now)
            (fping_addr h) in
        if decide (dcheck_idx ≠ 0%nat) then
          zbx_vector_discoverer_results_ptr_insert results
            (icmp_result_fill dcheckid' h result)
            (zbx_vector_discoverer_results_ptr_nearestindex results result)
        else results ++ [icmp_result_fill dcheckid' h result]
    | Some (idx, result) => <[idx := icmp_result_fill dcheckid' h result]> results
    end.

(** discovery_icmp_result_proc; [dcheck] is task->dchecks.values[dcheck_idx]. *)
Definition discovery_icmp_result_proc (druleid' : Z) (dcheck_idx : nat)
    (task : zbx_discoverer_task_t) (dcheck : zbx_dc_dcheck_t) (time_now : Z)
    (hosts : list ZBX_FPING_HOST) (results : list zbx_discoverer_results_t)
    : list zbx_discoverer_results_t :=
  let results :=
    fold_left (icmp_result_step druleid' dcheck_idx task (dc_dcheckid dcheck) time_now)
      hosts results in
  if decide (dcheck_idx = 0%nat) then zbx_vector_discoverer_results_ptr_sort results
  else results.

(** The while loop of discover_icmp over the addresses the range iterator
    yields. [stop n] is what the read number [n] of *stop finds, [reads]
    the number of reads made so far. The result holds the hosts not yet
    pinged, the results, the batches pinged, the number of reads and the
    error of the ping that failed. *)
Fixpoint discover_icmp_loop (druleid' : Z) (dcheck_idx : nat)
    (task : zbx_discoverer_task_t) (dcheck : zbx_dc_dcheck_t) (worker_max : Z)
    (stop : nat → bool) (time_now : Z) (ips : list string) (reads : nat)
    (hosts : list ZBX_FPING_HOST) (results : list zbx_discoverer_results_t)
    (pings : list (list string))
    : list ZBX_FPING_HOST * list zbx_discoverer_results_t * list (list string) * nat
      * option string :=
  if stop reads then (hosts, results, pings, S reads, None)
  else
    match ips with
    | [] => (hosts, results, pings, S reads, None)
    | ip' :: ips =>
        let hosts := hosts ++ [mk_fping_host ip' 0 None] in
        if bool_decide (worker_max > Z.of_nat (length hosts)) then
          discover_icmp_loop druleid' dcheck_idx task dcheck worker_max stop time_now
            ips (S reads) hosts results pings
        else
          match zbx_ping dcheck hosts with
          | inr err =>
              (hosts, results, pings ++ [fping_addr <$> hosts], S reads, Some err)
          | inl hosts' =>
              discover_icmp_loop druleid' dcheck_idx task dcheck worker_max stop time_now
                ips (S reads) []
                (discovery_icmp_result_proc druleid' dcheck_idx task dcheck time_now
                   hosts' results)
                (pings ++ [fping_addr <$> hosts])
          end
    end.

(** discover_icmp; [None] where the C code reads behind the end of
    task->dchecks. *)
Definition discover_icmp (druleid' : Z) (task : zbx_discoverer_task_t)
    (dcheck_idx : nat) (worker_max : Z) (results : list zbx_discoverer_results_t)
    (stop : nat → bool) (time_now : Z) : option discover_icmp_out :=
  match dchecks task !! dcheck_idx with
  | None => None
  | Some dcheck =>
      let worker_max :=
        if decide (0 = worker_max) then DISCOVERER_JOB_TASKS_INPROGRESS_MAX
        else worker_max in
      let '(hosts, results, pings, reads, error') :=
        discover_icmp_loop druleid' dcheck_idx task dcheck worker_max stop time_now
          (zbx_iprange_uniq_ips (ipranges task)) 0 [] results [] in
      match error' with
      | Some err => Some (mk_discover_icmp_out false results (Some err) pings)
      | None =>
          if negb (stop reads) && negb (bool_decide (length hosts = 0%nat)) then
            match zbx_ping dcheck hosts with
            | inr err =>
                Some (mk_discover_icmp_out false results (Some err)
                        (pings ++ [fping_addr <$> hosts]))
            | inl hosts' =>
                Some (mk_discover_icmp_out true
                        (discovery_icmp_result_proc druleid' dcheck_idx task dcheck
                           time_now hosts' results)
                        None (pings ++ [fping_addr <$> hosts]))
            end
          else Some (mk_discover_icmp_out true results None pings)
      end
  end.

(** Body of the loop of discoverer_net_check_icmp over the checks of the
    task; [stop i] are the reads of *stop during the call for check [i]. *)
Definition net_check_icmp_step (druleid' : Z) (task : zbx_discoverer_task_t)
    (worker_max : Z) (stop : nat → nat → bool) (time_now : Z)
    (st : discover_icmp_out * list (list (list string))) (i : nat)
    : discover_icmp_out * list (list (list string)) :=
  if icmp_ret st.1 then
    match discover_icmp druleid' task i worker_max (icmp_results st.1) (stop i)
            time_now with
    | Some out => (out, st.2 ++ [icmp_pings out])
    | None => st
    end
  else st.

(** discoverer_net_check_icmp: the sweep of every check of the task while
    ret is SUCCEED, then the merge of what was gathered. *)
Definition discoverer_net_check_icmp (check_counts : check_counts_hashset)
    (results : results_hashset) (druleid' : Z) (task : zbx_discoverer_task_t)
    (worker_max : Z) (stop : nat → nat → bool) (time_now : Z) : net_check_icmp_out :=
  let st :=
    fold_left (net_check_icmp_step druleid' task worker_max stop time_now)
      (seq 0 (length (dchecks task))) (mk_discover_icmp_out true [] None [], []) in
  let merged :=
    discover_results_merge check_counts results (icmp_results st.1) task time_now in
  mk_net_check_icmp_out (icmp_ret st.1) (icmp_error st.1) merged.1.1 merged.1.2 st.2.
End Icmp.

(** * The vocabulary of the statements *)

(** [sub] occurs in [s]. *)
Definition contains (s sub : string) : Prop :=
  ∃ before after, s = before +:+ sub +:+ after.

(** No decrease is possible on a key that is missing or holds 0. *)
Definition no_outstanding (check_counts : check_counts_hashset) (key : hkey) : Prop :=
  check_counts !! key = None ∨ check_counts !! key = Some 0.

Section Vocabulary.
Context `{Constants} `{TaskCollaborators} `{WorkerCollaborators}.

(** The status process_services computes agrees with the services:
    Up exactly when one of several services is Up, Down for none. *)
Definition status_of_services (host_status : Z)
    (services' : list zbx_discoverer_dservice_t) : Prop :=
  (services' ≠ [] →
     host_status = DOBJECT_STATUS_UP ↔
     ∃ s, s ∈ services' ∧ status s = DOBJECT_STATUS_UP)
  ∧ (services' = [] → host_status = DOBJECT_STATUS_DOWN).

(** The number of services a list of results carries, counted the way
    res_check_count is: in zbx_uint64_t. *)
Definition checks_sum (vector : list zbx_discoverer_results_t) : Z :=
  fold_left (λ acc r, u64 (acc + Z.of_nat (length (services r)))) vector 0.

(** What the scan maintains, whatever the order of the visit. *)
Record scan_invariant (del_druleids : list Z) (check_counts : check_counts_hashset)
    (visited : list zbx_discoverer_results_t) (st : scan_state) : Prop := {
  inv_count : res_check_count st = checks_sum (sc_vector st);
  inv_counts_sub : sc_check_counts st ⊆ check_counts;
  inv_prefix : ∀ before r after,
    sc_vector st = before ++ r :: after →
    checks_sum before < DISCOVERER_BATCH_RESULTS_NUM;
  inv_visited : ∀ r, r ∈ visited →
    druleid r ∈ del_druleids
    ∨ r ∈ sc_vector st
    ∨ druleid r ∈ sc_incomplete_druleids st
      ∧ (DISCOVERER_BATCH_RESULTS_NUM ≤ res_check_count st
         ∨ ∃ c, sc_check_counts st !! check_count_key (druleid r) (ip r) = Some c
                ∧ c ≠ 0)
}.

(** The condition under which discover_results_partrange_merge moves a
    partial into the cache, given the outstanding counts it meets. *)
Definition partrange_merges (task : zbx_discoverer_task_t) (force : Z)
    (check_counts : check_counts_hashset) (src : zbx_discoverer_results_t) : Prop :=
  (force ≠ 0 ∨ processed_checks_per_ip src = checks_per_ip task)
  ∧ ∃ c, check_counts !! check_count_key (task_druleid task) (ip src) = Some c ∧ c ≠ 0.

(** The state of the queue and of the jobs between two critical sections
    of the workers: no job is queued twice, a queued job is marked Queued
    and has room for one more worker, and no job exceeds its cap. *)
Record worker_invariant (m : zbx_discoverer_manager_t) : Prop := {
  winv_nodup : NoDup (queue_jobs (m_queue m));
  winv_key : ∀ ref job, m_job_refs m !! ref = Some job → job_druleid job = ref;
  winv_cap : ∀ ref job, m_job_refs m !! ref = Some job →
    workers_max job = 0 ∨ workers_used job ≤ workers_max job;
  winv_queued : ∀ ref job, m_job_refs m !! ref = Some job →
    ref ∈ queue_jobs (m_queue m) →
    job_status job = DISCOVERER_JOB_STATUS_QUEUED
    ∧ (workers_max job = 0 ∨ workers_used job < workers_max job)
}.

(** What the invariant needs from discoverer_job_abort: it leaves the
    identity, the worker counters and the status of the job alone. *)
Definition abort_keeps_job : Prop :=
  ∀ job pending errors e,
    let job' := (discoverer_job_abort job pending errors e).1.1 in
    job_druleid job' = job_druleid job
    ∧ workers_used job' = workers_used job
    ∧ workers_max job' = workers_max job
    ∧ job_status job' = job_status job.
End Vocabulary.

(** Proof steps that recur. *)

Ltac scan_simpl :=
  cbn [res_check_count sc_vector sc_check_counts sc_incomplete_druleids sc_results].

Ltac winv_job :=
  cbn [job_set_status job_set_workers_used discoverer_queue_push fst snd
       workers_max workers_used job_status job_druleid] in *;
  first [done | lia | by eauto | split; [done|lia] | idtac].

Ltac winv_lookup Hj :=
  let r := fresh "r" in let j := fresh "j" in
  intros r j Hj;
  let Hne := fresh "Hne" in
  first [apply lookup_delete_Some in Hj as [Hne Hj]
        |apply lookup_insert_Some in Hj as [[<- <-]|[Hne Hj]]].

(** Every entry of the cache is stored under its own (druleid, ip). *)
Definition well_keyed (results : results_hashset) : Prop :=
  ∀ k r, results !! k = Some r → result_key r = k.

(** The number of services a list of results carries, as an integer. *)
Definition services_num (l : list zbx_discoverer_results_t) : Z :=
  foldr (λ r acc, Z.of_nat (length (services r)) + acc) 0 l.

(** The rule updates among the calls: rule and time. *)
Definition drule_updates (calls : list db_call) : list (Z * Z) :=
  omap (λ c, match c with
             | zbx_discovery_update_drule d _ t => Some (d, t)
             | _ => None
             end) calls.

(** The host updates among the calls: rule, address, dnsname, time. *)
Definition host_updates (calls : list db_call) : list (Z * string * string * Z) :=
  omap (λ c, match c with
             | zbx_discovery_update_host d i n _ t => Some (d, i, n, t)
             | _ => None
             end) calls.

(** The calls that open or close the persistence session. *)
Definition session_call (c : db_call) : Prop :=
  c = zbx_discovery_open ∨ c = zbx_discovery_close.

Section DrainVocabulary.
Context `{Constants}.

(** What the scan does to the cache when the iterator hands out every
    entry once: an entry is dropped for a deleted rule, moved to the local
    vector, or left where it is. *)
Record cache_invariant (del_druleids : list Z) (results : results_hashset)
    (visited : list zbx_discoverer_results_t) (st : scan_state) : Prop := {
  cinv_vector : ∀ r, r ∈ sc_vector st → r ∈ visited ∧ druleid r ∉ del_druleids;
  cinv_nodup : NoDup (sc_vector st);
  cinv_sub : sc_results st ⊆ results;
  cinv_gone : ∀ r, r ∈ visited → druleid r ∈ del_druleids ∨ r ∈ sc_vector st →
    sc_results st !! result_key r = None;
  cinv_kept : ∀ k r, results !! k = Some r →
    sc_results st !! k = Some r
    ∨ (r ∈ visited ∧ (druleid r ∈ del_druleids ∨ r ∈ sc_vector st))
}.

(** What the scan counts: res_check_total over the entries of rules that
    are not deleted, and the rules of the entries it leaves behind. *)
Record leftover_invariant (del_druleids : list Z)
    (visited : list zbx_discoverer_results_t) (st : scan_state) : Prop := {
  linv_vector : ∀ r, r ∈ sc_vector st → r ∈ visited;
  linv_total :
    res_check_total st
    = u64 (services_num (filter (λ r, druleid r ∉ del_druleids) visited));
  linv_rest :
    services_num (filter (λ r, druleid r ∉ del_druleids) visited)
    = services_num (sc_vector st)
      + services_num
          (filter (λ r, (druleid r ∉ del_druleids) ∧ (r ∉ sc_vector st)) visited);
  linv_incomplete : ∀ d, d ∈ sc_incomplete_druleids st ↔
    ∃ r, r ∈ visited ∧ druleid r = d ∧ (d ∉ del_druleids) ∧ (r ∉ sc_vector st)
}.

(** What the scan does to the outstanding counts: it removes the count of
    an address it flushes, and only counts that are 0. *)
Record count_invariant (check_counts : check_counts_hashset) (st : scan_state) : Prop := {
  ninv_sub : sc_check_counts st ⊆ check_counts;
  ninv_flushed : ∀ r, r ∈ sc_vector st →
    sc_check_counts st !! check_count_key (druleid r) (ip r) = None;
  ninv_live : ∀ k c, check_counts !! k = Some c → c ≠ 0 →
    sc_check_counts st !! k = Some c
}.
End DrainVocabulary.

(** [new] is what a cache entry [old] may become by a commit: the same
    host, no service lost, and a dnsname that is replaced only while it is
    empty. *)
Definition extends (old new : zbx_discoverer_results_t) : Prop :=
  druleid new = druleid old ∧ ip new = ip old ∧ now new = now old
  ∧ unique_dcheckid new = unique_dcheckid old
  ∧ services old `prefix_of` services new
  ∧ (dnsname new = dnsname old ∨ dnsname old = Some EmptyString ∨ dnsname old = None).

(** Every entry of [hr] is still in [hr'], extended. *)
Definition cache_grows (hr hr' : results_hashset) : Prop :=
  ∀ k old, hr !! k = Some old → ∃ new, hr' !! k = Some new ∧ extends old new.

(** The number of iterations a loop over [n] rules makes when its test
    reads [running k], [running (k + 1)], ...: the readings that are true
    before the first one that is false. *)
Fixpoint iterations (running : nat → bool) (k n : nat) : nat :=
  match n with
  | O => O
  | S n' => if running k then S (iterations running (S k) n') else O
  end.

(** The rules queued again among the calls of the scheduler: time and rule. *)
Definition requeued (calls : list scheduler_call) : list (Z * Z) :=
  omap (λ c, match c with
             | zbx_dc_drule_queue now' druleid' _ => Some (now', druleid')
             | _ => None
             end) calls.

(** The rules whose services were cleaned among the calls of the scheduler. *)
Definition cleaned (calls : list scheduler_call) : list Z :=
  omap (λ c, match c with
             | discovery_clean_services druleid' => Some druleid'
             | _ => None
             end) calls.

(** The position of the first check flagged uniq, the number of checks
    when there is none. *)
Definition first_uniq (dchecks' : list zbx_dc_dcheck_t) : nat :=
  from_option fst (length dchecks') (list_find (λ d, dc_uniq d ≠ 0) dchecks').

(** The same check, but for its timeout. *)
Definition same_check (d d' : zbx_dc_dcheck_t) : Prop :=
  dc_dcheckid d' = dc_dcheckid d ∧ dc_druleid d' = dc_druleid d
  ∧ dc_type d' = dc_type d ∧ dc_uniq d' = dc_uniq d.

(** The text has no comma. *)
Definition comma_free (s : string) : Prop :=
  Forall (λ c, c ≠ ","%char) (String.list_ascii_of_string s).

(** The host as discover_icmp appends it: memset to 0, then the address. *)
Definition fping_host_new (ip' : string) : ZBX_FPING_HOST := mk_fping_host ip' 0 None.

(** zbx_ping succeeds on the batch of the addresses [batch] for [dcheck]. *)
Definition ping_ok `{IcmpCollaborators} (dcheck : zbx_dc_dcheck_t) (batch : list string)
    : Prop :=
  ∃ hosts', zbx_ping dcheck (fping_host_new <$> batch) = inl hosts'.

(** The result a sorted vector holds for a rule and address. *)
Definition result_at (vr : list zbx_discoverer_results_t) (k : hkey)
    : option zbx_discoverer_results_t :=
  snd <$> results_ptr_bsearch vr k.

(** The vector [vr] holds the entries of [m], each once, and [m] keeps
    every one under its rule and address. *)
Definition vector_of (m : results_hashset) (vr : list zbx_discoverer_results_t) : Prop :=
  well_keyed m ∧ vr ≡ₚ (map_to_list m).*2.

(** The result discovery_icmp_result_proc creates for a host. *)
Definition icmp_result_new (druleid' unique_dcheckid' time_now : Z) (ip' : string)
    : zbx_discoverer_results_t :=
  result_set_ip (discovery_result_create druleid' unique_dcheckid' time_now) ip'.

(** What the answer of one host does to the results, seen by rule and
    address. *)
Definition icmp_answer_commit `{Constants} (druleid' unique_dcheckid' dcheckid' time_now : Z)
    (m : results_hashset) (h : ZBX_FPING_HOST) : results_hashset :=
  if decide (0 = fping_rcv h) then m
  else
    <[(druleid', fping_addr h) :=
        icmp_result_fill dcheckid' h
          (default (icmp_result_new druleid' unique_dcheckid' time_now (fping_addr h))
             (m !! (druleid', fping_addr h)))]> m.

(** The host [h] is among the hosts a successful ping of one of the
    batches left, and has received an answer. *)
Definition icmp_answered `{IcmpCollaborators} (dcheck : zbx_dc_dcheck_t)
    (pings : list (list string)) (h : ZBX_FPING_HOST) : Prop :=
  ∃ b hosts', b ∈ pings ∧ zbx_ping dcheck (fping_host_new <$> b) = inl hosts'
    ∧ h ∈ hosts' ∧ 0 ≠ fping_rcv h.

(** zbx_ping writes to rcv and dnsname of the hosts discover_icmp hands
    it, and leaves their number, order and addresses alone. *)
Definition ping_keeps_addrs `{IcmpCollaborators} : Prop :=
  ∀ dcheck batch hosts',
    zbx_ping dcheck (fping_host_new <$> batch) = inl hosts' →
    fping_addr <$> hosts' = batch.

(** What the pings [pings] of a check turn the results [old] into, seen
    by rule and address: a host that answered has a result with one more
    service, made from the result it had or from a new one; every other
    result is as it was. *)
Definition icmp_sweep_results `{Constants} `{IcmpCollaborators} (druleid' : Z)
    (unique_dcheckid' : Z) (dcheck : zbx_dc_dcheck_t) (time_now : Z)
    (pings : list (list string))
    (old new : hkey → option zbx_discoverer_results_t) : Prop :=
  (∀ h, icmp_answered dcheck pings h →
     new (druleid', fping_addr h)
     = Some (icmp_result_fill (dc_dcheckid dcheck) h
               (default (icmp_result_new druleid' unique_dcheckid' time_now (fping_addr h))
                  (old (druleid', fping_addr h)))))
  ∧ (∀ k, (∀ h, icmp_answered dcheck pings h → (druleid', fping_addr h) ≠ k) →
       new k = old k).

(** The services the checks [ds] of an ICMP task give an address, when
    [answer dcheck ip'] is the host a ping of [ip'] for [dcheck] leaves. *)
Definition icmp_up_services `{Constants}
    (answer : zbx_dc_dcheck_t → string → ZBX_FPING_HOST) (ds : list zbx_dc_dcheck_t)
    (ip' : string) : list zbx_discoverer_dservice_t :=
  omap (λ dcheck,
          if decide (0 = fping_rcv (answer dcheck ip')) then None
          else Some (mk_dservice (dc_dcheckid dcheck) 0 DOBJECT_STATUS_UP EmptyString))
    ds.

(** The result these checks gather for the address, one after the other. *)
Definition icmp_gathered `{Constants} (druleid' unique_dcheckid' time_now : Z)
    (answer : zbx_dc_dcheck_t → string → ZBX_FPING_HOST) (ds : list zbx_dc_dcheck_t)
    (ip' : string) : option zbx_discoverer_results_t :=
  fold_left
    (λ r dcheck,
       if decide (0 = fping_rcv (answer dcheck ip')) then r
       else Some (icmp_result_fill (dc_dcheckid dcheck) (answer dcheck ip')
                    (default (icmp_result_new druleid' unique_dcheckid' time_now ip') r)))
    ds None.

(** Every job the manager knows is accounted for: it is in the queue with
    status Queued, or a worker holds it (it is out of the queue, Waiting
    or Removing, and counts a worker that will queue or remove it). No
    job counts less than no worker. *)
Definition jobs_tracked (m : zbx_discoverer_manager_t) : Prop :=
  ∀ ref job, m_job_refs m !! ref = Some job →
    0 ≤ workers_used job
    ∧ ((ref ∈ queue_jobs (m_queue m) ∧ job_status job = DISCOVERER_JOB_STATUS_QUEUED)
       ∨ ((ref ∉ queue_jobs (m_queue m))
          ∧ job_status job ≠ DISCOVERER_JOB_STATUS_QUEUED ∧ 0 < workers_used job)).

(** What the check of the revisions needs from discoverer_job_tasks_free:
    it leaves the worker counter and the status of the job alone. *)
Definition tasks_free_keeps_job `{ThreadCollaborators} : Prop :=
  ∀ job,
    workers_used (discoverer_job_tasks_free job).1 = workers_used job
    ∧ job_status (discoverer_job_tasks_free job).1 = job_status job.

(** The service updates among the calls. *)
Definition service_updates (calls : list db_call) : list db_call :=
  omap (λ c, match c with
             | zbx_discovery_update_service _ _ _ _ _ _ _ _ _ => Some c
             | _ => None
             end) calls.

(** The hosts looked up among the calls: rule and address. *)
Definition host_lookups (calls : list db_call) : list (Z * string) :=
  omap (λ c, match c with
             | zbx_discovery_find_host d i => Some (d, i)
             | _ => None
             end) calls.

(** The times of the calls that mark the other services of a host down. *)
Definition service_downs (calls : list db_call) : list Z :=
  omap (λ c, match c with
             | zbx_discovery_update_service_down _ t => Some t
             | _ => None
             end) calls.

(** How often the events were processed, and how often cleaned. *)
Definition events_processed (calls : list db_call) : nat :=
  length (filter (λ c, c = process_events_cb) calls).

Definition events_cleaned (calls : list db_call) : nat :=
  length (filter (λ c, c = clean_events_cb) calls).

(** The results the drainer writes as hosts: those with an address and a
    dnsname. *)
Definition host_results (vector : list zbx_discoverer_results_t)
    : list zbx_discoverer_results_t :=
  filter (λ r, ip r ≠ EmptyString ∧ is_Some (dnsname r)) vector.

(** The pending errors of rule [d], in the order of the vector. *)
Definition errors_of (d : Z) (drule_errors : list zbx_discoverer_drule_error_t)
    : list zbx_discoverer_drule_error_t :=
  filter (λ e, err_druleid e = d) drule_errors.

(** The entry with the empty ip of rule [d]. *)
Definition rule_sentinel (d : Z) (r : zbx_discoverer_results_t) : Prop :=
  ip r = EmptyString ∧ druleid r = d.

#[global] Instance rule_sentinel_dec d r : Decision (rule_sentinel d r).
Proof. unfold rule_sentinel. apply _. Defined.

(** No call of zbx_discovery_update_drule for rule [d] among the calls. *)
Definition no_drule_update (d : Z) (calls : list db_call) : Prop :=
  ∀ err t, zbx_discovery_update_drule d err t ∉ calls.

(** The calls hold this call of zbx_discovery_update_drule for rule [d]
    and no other call of it for that rule. *)
Definition one_drule_update (d : Z) (err : option string) (t : Z)
    (calls : list db_call) : Prop :=
  ∃ before after,
    calls = before ++ zbx_discovery_update_drule d err t :: after
    ∧ no_drule_update d (before ++ after).

(** * Example inputs

    The examples run the definitions on small inputs. The constants take
    the values of the Zabbix headers, the queue size the one of the
    specification's saturation scenario. The collaborators are the
    simplest ones that fit their description: every range expression is a
    single address, a task counts one check per check it carries, no
    macro is substituted, the intervals 30s and 1h are the valid ones,
    the global timeout is 3 seconds, process_rule makes one task per
    check while the capacity lasts, an error is appended to the vector,
    a new job has no cap on its workers, the program is the server, and
    the abort of a job drops its tasks and records the error. *)

Definition example_constants : Constants :=
  {| DOBJECT_STATUS_UP := 0;
     DOBJECT_STATUS_DOWN := 1;
     DISCOVERER_QUEUE_MAX_SIZE := 100000;
     ZBX_DEFAULT_INTERVAL := 60;
     MAX_STRING_LEN := 2048;
     CHECK_COUNT_IP_SIZE := 65 |}.

Definition example_task_collaborators : TaskCollaborators :=
  {| zbx_iprange_uniq_ips := λ ranges, ranges;
     discoverer_task_check_count_get := λ task, Z.of_nat (length (dchecks task)) |}.

Definition example_process_rule (drule : zbx_dc_drule_t) (queue_capacity : Z)
    : process_rule_out :=
  let n := Z.of_nat (length (dr_dchecks drule)) in
  mk_process_rule_out
    (if bool_decide (queue_capacity ≤ n) then 0 else queue_capacity - n)
    ((λ dcheck, mk_task [dcheck] (dr_unique_dcheckid drule) [] 0 EmptyString 0 1)
       <$> dr_dchecks drule)
    [] (dr_dchecks drule) [].

Definition example_scheduler_collaborators : SchedulerCollaborators :=
  {| zbx_substitute_simple_macros := λ text, text;
     zbx_is_time_suffix := λ text,
       if bool_decide (text = "30s") then Some 30
       else if bool_decide (text = "1h") then Some 3600 else None;
     dcheck_get_timeout := λ _, inl 3;
     process_rule := example_process_rule;
     discoverer_queue_append_error := λ errors druleid' text,
       errors ++ [mk_drule_error druleid' text];
     discoverer_job_create := λ drule _ _,
       mk_job (dr_druleid drule) (dr_revision drule) 0 0 DISCOVERER_JOB_STATUS_QUEUED [];
     program_type_server := true |}.

Definition example_worker_collaborators : WorkerCollaborators :=
  {| discoverer_job_abort := λ job pending errors e,
       (mk_job (job_druleid job) (drule_revision job) (workers_used job)
          (workers_max job) (job_status job) [],
        pending, errors ++ [mk_drule_error (job_druleid job) e]) |}.

(** Rule 1 sweeps 10.0.0.1 to 10.0.0.3 with one check on the ports 22
    and 23; only port 22 of 10.0.0.1 answers. *)
Definition service_up : zbx_discoverer_dservice_t := mk_dservice 7 22 0 EmptyString.
Definition service_down : zbx_discoverer_dservice_t := mk_dservice 7 23 1 EmptyString.

Definition host1 : zbx_discoverer_results_t :=
  mk_results 1 "10.0.0.1" (Some "alpha") 100 0 1 [service_down; service_up].
Definition host2 : zbx_discoverer_results_t :=
  mk_results 1 "10.0.0.2" (Some EmptyString) 100 0 1 [].
Definition host3 : zbx_discoverer_results_t :=
  mk_results 1 "10.0.0.3" (Some EmptyString) 100 0 1 [service_down].

Definition example_cache : results_hashset :=
  <[result_key host1 := host1]> (<[result_key host2 := host2]>
    (<[result_key host3 := host3]> ∅)).

Definition no_callbacks : zbx_events_funcs_t := mk_events_funcs false false.

Definition example_drain : process_results_out :=
  process_results_in_order (H := example_constants) (λ _, 0) [host1; host2; host3]
    example_cache ∅ [] [] no_callbacks.

(** One address with a thousand services (a port sweep), all checks done. *)
Definition swept_host : zbx_discoverer_results_t :=
  mk_results 1 "10.0.0.9" (Some EmptyString) 100 0 1 (replicate 1000 service_up).

(** 1001 addresses that answered no probe: entries without services. *)
Definition silent_hosts : list zbx_discoverer_results_t :=
  (λ i, mk_results 1 ("10.0." +:+ pretty (i / 256)%nat +:+ "." +:+ pretty (i mod 256)%nat)
          (Some EmptyString) 100 0 1 []) <$> seq 0 1001.

Definition cache_of (entries : list zbx_discoverer_results_t) : results_hashset :=
  list_to_map ((λ r, (result_key r, r)) <$> entries).

(** An ICMP sweep of two addresses for rule 1; 10.0.0.1 answered. *)
Definition icmp_task : zbx_discoverer_task_t :=
  mk_task [mk_dcheck 7 1 SVC_ICMPPING 0 3] 0 ["10.0.0.1"; "10.0.0.2"] 0 EmptyString 0 1.

Definition icmp_answer : zbx_discoverer_results_t :=
  mk_results 1 "10.0.0.1" (Some "alpha") 100 0 0 [mk_dservice 7 0 0 EmptyString].

Definition one_check_each : check_counts_hashset :=
  <[(1, "10.0.0.1") := 1]> (<[(1, "10.0.0.2") := 1]> ∅).

(** The same sweep when each address also waits for a TCP check. *)
Definition two_checks_each : check_counts_hashset :=
  <[(1, "10.0.0.1") := 2]> (<[(1, "10.0.0.2") := 2]> ∅).

(** An LDAP probe of 10.0.0.1 for rule 1 that found the service, while
    the rule's outstanding counts were wiped by a revision change. *)
Definition ldap_task : zbx_discoverer_task_t :=
  mk_task [mk_dcheck 8 1 SVC_LDAP 0 3] 0 ["10.0.0.1"] 0 "10.0.0.1" 389 1.

(** A job with a cap of two workers, taken from the queue for its first task. *)
Definition capped_job : zbx_discoverer_job_t :=
  mk_job 1 1 0 2 DISCOVERER_JOB_STATUS_QUEUED [icmp_task; ldap_task].

Definition idle_queue : zbx_discoverer_queue_t := mk_queue [] 3 1 [].

(** Two partials of a TCP range task that makes two checks per address:
    the first has both checks processed, the second only one. *)
Definition range_task : zbx_discoverer_task_t :=
  mk_task [mk_dcheck 9 1 SVC_TCP 0 3] 0 ["10.0.0.1"; "10.0.0.2"] 0 EmptyString 0 2.

Definition partial_done : zbx_discoverer_results_t :=
  mk_results 1 "10.0.0.1" None 100 0 2 [mk_dservice 9 22 0 EmptyString].

Definition partial_half : zbx_discoverer_results_t :=
  mk_results 1 "10.0.0.2" None 100 0 1 [mk_dservice 9 22 0 EmptyString].

(** Rule 3 has the delay abc; rule 1 is checked every hour; rule 4 makes
    two checks every 30 seconds. *)
Definition rule1 : zbx_dc_drule_t := mk_drule 1 "1h" [] 0 1.
Definition rule3 : zbx_dc_drule_t := mk_drule 3 "abc" [] 0 1.
Definition rule4 : zbx_dc_drule_t :=
  mk_drule 4 "30s" [mk_dcheck 8 4 SVC_LDAP 0 0; mk_dcheck 9 4 SVC_TCP 0 0] 0 1.

Definition quiet_env : pd_env := mk_pd_env 1000 0 [].
(** One check short of the queue's size is pending. *)
Definition busy_env : pd_env := mk_pd_env 1000 99999 [].

Definition pd_start : pd_state := mk_pd 0 0 0 0 0 0 [] ∅ [] [] [].

(** The job of rule 1 has no task left and no worker busy. *)
Definition drained_manager : zbx_discoverer_manager_t :=
  mk_manager (mk_queue [1] 0 1 [])
    {[1 := mk_job 1 1 0 0 DISCOVERER_JOB_STATUS_QUEUED []]} ∅ ∅.

(** Rule 1 has its capped job queued, one task of it is being run. *)
Definition busy_manager : zbx_discoverer_manager_t :=
  mk_manager (mk_queue [1] 2 1 [])
    {[1 := mk_job 1 1 1 2 DISCOVERER_JOB_STATUS_QUEUED [ldap_task]]} ∅ ∅.

(** The cache at the start of a cycle: the results of rule 1 are complete,
    10.0.1.1 of rule 2 waits for one more check, and rule 5 was changed
    while a result of its old revision was still cached. *)
Definition waiting_host : zbx_discoverer_results_t :=
  mk_results 2 "10.0.1.1" (Some EmptyString) 100 0 1 [service_up; service_up].
Definition stale_host : zbx_discoverer_results_t :=
  mk_results 5 "10.0.5.1" (Some "old") 90 0 1 [service_up].

Definition cycle_entries : list zbx_discoverer_results_t :=
  [host1; host2; waiting_host; stale_host].

Definition cycle_cache : results_hashset := cache_of cycle_entries.

Definition cycle_counts : check_counts_hashset :=
  <[(2, "10.0.1.1") := 1]> (<[(5, "10.0.5.1") := 2]> (<[(1, "10.0.0.1") := 0]> ∅)).

Definition cycle_drain : process_results_out :=
  process_results_in_order (H := example_constants) (λ _, 0) cycle_entries cycle_cache
    cycle_counts [5] [] no_callbacks.

(** The collaborators of the examples, but the global timeout of the SNMP
    checks is not a time. *)
Definition snmp_timeout_collaborators : SchedulerCollaborators :=
  {| zbx_substitute_simple_macros := λ text, text;
     zbx_is_time_suffix := λ text,
       if bool_decide (text = "30s") then Some 30
       else if bool_decide (text = "1h") then Some 3600 else None;
     dcheck_get_timeout := λ type,
       match type with
       | ITEM_TYPE_SNMP => inr "3x"
       | _ => inl 3
       end;
     process_rule := example_process_rule;
     discoverer_queue_append_error := λ errors druleid' text,
       errors ++ [mk_drule_error druleid' text];
     discoverer_job_create := λ drule _ _,
       mk_job (dr_druleid drule) (dr_revision drule) 0 0 DISCOVERER_JOB_STATUS_QUEUED [];
     program_type_server := true |}.

(** Rule 5 makes a TCP and an SNMP check every 30 seconds. *)
Definition rule5 : zbx_dc_drule_t :=
  mk_drule 5 "30s" [mk_dcheck 8 5 SVC_TCP 0 0; mk_dcheck 9 5 SVC_SNMPv2c 0 0] 0 1.

(** The second of the three checks of rule 6 is the uniqueness criterion. *)
Definition rule6 : zbx_dc_drule_t :=
  mk_drule 6 "30s"
    [mk_dcheck 10 6 SVC_TCP 0 0; mk_dcheck 11 6 SVC_LDAP 1 0; mk_dcheck 12 6 SVC_AGENT 0 0]
    0 1.

(** Freeing the tasks of a job gives back one check per check they carry. *)
Definition example_thread_collaborators : ThreadCollaborators :=
  {| discoverer_job_tasks_free := λ job,
       (mk_job (job_druleid job) (drule_revision job) (workers_used job)
          (workers_max job) (job_status job) [],
        foldr (λ task n, Z.of_nat (length (dchecks task)) + n) 0 (tasks job)) |}.


(** What process_discovery leaves when rule 4 is the only due rule. *)
Definition rule4_scheduled : pd_state :=
  process_discovery (H := example_constants) (H0 := example_scheduler_collaborators)
    0 ∅ ∅ [] [] [(quiet_env, rule4)].

(** A reading of decimal digits that stops at the first other character,
    as atoi does for a text without sign or leading blanks. *)
Fixpoint digits_value (s : string) (acc : Z) : Z :=
  match s with
  | String c rest =>
      let n := Z.of_nat (Ascii.nat_of_ascii c) in
      if bool_decide (48 ≤ n ≤ 57) then digits_value rest (10 * acc + (n - 48)) else acc
  | EmptyString => acc
  end.

Definition example_libc_collaborators : LibcCollaborators :=
  {| atoi := λ s, digits_value s 0 |}.

(** The range of the rule is a single address. *)
Definition example_clean_collaborators : CleanServices.Collaborators :=
  {| CleanServices.zbx_ip_in_list := λ list' ip', bool_decide (ip' = list') |}.

(** Host 1 has a service in the range and one outside of it, the only
    service of host 2 is outside, host 3 has none. *)
Definition discovered_rows : list CleanServices.dhost_row :=
  [CleanServices.mk_row 2 (Some 21) "10.0.9.2";
   CleanServices.mk_row 1 (Some 11) "10.0.0.1";
   CleanServices.mk_row 1 (Some 12) "10.0.9.1";
   CleanServices.mk_row 3 None EmptyString].

(** Of the addresses pinged only 10.0.0.1 answers, under the name alpha;
    no ping fails, and a job without a cap is swept in batches of 1000. *)
Definition example_answer (dcheck : zbx_dc_dcheck_t) (ip' : string) : ZBX_FPING_HOST :=
  if bool_decide (ip' = "10.0.0.1") then mk_fping_host ip' 3 (Some "alpha")
  else mk_fping_host ip' 0 None.

Definition example_icmp_collaborators : IcmpCollaborators :=
  {| DISCOVERER_JOB_TASKS_INPROGRESS_MAX := 1000;
     zbx_ping := λ dcheck hosts, inl ((λ h, example_answer dcheck (fping_addr h)) <$> hosts)
  |}.

(** The worker is not asked to stop. *)
Definition never_stop : nat → bool := λ _, false.

(** The entry that the removal of the job of rule 1 registers at time 300. *)
Definition rule1_sentinel : zbx_discoverer_results_t :=
  mk_results 1 EmptyString (Some EmptyString) 300 0 0 [].

(** A network error of rule 1 that waits to be written. *)
Definition rule1_error : zbx_discoverer_drule_error_t := mk_drule_error 1 "timeout".

(** * Properties *)

(** ** Strings *)

Lemma substring_0_all (s : string) (n : nat) :
  (String.length s ≤ n)%nat → String.substring 0 n s = s.
Proof.
  revert n. induction s as [|c s IH]; intros [|n] Hn; simpl in *; try done; try lia.
  f_equal. apply IH. lia.
Qed.

Lemma string_app_cons (c : Ascii.ascii) (s t : string) :
  String c s +:+ t = String c (s +:+ t).
Proof. reflexivity. Qed.

Lemma substring_0_app (s t : string) (n : nat) :
  (String.length s ≤ n)%nat →
  String.substring 0 n (s +:+ t) = s +:+ String.substring 0 (n - String.length s) t.
Proof.
  revert n. induction s as [|c s IH]; intros n Hn.
  - by rewrite Nat.sub_0_r.
  - cbn in Hn. destruct n as [|n]; [lia|].
    rewrite !string_app_cons. cbn. f_equal. apply IH. lia.
Qed.


Lemma string_app_length (s t : string) :
  String.length (s +:+ t) = (String.length s + String.length t)%nat.
Proof. induction s as [|c s IH]; [done|]. rewrite string_app_cons. cbn. by rewrite IH. Qed.

Section CheckCountProperties.
Context `{Constants}.

(** X4: an address that fits the ip buffer is its own key. *)
Lemma check_count_key_fits (druleid' : Z) (ip' : string) :
  (String.length ip' < CHECK_COUNT_IP_SIZE)%nat →
  check_count_key druleid' ip' = (druleid', ip').
Proof.
  intros Hlen. unfold check_count_key, zbx_strlcpy.
  f_equal. apply substring_0_all. lia.
Qed.

Lemma check_count_decrease_None check_counts druleid' ip' count :
  discoverer_check_count_decrease check_counts druleid' ip' count = None ↔
  check_counts !! check_count_key druleid' ip' = None
  ∨ check_counts !! check_count_key druleid' ip' = Some 0.
Proof.
  unfold discoverer_check_count_decrease.
  destruct (check_counts !! check_count_key druleid' ip') as [c|] eqn:Hc.
  - destruct (decide (c = 0)) as [->|Hne]; split; intros Hx; auto; try done.
    destruct Hx as [Hx|Hx]; [done|]. by inversion Hx.
  - split; auto.
Qed.

Lemma check_count_decrease_Some check_counts druleid' ip' count c :
  check_counts !! check_count_key druleid' ip' = Some c → c ≠ 0 →
  discoverer_check_count_decrease check_counts druleid' ip' count
  = Some (<[check_count_key druleid' ip' := (c - count) mod 2 ^ 64]> check_counts,
          (c - count) mod 2 ^ 64).
Proof.
  intros Hc Hne. unfold discoverer_check_count_decrease. rewrite Hc.
  by destruct (decide (c = 0)).
Qed.

Lemma check_count_decrease_inv check_counts druleid' ip' count check_counts' rest :
  discoverer_check_count_decrease check_counts druleid' ip' count
  = Some (check_counts', rest) →
  ∃ c, check_counts !! check_count_key druleid' ip' = Some c ∧ c ≠ 0
       ∧ rest = u64 (c - count)
       ∧ check_counts' = <[check_count_key druleid' ip' := rest]> check_counts.
Proof.
  unfold discoverer_check_count_decrease.
  destruct (check_counts !! check_count_key druleid' ip') as [c|]; [|done].
  destruct (decide (c = 0)); [done|]. intros [= <- <-]. by exists c.
Qed.

(** C9: the decrease fails exactly when the key has no entry or its
    count is already zero; otherwise it succeeds and stores the old
    count minus [count] modulo 2^64. Nothing compares [count] with the
    stored count: a decrement larger than the stored count wraps around. *)
Theorem check_count_decrease_spec check_counts druleid' ip' count :
  (discoverer_check_count_decrease check_counts druleid' ip' count = None ↔
     check_counts !! check_count_key druleid' ip' = None
     ∨ check_counts !! check_count_key druleid' ip' = Some 0)
  ∧ (∀ c, check_counts !! check_count_key druleid' ip' = Some c → c ≠ 0 →
       discoverer_check_count_decrease check_counts druleid' ip' count
       = Some (<[check_count_key druleid' ip' := (c - count) mod 2 ^ 64]> check_counts,
               (c - count) mod 2 ^ 64))
  ∧ (∀ c, check_counts !! check_count_key druleid' ip' = Some c →
       0 < c → c < count → count - c ≤ 2 ^ 64 →
       ∃ check_counts',
         discoverer_check_count_decrease check_counts druleid' ip' count
         = Some (check_counts', 2 ^ 64 - (count - c))).
Proof.
  split; [apply check_count_decrease_None|].
  split; [intros c; apply check_count_decrease_Some|].
  intros c Hc Hpos Hlt Hle.
  rewrite (check_count_decrease_Some _ _ _ _ c) by (auto; lia).
  eexists. do 2 f_equal.
  replace (c - count) with (2 ^ 64 - (count - c) + (-1) * 2 ^ 64) by lia.
  rewrite Z.mod_add by lia. apply Z.mod_small. lia.
Qed.
End CheckCountProperties.

Section DrainerProperties.
Context `{Constants}.
Variable dhostid_after : list db_call → Z.

Lemma host_status_next_up host_status service :
  DOBJECT_STATUS_UP ≠ -1 →
  host_status_next host_status service = DOBJECT_STATUS_UP ↔
  host_status = DOBJECT_STATUS_UP ∨ status service = DOBJECT_STATUS_UP.
Proof.
  intros Hup. unfold host_status_next.
  repeat case_bool_decide; simpl; split; intros; try tauto; try lia;
    destruct_or?; try congruence; auto.
Qed.

Lemma host_status_fold_up services' host_status :
  DOBJECT_STATUS_UP ≠ -1 →
  fold_left host_status_next services' host_status = DOBJECT_STATUS_UP ↔
  host_status = DOBJECT_STATUS_UP
  ∨ ∃ s, s ∈ services' ∧ status s = DOBJECT_STATUS_UP.
Proof.
  intros Hup. revert host_status.
  induction services' as [|s l IH]; intros host_status; simpl.
  - split; [auto|]. intros [?|(s & Hs & _)]; [done|]. by apply elem_of_nil in Hs.
  - rewrite IH, host_status_next_up by done. split.
    + intros [[?|?]|(s' & Hs' & ?)]; eauto.
      * right. exists s. split; [apply list_elem_of_here|done].
      * right. exists s'. split; [by apply list_elem_of_further|done].
    + intros [?|(s' & Hs' & ?)]; [auto|].
      apply elem_of_cons in Hs' as [->|Hs']; eauto.
Qed.

Lemma process_services_status druleid' ip' dns now' unique services' :
  DOBJECT_STATUS_UP ≠ -1 →
  status_of_services
    (process_services dhostid_after druleid' ip' dns now' unique services').1 services'.
Proof.
  intros Hup. unfold process_services, status_of_services.
  destruct services' as [|s l].
  - split; [done|]. intros _. cbn [length]. by rewrite decide_True.
  - split; [|done]. intros _. cbn [length]. rewrite decide_False by done.
    cbn [fst]. rewrite host_status_fold_up by done. split.
    + intros [?|?]; [lia|done].
    + auto.
Qed.

Lemma process_services_no_update_host druleid' ip' dns now' unique services'
    d i n hs t :
  zbx_discovery_update_host d i n hs t
  ∉ (process_services dhostid_after druleid' ip' dns now' unique services').2.
Proof.
  unfold process_services, services_update_calls.
  assert (∀ l : list zbx_discoverer_dservice_t,
    zbx_discovery_update_host d i n hs t
    ∉ (λ s, zbx_discovery_update_service druleid' (dcheckid s) unique ip' dns
              (port s) (status s) (value s) now') <$> l) as Hmap.
  { intros l [s [? _]]%list_elem_of_fmap. done. }
  destruct (decide (length services' = 0%nat)); cbn [snd];
    destruct (decide _); rewrite ?not_elem_of_app, ?list_elem_of_singleton;
    repeat split; try apply Hmap; done.
Qed.

(** What the loop over the local vector adds to the calls. *)
Lemma process_results_emit_fold events_cbs vector drule_errors calls :
  let out := fold_left (process_results_emit dhostid_after events_cbs) vector
               (drule_errors, calls) in
  DOBJECT_STATUS_UP ≠ -1 →
  (∀ c, c ∈ calls → c ∈ out.2)
  ∧ (∀ result dns, result ∈ vector → ip result ≠ EmptyString →
       dnsname result = Some dns →
       ∃ host_status,
         zbx_discovery_update_host (druleid result) (ip result) dns host_status
           (now result) ∈ out.2
         ∧ status_of_services host_status (services result))
  ∧ (∀ d i n hs t, zbx_discovery_update_host d i n hs t ∈ out.2 →
       zbx_discovery_update_host d i n hs t ∈ calls
       ∨ ∃ result, result ∈ vector ∧ druleid result = d ∧ ip result = i
           ∧ ip result ≠ EmptyString ∧ dnsname result = Some n ∧ now result = t
           ∧ status_of_services hs (services result)).
Proof.
  intros out Hup. subst out. revert drule_errors calls.
  induction vector as [|r vector IH]; intros drule_errors calls.
  { simpl. split; [done|]. split; [|auto].
    intros ?? Hin. by apply elem_of_nil in Hin. }
  cbn [fold_left].
  destruct (process_results_emit dhostid_after events_cbs (drule_errors, calls) r)
    as [errs1 calls1] eqn:Hemit.
  destruct (IH errs1 calls1) as (Hmono & Hfwd & Hbwd).
  assert (∀ c, c ∈ calls → c ∈ calls1) as Hstep.
  { intros c Hc. unfold process_results_emit in Hemit.
    destruct (decide (ip r = EmptyString)) as [Hip|Hip].
    - destruct (drule_error_search _ _) as [[j de]|]; injection Hemit as <- <-;
        apply elem_of_app; auto.
    - destruct (dnsname r); [|by injection Hemit as <- <-].
      destruct (process_services _ _ _ _ _ _ _). injection Hemit as <- <-.
      apply elem_of_app; auto. }
  split; [auto|]. split.
  - intros result dns [->|Hin]%elem_of_cons Hip Hdns; [|by eapply Hfwd].
    pose proof (process_services_status (druleid r) (ip r) dns (now r)
                  (unique_dcheckid r) (services r) Hup) as Hst.
    unfold process_results_emit in Hemit.
    rewrite decide_False, Hdns in Hemit by done.
    destruct (process_services _ _ _ _ _ _ _) as [hs cs]. injection Hemit as <- <-.
    exists hs. split; [|done]. apply Hmono.
    rewrite !elem_of_app, elem_of_cons. auto.
  - intros d i n hs t Hin. apply Hbwd in Hin as [Hin|(result & ? & ?)].
    2:{ right. exists result. split; [by apply list_elem_of_further|done]. }
    unfold process_results_emit in Hemit.
    destruct (decide (ip r = EmptyString)) as [Hip|Hip].
    { destruct (drule_error_search _ _) as [[j de]|]; injection Hemit as <- <-;
        apply elem_of_app in Hin as [?|Hin%list_elem_of_singleton]; auto; done. }
    destruct (dnsname r) as [dns|] eqn:Hdns; [|injection Hemit as <- <-; auto].
    pose proof (process_services_status (druleid r) (ip r) dns (now r)
                  (unique_dcheckid r) (services r) Hup) as Hst.
    pose proof (process_services_no_update_host (druleid r) (ip r) dns (now r)
                  (unique_dcheckid r) (services r) d i n hs t) as Hno.
    destruct (process_services _ _ _ _ _ _ _) as [hs' cs]. injection Hemit as <- <-.
    rewrite !elem_of_app, elem_of_cons, elem_of_app in Hin.
    destruct Hin as [?|[?|[Heq|[Hin|Hin]]]]; [by left|done| | |].
    + injection Heq as -> -> -> -> ->. right. exists r.
      split; [apply list_elem_of_here|done].
    + destruct (has_process_events_cb events_cbs);
        [by apply list_elem_of_singleton in Hin|by apply elem_of_nil in Hin].
    + destruct (has_clean_events_cb events_cbs);
        [by apply list_elem_of_singleton in Hin|by apply elem_of_nil in Hin].
Qed.

Lemma process_results_in_order_calls entries results check_counts del_druleids
    drule_errors events_cbs :
  let out := process_results_in_order dhostid_after entries results check_counts
               del_druleids drule_errors events_cbs in
  pr_calls out =
    match pr_vector out with
    | [] => []
    | _ => (fold_left (process_results_emit dhostid_after events_cbs) (pr_vector out)
              (drule_errors, [zbx_discovery_open])).2 ++ [zbx_discovery_close]
    end.
Proof.
  unfold process_results_in_order. cbn [pr_calls pr_vector].
  by destruct (sc_vector _).
Qed.

(** C1: every result the drainer hands on with an address and a dnsname
    leads to one host update whose status is Up exactly when one of the
    result's services is Up (for a result with services) and Down for a
    result without services; and every host update of the cycle stems
    from such a result. [DOBJECT_STATUS_UP] differs from the value -1
    with which process_services marks a status not yet set. *)
Theorem process_results_host_status entries results check_counts del_druleids
    drule_errors events_cbs :
  let out := process_results_in_order dhostid_after entries results check_counts
               del_druleids drule_errors events_cbs in
  DOBJECT_STATUS_UP ≠ -1 →
  (∀ result dns, result ∈ pr_vector out → ip result ≠ EmptyString →
     dnsname result = Some dns →
     ∃ host_status,
       zbx_discovery_update_host (druleid result) (ip result) dns host_status
         (now result) ∈ pr_calls out
       ∧ (services result ≠ [] →
            host_status = DOBJECT_STATUS_UP ↔
            ∃ s, s ∈ services result ∧ status s = DOBJECT_STATUS_UP)
       ∧ (services result = [] → host_status = DOBJECT_STATUS_DOWN))
  ∧ (∀ druleid' ip' dns host_status now',
       zbx_discovery_update_host druleid' ip' dns host_status now' ∈ pr_calls out →
       ∃ result, result ∈ pr_vector out ∧ druleid result = druleid'
         ∧ ip result = ip' ∧ dnsname result = Some dns ∧ now result = now'
         ∧ (services result ≠ [] →
              host_status = DOBJECT_STATUS_UP ↔
              ∃ s, s ∈ services result ∧ status s = DOBJECT_STATUS_UP)
         ∧ (services result = [] → host_status = DOBJECT_STATUS_DOWN)).
Proof.
  intros out Hup. subst out. rewrite process_results_in_order_calls.
  set (out := process_results_in_order _ _ _ _ _ _ _).
  destruct (process_results_emit_fold events_cbs (pr_vector out) drule_errors
              [zbx_discovery_open] Hup) as (_ & Hfwd & Hbwd).
  split.
  - intros result dns Hin Hip Hdns.
    destruct (Hfwd result dns Hin Hip Hdns) as (hs & Hcall & Hst).
    exists hs. split; [|exact Hst].
    destruct (pr_vector out); [by apply elem_of_nil in Hin|].
    apply elem_of_app. by left.
  - intros d i n hs t Hin.
    assert (zbx_discovery_update_host d i n hs t
            ∈ (fold_left (process_results_emit dhostid_after events_cbs) (pr_vector out)
                 (drule_errors, [zbx_discovery_open])).2) as Hin'.
    { destruct (pr_vector out); [by apply elem_of_nil in Hin|].
      by apply elem_of_app in Hin as [Hin|Hin%list_elem_of_singleton]. }
    apply Hbwd in Hin' as [Hin'%list_elem_of_singleton|(result & ? & ? & ? & ? & ? & ? & Hst)];
      [done|].
    exists result. split_and!; try done; apply Hst.
Qed.
End DrainerProperties.

Section BatchProperties.
Context `{Constants}.

Lemma checks_sum_snoc vector r :
  checks_sum (vector ++ [r])
  = u64 (checks_sum vector + Z.of_nat (length (services r))).
Proof. unfold checks_sum. by rewrite fold_left_app. Qed.

Lemma checks_sum_nonneg vector : 0 ≤ checks_sum vector.
Proof.
  induction vector as [|r vector IH] using rev_ind; [done|].
  rewrite checks_sum_snoc. unfold u64. apply Z.mod_pos_bound. lia.
Qed.

Lemma scan_invariant_step del_druleids check_counts visited st result :
  scan_invariant del_druleids check_counts visited st →
  scan_invariant del_druleids check_counts (visited ++ [result])
    (process_results_step del_druleids st result).
Proof.
  intros [Hcount Hsub Hprefix Hvisited]. unfold process_results_step.
  destruct (decide (druleid result ∈ del_druleids)) as [Hdel|Hdel].
  { split; scan_simpl; try done.
    intros r Hr. apply elem_of_app in Hr as [Hr|Hr%list_elem_of_singleton]; [|subst r]; auto. }
  destruct (bool_decide (DISCOVERER_BATCH_RESULTS_NUM ≤ res_check_count st)) eqn:Hbatch.
  { apply bool_decide_eq_true in Hbatch. split; scan_simpl; try done.
    intros r Hr. apply elem_of_app in Hr as [Hr|Hr%list_elem_of_singleton]; [|subst r].
    - destruct (Hvisited r Hr) as [?|[?|[? ?]]]; auto.
      right; right. split; [apply elem_of_union; auto|done].
    - right; right. split; [apply elem_of_union; left; by apply elem_of_singleton|auto]. }
  apply bool_decide_eq_false in Hbatch. cbn [orb].
  destruct (sc_check_counts st !! check_count_key (druleid result) (ip result))
    as [c|] eqn:Hc.
  - destruct (bool_decide (0 ≠ c)) eqn:Hnz.
    + apply bool_decide_eq_true in Hnz. split; scan_simpl; try done.
      intros r Hr. apply elem_of_app in Hr as [Hr|Hr%list_elem_of_singleton]; [|subst r].
      * destruct (Hvisited r Hr) as [?|[?|[? ?]]]; auto.
        right; right. split; [apply elem_of_union; auto|done].
      * right; right. split; [apply elem_of_union; left; by apply elem_of_singleton|].
        right. exists c. auto.
    + apply bool_decide_eq_false in Hnz.
      assert (c = 0) as -> by (destruct (decide (c = 0)); [done|exfalso; auto]).
      split; scan_simpl.
      * by rewrite checks_sum_snoc, Hcount.
      * etrans; [apply delete_subseteq|done].
      * intros before r after Heq.
        destruct after as [|r' after _] using rev_ind.
        -- apply (app_inj_tail _ before) in Heq as [<- _]. lia.
        -- rewrite app_comm_cons, app_assoc in Heq.
           apply app_inj_tail in Heq as [Heq _]. eauto.
      * intros r Hr. apply elem_of_app in Hr as [Hr|Hr%list_elem_of_singleton]; [|subst r].
        -- destruct (Hvisited r Hr) as [?|[?|[? [?|(c' & Hc' & ?)]]]]; auto.
           ++ right; left. apply elem_of_app; auto.
           ++ lia.
           ++ right; right. split; [done|]. right. exists c'. split; [|done].
              rewrite lookup_delete_ne; [done|]. intros Heq. rewrite Heq in Hc.
              congruence.
        -- right; left. apply elem_of_app. right. by apply list_elem_of_singleton.
  - split; scan_simpl.
    * by rewrite checks_sum_snoc, Hcount.
    * done.
    * intros before r after Heq.
      destruct after as [|r' after _] using rev_ind.
      -- apply (app_inj_tail _ before) in Heq as [<- _]. lia.
      -- rewrite app_comm_cons, app_assoc in Heq.
         apply app_inj_tail in Heq as [Heq _]. eauto.
    * intros r Hr. apply elem_of_app in Hr as [Hr|Hr%list_elem_of_singleton]; [|subst r].
      -- destruct (Hvisited r Hr) as [?|[?|[? [?|?]]]]; auto.
         ++ right; left. apply elem_of_app; auto.
         ++ lia.
      -- right; left. apply elem_of_app. right. by apply list_elem_of_singleton.
Qed.

Lemma scan_invariant_fold del_druleids check_counts entries visited st :
  scan_invariant del_druleids check_counts visited st →
  scan_invariant del_druleids check_counts (visited ++ entries)
    (fold_left (process_results_step del_druleids) entries st).
Proof.
  revert visited st. induction entries as [|r entries IH]; intros visited st Hinv.
  - by rewrite app_nil_r.
  - cbn [fold_left]. rewrite (assoc_L (++) visited [r] entries : visited ++ r :: entries = _).
    apply IH. by apply scan_invariant_step.
Qed.

Lemma scan_invariant_init del_druleids results check_counts :
  scan_invariant del_druleids check_counts [] (mk_scan results check_counts ∅ [] 0 0).
Proof.
  split; scan_simpl; try done.
  - intros [|??] ??; done.
  - intros r Hr. by apply elem_of_nil in Hr.
Qed.
End BatchProperties.

Section BatchTheorem.
Context `{Constants}.
Variable dhostid_after : list db_call → Z.

Lemma process_results_in_order_scan entries results check_counts del_druleids
    drule_errors events_cbs :
  let out := process_results_in_order dhostid_after entries results check_counts
               del_druleids drule_errors events_cbs in
  let st := process_results_scan del_druleids results
              (process_results_incompletecheckscount_remove check_counts del_druleids)
              entries in
  pr_vector out = sc_vector st
  ∧ pr_incomplete_druleids out = sc_incomplete_druleids st
  ∧ pr_ret out
    = (if bool_decide (DISCOVERER_BATCH_RESULTS_NUM ≤ res_check_count st) then 1 else 0).
Proof. done. Qed.

(** C3, as the code has it: the batch limit counts services, not
    partials. A partial is flushed only while the services of the partials
    flushed before it number less than DISCOVERER_BATCH_RESULTS_NUM; the
    return value is 1 exactly when the services flushed in the cycle
    reached that number and 0 otherwise; when it is 0 every visited
    entry of the cache was dropped for a deleted rule, flushed, or still
    has outstanding checks, so no completed partial stays behind; and the
    scheduler sleeps 0 seconds exactly when the return value is 1. *)
Theorem process_results_batch entries results check_counts del_druleids
    drule_errors events_cbs :
  let out := process_results_in_order dhostid_after entries results check_counts
               del_druleids drule_errors events_cbs in
  (pr_ret out = 1 ↔ DISCOVERER_BATCH_RESULTS_NUM ≤ checks_sum (pr_vector out))
  ∧ (pr_ret out = 0 ↔ checks_sum (pr_vector out) < DISCOVERER_BATCH_RESULTS_NUM)
  ∧ (∀ before r after, pr_vector out = before ++ r :: after →
       checks_sum before < DISCOVERER_BATCH_RESULTS_NUM)
  ∧ (pr_ret out = 0 → ∀ r, r ∈ entries →
       druleid r ∈ del_druleids
       ∨ r ∈ pr_vector out
       ∨ ∃ c, check_counts !! check_count_key (druleid r) (ip r) = Some c ∧ c ≠ 0)
  ∧ (∀ calculated,
       discoverer_thread_sleeptime (pr_ret out) calculated
       = if bool_decide (DISCOVERER_BATCH_RESULTS_NUM ≤ checks_sum (pr_vector out))
         then 0 else calculated).
Proof.
  intros out.
  destruct (process_results_in_order_scan entries results check_counts del_druleids
              drule_errors events_cbs) as (Hvec & _ & Hret).
  fold out in Hvec, Hret. rewrite Hvec, Hret. clear Hvec Hret out.
  pose proof (scan_invariant_fold del_druleids _ entries []
                (mk_scan results _ ∅ [] 0 0)
                (scan_invariant_init del_druleids results
                   (process_results_incompletecheckscount_remove check_counts
                      del_druleids))) as Hinv.
  unfold process_results_scan.
  set (st := fold_left (process_results_step del_druleids) entries _) in *.
  destruct Hinv as [Hcount Hsub Hprefix Hvisited]. rewrite <- Hcount.
  destruct (bool_decide_reflect (DISCOVERER_BATCH_RESULTS_NUM ≤ res_check_count st))
    as [Hbatch|Hbatch].
  - split_and!; [done|split; [done|lia]|done|done|done].
  - split_and!; [split; [done|lia]|split; [lia|done]|done| |done].
    intros _ r Hr.
    destruct (Hvisited r Hr) as [?|[?|[_ [?|(c & Hc & Hnz)]]]]; auto; [lia|].
    right; right. exists c. split; [|done].
    eapply lookup_weaken; [exact Hc|].
    etrans; [exact Hsub|]. apply map_filter_subseteq.
Qed.
End BatchTheorem.

(** ** The result cache *)

Lemma host_reg_lookup hr_dst druleid' unique ip' time_now :
  discover_results_host_reg hr_dst druleid' unique ip' time_now !! (druleid', ip')
  = Some (default (mk_results druleid' ip' (Some EmptyString) time_now unique 0 [])
            (hr_dst !! (druleid', ip'))).
Proof.
  unfold discover_results_host_reg.
  destruct (hr_dst !! (druleid', ip')) as [dst|] eqn:Hdst; [done|].
  by rewrite lookup_insert_eq.
Qed.

Lemma host_reg_lookup_ne hr_dst druleid' unique ip' time_now key :
  key ≠ (druleid', ip') →
  discover_results_host_reg hr_dst druleid' unique ip' time_now !! key = hr_dst !! key.
Proof.
  intros Hne. unfold discover_results_host_reg.
  destruct (hr_dst !! (druleid', ip')); [done|]. by rewrite lookup_insert_ne.
Qed.

Lemma move_value_lookup_ne src hr_dst key :
  key ≠ result_key src →
  discover_results_move_value src hr_dst !! key = hr_dst !! key.
Proof.
  intros Hne. unfold discover_results_move_value.
  destruct (hr_dst !! result_key src); by rewrite lookup_insert_ne.
Qed.

(** After the move the cache entry of the key ends with the services of
    the source; an entry that was there keeps its own services in front. *)
Lemma move_value_lookup src hr_dst :
  ∃ dst, discover_results_move_value src hr_dst !! result_key src = Some dst
         ∧ services dst
           = from_option services [] (hr_dst !! result_key src) ++ services src.
Proof.
  unfold discover_results_move_value.
  destruct (hr_dst !! result_key src) as [dst|]; rewrite lookup_insert_eq;
    eexists; split; done.
Qed.

Section MergeProperties.
Context `{Constants} `{TaskCollaborators}.

Lemma partrange_merge_step_merges task force src check_counts hr_dst vr_src c :
  force ≠ 0 ∨ processed_checks_per_ip src = checks_per_ip task →
  check_counts !! check_count_key (task_druleid task) (ip src) = Some c → c ≠ 0 →
  partrange_merge_step task force src (check_counts, hr_dst, vr_src)
  = (<[check_count_key (task_druleid task) (ip src) :=
         u64 (c - processed_checks_per_ip src)]> check_counts,
     discover_results_move_value src hr_dst, vr_src).
Proof.
  intros Hgate Hc Hnz. unfold partrange_merge_step.
  rewrite (check_count_decrease_Some _ _ _ _ c) by done.
  destruct Hgate as [Hf|Hp].
  - by rewrite (bool_decide_eq_false_2 (0 = force)) by auto.
  - rewrite (bool_decide_eq_true_2 (_ = checks_per_ip task)) by done.
    by rewrite andb_false_r.
Qed.

Lemma partrange_merge_step_skips task force src check_counts hr_dst vr_src :
  ¬ partrange_merges task force check_counts src →
  partrange_merge_step task force src (check_counts, hr_dst, vr_src)
  = (check_counts, hr_dst, src :: vr_src).
Proof.
  intros Hno. unfold partrange_merge_step.
  destruct (bool_decide_reflect (0 = force)) as [Hf|Hf];
    destruct (bool_decide_reflect (processed_checks_per_ip src = checks_per_ip task))
      as [Hp|Hp]; cbn [andb negb]; try done.
  all: destruct (discoverer_check_count_decrease _ _ _ _) as [[cc' rest]|] eqn:Hdec;
    [|done].
  all: apply check_count_decrease_inv in Hdec as (c & Hc & Hnz & _).
  all: exfalso; apply Hno; split; eauto.
Qed.

(** Keys of other addresses are left alone by a step, in both hash sets. *)
Lemma partrange_merge_step_frame task force src st :
  let st' := partrange_merge_step task force src st in
  (∀ k, k ≠ check_count_key (task_druleid task) (ip src) → st'.1.1 !! k = st.1.1 !! k)
  ∧ (∀ k, k ≠ result_key src → st'.1.2 !! k = st.1.2 !! k)
  ∧ (∀ r, r ∈ st'.2 → r = src ∨ r ∈ st.2)
  ∧ (∀ r, r ∈ st.2 → r ∈ st'.2).
Proof.
  destruct st as [[cc hr] vr]. cbn [fst snd]. unfold partrange_merge_step.
  destruct (bool_decide (0 = force) && _).
  { cbn [fst snd]. split_and!; try done.
    - intros r [->|?]%elem_of_cons; auto.
    - intros r ?. by apply list_elem_of_further. }
  destruct (discoverer_check_count_decrease _ _ _ _) as [[cc' rest]|] eqn:Hdec.
  - apply check_count_decrease_inv in Hdec as (c & Hc & Hnz & _ & ->).
    cbn [fst snd]. split_and!; auto.
    + intros k Hk. by rewrite lookup_insert_ne.
    + intros k Hk. by apply move_value_lookup_ne.
  - cbn [fst snd]. split_and!; try done.
    + intros r [->|?]%elem_of_cons; auto.
    + intros r ?. by apply list_elem_of_further.
Qed.

Lemma partrange_merge_frame task force check_counts hr_dst vr_src :
  let st' := discover_results_partrange_merge check_counts hr_dst vr_src task force in
  (∀ k, k ∉ (λ r, check_count_key (task_druleid task) (ip r)) <$> vr_src →
     st'.1.1 !! k = check_counts !! k)
  ∧ (∀ k, k ∉ result_key <$> vr_src → st'.1.2 !! k = hr_dst !! k)
  ∧ (∀ r, r ∈ st'.2 → r ∈ vr_src).
Proof.
  unfold discover_results_partrange_merge.
  induction vr_src as [|src vr IH]; cbn [foldr fmap list_fmap].
  { split_and!; done. }
  destruct IH as (IHcc & IHhr & IHvr).
  destruct (partrange_merge_step_frame task force src
              (foldr (partrange_merge_step task force) (check_counts, hr_dst, []) vr))
    as (Hcc & Hhr & Hvr & _).
  split_and!.
  - intros k [Hk1 Hk2]%not_elem_of_cons. rewrite Hcc by done. by apply IHcc.
  - intros k [Hk1 Hk2]%not_elem_of_cons. rewrite Hhr by done. by apply IHhr.
  - intros r [->|Hr]%Hvr; [apply list_elem_of_here|].
    apply list_elem_of_further. by apply IHvr.
Qed.
End MergeProperties.

Section PartrangeTheorem.
Context `{Constants} `{TaskCollaborators}.

Lemma result_key_check_count_key druleid' (r1 r2 : zbx_discoverer_results_t) :
  result_key r1 = result_key r2 →
  check_count_key druleid' (ip r1) = check_count_key druleid' (ip r2).
Proof. unfold result_key. intros [= _ ->]. done. Qed.

(** C7, as the code has it: with [force] equal to 0 a partial is merged
    exactly when its processed_checks_per_ip equals the task's checks_per_ip
    and the decrease of its outstanding count succeeds; with [force]
    different from 0 the comparison is not made and the decrease alone
    decides. A merged partial leaves the source vector and its services
    are appended to the cache entry of its address; any other partial stays
    in the source vector, and neither the cache entry nor the outstanding
    count of its address is touched. The addresses of the vector are
    pairwise distinct. *)
Theorem partrange_merge_spec task force check_counts hr_dst vr_src :
  NoDup ((λ r, check_count_key (task_druleid task) (ip r)) <$> vr_src) →
  let st' := discover_results_partrange_merge check_counts hr_dst vr_src task force in
  ∀ src, src ∈ vr_src →
    let merges :=
      (force ≠ 0 ∨ processed_checks_per_ip src = checks_per_ip task)
      ∧ ∃ c, check_counts !! check_count_key (task_druleid task) (ip src) = Some c
             ∧ c ≠ 0 in
    (merges →
       (src ∉ st'.2)
       ∧ ∃ dst, st'.1.2 !! result_key src = Some dst
           ∧ services dst
             = from_option services [] (hr_dst !! result_key src) ++ services src)
    ∧ (¬ merges →
         src ∈ st'.2
         ∧ st'.1.2 !! result_key src = hr_dst !! result_key src
         ∧ st'.1.1 !! check_count_key (task_druleid task) (ip src)
           = check_counts !! check_count_key (task_druleid task) (ip src)).
Proof.
  intros Hnodup st' src Hsrc merges. subst st' merges.
  fold (partrange_merges task force check_counts src).
  unfold discover_results_partrange_merge.
  induction vr_src as [|hd vr IH]; [by apply elem_of_nil in Hsrc|].
  cbn [fmap list_fmap] in Hnodup. apply NoDup_cons in Hnodup as [Hhd Hnodup].
  cbn [foldr].
  destruct (partrange_merge_frame task force check_counts hr_dst vr)
    as (Fcc & Fhr & Fvr).
  unfold discover_results_partrange_merge in Fcc, Fhr, Fvr.
  set (tail := foldr (partrange_merge_step task force) (check_counts, hr_dst, []) vr) in *.
  assert (Hhd_rk : result_key hd ∉ result_key <$> vr).
  { intros (r & Hrk & Hr)%list_elem_of_fmap. apply Hhd.
    apply list_elem_of_fmap. exists r. split; [|done].
    by apply result_key_check_count_key. }
  assert (Hhd_in : hd ∉ vr).
  { intros Hin. apply Hhd. apply list_elem_of_fmap. by exists hd. }
  apply elem_of_cons in Hsrc as [->|Hsrc].
  - (* the partial at the front is handled last *)
    destruct tail as [[cc hr] vr'] eqn:Htail. cbn [fst snd] in *.
    assert (partrange_merges task force cc hd ↔ partrange_merges task force check_counts hd)
      as Hsame by (unfold partrange_merges; by rewrite Fcc).
    split.
    + intros Hm. pose proof Hm as Hm'. apply Hsame in Hm' as (Hgate & c & Hc & Hnz).
      rewrite (partrange_merge_step_merges _ _ _ _ _ _ c) by done. cbn [fst snd].
      split; [intros Hin; apply Hhd_in; auto|].
      destruct (move_value_lookup hd hr) as (dst & Hdst & Hsv).
      exists dst. split; [done|]. by rewrite Hsv, Fhr.
    + intros Hm. rewrite partrange_merge_step_skips by (by rewrite Hsame).
      cbn [fst snd]. split_and!; [apply list_elem_of_here|by apply Fhr|by apply Fcc].
  - (* a partial further back: the step for the front leaves it alone *)
    destruct (IH Hnodup Hsrc) as [IHm IHs]. fold tail in IHm, IHs.
    destruct (partrange_merge_step_frame task force hd tail) as (Scc & Shr & Svr & Svr').
    assert (src ≠ hd) as Hne by (intros ->; done).
    assert (check_count_key (task_druleid task) (ip src)
            ≠ check_count_key (task_druleid task) (ip hd)) as Hck.
    { intros Heq. apply Hhd. rewrite <- Heq. apply list_elem_of_fmap. by exists src. }
    assert (result_key src ≠ result_key hd) as Hrk.
    { intros Heq. apply Hck. by apply result_key_check_count_key. }
    split.
    + intros Hm. destruct (IHm Hm) as (Hnot & dst & Hdst & Hsv). split.
      * intros [?|?]%Svr; done.
      * exists dst. by rewrite Shr.
    + intros Hm. destruct (IHs Hm) as (Hin & Hhr & Hcc).
      split_and!; [by apply Svr'|by rewrite Shr|by rewrite Scc].
Qed.
End PartrangeTheorem.

Section FullMergeProperties.
Context `{Constants} `{TaskCollaborators}.

Lemma results_ptr_bsearch_key vr key i src :
  results_ptr_bsearch vr key = Some (i, src) → result_key src = key.
Proof. unfold results_ptr_bsearch. by intros (_ & ? & _)%list_find_Some. Qed.

Lemma results_ptr_bsearch_delete vr key i :
  results_ptr_bsearch vr key = None → results_ptr_bsearch (delete i vr) key = None.
Proof.
  unfold results_ptr_bsearch. rewrite !list_find_None. apply Forall_delete.
Qed.

(** One address of the full merge touches only its own key. *)
Lemma results_merge_step_frame task time_now st ip' :
  let st' := results_merge_step task time_now st ip' in
  (∀ k, k ≠ check_count_key (task_druleid task) ip' → st'.1.1 !! k = st.1.1 !! k)
  ∧ (∀ k, k ≠ (task_druleid task, ip') → st'.1.2 !! k = st.1.2 !! k)
  ∧ (∀ k, results_ptr_bsearch st.2 k = None → results_ptr_bsearch st'.2 k = None).
Proof.
  destruct st as [[cc hr] vr]. cbn [fst snd]. unfold results_merge_step.
  destruct (discoverer_check_count_decrease _ _ _ _) as [[cc' rest]|] eqn:Hdec;
    [|by split_and!].
  apply check_count_decrease_inv in Hdec as (c & Hc & Hnz & _ & ->).
  destruct (results_ptr_bsearch vr _) as [[i src]|] eqn:Hfind; cbn [fst snd].
  - apply results_ptr_bsearch_key in Hfind. split_and!.
    + intros k Hk. by rewrite lookup_insert_ne.
    + intros k Hk. apply move_value_lookup_ne. by rewrite Hfind.
    + intros k Hk. by apply results_ptr_bsearch_delete.
  - split_and!; [|destruct (decide _); [|done]|done].
    + intros k Hk. by rewrite lookup_insert_ne.
    + intros k Hk. by apply host_reg_lookup_ne.
Qed.

Lemma results_merge_fold_frame task time_now ips st :
  let st' := fold_left (results_merge_step task time_now) ips st in
  (∀ k, k ∉ check_count_key (task_druleid task) <$> ips → st'.1.1 !! k = st.1.1 !! k)
  ∧ (∀ ip', ip' ∉ ips →
       st'.1.2 !! (task_druleid task, ip') = st.1.2 !! (task_druleid task, ip'))
  ∧ (∀ k, results_ptr_bsearch st.2 k = None → results_ptr_bsearch st'.2 k = None).
Proof.
  revert st. induction ips as [|ip0 ips IH]; intros st; cbn [fold_left fmap list_fmap].
  { by split_and!. }
  destruct (IH (results_merge_step task time_now st ip0)) as (IHcc & IHhr & IHvr).
  destruct (results_merge_step_frame task time_now st ip0) as (Scc & Shr & Svr).
  split_and!.
  - intros k [Hk1 Hk2]%not_elem_of_cons. rewrite IHcc by done. by apply Scc.
  - intros ip' [Hk1 Hk2]%not_elem_of_cons. rewrite IHhr by done. apply Shr. congruence.
  - intros k Hk. by apply IHvr, Svr.
Qed.

(** The step for an address no probe produced a result for. *)
Lemma results_merge_step_no_result task time_now check_counts hr_dst vr_src ip' :
  results_ptr_bsearch vr_src (task_druleid task, ip') = None →
  let st' := results_merge_step task time_now (check_counts, hr_dst, vr_src) ip' in
  let key := check_count_key (task_druleid task) ip' in
  let n := discoverer_task_check_count_get task in
  st'.2 = vr_src
  ∧ (∀ c, check_counts !! key = Some c → c ≠ 0 →
       st'.1.1 !! key = Some (u64 (c - n))
       ∧ (u64 (c - n) = 0 →
            st'.1.2 !! (task_druleid task, ip')
            = Some (default (mk_results (task_druleid task) ip' (Some EmptyString) time_now
                               (task_unique_dcheckid task) 0 [])
                      (hr_dst !! (task_druleid task, ip'))))
       ∧ (u64 (c - n) ≠ 0 → st'.1.2 = hr_dst))
  ∧ (check_counts !! key = None ∨ check_counts !! key = Some 0 →
       st'.1.1 = check_counts ∧ st'.1.2 = hr_dst).
Proof.
  intros Hfind st' key n. subst st' key n. unfold results_merge_step.
  split_and!.
  - destruct (discoverer_check_count_decrease _ _ _ _) as [[cc' rest]|]; [|done].
    by rewrite Hfind.
  - intros c Hc Hnz. rewrite (check_count_decrease_Some _ _ _ _ c), Hfind by done.
    cbn [fst snd]. rewrite lookup_insert_eq. split_and!; [done| |].
    + intros Hzero. rewrite decide_True by (unfold u64 in Hzero; lia).
      apply host_reg_lookup.
    + intros Hrest. rewrite decide_False; [done|]. unfold u64 in Hrest. lia.
  - intros Hdead.
    apply (check_count_decrease_None _ _ _ (discoverer_task_check_count_get task))
      in Hdead.
    by rewrite Hdead.
Qed.
End FullMergeProperties.

Section FullMergeTheorem.
Context `{Constants} `{TaskCollaborators}.

(** C2, as the code has it: the full merge walks the addresses the range
    iterator yields. For an address without a probe result it first
    decreases the outstanding count by the task's check count. Only when
    that decrease succeeds and leaves 0 does it register the host: the
    cache then has an entry for the address, an empty one (no services,
    empty dnsname) if none was there. When the decrease leaves checks
    outstanding, or fails because the count is missing or already 0,
    the cache entry of the address is as before: nothing is inserted.
    The iterator yields pairwise distinct addresses. *)
Theorem results_merge_host_down task time_now check_counts hr_dst vr_src :
  let ips := zbx_iprange_uniq_ips (ipranges task) in
  let n := discoverer_task_check_count_get task in
  let st' := discover_results_merge check_counts hr_dst vr_src task time_now in
  NoDup (check_count_key (task_druleid task) <$> ips) →
  ∀ ip', ip' ∈ ips →
    results_ptr_bsearch vr_src (task_druleid task, ip') = None →
    (∀ c, check_counts !! check_count_key (task_druleid task) ip' = Some c → c ≠ 0 →
       st'.1.1 !! check_count_key (task_druleid task) ip' = Some (u64 (c - n))
       ∧ (u64 (c - n) = 0 →
            st'.1.2 !! (task_druleid task, ip')
            = Some (default (mk_results (task_druleid task) ip' (Some EmptyString) time_now
                               (task_unique_dcheckid task) 0 [])
                      (hr_dst !! (task_druleid task, ip'))))
       ∧ (u64 (c - n) ≠ 0 →
            st'.1.2 !! (task_druleid task, ip') = hr_dst !! (task_druleid task, ip')))
    ∧ (check_counts !! check_count_key (task_druleid task) ip' = None
       ∨ check_counts !! check_count_key (task_druleid task) ip' = Some 0 →
         st'.1.1 !! check_count_key (task_druleid task) ip'
         = check_counts !! check_count_key (task_druleid task) ip'
         ∧ st'.1.2 !! (task_druleid task, ip') = hr_dst !! (task_druleid task, ip')).
Proof.
  intros ips n st' Hnodup ip' Hip Hfind. subst st'. unfold discover_results_merge.
  fold ips. clearbody ips.
  apply list_elem_of_split in Hip as (before & after & ->).
  rewrite fmap_app, fmap_cons in Hnodup.
  apply NoDup_app in Hnodup as (_ & Hbefore & [Hafter _]%NoDup_cons).
  assert (check_count_key (task_druleid task) ip'
          ∉ check_count_key (task_druleid task) <$> before) as Hkb.
  { intros Hin. apply (Hbefore _ Hin). apply list_elem_of_here. }
  assert (ip' ∉ before) as Hib.
  { intros Hin. apply Hkb. by apply list_elem_of_fmap_2. }
  assert (ip' ∉ after) as Hia.
  { intros Hin. apply Hafter. by apply list_elem_of_fmap_2. }
  rewrite fold_left_app. cbn [fold_left].
  destruct (results_merge_fold_frame task time_now before (check_counts, hr_dst, vr_src))
    as (Bcc & Bhr & Bvr).
  destruct (fold_left _ before _) as [[cc1 hr1] vr1]. cbn [fst snd] in Bcc, Bhr, Bvr.
  destruct (results_merge_fold_frame task time_now after
              (results_merge_step task time_now (cc1, hr1, vr1) ip'))
    as (Acc & Ahr & _).
  destruct (results_merge_step_no_result task time_now cc1 hr1 vr1 ip' (Bvr _ Hfind))
    as (_ & Hlive & Hdead).
  rewrite Acc, Ahr by done. rewrite <- (Bcc _ Hkb), <- (Bhr _ Hib). split.
  - intros c Hc Hnz. destruct (Hlive c Hc Hnz) as (Hcount & Hzero & Hrest).
    split_and!; [done|done|]. intros Hne. by rewrite Hrest.
  - intros Hd. destruct (Hdead Hd) as [-> ->]. done.
Qed.
End FullMergeTheorem.

Section DroppedCommit.
Context `{Constants} `{TaskCollaborators}.

Lemma no_outstanding_insert check_counts key key' c v :
  no_outstanding check_counts key →
  check_counts !! key' = Some c → c ≠ 0 →
  no_outstanding (<[key' := v]> check_counts) key.
Proof.
  unfold no_outstanding. intros Hdead Hc Hnz.
  rewrite lookup_insert_ne; [done|]. intros <-. destruct Hdead; congruence.
Qed.

Lemma check_count_key_ip druleid' ip1 ip2 :
  check_count_key druleid' ip1 ≠ check_count_key druleid' ip2 → ip1 ≠ ip2.
Proof. congruence. Qed.

(** Partial merge: partials of an address without outstanding checks stay
    in the source vector and the cache entries of that address are kept. *)
Lemma partrange_merge_no_outstanding task force check_counts hr_dst vr_src ip' :
  no_outstanding check_counts (check_count_key (task_druleid task) ip') →
  let st' := discover_results_partrange_merge check_counts hr_dst vr_src task force in
  no_outstanding st'.1.1 (check_count_key (task_druleid task) ip')
  ∧ (∀ d, st'.1.2 !! (d, ip') = hr_dst !! (d, ip'))
  ∧ (∀ src, src ∈ vr_src → ip src = ip' → src ∈ st'.2).
Proof.
  intros Hdead. unfold discover_results_partrange_merge.
  induction vr_src as [|hd vr IH]; cbn [foldr].
  { split_and!; [done|done|]. intros ? Hin. by apply elem_of_nil in Hin. }
  destruct IH as (IHcc & IHhr & IHvr).
  destruct (partrange_merge_step_frame task force hd
              (foldr (partrange_merge_step task force) (check_counts, hr_dst, []) vr))
    as (_ & _ & _ & Skeep).
  destruct (foldr _ _ vr) as [[cc hr] vr'] eqn:Htail. cbn [fst snd] in *.
  assert (∀ src, src ∈ vr → ip src = ip' →
          src ∈ (partrange_merge_step task force hd (cc, hr, vr')).2) as Htl by auto.
  unfold partrange_merge_step in *.
  destruct (bool_decide (0 = force) && _).
  { cbn [fst snd] in *. split_and!; [done|done|].
    intros src [->|Hin]%elem_of_cons ?; [apply list_elem_of_here|auto]. }
  destruct (discoverer_check_count_decrease cc _ (ip hd) _) as [[cc' rest]|] eqn:Hdec.
  - apply check_count_decrease_inv in Hdec as (c & Hc & Hnz & _ & ->).
    assert (ip hd ≠ ip') as Hip.
    { apply check_count_key_ip with (task_druleid task). intros Heq.
      rewrite Heq in Hc. destruct IHcc; congruence. }
    cbn [fst snd] in *. split_and!.
    + by eapply no_outstanding_insert.
    + intros d. rewrite move_value_lookup_ne; [done|]. unfold result_key. congruence.
    + intros src [->|Hin]%elem_of_cons ?; [done|auto].
  - cbn [fst snd] in *. split_and!; [done|done|].
    intros src [->|Hin]%elem_of_cons ?; [apply list_elem_of_here|auto].
Qed.

(** Full merge: an address without outstanding checks is skipped. *)
Lemma results_merge_no_outstanding task time_now ips st ip' :
  no_outstanding st.1.1 (check_count_key (task_druleid task) ip') →
  let st' := fold_left (results_merge_step task time_now) ips st in
  no_outstanding st'.1.1 (check_count_key (task_druleid task) ip')
  ∧ (∀ d, st'.1.2 !! (d, ip') = st.1.2 !! (d, ip')).
Proof.
  revert st. induction ips as [|ip0 ips IH]; intros st Hdead; cbn [fold_left]; [done|].
  assert (no_outstanding (results_merge_step task time_now st ip0).1.1
            (check_count_key (task_druleid task) ip')
          ∧ ∀ d, (results_merge_step task time_now st ip0).1.2 !! (d, ip')
                 = st.1.2 !! (d, ip')) as [Hdead' Hhr].
  { destruct st as [[cc hr] vr]. cbn [fst snd] in *. unfold results_merge_step.
    destruct (discoverer_check_count_decrease cc _ ip0 _) as [[cc' rest]|] eqn:Hdec;
      [|done].
    apply check_count_decrease_inv in Hdec as (c & Hc & Hnz & _ & ->).
    assert (ip0 ≠ ip') as Hip.
    { apply check_count_key_ip with (task_druleid task). intros Heq.
      rewrite Heq in Hc. destruct Hdead; congruence. }
    destruct (results_ptr_bsearch vr _) as [[i src]|] eqn:Hfind; cbn [fst snd].
    - apply results_ptr_bsearch_key in Hfind. split; [by eapply no_outstanding_insert|].
      intros d. rewrite move_value_lookup_ne; [done|]. rewrite Hfind. congruence.
    - split; [by eapply no_outstanding_insert|].
      intros d. destruct (decide _); [|done].
      rewrite host_reg_lookup_ne; [done|]. congruence. }
  destruct (IH _ Hdead') as [? Hhr']. split; [done|].
  intros d. by rewrite Hhr', Hhr.
Qed.

(** C5: a commit that finds no outstanding-check entry for its
    (druleid, ip) is dropped without an error. In
    discoverer_net_check_common the return code is SUCCEED, the service
    built for the probe is freed, and both the result cache and the
    outstanding counts are exactly as before. In both merges the cache
    entry of the address is as before, and the partial merge leaves the
    partial in the worker's vector. The same holds when the entry exists
    with the count 0. *)
Theorem commit_without_outstanding_is_dropped check_counts results druleid' task ip' :
  no_outstanding check_counts (check_count_key druleid' ip') →
  (∀ agent_check_up dns time_now,
     state_ip task = ip' →
     let out := discoverer_net_check_common check_counts results druleid' task
                  agent_check_up dns time_now in
     nc_ret out = true
     ∧ nc_results out = results
     ∧ nc_check_counts out = check_counts
     ∧ (∀ dcheck, dchecks task !! index_dcheck task = Some dcheck →
          discover_service dcheck agent_check_up = true →
          nc_freed out
          = [mk_dservice (dc_dcheckid dcheck) (state_port task mod 2 ^ 16)
               DOBJECT_STATUS_UP EmptyString]))
  ∧ (∀ vr_src force,
       task_druleid task = druleid' →
       let st' := discover_results_partrange_merge check_counts results vr_src task force in
       st'.1.2 !! (druleid', ip') = results !! (druleid', ip')
       ∧ ∀ src, src ∈ vr_src → ip src = ip' → src ∈ st'.2)
  ∧ (∀ vr_src time_now,
       task_druleid task = druleid' →
       let st' := discover_results_merge check_counts results vr_src task time_now in
       st'.1.2 !! (druleid', ip') = results !! (druleid', ip')).
Proof.
  intros Hdead. split_and!.
  - intros up dns time_now Hip out. subst out ip'.
    apply (check_count_decrease_None _ _ _ 1) in Hdead.
    unfold discoverer_net_check_common.
    destruct (dchecks task !! index_dcheck task) as [dcheck|]; [|by split_and!].
    destruct (discover_service dcheck up) eqn:Hup; cbn [negb].
    + rewrite Hdead. split_and!; try done. by intros ? [= <-] _.
    + split_and!; try done. intros ? [= <-] ?. congruence.
  - intros vr_src force <- st'.
    destruct (partrange_merge_no_outstanding task force check_counts results vr_src ip'
                Hdead) as (_ & Hhr & Hvr).
    split; [apply Hhr|apply Hvr].
  - intros vr_src time_now <- st'.
    by destruct (results_merge_no_outstanding task time_now
                   (zbx_iprange_uniq_ips (ipranges task)) (check_counts, results, vr_src)
                   ip' Hdead) as (_ & Hhr).
Qed.
End DroppedCommit.

(** ** The rule scheduler *)

Section SchedulerProperties.
Context `{Constants} `{SchedulerCollaborators}.


(** C4: when process_rule returns with the local queue capacity used up,
    the rule is refused: one queue-full error is recorded for it through
    discoverer_queue_append_error and its id is appended to err_druleids,
    the expanded tasks are cleared, no job is created, no outstanding
    counts are added, the checks counted for the queue stay as they were,
    and the rule is queued again with its own delay. The rule is one the
    scheduler expands: it has no job, is not incomplete, and its delay and
    timeouts are valid. *)
Theorem process_discovery_queue_full incomplete_druleids env st drule delay
    tmts dchecks' unique :
  dr_druleid drule ∉ env_job_refs env →
  dr_druleid drule ∉ incomplete_druleids →
  zbx_is_time_suffix (zbx_substitute_simple_macros (delay_str drule)) = Some delay →
  resolve_timeouts (dr_dchecks drule)
    (pd_tmt_simple st, pd_tmt_agent st, pd_tmt_snmp st) (dr_unique_dcheckid drule)
  = inl (tmts, dchecks', unique) →
  let out :=
    process_rule
      (mk_drule (dr_druleid drule) (delay_str drule) dchecks' unique (dr_revision drule))
      (u64 (u64 (DISCOVERER_QUEUE_MAX_SIZE - env_pending_checks_count env)
            - pd_queue_checks_count st)) in
  pro_queue_capacity out = 0 →
  let st' := process_discovery_step incomplete_druleids st (env, drule) in
  pd_drule_errors st'
  = discoverer_queue_append_error (pd_drule_errors st) (dr_druleid drule)
      "discoverer queue is full, skipping discovery rule"
  ∧ pd_err_druleids st' = pd_err_druleids st ++ [dr_druleid drule]
  ∧ pd_jobs st' = pd_jobs st
  ∧ pd_check_counts st' = pd_check_counts st
  ∧ pd_queue_checks_count st' = pd_queue_checks_count st
  ∧ pd_rule_count st' = pd_rule_count st
  ∧ pd_calls st'
    = pd_calls st ++ (discoverer_task_clear <$> pro_tasks out)
        ++ (if program_type_server then [discovery_clean_services (dr_druleid drule)]
            else [])
        ++ [zbx_dc_drule_queue (env_now env) (dr_druleid drule) delay].
Proof.
  intros Hjob Hinc Hdelay Htmt out Hfull st'. subst st' out.
  unfold process_discovery_step, process_discovery_rule.
  rewrite (bool_decide_eq_false_2 _ Hjob), (bool_decide_eq_false_2 _ Hinc). cbn [orb].
  rewrite Hdelay. cbn [pd_set_delay pd_tmt_simple pd_tmt_agent pd_tmt_snmp
                       pd_queue_checks_count].
  rewrite Htmt. rewrite decide_True by done.
  cbn. split_and!; try done. by rewrite <- !(assoc_L (++)).
Qed.


(** X3: a due rule that already has a job, or that is still incomplete, is
    skipped before its delay is looked at: nothing is recorded, and the
    rule is queued again with the value the variable [delay] holds from
    an earlier iteration. *)
Lemma process_discovery_skipped incomplete_druleids env st drule :
  dr_druleid drule ∈ env_job_refs env ∨ dr_druleid drule ∈ incomplete_druleids →
  let st' := process_discovery_step incomplete_druleids st (env, drule) in
  pd_drule_errors st' = pd_drule_errors st
  ∧ pd_err_druleids st' = pd_err_druleids st
  ∧ pd_jobs st' = pd_jobs st
  ∧ pd_calls st'
    = pd_calls st
        ++ (if program_type_server then [discovery_clean_services (dr_druleid drule)]
            else [])
        ++ [zbx_dc_drule_queue (env_now env) (dr_druleid drule) (pd_delay st)].
Proof.
  intros Hskip st'. subst st'. unfold process_discovery_step, process_discovery_rule.
  destruct Hskip as [Hs|Hs].
  - rewrite (bool_decide_eq_true_2 _ Hs). by split_and!.
  - rewrite (bool_decide_eq_true_2 _ Hs), orb_true_r. by split_and!.
Qed.
End SchedulerProperties.

(** ** The worker loop *)

Section WorkerProperties.
Context `{Constants} `{TaskCollaborators} `{WorkerCollaborators}.

(** C6: after the pop of a task the job has one more worker; it is pushed
    back to the tail of the queue, with a notify, exactly when workers_max
    is 0 or workers_used is below workers_max, and is set to Waiting
    otherwise. The job comes from the queue, where a job with a cap has
    fewer workers than its cap ([worker_invariant_take] and
    [worker_invariant_finish] below show that the worker keeps it so). *)
Theorem worker_dispatch_push_or_wait queue job task :
  workers_max job = 0 ∨ workers_used job < workers_max job →
  let out := worker_dispatch queue job task in
  workers_used out.1.2 = workers_used job + 1
  ∧ (workers_max job = 0 ∨ workers_used out.1.2 < workers_max job →
       queue_jobs out.1.1 = queue_jobs queue ++ [job_druleid job]
       ∧ job_status out.1.2 = DISCOVERER_JOB_STATUS_QUEUED
       ∧ out.2 = true)
  ∧ (¬ (workers_max job = 0 ∨ workers_used out.1.2 < workers_max job) →
       queue_jobs out.1.1 = queue_jobs queue
       ∧ job_status out.1.2 = DISCOVERER_JOB_STATUS_WAITING
       ∧ out.2 = false).
Proof.
  intros Hcap out. subst out. unfold worker_dispatch.
  cbn [job_set_workers_used workers_max workers_used].
  destruct (bool_decide_reflect (0 = workers_max job)) as [Hmax|Hmax];
    destruct (bool_decide_reflect (workers_used job + 1 = workers_max job)) as [Hused|Hused];
    cbn; split_and!; try done; intros; try lia; exfalso; lia.
Qed.

(** X1: taking a job from the queue keeps the invariant of the job queue:
    the queue has no job twice, a job is stored under its rule, stays
    within its cap of workers, and a job in the queue has status QUEUED
    and a worker to spare. *)
Lemma worker_invariant_take m time_now out :
  worker_invariant m →
  worker_take m time_now = Some out →
  worker_invariant (wt_manager out).
Proof.
  intros [Hnodup Hkey Hcap Hqueued]. unfold worker_take, discoverer_queue_pop.
  destruct (queue_jobs (m_queue m)) as [|ref rest] eqn:Hq; [done|].
  apply NoDup_cons in Hnodup as [Hnotin Hrest].
  assert (∀ r job, m_job_refs m !! r = Some job → r ∈ rest →
          job_status job = DISCOVERER_JOB_STATUS_QUEUED
          ∧ (workers_max job = 0 ∨ workers_used job < workers_max job)) as Hq'.
  { intros r job Hjob Hin. apply (Hqueued r job Hjob). by apply list_elem_of_further. }
  destruct (m_job_refs m !! ref) as [job|] eqn:Hjob.
  2:{ intros [= <-]. by split. }
  pose proof (Hkey _ _ Hjob) as Hid.
  destruct (Hqueued ref job Hjob (list_elem_of_here _ _)) as [Hstatus Hroom].
  unfold discoverer_task_pop. destruct (tasks job) as [|task tasks'] eqn:Htasks.
  - destruct (decide (0 = workers_used job)); intros [= <-];
      split; cbn [wt_manager worker_job_remove m_queue m_job_refs queue_jobs];
      try done; winv_lookup Hj; winv_job.
  - unfold worker_dispatch. cbn [job_set_workers_used workers_max workers_used dchecks].
    assert (NoDup (rest ++ [job_druleid job])) as Hnodup'.
    { apply NoDup_app. split_and!; [done| |apply NoDup_singleton].
      intros x Hx Hx'%list_elem_of_singleton. congruence. }
    destruct (bool_decide_reflect (0 = workers_max job)) as [Hmax|Hmax];
      destruct (bool_decide_reflect (workers_used job + 1 = workers_max job))
        as [Hused|Hused]; cbn [orb negb]; winv_job; intros [= <-];
      split; cbn [wt_manager m_queue m_job_refs queue_jobs queue_set_pending];
      try done; winv_lookup Hj; winv_job.
    all: intros Hin; apply elem_of_app in Hin as [Hin|Hin%list_elem_of_singleton];
      [by eauto|congruence].
Qed.

(** X2: the bookkeeping at the end of a task keeps the invariant of the job
    queue, when discoverer_job_abort leaves the identity, the worker
    counters and the status of the job alone. *)
Lemma worker_invariant_finish m ref dcheck_type error' time_now :
  abort_keeps_job →
  worker_invariant m →
  worker_invariant (worker_finish m ref dcheck_type error' time_now).1.
Proof.
  intros Habort [Hnodup Hkey Hcap Hqueued]. unfold worker_finish.
  destruct (m_job_refs m !! ref) as [job|] eqn:Hjob; [|by split].
  assert (∀ job0, Some job = Some job0 →
          job_status job0 = DISCOVERER_JOB_STATUS_WAITING →
          ref ∉ queue_jobs (m_queue m)) as Hwait.
  { intros ? [= <-] Hw Hin. destruct (Hqueued _ _ Hjob Hin). congruence. }
  pose proof (Hkey _ _ Hjob) as Hid. pose proof (Hcap _ _ Hjob) as Hc.
  set (job1 := job_set_workers_used job (workers_used job - 1)).
  assert (∃ job2 pending errors,
    match error' with
    | Some e => discoverer_job_abort job1 (pending_checks_count (m_queue m))
                  (queue_errors (m_queue m)) e
    | None => (job1, pending_checks_count (m_queue m), queue_errors (m_queue m))
    end = (job2, pending, errors)
    ∧ job_druleid job2 = ref ∧ workers_used job2 = workers_used job - 1
    ∧ workers_max job2 = workers_max job ∧ job_status job2 = job_status job)
    as (job2 & pending & errors & -> & Hid2 & Hused2 & Hmax2 & Hst2).
  { destruct error' as [e|].
    - destruct (Habort job1 (pending_checks_count (m_queue m))
                  (queue_errors (m_queue m)) e) as (? & ? & ? & ?).
      destruct (discoverer_job_abort _ _ _ _) as [[job2 pending] errors].
      subst job1.
      cbn [fst snd job_set_workers_used job_druleid workers_used workers_max job_status]
        in *.
      exists job2, pending, errors. split_and!; [done|congruence..].
    - exists job1, (pending_checks_count (m_queue m)), (queue_errors (m_queue m)).
      by split_and!. }
  destruct (decide (job_status job2 = DISCOVERER_JOB_STATUS_WAITING)) as [Hw|Hw].
  - rewrite Hst2 in Hw. specialize (Hwait job eq_refl Hw).
    split; cbn [fst snd discoverer_queue_push m_queue m_job_refs queue_jobs
                job_set_status job_druleid].
    + rewrite Hid2. apply NoDup_app. split_and!; [done| |apply NoDup_singleton].
      intros x Hx Hx'%list_elem_of_singleton. congruence.
    + winv_lookup Hj; winv_job.
    + winv_lookup Hj; winv_job.
    + intros r j Hj. apply lookup_insert_Some in Hj as [[<- <-]|[Hne Hj]]; winv_job.
      rewrite Hid2. intros [Hin|Hin%list_elem_of_singleton]%elem_of_app; [eauto|done].
  - destruct (decide (job_status job2 = DISCOVERER_JOB_STATUS_REMOVING
                      ∧ 0 = workers_used job2)) as [Hr|Hr];
      split; cbn [fst snd worker_job_remove m_queue m_job_refs queue_jobs];
      try done; winv_lookup Hj; winv_job.
    intros Hin. destruct (Hqueued _ _ Hjob Hin) as [Hq Hroom].
    split; [congruence|lia].
Qed.

End WorkerProperties.

(** ** The drainer: what a cycle keeps, drops and reports *)

Section DrainCacheProperties.
Context `{Constants}.

Lemma services_num_app l1 l2 :
  services_num (l1 ++ l2) = services_num l1 + services_num l2.
Proof.
  unfold services_num. induction l1 as [|r l1 IH]; cbn [foldr app]; [done|]. lia.
Qed.

Lemma services_num_nonneg l : 0 ≤ services_num l.
Proof. unfold services_num. induction l as [|r l IH]; cbn [foldr]; [done|]. lia. Qed.

Lemma checks_sum_services_num vector : checks_sum vector = u64 (services_num vector).
Proof.
  induction vector as [|r vector IH] using rev_ind; [done|].
  rewrite checks_sum_snoc, services_num_app, IH. unfold u64. cbn.
  rewrite Z.add_0_r. by rewrite Zplus_mod_idemp_l.
Qed.

Lemma filter_snoc {A} (P : A → Prop) `{∀ x, Decision (P x)} (l : list A) (x : A) :
  filter P (l ++ [x]) = filter P l ++ (if decide (P x) then [x] else []).
Proof.
  rewrite filter_app. f_equal.
Qed.

Lemma filter_ext_in {A} (P Q : A → Prop) `{∀ x, Decision (P x)} `{∀ x, Decision (Q x)}
    (l : list A) :
  (∀ x, x ∈ l → P x ↔ Q x) → filter P l = filter Q l.
Proof.
  induction l as [|x l IH]; intros Hext; [done|].
  rewrite !filter_cons.
  assert (filter P l = filter Q l) as ->.
  { apply IH. intros y Hy. apply Hext. by apply list_elem_of_further. }
  destruct (decide (P x)) as [HP|HP], (decide (Q x)) as [HQ|HQ]; try done.
  - exfalso. apply HQ, Hext; [apply list_elem_of_here|done].
  - exfalso. apply HP, Hext; [apply list_elem_of_here|done].
Qed.

Lemma elem_of_snoc {A} (l : list A) (x : A) : x ∈ l ++ [x].
Proof. apply elem_of_app. right. by apply list_elem_of_singleton. Qed.

Lemma cache_invariant_init del_druleids results check_counts :
  cache_invariant del_druleids results [] (mk_scan results check_counts ∅ [] 0 0).
Proof.
  split; scan_simpl; try done.
  - intros r Hr. by apply elem_of_nil in Hr.
  - apply NoDup_nil_2.
  - intros r Hr. by apply elem_of_nil in Hr.
  - auto.
Qed.

Lemma cache_invariant_step del_druleids results visited st result :
  well_keyed results →
  results !! result_key result = Some result →
  result ∉ visited →
  cache_invariant del_druleids results visited st →
  cache_invariant del_druleids results (visited ++ [result])
    (process_results_step del_druleids st result).
Proof.
  intros Hwk Hres Hnew [Hvec Hnd Hsub Hgone Hkept].
  assert (result ∉ sc_vector st) as Hnv by (intros ?%Hvec; tauto).
  unfold process_results_step.
  destruct (decide (druleid result ∈ del_druleids)) as [Hdel|Hdel].
  { split; scan_simpl; try done.
    - intros r Hr. destruct (Hvec r Hr). split; [apply elem_of_app; auto|done].
    - etrans; [apply delete_subseteq|done].
    - intros r Hr Hflag. destruct (decide (result_key r = result_key result)) as [-> |Hne];
        [apply lookup_delete_eq|]. rewrite lookup_delete_ne by done.
      apply elem_of_app in Hr as [Hr| ->%list_elem_of_singleton]; [auto|done].
    - intros k r Hk. destruct (decide (k = result_key result)) as [-> |Hne].
      + right. assert (r = result) as -> by congruence.
        split; [apply elem_of_snoc|auto].
      + rewrite lookup_delete_ne by done. destruct (Hkept k r Hk) as [?|[? ?]]; auto.
        right. split; [apply elem_of_app; auto|done]. }
  destruct (bool_decide (DISCOVERER_BATCH_RESULTS_NUM ≤ res_check_count st) || _).
  { split; scan_simpl; try done.
    - intros r Hr. destruct (Hvec r Hr). split; [apply elem_of_app; auto|done].
    - intros r Hr [Hflag|Hflag]; [|by apply Hgone; [destruct (Hvec r Hflag)|auto]].
      apply elem_of_app in Hr as [Hr| ->%list_elem_of_singleton]; [auto|done].
    - intros k r Hk. destruct (Hkept k r Hk) as [?|[? ?]]; auto.
      right. split; [apply elem_of_app; auto|done]. }
  split; scan_simpl.
  - intros r [Hr| ->%list_elem_of_singleton]%elem_of_app.
    + destruct (Hvec r Hr). split; [apply elem_of_app; auto|done].
    + split; [apply elem_of_snoc|done].
  - apply NoDup_app. split_and!; [done| |apply NoDup_singleton].
    intros x Hx ->%list_elem_of_singleton. done.
  - etrans; [apply delete_subseteq|done].
  - intros r Hr Hflag. destruct (decide (result_key r = result_key result)) as [-> |Hne];
      [apply lookup_delete_eq|]. rewrite lookup_delete_ne by done.
    apply elem_of_app in Hr as [Hr| ->%list_elem_of_singleton]; [|done].
    apply Hgone; [done|]. destruct Hflag as [?|Hflag]; [auto|].
    apply elem_of_app in Hflag as [?| ->%list_elem_of_singleton]; [auto|done].
  - intros k r Hk. destruct (decide (k = result_key result)) as [-> |Hne].
    + right. assert (r = result) as -> by congruence.
      split; [apply elem_of_snoc|right; apply elem_of_snoc].
    + rewrite lookup_delete_ne by done. destruct (Hkept k r Hk) as [?|[? Hflag]]; auto.
      right. split; [apply elem_of_app; auto|].
      destruct Hflag; [auto|]. right. apply elem_of_app; auto.
Qed.

Lemma cache_invariant_fold del_druleids results entries visited st :
  well_keyed results →
  (∀ r, r ∈ entries → results !! result_key r = Some r) →
  NoDup (visited ++ entries) →
  cache_invariant del_druleids results visited st →
  cache_invariant del_druleids results (visited ++ entries)
    (fold_left (process_results_step del_druleids) entries st).
Proof.
  intros Hwk. revert visited st.
  induction entries as [|r entries IH]; intros visited st Hin Hnd Hinv.
  - by rewrite app_nil_r.
  - cbn [fold_left]. rewrite (assoc_L (++) visited [r] entries : visited ++ r :: entries = _).
    apply IH.
    + intros r' Hr'. apply Hin. by apply list_elem_of_further.
    + by rewrite <- (assoc_L (++)).
    + apply cache_invariant_step; [done| |  |done].
      * apply Hin, list_elem_of_here.
      * apply NoDup_app in Hnd as (_ & Hnd & _). intros Hr. apply (Hnd _ Hr).
        apply list_elem_of_here.
Qed.

Lemma leftover_invariant_init del_druleids results check_counts :
  leftover_invariant del_druleids [] (mk_scan results check_counts ∅ [] 0 0).
Proof.
  split; scan_simpl; cbn [res_check_total]; try done.
  intros d. split; [set_solver|]. intros (r & Hr & _). by apply elem_of_nil in Hr.
Qed.

Lemma leftover_invariant_step del_druleids visited st result :
  result ∉ visited →
  leftover_invariant del_druleids visited st →
  leftover_invariant del_druleids (visited ++ [result])
    (process_results_step del_druleids st result).
Proof.
  intros Hnew [Hvec Htotal Hrest Hinc].
  assert (result ∉ sc_vector st) as Hnv by (intros ?%Hvec; tauto).
  assert (∀ P `{∀ x, Decision (P x)},
            filter (λ r, P r ∧ (r ∉ sc_vector st ++ [result])) visited
            = filter (λ r, P r ∧ (r ∉ sc_vector st)) visited) as Hfilter.
  { intros P ?. apply filter_ext_in. intros x Hx.
    rewrite elem_of_app, list_elem_of_singleton.
    split; [intros [? Hn]; split; [done|]; intros ?; apply Hn; auto|].
    intros [? Hn]. split; [done|]. intros [?| ->]; done. }
  unfold process_results_step.
  destruct (decide (druleid result ∈ del_druleids)) as [Hdel|Hdel].
  { split; scan_simpl; cbn [res_check_total]; try done.
    - intros r Hr. apply elem_of_app; auto.
    - rewrite filter_snoc, decide_False by tauto. by rewrite app_nil_r.
    - rewrite !filter_snoc, decide_False, decide_False by tauto.
      by rewrite !app_nil_r.
    - intros d. rewrite Hinc. split; intros (r & Hr & ?); exists r.
      + split; [apply elem_of_app; auto|done].
      + apply elem_of_app in Hr as [Hr| ->%list_elem_of_singleton]; [done|].
        destruct_and!. congruence. }
  destruct (bool_decide (DISCOVERER_BATCH_RESULTS_NUM ≤ res_check_count st) || _).
  { split; scan_simpl; cbn [res_check_total]; try done.
    - intros r Hr. apply elem_of_app; auto.
    - rewrite Htotal, filter_snoc, decide_True, services_num_app by done.
      unfold u64. cbn. rewrite Z.add_0_r. by rewrite Zplus_mod_idemp_l.
    - rewrite !filter_snoc, decide_True, decide_True, !services_num_app by done. lia.
    - intros d. rewrite elem_of_union, elem_of_singleton, Hinc. split.
      + intros [-> |(r & Hr & ?)].
        * exists result. split_and!; try done. apply elem_of_snoc.
        * exists r. split; [apply elem_of_app; auto|done].
      + intros (r & Hr & Hd & ? & ?).
        apply elem_of_app in Hr as [Hr| ->%list_elem_of_singleton]; [|by left].
        right. by exists r. }
  split; scan_simpl; cbn [res_check_total].
  - intros r [Hr| ->%list_elem_of_singleton]%elem_of_app;
      [apply elem_of_app; auto|apply elem_of_snoc].
  - rewrite Htotal, filter_snoc, decide_True, services_num_app by done.
    unfold u64. cbn. rewrite Z.add_0_r. by rewrite Zplus_mod_idemp_l.
  - rewrite !filter_snoc, decide_True by done.
    rewrite decide_False.
    2:{ intros [_ Hn]. apply Hn. apply elem_of_snoc. }
    rewrite app_nil_r, Hfilter, !services_num_app. lia.
  - intros d. rewrite Hinc. split.
    + intros (r & Hr & Hd & ? & Hn). exists r. split_and!; try done.
      * apply elem_of_app; auto.
      * intros [?| ->%list_elem_of_singleton]%elem_of_app; done.
    + intros (r & Hr & Hd & ? & Hn).
      apply elem_of_app in Hr as [Hr| ->%list_elem_of_singleton].
      * exists r. split_and!; try done. intros ?. apply Hn. apply elem_of_app; auto.
      * exfalso. apply Hn. apply elem_of_snoc.
Qed.

Lemma leftover_invariant_fold del_druleids entries visited st :
  NoDup (visited ++ entries) →
  leftover_invariant del_druleids visited st →
  leftover_invariant del_druleids (visited ++ entries)
    (fold_left (process_results_step del_druleids) entries st).
Proof.
  revert visited st.
  induction entries as [|r entries IH]; intros visited st Hnd Hinv.
  - by rewrite app_nil_r.
  - cbn [fold_left]. rewrite (assoc_L (++) visited [r] entries : visited ++ r :: entries = _).
    apply IH; [by rewrite <- (assoc_L (++))|].
    apply leftover_invariant_step; [|done].
    apply NoDup_app in Hnd as (_ & Hnd & _). intros Hr. apply (Hnd _ Hr).
    apply list_elem_of_here.
Qed.

Lemma count_invariant_init results check_counts :
  count_invariant check_counts (mk_scan results check_counts ∅ [] 0 0).
Proof.
  split; scan_simpl; try done. intros r Hr. by apply elem_of_nil in Hr.
Qed.

Lemma count_invariant_step del_druleids check_counts st result :
  count_invariant check_counts st →
  count_invariant check_counts (process_results_step del_druleids st result).
Proof.
  intros [Hsub Hfl Hlive]. unfold process_results_step.
  destruct (decide (druleid result ∈ del_druleids)) as [Hdel|Hdel]; [by split|].
  destruct (bool_decide (DISCOVERER_BATCH_RESULTS_NUM ≤ res_check_count st)
            || match sc_check_counts st !! check_count_key (druleid result) (ip result) with
               | Some c => bool_decide (0 ≠ c)
               | None => false
               end) eqn:Hstay; [by split|].
  apply orb_false_iff in Hstay as [_ Hzero].
  assert (∀ k c, sc_check_counts st !! k = Some c → c ≠ 0 →
            k ≠ check_count_key (druleid result) (ip result)) as Hlivekey.
  { intros k c Hk Hnz ->. rewrite Hk in Hzero.
    apply bool_decide_eq_false in Hzero. apply Hzero. congruence. }
  assert (match sc_check_counts st !! check_count_key (druleid result) (ip result) with
          | Some _ => delete (check_count_key (druleid result) (ip result))
                        (sc_check_counts st)
          | None => sc_check_counts st
          end = delete (check_count_key (druleid result) (ip result)) (sc_check_counts st))
    as ->.
  { destruct (sc_check_counts st !! _) eqn:Hc; [done|]. by rewrite delete_id. }
  split; scan_simpl.
  - etrans; [apply delete_subseteq|done].
  - intros r [Hr| ->%list_elem_of_singleton]%elem_of_app; [|apply lookup_delete_eq].
    apply lookup_delete_None. auto.
  - intros k c Hk Hnz. rewrite lookup_delete_ne; [by eapply Hlive|].
    intros <-. eapply Hlivekey; [by eapply Hlive|done..].
Qed.

Lemma count_invariant_fold del_druleids check_counts entries st :
  count_invariant check_counts st →
  count_invariant check_counts (fold_left (process_results_step del_druleids) entries st).
Proof.
  revert st. induction entries as [|r entries IH]; intros st Hinv; [done|].
  cbn [fold_left]. by apply IH, count_invariant_step.
Qed.

(** The entries the iterator hands out are those of the cache, each once. *)
Lemma entries_of_cache results entries :
  well_keyed results →
  entries ≡ₚ (map_to_list results).*2 →
  NoDup entries ∧ ∀ r, r ∈ entries ↔ results !! result_key r = Some r.
Proof.
  intros Hwk Hperm. split.
  - rewrite Hperm. apply (NoDup_fmap_1 result_key).
    assert (result_key <$> (map_to_list results).*2 = (map_to_list results).*1) as ->.
    { rewrite <- list_fmap_compose. apply list_fmap_ext.
      intros i [k r] Hi. cbn. apply Hwk.
      by apply elem_of_map_to_list, list_elem_of_lookup_2 with i. }
    apply NoDup_fst_map_to_list.
  - intros r. rewrite Hperm, list_elem_of_fmap. split.
    + intros ([k r'] & -> & Hin). cbn. apply elem_of_map_to_list in Hin.
      by rewrite (Hwk _ _ Hin).
    + intros Hr. exists (result_key r, r). split; [done|]. by apply elem_of_map_to_list.
Qed.

End DrainCacheProperties.

Section DrainTheorems.
Context `{Constants}.
Variable dhostid_after : list db_call → Z.

Lemma process_results_in_order_fields entries results check_counts del_druleids
    drule_errors events_cbs :
  let out := process_results_in_order dhostid_after entries results check_counts
               del_druleids drule_errors events_cbs in
  let st := process_results_scan del_druleids results
              (process_results_incompletecheckscount_remove check_counts del_druleids)
              entries in
  pr_results out = filter (λ kv, druleid kv.2 ∉ err_druleid <$> drule_errors) (sc_results st)
  ∧ pr_check_counts out
    = filter (λ kv, kv.1.1 ∉ err_druleid <$> drule_errors) (sc_check_counts st)
  ∧ pr_unsaved_checks out = u64 (res_check_total st - res_check_count st).
Proof. done. Qed.

(** X5: one cycle of the drainer splits the cache. No result is handed on
    twice; each result handed on was in the cache, is not of a deleted
    rule and has left the cache; the cache that remains is part of the
    old one and holds no entry of a deleted rule or of a rule with a
    pending error; and every entry of the old cache was handed on, stays
    cached, or belongs to a deleted rule or to a rule with a pending
    error. *)
Theorem process_results_partition entries results check_counts del_druleids
    drule_errors events_cbs :
  let out := process_results_in_order dhostid_after entries results check_counts
               del_druleids drule_errors events_cbs in
  well_keyed results →
  entries ≡ₚ (map_to_list results).*2 →
  NoDup (pr_vector out)
  ∧ (∀ r, r ∈ pr_vector out →
       results !! result_key r = Some r
       ∧ (druleid r ∉ del_druleids)
       ∧ pr_results out !! result_key r = None)
  ∧ pr_results out ⊆ results
  ∧ (∀ k r, pr_results out !! k = Some r →
       (druleid r ∉ del_druleids) ∧ (druleid r ∉ err_druleid <$> drule_errors))
  ∧ (∀ k r, results !! k = Some r →
       r ∈ pr_vector out
       ∨ pr_results out !! k = Some r
       ∨ druleid r ∈ del_druleids
       ∨ druleid r ∈ err_druleid <$> drule_errors).
Proof.
  intros out Hwk Hperm.
  destruct (entries_of_cache results entries Hwk Hperm) as [Hnd Hin].
  destruct (process_results_in_order_scan dhostid_after entries results check_counts
              del_druleids drule_errors events_cbs) as (Hvec & _ & _).
  destruct (process_results_in_order_fields entries results check_counts del_druleids
              drule_errors events_cbs) as (Hres & _ & _).
  fold out in Hvec, Hres. rewrite Hvec, Hres. clear Hvec Hres out.
  unfold process_results_scan.
  pose proof (cache_invariant_fold del_druleids results entries [] _ Hwk
                (λ r Hr, proj1 (Hin r) Hr) Hnd
                (cache_invariant_init del_druleids results
                   (process_results_incompletecheckscount_remove check_counts
                      del_druleids))) as Hinv.
  rewrite app_nil_l in Hinv.
  set (st := fold_left (process_results_step del_druleids) entries _) in *.
  destruct Hinv as [Hvec Hndv Hsub Hgone Hkept].
  split_and!.
  - done.
  - intros r Hr. destruct (Hvec r Hr) as [Hre Hdel]. split_and!; [by apply Hin|done|].
    apply map_lookup_filter_None. left. apply Hgone; auto.
  - etrans; [apply map_filter_subseteq|done].
  - intros k r [Hk Herr]%map_lookup_filter_Some. split; [|done].
    intros Hdel. pose proof (lookup_weaken _ _ _ _ Hk Hsub) as Hr.
    assert (result_key r = k) as <- by by apply Hwk.
    rewrite Hgone in Hk; [done|by apply Hin|auto].
  - intros k r Hk. destruct (Hkept k r Hk) as [Hst|[_ [?|?]]]; auto.
    destruct (decide (druleid r ∈ err_druleid <$> drule_errors)); auto.
    right; left. by apply map_lookup_filter_Some.
Qed.

(** X6: the drainer only removes outstanding counts. The counts it leaves
    are counts it found; none of them is of a deleted rule or of a rule
    with a pending error; the address of a result handed on has no count
    left; and a count that is not 0 of any other rule is kept as it was. *)
Theorem process_results_check_counts entries results check_counts del_druleids
    drule_errors events_cbs :
  let out := process_results_in_order dhostid_after entries results check_counts
               del_druleids drule_errors events_cbs in
  pr_check_counts out ⊆ check_counts
  ∧ (∀ k c, pr_check_counts out !! k = Some c →
       (k.1 ∉ del_druleids) ∧ (k.1 ∉ err_druleid <$> drule_errors))
  ∧ (∀ r, r ∈ pr_vector out →
       pr_check_counts out !! check_count_key (druleid r) (ip r) = None)
  ∧ (∀ k c, check_counts !! k = Some c → c ≠ 0 →
       k.1 ∉ del_druleids → k.1 ∉ err_druleid <$> drule_errors →
       pr_check_counts out !! k = Some c).
Proof.
  intros out.
  destruct (process_results_in_order_scan dhostid_after entries results check_counts
              del_druleids drule_errors events_cbs) as (Hvec & _ & _).
  destruct (process_results_in_order_fields entries results check_counts del_druleids
              drule_errors events_cbs) as (_ & Hcc & _).
  fold out in Hvec, Hcc. rewrite Hvec, Hcc. clear Hvec Hcc out.
  unfold process_results_scan.
  pose proof (count_invariant_fold del_druleids _ entries _
                (count_invariant_init results
                   (process_results_incompletecheckscount_remove check_counts
                      del_druleids))) as Hinv.
  set (st := fold_left (process_results_step del_druleids) entries _) in *.
  destruct Hinv as [Hsub Hfl Hlive].
  unfold process_results_incompletecheckscount_remove in *.
  split_and!.
  - etrans; [apply map_filter_subseteq|]. etrans; [done|]. apply map_filter_subseteq.
  - intros k c [Hk Herr]%map_lookup_filter_Some. split; [|done].
    by pose proof (lookup_weaken _ _ _ _ Hk Hsub) as [_ ?]%map_lookup_filter_Some.
  - intros r Hr. apply map_lookup_filter_None. left. by apply Hfl.
  - intros k c Hk Hnz Hdel Herr. apply map_lookup_filter_Some. split; [|done].
    apply Hlive; [|done]. by apply map_lookup_filter_Some.
Qed.

(** X7: what the drainer reports as unfinished. A rule is in
    incomplete_druleids exactly when it is not deleted and one of its
    cache entries was visited without being handed on; unsaved_checks is
    the number of services of these entries, modulo 2^64. *)
Theorem process_results_leftover entries results check_counts del_druleids
    drule_errors events_cbs :
  let out := process_results_in_order dhostid_after entries results check_counts
               del_druleids drule_errors events_cbs in
  NoDup entries →
  (∀ d, d ∈ pr_incomplete_druleids out ↔
     ∃ r, r ∈ entries ∧ druleid r = d ∧ (d ∉ del_druleids) ∧ (r ∉ pr_vector out))
  ∧ pr_unsaved_checks out
    = u64 (services_num
             (filter (λ r, (druleid r ∉ del_druleids) ∧ (r ∉ pr_vector out)) entries)).
Proof.
  intros out Hnd.
  destruct (process_results_in_order_scan dhostid_after entries results check_counts
              del_druleids drule_errors events_cbs) as (Hvec & Hinc & _).
  destruct (process_results_in_order_fields entries results check_counts del_druleids
              drule_errors events_cbs) as (_ & _ & Huns).
  fold out in Hvec, Hinc, Huns. rewrite Hvec, Hinc, Huns. clear Hvec Hinc Huns out.
  unfold process_results_scan.
  pose proof (leftover_invariant_fold del_druleids entries [] _ Hnd
                (leftover_invariant_init del_druleids results
                   (process_results_incompletecheckscount_remove check_counts
                      del_druleids))) as Hinv.
  pose proof (scan_invariant_fold del_druleids _ entries []
                (mk_scan results _ ∅ [] 0 0)
                (scan_invariant_init del_druleids results
                   (process_results_incompletecheckscount_remove check_counts
                      del_druleids))) as Hscan.
  rewrite app_nil_l in Hinv.
  set (st := fold_left (process_results_step del_druleids) entries _) in *.
  destruct Hinv as [_ Htotal Hrest Hincomplete].
  destruct Hscan as [Hcount _ _ _].
  split; [done|].
  rewrite Htotal, Hcount, checks_sum_services_num, Hrest. unfold u64.
  rewrite <- Zminus_mod. f_equal. lia.
Qed.

(** The calls process_services makes are neither session calls nor
    updates of a host or a rule. *)
Lemma process_services_calls_plain druleid' ip' dns now' unique services' :
  let calls := (process_services dhostid_after druleid' ip' dns now' unique services').2 in
  Forall (λ c, ¬ session_call c) calls
  ∧ drule_updates calls = [] ∧ host_updates calls = [].
Proof.
  intros calls. subst calls.
  assert (∀ l : list zbx_discoverer_dservice_t,
    let cs := services_update_calls druleid' ip' dns now' unique l in
    Forall (λ c, ¬ session_call c) cs ∧ drule_updates cs = [] ∧ host_updates cs = [])
    as Hmap.
  { induction l as [|s l (IH1 & IH2 & IH3)]; cbn; [done|]. split_and!; [|done..].
    apply Forall_cons. split; [|done]. intros [?|?]; done. }
  unfold process_services, drule_updates, host_updates.
  destruct (Hmap services') as (M1 & M2 & M3).
  unfold drule_updates, host_updates in M2, M3.
  destruct (decide (length services' = 0%nat)); cbn [snd];
    destruct (decide _); rewrite ?omap_app, ?M2, ?M3, ?Forall_app, ?Forall_singleton;
    unfold session_call; cbn; split_and!; try done; intros [?|?]; done.
Qed.

Lemma process_results_emit_calls events_cbs errs calls r :
  ∃ added,
    (process_results_emit dhostid_after events_cbs (errs, calls) r).2 = calls ++ added
    ∧ Forall (λ c, ¬ session_call c) added
    ∧ drule_updates added
      = (if decide (ip r = EmptyString) then [(druleid r, now r)] else [])
    ∧ host_updates added
      = (if decide (ip r ≠ EmptyString ∧ is_Some (dnsname r))
         then [(druleid r, ip r, default EmptyString (dnsname r), now r)] else [])
    ∧ (∀ d text t, zbx_discovery_update_drule d (Some text) t ∈ added →
         ∃ e, e ∈ errs ∧ err_druleid e = d ∧ error e = text).
Proof.
  unfold process_results_emit.
  destruct (decide (ip r = EmptyString)) as [Hip|Hip].
  { rewrite decide_False by tauto.
    destruct (drule_error_search errs (druleid r)) as [[j e]|] eqn:Hfind; cbn [snd];
      eexists; (split; [done|]); split_and!; try done.
    - apply Forall_singleton. intros [?|?]; done.
    - intros d text t [= -> -> ->]%list_elem_of_singleton.
      apply list_find_Some in Hfind as (Hj & He & _).
      exists e. split_and!; [by eapply list_elem_of_lookup_2|done..].
    - apply Forall_singleton. intros [?|?]; done.
    - intros d text t [=]%list_elem_of_singleton. }
  destruct (dnsname r) as [dns|] eqn:Hdns.
  2:{ rewrite decide_False by (intros [_ [? ?]]; done).
      exists []. rewrite app_nil_r. split_and!; try done.
      intros ??? Hin. by apply elem_of_nil in Hin. }
  rewrite decide_True by (split; [done|by eexists]).
  pose proof (process_services_calls_plain (druleid r) (ip r) dns (now r)
                (unique_dcheckid r) (services r)) as (P1 & P2 & P3).
  destruct (process_services _ _ _ _ _ _ _) as [hs cs]. cbn [snd] in *.
  eexists. split; [done|].
  unfold drule_updates, host_updates in *. rewrite !omap_app, P2, P3.
  split_and!.
  - rewrite !Forall_app. split_and!; [done|..].
    + apply Forall_singleton. intros [?|?]; done.
    + destruct (has_process_events_cb events_cbs); [|done].
      apply Forall_singleton. intros [?|?]; done.
    + destruct (has_clean_events_cb events_cbs); [|done].
      apply Forall_singleton. intros [?|?]; done.
  - by destruct (has_process_events_cb events_cbs), (has_clean_events_cb events_cbs).
  - by destruct (has_process_events_cb events_cbs), (has_clean_events_cb events_cbs).
  - intros d text t Hin. exfalso.
    rewrite !elem_of_app, list_elem_of_singleton in Hin.
    destruct Hin as [Hin|[?|[Hin|Hin]]]; [|done| |].
    + assert (drule_updates [zbx_discovery_update_drule d (Some text) t] = []) as Hx; [|done].
      apply list_elem_of_split in Hin as (l1 & l2 & ->).
      unfold drule_updates in *. rewrite omap_app in P2. cbn in P2.
      by apply app_eq_nil in P2 as [_ ?].
    + destruct (has_process_events_cb events_cbs);
        [by apply list_elem_of_singleton in Hin|by apply elem_of_nil in Hin].
    + destruct (has_clean_events_cb events_cbs);
        [by apply list_elem_of_singleton in Hin|by apply elem_of_nil in Hin].
Qed.

Lemma elem_of_delete_ne {A} (l : list A) (j : nat) (x y : A) :
  l !! j = Some y → x ≠ y → x ∈ l → x ∈ delete j l.
Proof.
  intros Hj Hne Hin. rewrite <- (take_drop_middle l j y Hj) in Hin.
  rewrite delete_take_drop.
  rewrite elem_of_app, elem_of_cons in Hin. rewrite elem_of_app. tauto.
Qed.

Lemma process_results_emit_errors events_cbs errs calls r :
  let errs' := (process_results_emit dhostid_after events_cbs (errs, calls) r).1 in
  sublist errs' errs
  ∧ (length errs ≤ length errs' + (if decide (ip r = EmptyString) then 1 else 0))%nat
  ∧ (∀ e, e ∈ errs → (ip r = EmptyString → druleid r ≠ err_druleid e) → e ∈ errs').
Proof.
  unfold process_results_emit.
  destruct (decide (ip r = EmptyString)) as [Hip|Hip].
  - destruct (drule_error_search errs (druleid r)) as [[j e]|] eqn:Hfind; cbn [fst].
    + apply list_find_Some in Hfind as (Hj & He & _). split_and!.
      * apply sublist_delete.
      * rewrite length_delete by by eexists. lia.
      * intros e' Hin Hne. apply elem_of_delete_ne with e; [done| |done].
        intros ->. by apply Hne.
    + split_and!; [done|lia|done].
  - destruct (dnsname r); [destruct (process_services _ _ _ _ _ _ _)|]; cbn [fst];
      (split_and!; [done|lia|done]).
Qed.

Lemma process_results_emit_fold_calls events_cbs vector errs calls :
  let out := fold_left (process_results_emit dhostid_after events_cbs) vector
               (errs, calls) in
  sublist out.1 errs
  ∧ (length errs ≤ length out.1 + length (filter (λ r, ip r = EmptyString) vector))%nat
  ∧ (∀ e, e ∈ errs →
       (∀ r, r ∈ vector → ip r = EmptyString → druleid r ≠ err_druleid e) → e ∈ out.1)
  ∧ ∃ added,
      out.2 = calls ++ added
      ∧ Forall (λ c, ¬ session_call c) added
      ∧ drule_updates added
        = (λ r, (druleid r, now r)) <$> filter (λ r, ip r = EmptyString) vector
      ∧ host_updates added
        = (λ r, (druleid r, ip r, default EmptyString (dnsname r), now r))
            <$> filter (λ r, ip r ≠ EmptyString ∧ is_Some (dnsname r)) vector
      ∧ (∀ d text t, zbx_discovery_update_drule d (Some text) t ∈ added →
           ∃ e, e ∈ errs ∧ err_druleid e = d ∧ error e = text).
Proof.
  intros out. subst out. revert errs calls.
  induction vector as [|r vector IH]; intros errs calls.
  { cbn. split_and!; [done|lia|done|]. exists []. rewrite app_nil_r.
    split_and!; try done. intros ??? Hin. by apply elem_of_nil in Hin. }
  cbn [fold_left].
  destruct (process_results_emit_calls events_cbs errs calls r)
    as (added1 & Hc1 & Hs1 & Hd1 & Hh1 & Ht1).
  destruct (process_results_emit_errors events_cbs errs calls r) as (Hsub1 & Hlen1 & Hkeep1).
  destruct (process_results_emit dhostid_after events_cbs (errs, calls) r)
    as [errs1 calls1]. cbn [fst snd] in *. subst calls1.
  destruct (IH errs1 (calls ++ added1)) as (Hsub & Hlen & Hkeep & added & Hc & Hs & Hd & Hh & Ht).
  rewrite !filter_cons.
  split_and!.
  - by etrans.
  - destruct (decide (ip r = EmptyString)); cbn [length]; lia.
  - intros e He Hno. apply Hkeep.
    + apply Hkeep1; [done|]. apply Hno, list_elem_of_here.
    + intros r' Hr'. apply Hno. by apply list_elem_of_further.
  - exists (added1 ++ added). rewrite Hc, (assoc_L (++)).
    unfold drule_updates, host_updates in *. rewrite !omap_app, Hd, Hh, Hd1, Hh1.
    split_and!; [done|by apply Forall_app| | |].
    + by destruct (decide (ip r = EmptyString)).
    + by destruct (decide (ip r ≠ EmptyString ∧ is_Some (dnsname r))).
    + intros d text t [Hin|Hin]%elem_of_app; [by apply (Ht1 d text t)|].
      destruct (Ht d text t Hin) as (e & He & ?). exists e. split; [|done].
      by eapply elem_of_sublist.
Qed.

Lemma process_results_in_order_errors entries results check_counts del_druleids
    drule_errors events_cbs :
  let out := process_results_in_order dhostid_after entries results check_counts
               del_druleids drule_errors events_cbs in
  pr_drule_errors out
  = (fold_left (process_results_emit dhostid_after events_cbs) (pr_vector out)
       (drule_errors, [zbx_discovery_open])).1.
Proof.
  unfold process_results_in_order. cbn [pr_drule_errors pr_vector].
  by destruct (sc_vector _).
Qed.

(** X8: the database session of a cycle. The drainer makes no call at all
    exactly when it hands on no result; otherwise its calls start with
    zbx_discovery_open, end with zbx_discovery_close, and neither occurs
    in between. *)
Theorem process_results_session entries results check_counts del_druleids
    drule_errors events_cbs :
  let out := process_results_in_order dhostid_after entries results check_counts
               del_druleids drule_errors events_cbs in
  (pr_vector out = [] ↔ pr_calls out = [])
  ∧ (pr_calls out = []
     ∨ ∃ mid, pr_calls out = zbx_discovery_open :: mid ++ [zbx_discovery_close]
              ∧ (zbx_discovery_open ∉ mid) ∧ (zbx_discovery_close ∉ mid)).
Proof.
  intros out. subst out. rewrite process_results_in_order_calls.
  set (out := process_results_in_order _ _ _ _ _ _ _).
  destruct (process_results_emit_fold_calls events_cbs (pr_vector out) drule_errors
              [zbx_discovery_open]) as (_ & _ & _ & added & Hc & Hs & _).
  destruct (pr_vector out) as [|r vector]; [by split; [|left]|].
  rewrite Hc. split; [split; [done|]; intros ?; by destruct added|].
  right. exists added. split; [done|].
  rewrite Forall_forall in Hs. unfold session_call in Hs.
  split; intros Hin; apply (Hs _ Hin); auto.
Qed.

(** X9: one update per result. The zbx_discovery_update_drule calls of a
    cycle are, in order, one for each result handed on with the empty
    address, for its rule and time; the zbx_discovery_update_host calls
    are one for each result handed on with an address and a dnsname, for
    its rule, address, dnsname and time. *)
Theorem process_results_one_update_each entries results check_counts del_druleids
    drule_errors events_cbs :
  let out := process_results_in_order dhostid_after entries results check_counts
               del_druleids drule_errors events_cbs in
  drule_updates (pr_calls out)
  = (λ r, (druleid r, now r)) <$> filter (λ r, ip r = EmptyString) (pr_vector out)
  ∧ host_updates (pr_calls out)
    = (λ r, (druleid r, ip r, default EmptyString (dnsname r), now r))
        <$> filter (λ r, ip r ≠ EmptyString ∧ is_Some (dnsname r)) (pr_vector out).
Proof.
  intros out. subst out. rewrite process_results_in_order_calls.
  set (out := process_results_in_order _ _ _ _ _ _ _).
  destruct (process_results_emit_fold_calls events_cbs (pr_vector out) drule_errors
              [zbx_discovery_open]) as (_ & _ & _ & added & Hc & _ & Hd & Hh & _).
  destruct (pr_vector out) as [|r vector] eqn:Hv; [done|].
  rewrite Hc. unfold drule_updates, host_updates in *.
  rewrite !omap_app, Hd, Hh. cbn. by rewrite !app_nil_r.
Qed.

(** X10: the pending rule errors. The drainer keeps the order of the errors
    it leaves and takes at most one for each result with the empty address
    that it hands on; the errors of a rule without such a result all stay;
    and an error text written with zbx_discovery_update_drule is the text
    of an error that was pending for that rule. *)
Theorem process_results_errors entries results check_counts del_druleids
    drule_errors events_cbs :
  let out := process_results_in_order dhostid_after entries results check_counts
               del_druleids drule_errors events_cbs in
  sublist (pr_drule_errors out) drule_errors
  ∧ (length drule_errors
     ≤ length (pr_drule_errors out)
       + length (filter (λ r, ip r = EmptyString) (pr_vector out)))%nat
  ∧ (∀ e, e ∈ drule_errors →
       (∀ r, r ∈ pr_vector out → ip r = EmptyString → druleid r ≠ err_druleid e) →
       e ∈ pr_drule_errors out)
  ∧ (∀ d text t, zbx_discovery_update_drule d (Some text) t ∈ pr_calls out →
       ∃ e, e ∈ drule_errors ∧ err_druleid e = d ∧ error e = text).
Proof.
  intros out. subst out.
  rewrite process_results_in_order_calls, process_results_in_order_errors.
  set (out := process_results_in_order _ _ _ _ _ _ _).
  destruct (process_results_emit_fold_calls events_cbs (pr_vector out) drule_errors
              [zbx_discovery_open]) as (Hsub & Hlen & Hkeep & added & Hc & _ & _ & _ & Ht).
  split_and!; [done..|].
  intros d text t Hin. apply (Ht d text t).
  destruct (pr_vector out); [by apply elem_of_nil in Hin|].
  rewrite Hc in Hin. rewrite !elem_of_app, !list_elem_of_singleton in Hin.
  destruct Hin as [[?|?]|?]; done.
Qed.

End DrainTheorems.

(** ** The writers of the cache *)

Lemma extends_refl r : extends r r.
Proof. unfold extends. split_and!; auto. Qed.

Lemma extends_trans r1 r2 r3 : extends r1 r2 → extends r2 r3 → extends r1 r3.
Proof.
  unfold extends. intros (? & ? & ? & ? & ? & Hd1) (? & ? & ? & ? & ? & Hd2).
  split_and!; try congruence; [by etrans|].
  destruct Hd1 as [Hd1|Hd1]; [|auto]. rewrite Hd1 in Hd2. destruct Hd2; auto.
Qed.

Lemma cache_grows_refl hr : cache_grows hr hr.
Proof. intros k old Hk. exists old. split; [done|apply extends_refl]. Qed.

Lemma cache_grows_trans hr1 hr2 hr3 :
  cache_grows hr1 hr2 → cache_grows hr2 hr3 → cache_grows hr1 hr3.
Proof.
  intros H12 H23 k old Hk. destruct (H12 k old Hk) as (mid & Hmid & E1).
  destruct (H23 k mid Hmid) as (new & Hnew & E2). exists new.
  split; [done|by eapply extends_trans].
Qed.

Lemma host_reg_well_keyed hr druleid' unique ip' time_now :
  well_keyed hr → well_keyed (discover_results_host_reg hr druleid' unique ip' time_now).
Proof.
  intros Hwk. unfold discover_results_host_reg.
  destruct (hr !! (druleid', ip')); [done|].
  intros k r [[<- <-]|[_ Hr]]%lookup_insert_Some; [done|by apply Hwk].
Qed.

Lemma host_reg_grows hr druleid' unique ip' time_now :
  cache_grows hr (discover_results_host_reg hr druleid' unique ip' time_now).
Proof.
  unfold discover_results_host_reg.
  destruct (hr !! (druleid', ip')) eqn:Hk; [apply cache_grows_refl|].
  intros k old Hold. exists old. split; [|apply extends_refl].
  rewrite lookup_insert_ne; [done|]. congruence.
Qed.

Lemma move_value_well_keyed src hr :
  well_keyed hr → well_keyed (discover_results_move_value src hr).
Proof.
  intros Hwk. unfold discover_results_move_value.
  destruct (hr !! result_key src) as [dst|] eqn:Hdst.
  - intros k r [[<- <-]|[_ Hr]]%lookup_insert_Some; [|by apply Hwk].
    by apply Hwk in Hdst.
  - intros k r [[<- <-]|[_ Hr]]%lookup_insert_Some; [done|by apply Hwk].
Qed.

Lemma move_value_grows src hr :
  cache_grows hr (discover_results_move_value src hr).
Proof.
  unfold discover_results_move_value.
  destruct (hr !! result_key src) as [dst|] eqn:Hdst.
  - intros k old Hold. destruct (decide (k = result_key src)) as [-> |Hne].
    + rewrite lookup_insert_eq. eexists. split; [done|].
      assert (old = dst) as -> by congruence.
      unfold extends. cbn. split_and!; try done; [by apply prefix_app_r|].
      destruct (bool_decide_reflect (dnsname dst = Some EmptyString)); cbn; auto.
    + rewrite lookup_insert_ne by done. exists old. split; [done|apply extends_refl].
  - intros k old Hold. exists old. split; [|apply extends_refl].
    rewrite lookup_insert_ne; [done|]. congruence.
Qed.

Section CacheWriters.
Context `{Constants} `{TaskCollaborators}.

Lemma partrange_merge_well_keyed task force check_counts hr_dst vr_src :
  well_keyed hr_dst →
  well_keyed (discover_results_partrange_merge check_counts hr_dst vr_src task force).1.2.
Proof.
  intros Hwk. unfold discover_results_partrange_merge.
  induction vr_src as [|src vr IH]; cbn [foldr]; [done|].
  destruct (foldr _ _ vr) as [[cc hr] vr']. cbn [fst snd] in *.
  unfold partrange_merge_step.
  destruct (bool_decide (0 = force) && _); [done|].
  destruct (discoverer_check_count_decrease _ _ _ _) as [[cc' rest]|]; cbn [fst snd];
    [by apply move_value_well_keyed|done].
Qed.

Lemma partrange_merge_grows task force check_counts hr_dst vr_src :
  cache_grows hr_dst
    (discover_results_partrange_merge check_counts hr_dst vr_src task force).1.2.
Proof.
  unfold discover_results_partrange_merge.
  induction vr_src as [|src vr IH]; cbn [foldr]; [apply cache_grows_refl|].
  destruct (foldr _ _ vr) as [[cc hr] vr']. cbn [fst snd] in *.
  unfold partrange_merge_step.
  destruct (bool_decide (0 = force) && _); [done|].
  destruct (discoverer_check_count_decrease _ _ _ _) as [[cc' rest]|]; cbn [fst snd];
    [|done].
  eapply cache_grows_trans; [exact IH|apply move_value_grows].
Qed.

Lemma results_merge_step_well_keyed task time_now st ip' :
  well_keyed st.1.2 → well_keyed (results_merge_step task time_now st ip').1.2.
Proof.
  destruct st as [[cc hr] vr]. cbn [fst snd]. intros Hwk. unfold results_merge_step.
  destruct (discoverer_check_count_decrease _ _ _ _) as [[cc' rest]|]; [|done].
  destruct (results_ptr_bsearch vr _) as [[i src]|]; cbn [fst snd].
  - by apply move_value_well_keyed.
  - destruct (decide (0 = rest)); [|done]. by apply host_reg_well_keyed.
Qed.

Lemma results_merge_step_grows task time_now st ip' :
  cache_grows st.1.2 (results_merge_step task time_now st ip').1.2.
Proof.
  destruct st as [[cc hr] vr]. cbn [fst snd]. unfold results_merge_step.
  destruct (discoverer_check_count_decrease _ _ _ _) as [[cc' rest]|];
    [|apply cache_grows_refl].
  destruct (results_ptr_bsearch vr _) as [[i src]|]; cbn [fst snd].
  - apply move_value_grows.
  - destruct (decide (0 = rest)); [|apply cache_grows_refl]. apply host_reg_grows.
Qed.

Lemma results_merge_well_keyed task time_now check_counts hr_dst vr_src :
  well_keyed hr_dst →
  well_keyed (discover_results_merge check_counts hr_dst vr_src task time_now).1.2.
Proof.
  unfold discover_results_merge.
  generalize (zbx_iprange_uniq_ips (ipranges task)). intros ips.
  assert (∀ st, well_keyed st.1.2 →
            well_keyed (fold_left (results_merge_step task time_now) ips st).1.2)
    as Hfold.
  { induction ips as [|ip0 ips IH]; intros st Hwk; cbn [fold_left]; [done|].
    by apply IH, results_merge_step_well_keyed. }
  intros Hwk. by apply (Hfold (check_counts, hr_dst, vr_src)).
Qed.

Lemma results_merge_grows task time_now check_counts hr_dst vr_src :
  cache_grows hr_dst (discover_results_merge check_counts hr_dst vr_src task time_now).1.2.
Proof.
  unfold discover_results_merge.
  generalize (zbx_iprange_uniq_ips (ipranges task)). intros ips.
  assert (∀ st, cache_grows st.1.2
                  (fold_left (results_merge_step task time_now) ips st).1.2) as Hfold.
  { induction ips as [|ip0 ips IH]; intros st; cbn [fold_left]; [apply cache_grows_refl|].
    eapply cache_grows_trans; [apply results_merge_step_grows|apply IH]. }
  apply (Hfold (check_counts, hr_dst, vr_src)).
Qed.

Lemma net_check_common_cache check_counts results druleid' task agent_check_up dns
    time_now :
  let out := discoverer_net_check_common check_counts results druleid' task
               agent_check_up dns time_now in
  (well_keyed results → well_keyed (nc_results out))
  ∧ cache_grows results (nc_results out).
Proof.
  unfold discoverer_net_check_common.
  destruct (dchecks task !! index_dcheck task) as [dcheck|];
    [|split; [done|apply cache_grows_refl]].
  destruct (negb _); [split; [done|apply cache_grows_refl]|].
  destruct (discoverer_check_count_decrease _ _ _ _) as [[cc' rest]|];
    [|split; [done|apply cache_grows_refl]].
  cbn [nc_results].
  pose proof (host_reg_well_keyed results druleid' (task_unique_dcheckid task)
                (state_ip task) time_now) as Hwk1.
  pose proof (host_reg_grows results druleid' (task_unique_dcheckid task)
                (state_ip task) time_now) as Hg1.
  set (results' := discover_results_host_reg _ _ _ _ _) in *.
  destruct (results' !! (druleid', state_ip task)) as [result|] eqn:Hres; [|done].
  split.
  - intros Hwk k r [[<- <-]|[_ Hr]]%lookup_insert_Some; [|by apply Hwk1].
    by apply Hwk1 in Hres.
  - eapply cache_grows_trans; [exact Hg1|].
    intros k old Hold. destruct (decide (k = (druleid', state_ip task))) as [-> |Hne].
    + rewrite lookup_insert_eq. eexists. split; [done|].
      assert (old = result) as -> by congruence.
      unfold extends. cbn. split_and!; try done; [by apply prefix_app_r|].
      destruct (dnsname result) as [d|]; [|auto].
      destruct (bool_decide_reflect (d = EmptyString)) as [-> |]; cbn; auto.
    + rewrite lookup_insert_ne by done. exists old. split; [done|apply extends_refl].
Qed.

(** X11: in a cache whose entries are stored under their own rule and
    address, they still are after discover_results_host_reg,
    discover_results_move_value, discover_results_partrange_merge,
    discover_results_merge, discoverer_net_check_common and a cycle of the
    drainer. *)
Theorem cache_writers_keep_keys (hr : results_hashset) :
  well_keyed hr →
  (∀ druleid' unique ip' time_now,
     well_keyed (discover_results_host_reg hr druleid' unique ip' time_now))
  ∧ (∀ src, well_keyed (discover_results_move_value src hr))
  ∧ (∀ check_counts vr_src task force,
       well_keyed (discover_results_partrange_merge check_counts hr vr_src task force).1.2)
  ∧ (∀ check_counts vr_src task time_now,
       well_keyed (discover_results_merge check_counts hr vr_src task time_now).1.2)
  ∧ (∀ check_counts druleid' task agent_check_up dns time_now,
       well_keyed
         (nc_results (discoverer_net_check_common check_counts hr druleid' task
                        agent_check_up dns time_now)))
  ∧ (∀ dhostid_after entries check_counts del_druleids drule_errors events_cbs,
       well_keyed
         (pr_results (process_results_in_order dhostid_after entries hr check_counts
                        del_druleids drule_errors events_cbs))).
Proof.
  intros Hwk. split_and!.
  - intros. by apply host_reg_well_keyed.
  - intros. by apply move_value_well_keyed.
  - intros. by apply partrange_merge_well_keyed.
  - intros. by apply results_merge_well_keyed.
  - intros. by apply net_check_common_cache.
  - intros dhostid_after entries check_counts del_druleids drule_errors events_cbs.
    destruct (process_results_in_order_fields dhostid_after entries hr check_counts
                del_druleids drule_errors events_cbs) as (-> & _ & _).
    assert (∀ st, sc_results st ⊆ hr →
              sc_results (fold_left (process_results_step del_druleids) entries st) ⊆ hr)
      as Hsub.
    { induction entries as [|r entries IH]; intros st Hst; [done|]. cbn [fold_left].
      apply IH. unfold process_results_step.
      destruct (decide _); [cbn; etrans; [apply delete_subseteq|done]|].
      destruct (_ || _); [done|]. cbn. etrans; [apply delete_subseteq|done]. }
    intros k r [Hk _]%map_lookup_filter_Some. apply Hwk.
    eapply lookup_weaken; [exact Hk|]. by apply Hsub.
Qed.

(** X12: a commit of the workers never loses what the cache holds. After
    discover_results_host_reg, discover_results_move_value, the two merges
    and discoverer_net_check_common every entry is still there for the same
    host, with its services as a prefix of the new ones, and with its
    dnsname unless that was empty or unset. *)
Theorem cache_commits_keep_entries (hr : results_hashset) :
  (∀ druleid' unique ip' time_now,
     cache_grows hr (discover_results_host_reg hr druleid' unique ip' time_now))
  ∧ (∀ src, cache_grows hr (discover_results_move_value src hr))
  ∧ (∀ check_counts vr_src task force,
       cache_grows hr
         (discover_results_partrange_merge check_counts hr vr_src task force).1.2)
  ∧ (∀ check_counts vr_src task time_now,
       cache_grows hr (discover_results_merge check_counts hr vr_src task time_now).1.2)
  ∧ (∀ check_counts druleid' task agent_check_up dns time_now,
       cache_grows hr
         (nc_results (discoverer_net_check_common check_counts hr druleid' task
                        agent_check_up dns time_now))).
Proof.
  split_and!.
  - intros. apply host_reg_grows.
  - intros. apply move_value_grows.
  - intros. apply partrange_merge_grows.
  - intros. apply results_merge_grows.
  - intros. apply net_check_common_cache.
Qed.
End CacheWriters.

Lemma NoDup_fmap_inj_in {A B} (f : A → B) (l : list A) (x y : A) :
  NoDup (f <$> l) → x ∈ l → y ∈ l → f x = f y → x = y.
Proof.
  induction l as [|a l IH]; intros Hnd Hx Hy Heq; [by apply elem_of_nil in Hx|].
  rewrite fmap_cons in Hnd. apply NoDup_cons in Hnd as [Ha Hnd].
  apply elem_of_cons in Hx as [-> |Hx], Hy as [-> |Hy]; auto.
  - exfalso. apply Ha. rewrite Heq. by apply list_elem_of_fmap_2.
  - exfalso. apply Ha. rewrite <- Heq. by apply list_elem_of_fmap_2.
Qed.

Lemma not_elem_of_delete_NoDup {A} (l : list A) (i : nat) (x : A) :
  NoDup l → l !! i = Some x → x ∉ delete i l.
Proof.
  intros Hnd Hi. rewrite <- (take_drop_middle l i x Hi) in Hnd.
  rewrite delete_take_drop. apply NoDup_app in Hnd as (_ & Hnot & [Hx _]%NoDup_cons).
  intros [Hin|Hin]%elem_of_app; [|done]. apply (Hnot _ Hin), list_elem_of_here.
Qed.

Section FullMergeMoves.
Context `{Constants} `{TaskCollaborators}.

(** One address of the full merge takes at most the partial of its own key
    out of the source vector. *)
Lemma results_merge_step_vector task time_now st ip' :
  let st' := results_merge_step task time_now st ip' in
  st'.2 `sublist_of` st.2
  ∧ ∀ r, r ∈ st.2 → result_key r ≠ (task_druleid task, ip') → r ∈ st'.2.
Proof.
  destruct st as [[cc hr] vr]. cbn [fst snd]. unfold results_merge_step.
  destruct (discoverer_check_count_decrease _ _ _ _) as [[cc' rest]|]; [|done].
  destruct (results_ptr_bsearch vr _) as [[i src]|] eqn:Hfind; cbn [fst snd]; [|done].
  apply list_find_Some in Hfind as (Hi & Hkey & _).
  split; [apply sublist_delete|].
  intros r Hr Hne. apply elem_of_delete_ne with src; [done| |done]. congruence.
Qed.

Lemma results_merge_fold_vector task time_now ips st :
  let st' := fold_left (results_merge_step task time_now) ips st in
  st'.2 `sublist_of` st.2
  ∧ ∀ r, r ∈ st.2 → (∀ ip', ip' ∈ ips → result_key r ≠ (task_druleid task, ip')) →
      r ∈ st'.2.
Proof.
  revert st. induction ips as [|ip0 ips IH]; intros st; cbn [fold_left]; [done|].
  destruct (IH (results_merge_step task time_now st ip0)) as [IHs IHk].
  destruct (results_merge_step_vector task time_now st ip0) as [Hs Hk].
  split; [by etrans|].
  intros r Hr Hne. apply IHk.
  - apply Hk; [done|]. apply Hne, list_elem_of_here.
  - intros ip' Hip'. apply Hne. by apply list_elem_of_further.
Qed.

(** The step for the address of a partial that is in the source vector. *)
Lemma results_merge_step_result task time_now check_counts hr_dst vr_src src :
  NoDup (result_key <$> vr_src) →
  src ∈ vr_src →
  druleid src = task_druleid task →
  let st' := results_merge_step task time_now (check_counts, hr_dst, vr_src) (ip src) in
  let key := check_count_key (task_druleid task) (ip src) in
  let n := discoverer_task_check_count_get task in
  (∀ c, check_counts !! key = Some c → c ≠ 0 →
     (src ∉ st'.2)
     ∧ st'.1.1 !! key = Some (u64 (c - n))
     ∧ ∃ dst, st'.1.2 !! result_key src = Some dst
         ∧ services dst
           = from_option services [] (hr_dst !! result_key src) ++ services src)
  ∧ (no_outstanding check_counts key → st' = (check_counts, hr_dst, vr_src)).
Proof.
  intros Hnd Hsrc Hdr st' key n. subst st' key n. unfold results_merge_step. split.
  - intros c Hc Hnz. rewrite (check_count_decrease_Some _ _ _ _ c) by done.
    destruct (results_ptr_bsearch vr_src _) as [[i src']|] eqn:Hfind.
    + apply list_find_Some in Hfind as (Hi & Hkey & _).
      assert (src' = src) as ->.
      { apply (NoDup_fmap_inj_in result_key vr_src); [done| |done|].
        - by eapply list_elem_of_lookup_2.
        - rewrite Hkey. unfold result_key. by rewrite Hdr. }
      cbn [fst snd]. split_and!.
      * apply not_elem_of_delete_NoDup; [by eapply NoDup_fmap_1|done].
      * apply lookup_insert_eq.
      * apply move_value_lookup.
    + exfalso. apply list_find_None in Hfind. rewrite Forall_forall in Hfind.
      apply (Hfind src Hsrc). unfold result_key. by rewrite Hdr.
  - intros Hdead.
    apply (check_count_decrease_None _ _ _ (discoverer_task_check_count_get task)) in Hdead.
    by rewrite Hdead.
Qed.

(** The full merge and the probe result of an address of the range. *)
Lemma results_merge_src_in_range task time_now check_counts hr_dst vr_src :
  let ips := zbx_iprange_uniq_ips (ipranges task) in
  let n := discoverer_task_check_count_get task in
  let st' := discover_results_merge check_counts hr_dst vr_src task time_now in
  NoDup (check_count_key (task_druleid task) <$> ips) →
  NoDup (result_key <$> vr_src) →
  ∀ src, src ∈ vr_src → druleid src = task_druleid task → ip src ∈ ips →
    let key := check_count_key (task_druleid task) (ip src) in
    (∀ c, check_counts !! key = Some c → c ≠ 0 →
       (src ∉ st'.2)
       ∧ st'.1.1 !! key = Some (u64 (c - n))
       ∧ ∃ dst, st'.1.2 !! result_key src = Some dst
           ∧ services dst
             = from_option services [] (hr_dst !! result_key src) ++ services src)
    ∧ (no_outstanding check_counts key →
         src ∈ st'.2
         ∧ st'.1.1 !! key = check_counts !! key
         ∧ st'.1.2 !! result_key src = hr_dst !! result_key src).
Proof.
  intros ips n st' Hnodup Hndv src Hsrc Hdr Hip key. subst st' key.
  unfold discover_results_merge. fold ips. fold ips in Hip. clearbody ips.
  assert (result_key src = (task_druleid task, ip src)) as Hrk
    by (unfold result_key; by rewrite Hdr).
  rewrite Hrk.
  apply list_elem_of_split in Hip as (before & after & ->).
  rewrite fmap_app, fmap_cons in Hnodup.
  apply NoDup_app in Hnodup as (_ & Hbefore & [Hafter _]%NoDup_cons).
  assert (check_count_key (task_druleid task) (ip src)
          ∉ check_count_key (task_druleid task) <$> before) as Hkb.
  { intros Hin. apply (Hbefore _ Hin). apply list_elem_of_here. }
  assert (ip src ∉ before) as Hib.
  { intros Hin. apply Hkb. by apply list_elem_of_fmap_2. }
  assert (ip src ∉ after) as Hia.
  { intros Hin. apply Hafter. by apply list_elem_of_fmap_2. }
  rewrite fold_left_app. cbn [fold_left].
  destruct (results_merge_fold_frame task time_now before (check_counts, hr_dst, vr_src))
    as (Bcc & Bhr & _).
  destruct (results_merge_fold_vector task time_now before (check_counts, hr_dst, vr_src))
    as [Bsub Bkeep].
  destruct (fold_left _ before _) as [[cc1 hr1] vr1]. cbn [fst snd] in Bcc, Bhr, Bsub, Bkeep.
  assert (src ∈ vr1) as Hsrc1.
  { apply Bkeep; [done|]. intros ip' Hip' Heq. rewrite Hrk in Heq. congruence. }
  assert (NoDup (result_key <$> vr1)) as Hndv1.
  { eapply sublist_NoDup; [exact Hndv|]. by apply fmap_sublist. }
  destruct (results_merge_step_result task time_now cc1 hr1 vr1 src Hndv1 Hsrc1 Hdr)
    as [Hlive Hdead].
  destruct (results_merge_fold_frame task time_now after
              (results_merge_step task time_now (cc1, hr1, vr1) (ip src)))
    as (Acc & Ahr & _).
  destruct (results_merge_fold_vector task time_now after
              (results_merge_step task time_now (cc1, hr1, vr1) (ip src)))
    as [Asub Akeep].
  unfold no_outstanding in *.
  rewrite Acc, Ahr by done. rewrite <- (Bcc _ Hkb), <- (Bhr _ Hib). rewrite Hrk in Hlive.
  split.
  - intros c Hc Hnz. destruct (Hlive c Hc Hnz) as (Hgone & Hcount & Hdst).
    split_and!; [|done..]. intros Hin. apply Hgone. by eapply elem_of_sublist.
  - intros Hd. rewrite (Hdead Hd) in *. cbn [fst snd] in *. split_and!; [|done..].
    apply Akeep; [done|]. intros ip' Hip' Heq. rewrite Hrk in Heq. congruence.
Qed.

(** X13: the full merge and one probe result of the task's rule, when the
    addresses of the range are distinct and the vector is sorted by
    (druleid, ip), as the binary search of discover_results_merge needs
    it, and holds no two results of one address. For an address of the
    range with an outstanding count that is not 0 the result leaves the
    vector, the count drops by the task's check count modulo 2^64 and the
    services are appended to the cache entry of the address. Without an
    outstanding count the result stays in the vector and neither the
    count nor the cache entry changes. A result whose address the range
    does not yield stays in the vector, and its cache entry is not
    touched. *)
Theorem results_merge_moves task time_now check_counts hr_dst vr_src :
  let ips := zbx_iprange_uniq_ips (ipranges task) in
  let n := discoverer_task_check_count_get task in
  let st' := discover_results_merge check_counts hr_dst vr_src task time_now in
  NoDup (check_count_key (task_druleid task) <$> ips) →
  StronglySorted results_le vr_src →
  NoDup (result_key <$> vr_src) →
  ∀ src, src ∈ vr_src → druleid src = task_druleid task →
    let key := check_count_key (task_druleid task) (ip src) in
    (ip src ∈ ips →
       (∀ c, check_counts !! key = Some c → c ≠ 0 →
          (src ∉ st'.2)
          ∧ st'.1.1 !! key = Some (u64 (c - n))
          ∧ ∃ dst, st'.1.2 !! result_key src = Some dst
              ∧ services dst
                = from_option services [] (hr_dst !! result_key src) ++ services src)
       ∧ (no_outstanding check_counts key →
            src ∈ st'.2
            ∧ st'.1.1 !! key = check_counts !! key
            ∧ st'.1.2 !! result_key src = hr_dst !! result_key src))
    ∧ (ip src ∉ ips →
         src ∈ st'.2 ∧ st'.1.2 !! result_key src = hr_dst !! result_key src).
Proof.
  intros ips n st' Hnodup Hsorted Hndv src Hsrc Hdr key. split.
  { intros Hip. by apply results_merge_src_in_range. }
  intros Hout. subst st'. unfold discover_results_merge. fold ips.
  assert (result_key src = (task_druleid task, ip src)) as Hrk
    by (unfold result_key; by rewrite Hdr).
  rewrite Hrk.
  destruct (results_merge_fold_vector task time_now ips (check_counts, hr_dst, vr_src))
    as [_ Hkeep].
  destruct (results_merge_fold_frame task time_now ips (check_counts, hr_dst, vr_src))
    as (_ & Fhr & _).
  split; [|by apply Fhr]. apply Hkeep; [done|].
  intros ip' Hip' Heq. rewrite Hrk in Heq. congruence.
Qed.
End FullMergeMoves.

Section NetCheckCommon.
Context `{Constants} `{TaskCollaborators}.

(** X14: discoverer_net_check_common on a task whose current check exists.
    A probe that finds no service returns SUCCEED and changes neither the
    counts nor the cache. A probe that finds the service while the
    address has an outstanding count that is not 0 lowers that count by
    one, leaves the other cache entries alone and appends one service
    with status Up, the check's id and the port as unsigned short to the
    entry of the address; the dnsname is set unless the entry already has
    one that is not empty. *)
Theorem net_check_common_commit check_counts results druleid' task dcheck
    agent_check_up dns time_now :
  dchecks task !! index_dcheck task = Some dcheck →
  let out := discoverer_net_check_common check_counts results druleid' task
               agent_check_up dns time_now in
  let key := check_count_key druleid' (state_ip task) in
  (discover_service dcheck agent_check_up = false →
     out = mk_net_check_out true check_counts results [])
  ∧ (∀ c, discover_service dcheck agent_check_up = true →
       check_counts !! key = Some c → c ≠ 0 →
       nc_ret out = true
       ∧ nc_freed out = []
       ∧ nc_check_counts out = <[key := u64 (c - 1)]> check_counts
       ∧ (∀ k, k ≠ (druleid', state_ip task) → nc_results out !! k = results !! k)
       ∧ ∃ dst, nc_results out !! (druleid', state_ip task) = Some dst
           ∧ services dst
             = from_option services [] (results !! (druleid', state_ip task))
                 ++ [mk_dservice (dc_dcheckid dcheck) (state_port task mod 2 ^ 16)
                       DOBJECT_STATUS_UP EmptyString]
           ∧ dnsname dst
             = match results !! (druleid', state_ip task) with
               | Some old =>
                   match dnsname old with
                   | Some d => if decide (d = EmptyString) then Some dns else Some d
                   | None => Some dns
                   end
               | None => Some dns
               end).
Proof.
  intros Hdcheck out key. subst out key. unfold discoverer_net_check_common.
  rewrite Hdcheck. split.
  - by intros ->.
  - intros c -> Hc Hnz. cbn [negb].
    rewrite (check_count_decrease_Some _ _ _ _ c) by done.
    rewrite host_reg_lookup. cbn [nc_ret nc_freed nc_check_counts nc_results].
    split_and!; [done..| |].
    + intros k Hk. rewrite lookup_insert_ne by done. by apply host_reg_lookup_ne.
    + rewrite lookup_insert_eq. eexists. split; [done|].
      destruct (results !! (druleid', state_ip task)) as [old|]; cbn.
      * split; [done|]. destruct (dnsname old) as [d|]; [|done].
        destruct (decide (d = EmptyString)) as [-> |Hd].
        -- rewrite bool_decide_eq_true_2 by done. cbn.
           destruct (bool_decide_reflect (dns = EmptyString)) as [-> |]; done.
        -- by rewrite bool_decide_eq_false_2 by done.
      * split; [done|].
        destruct (bool_decide_reflect (dns = EmptyString)) as [-> |]; done.
Qed.
End NetCheckCommon.

(** ** The scheduler: timeouts, jobs and accounting *)

Lemma substring_0_prefix (s t : string) (n : nat) :
  (String.length s ≤ n)%nat → contains (String.substring 0 n (s +:+ t)) s.
Proof.
  intros Hlen. rewrite substring_0_app by done.
  exists EmptyString. eexists. reflexivity.
Qed.

Section SchedulerMore.
Context `{Constants} `{SchedulerCollaborators}.

Lemma timeout_get_set tmts type v type' :
  timeout_get (timeout_set tmts type v) type'
  = if decide (type' = type) then v else timeout_get tmts type'.
Proof. destruct tmts as [[a b] c], type, type'; done. Qed.

Lemma first_uniq_cons dcheck rest :
  first_uniq (dcheck :: rest)
  = if decide (dc_uniq dcheck ≠ 0) then 0%nat else S (first_uniq rest).
Proof.
  unfold first_uniq. cbn [list_find length].
  destruct (decide (dc_uniq dcheck ≠ 0)); [done|].
  by destruct (list_find _ rest) as [[i d]|].
Qed.

Lemma dcheck_item_type_set_timeout dcheck tmt :
  dcheck_item_type (dcheck_set_timeout dcheck tmt) = dcheck_item_type dcheck.
Proof. done. Qed.

Lemma same_check_refl : ∀ d, same_check d d.
Proof. by intros d. Qed.

Lemma invalid_global_timeout_text type err :
  (23 ≤ MAX_STRING_LEN)%nat →
  contains (invalid_global_timeout type err) "invalid global timeout".
Proof.
  intros Hlen. unfold invalid_global_timeout, zbx_snprintf.
  destruct type.
  - change ("invalid global timeout for Zabbix Agent checks:" +:+ dquote +:+ err +:+ dquote)
      with ("invalid global timeout"
              +:+ (" for Zabbix Agent checks:" +:+ dquote +:+ err +:+ dquote)).
    apply substring_0_prefix. cbn. lia.
  - change ("invalid global timeout for SNMP checks:" +:+ dquote +:+ err +:+ dquote)
      with ("invalid global timeout"
              +:+ (" for SNMP checks:" +:+ dquote +:+ err +:+ dquote)).
    apply substring_0_prefix. cbn. lia.
  - change ("invalid global timeout for simple checks:" +:+ dquote +:+ err +:+ dquote)
      with ("invalid global timeout"
              +:+ (" for simple checks:" +:+ dquote +:+ err +:+ dquote)).
    apply substring_0_prefix. cbn. lia.
Qed.

(** The timeout a check is given: the cached one, or the global one when
    the cache holds 0. *)
Lemma resolve_timeouts_cons dcheck rest tmts unique :
  resolve_timeouts (dcheck :: rest) tmts unique
  = let type := dcheck_item_type dcheck in
    match (if decide (0 = timeout_get tmts type) then dcheck_get_timeout type
           else inl (timeout_get tmts type)) with
    | inr err => inr (tmts, invalid_global_timeout type err)
    | inl tmt =>
        if decide (0 = dc_uniq dcheck) then
          match resolve_timeouts rest (timeout_set tmts type tmt) unique with
          | inl (tmts'', rest', unique') =>
              inl (tmts'', dcheck_set_timeout dcheck tmt :: rest', unique')
          | inr e => inr e
          end
        else inl (timeout_set tmts type tmt, dcheck_set_timeout dcheck tmt :: rest,
                  dc_dcheckid dcheck)
    end.
Proof. done. Qed.

Lemma resolve_timeouts_cache dchecks' tmts unique tmts' out unique' :
  resolve_timeouts dchecks' tmts unique = inl (tmts', out, unique') →
  ∀ type, timeout_get tmts' type = timeout_get tmts type
          ∨ (timeout_get tmts type = 0
             ∧ dcheck_get_timeout type = inl (timeout_get tmts' type)).
Proof.
  revert tmts out. induction dchecks' as [|dcheck rest IH]; intros tmts out.
  { intros [= <- <- <-]. auto. }
  rewrite resolve_timeouts_cons. cbn zeta.
  set (ty := dcheck_item_type dcheck).
  destruct (decide (0 = timeout_get tmts ty)) as [Hz|Hnz].
  - destruct (dcheck_get_timeout ty) as [tmt|err] eqn:Hfetch; [|done].
    destruct (decide (0 = dc_uniq dcheck)).
    + destruct (resolve_timeouts rest _ unique) as [[[tmts2 rest2] unique2]|] eqn:Hrest;
        [|done].
      intros [= <- <- <-] type. destruct (IH _ _ Hrest type) as [Heq|[Hz' Hf]];
        rewrite timeout_get_set in *; destruct (decide (type = ty)) as [-> |]; auto;
        right; (split; [done|]); congruence.
    + intros [= <- <- <-] type. rewrite timeout_get_set.
      destruct (decide (type = ty)) as [-> |]; auto.
  - destruct (decide (0 = dc_uniq dcheck)).
    + destruct (resolve_timeouts rest _ unique) as [[[tmts2 rest2] unique2]|] eqn:Hrest;
        [|done].
      intros [= <- <- <-] type. destruct (IH _ _ Hrest type) as [Heq|[Hz' Hf]];
        rewrite timeout_get_set in *; destruct (decide (type = ty)) as [-> |]; auto;
        congruence.
    + intros [= <- <- <-] type. rewrite timeout_get_set.
      destruct (decide (type = ty)) as [-> |]; auto.
Qed.

(** X16: the timeout loop of process_discovery, when no lookup fails. The
    checks keep their identity, type and uniq flag; every check up to and
    including the first one flagged uniq gets the global timeout of its
    item type; the checks after it are left as they were, because the
    loop stops there; unique_dcheckid becomes the id of that check, and
    stays when no check is flagged; and a global timeout that is already
    known (not 0) is not fetched again. *)
Theorem resolve_timeouts_assigns dchecks' tmts unique tmts' out unique' :
  resolve_timeouts dchecks' tmts unique = inl (tmts', out, unique') →
  Forall2 same_check dchecks' out
  ∧ (∀ i d', out !! i = Some d' → (i ≤ first_uniq dchecks')%nat →
       dc_timeout d' = timeout_get tmts' (dcheck_item_type d'))
  ∧ (∀ i d', out !! i = Some d' → (first_uniq dchecks' < i)%nat →
       dchecks' !! i = Some d')
  ∧ unique'
    = from_option (λ p, dc_dcheckid p.2) unique (list_find (λ d, dc_uniq d ≠ 0) dchecks')
  ∧ (∀ type, timeout_get tmts type ≠ 0 →
       timeout_get tmts' type = timeout_get tmts type).
Proof.
  intros Hres. split_and!.
  5:{ intros type Hnz. destruct (resolve_timeouts_cache _ _ _ _ _ _ Hres type) as [?|[? _]];
        done. }
  all: revert tmts out Hres; induction dchecks' as [|dcheck rest IH]; intros tmts out.
  all: try (intros [= <- <- <-]; by try (intros i d'; rewrite lookup_nil)).
  all: rewrite resolve_timeouts_cons; cbn zeta.
  all: set (ty := dcheck_item_type dcheck).
  all: destruct (if decide (0 = timeout_get tmts ty) then dcheck_get_timeout ty
                 else inl (timeout_get tmts ty)) as [tmt|err] eqn:Hfetch; [|done].
  all: rewrite first_uniq_cons || cbn [list_find].
  all: destruct (decide (0 = dc_uniq dcheck)) as [Hu|Hu].
  all: try rewrite (decide_False (P := dc_uniq dcheck ≠ 0)) by (intros ?; congruence).
  all: try rewrite (decide_True (P := dc_uniq dcheck ≠ 0)) by congruence.
  all: try (destruct (resolve_timeouts rest _ unique)
              as [[[tmts2 rest2] unique2]|] eqn:Hrest; [|done]).
  all: intros [= <- <- <-].
  - apply Forall2_cons. split; [done|]. by eapply IH.
  - apply Forall2_cons. split; [done|]. apply Forall_Forall2_diag, Forall_forall.
    intros ??. apply same_check_refl.
  - intros [|i] d'; cbn [lookup list_lookup].
    + intros [= <-] _. rewrite dcheck_item_type_set_timeout. fold ty.
      cbn [dcheck_set_timeout dc_timeout].
      destruct (resolve_timeouts_cache _ _ _ _ _ _ Hrest ty) as [Heq|[Hz Hf]];
        rewrite timeout_get_set, decide_True in * by done; [done|].
      destruct (decide (0 = timeout_get tmts ty)) as [?|Hn]; [congruence|].
      injection Hfetch as <-. by destruct Hn.
    + intros Hi Hle. eapply IH; [done..|lia].
  - intros [|i] d'; cbn [lookup list_lookup]; [|lia].
    intros [= <-] _. rewrite dcheck_item_type_set_timeout. fold ty.
    cbn [dcheck_set_timeout dc_timeout]. by rewrite timeout_get_set, decide_True.
  - intros [|i] d'; cbn [lookup list_lookup]; [lia|].
    intros Hi Hlt. eapply IH; [done..|lia].
  - intros [|i] d'; cbn [lookup list_lookup]; [lia|]. done.
  - rewrite (IH _ _ Hrest). by destruct (list_find _ rest) as [[i d]|].
  - done.
Qed.

(** The error resolve_timeouts returns names the failed look-up. *)
Lemma resolve_timeouts_inr dchecks' tmts unique tmts' text :
  resolve_timeouts dchecks' tmts unique = inr (tmts', text) →
  ∃ dcheck err,
    dcheck ∈ dchecks'
    ∧ dcheck_get_timeout (dcheck_item_type dcheck) = inr err
    ∧ text = invalid_global_timeout (dcheck_item_type dcheck) err.
Proof.
  revert tmts. induction dchecks' as [|dcheck rest IH]; intros tmts; [done|].
  rewrite resolve_timeouts_cons. cbn zeta.
  set (ty := dcheck_item_type dcheck).
  assert (∀ tmts1, resolve_timeouts rest tmts1 unique = inr (tmts', text) →
    ∃ dcheck0 err, dcheck0 ∈ dcheck :: rest
      ∧ dcheck_get_timeout (dcheck_item_type dcheck0) = inr err
      ∧ text = invalid_global_timeout (dcheck_item_type dcheck0) err) as Htail.
  { intros tmts1 Hrest. destruct (IH _ Hrest) as (d & err & ? & ? & ?).
    exists d, err. split_and!; [by apply list_elem_of_further|done..]. }
  destruct (decide (0 = timeout_get tmts ty)) as [Hz|Hnz].
  - destruct (dcheck_get_timeout ty) as [tmt|err] eqn:Hfetch.
    + destruct (decide (0 = dc_uniq dcheck)); [|done].
      destruct (resolve_timeouts rest _ unique) as [[[tmts2 rest2] unique2]|] eqn:Hrest;
        [done|]. intros [= ->]. by eapply Htail.
    + intros [= <- <-]. exists dcheck, err. split_and!; [apply list_elem_of_here|done..].
  - destruct (decide (0 = dc_uniq dcheck)); [|done].
    destruct (resolve_timeouts rest _ unique) as [[[tmts2 rest2] unique2]|] eqn:Hrest;
      [done|]. intros [= ->]. by eapply Htail.
Qed.

(** X15: a due rule one of whose global timeouts cannot be read. The error
    text names the invalid global timeout of the item type of a check of
    the rule together with the lookup's message; the error is recorded and
    the rule appended to err_druleids; no job is created and no count
    or queue total changes; the rule is queued again with the delay just
    parsed. *)
Theorem process_discovery_invalid_timeout incomplete_druleids env st drule delay
    tmts text :
  dr_druleid drule ∉ env_job_refs env →
  dr_druleid drule ∉ incomplete_druleids →
  zbx_is_time_suffix (zbx_substitute_simple_macros (delay_str drule)) = Some delay →
  resolve_timeouts (dr_dchecks drule)
    (pd_tmt_simple st, pd_tmt_agent st, pd_tmt_snmp st) (dr_unique_dcheckid drule)
  = inr (tmts, text) →
  (23 ≤ MAX_STRING_LEN)%nat →
  let st' := process_discovery_step incomplete_druleids st (env, drule) in
  contains text "invalid global timeout"
  ∧ (∃ dcheck err,
       dcheck ∈ dr_dchecks drule
       ∧ dcheck_get_timeout (dcheck_item_type dcheck) = inr err
       ∧ text = invalid_global_timeout (dcheck_item_type dcheck) err)
  ∧ pd_drule_errors st'
    = discoverer_queue_append_error (pd_drule_errors st) (dr_druleid drule) text
  ∧ pd_err_druleids st' = pd_err_druleids st ++ [dr_druleid drule]
  ∧ pd_jobs st' = pd_jobs st
  ∧ pd_check_counts st' = pd_check_counts st
  ∧ pd_queue_checks_count st' = pd_queue_checks_count st
  ∧ pd_rule_count st' = pd_rule_count st
  ∧ pd_calls st'
    = pd_calls st
        ++ (if program_type_server then [discovery_clean_services (dr_druleid drule)]
            else [])
        ++ [zbx_dc_drule_queue (env_now env) (dr_druleid drule) delay].
Proof.
  intros Hjob Hinc Hdelay Htmt Hlen st'. subst st'.
  pose proof (resolve_timeouts_inr _ _ _ _ _ Htmt) as (dcheck & err & Hin & Hfetch & ->).
  split; [by apply invalid_global_timeout_text|].
  split; [by exists dcheck, err|].
  unfold process_discovery_step, process_discovery_rule.
  rewrite (bool_decide_eq_false_2 _ Hjob), (bool_decide_eq_false_2 _ Hinc). cbn [orb].
  rewrite Hdelay. cbn [pd_set_delay pd_tmt_simple pd_tmt_agent pd_tmt_snmp].
  rewrite Htmt. by split_and!.
Qed.

Lemma zbx_hashset_insert_subseteq {V} (h : gmap hkey V) (k : hkey) (v : V) :
  h ⊆ zbx_hashset_insert h k v.
Proof.
  unfold zbx_hashset_insert. destruct (h !! k) eqn:Hk; [done|]. by apply insert_subseteq.
Qed.

Lemma zbx_hashset_insert_fold_subseteq {V} (l : list (hkey * V)) (h : gmap hkey V) :
  h ⊆ fold_left (λ h kv, zbx_hashset_insert h kv.1 kv.2) l h.
Proof.
  revert h. induction l as [|kv l IH]; intros h; [done|]. cbn [fold_left].
  etrans; [apply zbx_hashset_insert_subseteq|apply IH].
Qed.

Lemma zbx_hashset_insert_fold_lookup {V} (l : list (hkey * V)) (h : gmap hkey V) k v :
  (k, v) ∈ l → is_Some (fold_left (λ h kv, zbx_hashset_insert h kv.1 kv.2) l h !! k).
Proof.
  revert h. induction l as [|kv l IH]; intros h Hin; [by apply elem_of_nil in Hin|].
  cbn [fold_left]. apply elem_of_cons in Hin as [<- |Hin]; [|by apply IH].
  assert (is_Some (zbx_hashset_insert h k v !! k)) as [x Hx].
  { unfold zbx_hashset_insert. destruct (h !! k) eqn:Hk; [by rewrite Hk|].
    by rewrite lookup_insert_eq. }
  exists x. eapply lookup_weaken; [exact Hx|apply zbx_hashset_insert_fold_subseteq].
Qed.

(** What one loop iteration adds, whatever becomes of the rule. *)
Lemma process_discovery_step_accounting incomplete_druleids st env drule :
  let st' := process_discovery_step incomplete_druleids st (env, drule) in
  requeued (pd_calls st') = requeued (pd_calls st) ++ [(env_now env, dr_druleid drule)]
  ∧ cleaned (pd_calls st')
    = cleaned (pd_calls st) ++ (if program_type_server then [dr_druleid drule] else [])
  ∧ pd_check_counts st ⊆ pd_check_counts st'
  ∧ ((pd_jobs st' = pd_jobs st ∧ pd_rule_count st' = pd_rule_count st
      ∧ (pd_err_druleids st' = pd_err_druleids st
         ∨ pd_err_druleids st' = pd_err_druleids st ++ [dr_druleid drule]))
     ∨ (∃ job, pd_jobs st' = pd_jobs st ++ [job])
       ∧ pd_rule_count st' = pd_rule_count st + 1
       ∧ pd_err_druleids st' = pd_err_druleids st).
Proof.
  intros st'. subst st'. unfold process_discovery_step.
  assert (∀ st1 : pd_state,
    let calls := (if program_type_server then [discovery_clean_services (dr_druleid drule)]
                  else []) ++ [zbx_dc_drule_queue (env_now env) (dr_druleid drule)
                                 (pd_delay st1)] in
    requeued (pd_calls st1 ++ calls) = requeued (pd_calls st1) ++ [(env_now env, dr_druleid drule)]
    ∧ cleaned (pd_calls st1 ++ calls)
      = cleaned (pd_calls st1) ++ (if program_type_server then [dr_druleid drule] else []))
    as Hcalls.
  { intros st1 calls. subst calls. unfold requeued, cleaned. rewrite !omap_app.
    destruct program_type_server; cbn; by rewrite ?app_nil_r. }
  assert (∀ tasks' : list zbx_discoverer_task_t,
    requeued (discoverer_task_clear <$> tasks') = []
    ∧ cleaned (discoverer_task_clear <$> tasks') = []) as Hclear.
  { induction tasks' as [|t l [IH1 IH2]]; [done|]. by rewrite fmap_cons. }
  set (st1 := process_discovery_rule incomplete_druleids env st drule).
  destruct (Hcalls st1) as [Hq Hc]. cbn [pd_call pd_calls pd_jobs pd_rule_count
    pd_err_druleids pd_check_counts]. rewrite Hq, Hc. clear Hq Hc Hcalls.
  subst st1. unfold process_discovery_rule.
  destruct (bool_decide _ || bool_decide _); [split_and!; auto|].
  destruct (zbx_is_time_suffix _) as [delay|]; [|cbn; split_and!; auto].
  cbn [pd_set_delay pd_tmt_simple pd_tmt_agent pd_tmt_snmp pd_drule_errors
       pd_queue_checks_count pd_rule_count pd_jobs pd_check_counts pd_err_druleids pd_calls].
  destruct (resolve_timeouts _ _ _) as [[[tmts dchecks'] unique]|[tmts text]];
    [|cbn; split_and!; auto].
  destruct (decide (0 = pro_queue_capacity _)).
  - cbn. destruct (Hclear (pro_tasks (process_rule
             (mk_drule (dr_druleid drule) (delay_str drule) dchecks' unique
                (dr_revision drule))
             (u64 (u64 (DISCOVERER_QUEUE_MAX_SIZE - env_pending_checks_count env)
                   - pd_queue_checks_count st))))) as [Hq Hc].
    unfold requeued, cleaned in *. rewrite !omap_app, Hq, Hc, !app_nil_r.
    split_and!; auto.
  - cbn. split_and!; [done|done|apply zbx_hashset_insert_fold_subseteq|].
    right. split_and!; [by eexists|done..].
Qed.

(** The books of the loop when it is followed over all of [drules]. *)
Lemma process_discovery_fold_accounting delay_indeterminate incomplete_druleids check_counts
    drule_errors err_druleids drules :
  let out := process_discovery delay_indeterminate incomplete_druleids check_counts
               drule_errors err_druleids drules in
  pd_rule_count out = Z.of_nat (length (pd_jobs out))
  ∧ requeued (pd_calls out) = (λ it, (env_now it.1, dr_druleid it.2)) <$> drules
  ∧ cleaned (pd_calls out)
    = (if program_type_server then (λ it, dr_druleid it.2) <$> drules else [])
  ∧ check_counts ⊆ pd_check_counts out
  ∧ err_druleids `prefix_of` pd_err_druleids out
  ∧ (∀ d, d ∈ pd_err_druleids out →
       d ∈ err_druleids ∨ ∃ it, it ∈ drules ∧ dr_druleid it.2 = d)
  ∧ (length (pd_err_druleids out) + length (pd_jobs out)
     ≤ length err_druleids + length drules)%nat.
Proof.
  intros out. subst out. unfold process_discovery.
  set (st0 := mk_pd delay_indeterminate 0 0 0 0 0 [] check_counts drule_errors
                err_druleids []).
  assert (∀ st,
    let out := fold_left (process_discovery_step incomplete_druleids) drules st in
    pd_rule_count out - pd_rule_count st
    = Z.of_nat (length (pd_jobs out)) - Z.of_nat (length (pd_jobs st))
    ∧ requeued (pd_calls out)
      = requeued (pd_calls st) ++ ((λ it, (env_now it.1, dr_druleid it.2)) <$> drules)
    ∧ cleaned (pd_calls out)
      = cleaned (pd_calls st)
          ++ (if program_type_server then (λ it, dr_druleid it.2) <$> drules else [])
    ∧ pd_check_counts st ⊆ pd_check_counts out
    ∧ pd_err_druleids st `prefix_of` pd_err_druleids out
    ∧ (∀ d, d ∈ pd_err_druleids out →
         d ∈ pd_err_druleids st ∨ ∃ it, it ∈ drules ∧ dr_druleid it.2 = d)
    ∧ (length (pd_err_druleids out) + length (pd_jobs out)
       ≤ length (pd_err_druleids st) + length (pd_jobs st) + length drules)%nat) as Hfold.
  { induction drules as [|[env drule] drules IH]; intros st; cbn [fold_left].
    { cbn. rewrite !app_nil_r.
      split_and!; try done; try lia; auto.
      destruct program_type_server; by rewrite app_nil_r. }
    destruct (IH (process_discovery_step incomplete_druleids st (env, drule)))
      as (I1 & I2 & I3 & I4 & I5 & I6 & I7).
    destruct (process_discovery_step_accounting incomplete_druleids st env drule)
      as (S1 & S2 & S3 & S4).
    set (st1 := process_discovery_step incomplete_druleids st (env, drule)) in *.
    set (out := fold_left _ drules st1) in *.
    rewrite I2, I3, S1, S2, fmap_cons, <- !(assoc_L (++)). cbn [fst snd length].
    split_and!.
    - destruct S4 as [(Hj & Hr & _)|([job Hj] & Hr & _)]; rewrite Hj, Hr in I1;
        rewrite ?length_app in I1; cbn [length] in I1; lia.
    - done.
    - by destruct program_type_server.
    - by etrans.
    - etrans; [|exact I5].
      destruct S4 as [(_ & _ & [-> | ->])|(_ & _ & ->)]; try done. by apply prefix_app_r.
    - intros d Hd. destruct (I6 d Hd) as [Hd1|(it & Hit & ?)].
      + destruct S4 as [(_ & _ & [He|He])|(_ & _ & He)]; rewrite He in Hd1; auto.
        apply elem_of_app in Hd1 as [?| ->%list_elem_of_singleton]; auto.
        right. exists (env, drule). split; [apply list_elem_of_here|done].
      + right. exists it. split; [by apply list_elem_of_further|done].
    - destruct S4 as [(Hj & _ & [He|He])|([job Hj] & _ & He)]; rewrite Hj, He in I7;
        rewrite ?length_app in I7; cbn [length] in I7; lia. }
  destruct (Hfold st0) as (F1 & F2 & F3 & F4 & F5 & F6 & F7).
  subst st0. cbn [pd_rule_count pd_jobs pd_calls pd_check_counts pd_err_druleids length]
    in *.
  split_and!; try done; lia.
Qed.

Lemma iterations_le running k n : (iterations running k n ≤ n)%nat.
Proof.
  revert k. induction n as [|n IH]; intros k; cbn [iterations]; [done|].
  destruct (running k); [|lia]. specialize (IH (S k)). lia.
Qed.

Lemma iterations_all running k n :
  (∀ j, (j < n)%nat → running (k + j)%nat = true) → iterations running k n = n.
Proof.
  revert k. induction n as [|n IH]; intros k Hall; cbn [iterations]; [done|].
  pose proof (Hall 0%nat ltac:(lia)) as Hrun0. rewrite Nat.add_0_r in Hrun0. rewrite Hrun0.
  f_equal. apply IH. intros j Hj. replace (S k + j)%nat with (k + S j)%nat by lia.
  apply Hall. lia.
Qed.

Lemma iterations_stop running k n i :
  (i < n)%nat → running (k + i)%nat = false →
  (∀ j, (j < i)%nat → running (k + j)%nat = true) →
  iterations running k n = i.
Proof.
  revert k i. induction n as [|n IH]; intros k i Hi Hstop Hrun; [lia|].
  cbn [iterations]. destruct i as [|i].
  - rewrite Nat.add_0_r in Hstop. by rewrite Hstop.
  - pose proof (Hrun 0%nat ltac:(lia)) as Hrun0. rewrite Nat.add_0_r in Hrun0. rewrite Hrun0.
    f_equal. apply IH; [lia| |].
    + by replace (S k + i)%nat with (k + S i)%nat by lia.
    + intros j Hj. replace (S k + j)%nat with (k + S j)%nat by lia. apply Hrun. lia.
Qed.

(** The loop with its test is the loop followed over the rules it reaches. *)
Lemma process_discovery_loop_reached running incomplete_druleids k drules st :
  process_discovery_loop running incomplete_druleids k drules st
  = fold_left (process_discovery_step incomplete_druleids)
      (take (iterations running k (length drules)) drules) st.
Proof.
  revert k st. induction drules as [|it drules IH]; intros k st; [done|].
  cbn [process_discovery_loop length iterations].
  destruct (running k); [|done]. cbn [take fold_left]. apply IH.
Qed.

(** X17: the books of process_discovery, whose loop reads
    ZBX_IS_RUNNING() before every iteration and ends at the first reading
    that is false. The rules reached are the due rules before that
    reading: all of them when the process is not asked to stop. The
    outcome is that of the loop followed over the rules reached;
    rule_count is the number of jobs created; every rule reached, and no
    other, is queued again exactly once, in order, at the time of its
    iteration; on the server the services of each rule reached, and of no
    other, are cleaned once; the outstanding counts passed in are all
    kept; err_druleids only grows at its end, by ids of rules reached;
    and a rule reached gives at most one error or one job. *)
Theorem process_discovery_accounting running delay_indeterminate incomplete_druleids
    check_counts drule_errors err_druleids drules :
  let out := process_discovery_running running delay_indeterminate incomplete_druleids
               check_counts drule_errors err_druleids drules in
  let reached := take (iterations running 0 (length drules)) drules in
  out = process_discovery delay_indeterminate incomplete_druleids check_counts
          drule_errors err_druleids reached
  ∧ ((∀ k, (k < length drules)%nat → running k = true) → reached = drules)
  ∧ (∀ k, (k < length drules)%nat → running k = false →
       (∀ j, (j < k)%nat → running j = true) → reached = take k drules)
  ∧ pd_rule_count out = Z.of_nat (length (pd_jobs out))
  ∧ requeued (pd_calls out) = (λ it, (env_now it.1, dr_druleid it.2)) <$> reached
  ∧ cleaned (pd_calls out)
    = (if program_type_server then (λ it, dr_druleid it.2) <$> reached else [])
  ∧ check_counts ⊆ pd_check_counts out
  ∧ err_druleids `prefix_of` pd_err_druleids out
  ∧ (∀ d, d ∈ pd_err_druleids out →
       d ∈ err_druleids ∨ ∃ it, it ∈ reached ∧ dr_druleid it.2 = d)
  ∧ (length (pd_err_druleids out) + length (pd_jobs out)
     ≤ length err_druleids + length reached)%nat.
Proof.
  intros out reached.
  assert (out = process_discovery delay_indeterminate incomplete_druleids check_counts
                  drule_errors err_druleids reached) as Hout.
  { subst out reached. unfold process_discovery_running, process_discovery.
    apply process_discovery_loop_reached. }
  split; [exact Hout|]. split.
  { intros Hall. subst reached. rewrite iterations_all by (intros j Hj; by apply Hall).
    apply firstn_all. }
  split.
  { intros k Hk Hstop Hrun. subst reached.
    by rewrite (iterations_stop running 0 (length drules) k Hk Hstop Hrun). }
  rewrite Hout.
  apply (process_discovery_fold_accounting delay_indeterminate incomplete_druleids
           check_counts drule_errors err_druleids reached).
Qed.

(** X18: a due rule that process_rule expands without using up the queue
    capacity. One job is appended, made by discoverer_job_create with the
    tasks of process_rule after its own; rule_count grows by one;
    queue_checks_count becomes the capacity of the queue minus what
    process_rule left, modulo 2^64; no error is recorded; no outstanding
    count is overwritten and every count of the rule has an entry; the
    rule is queued again with its delay. *)
Theorem process_discovery_job_created incomplete_druleids env st drule delay
    tmts dchecks' unique :
  dr_druleid drule ∉ env_job_refs env →
  dr_druleid drule ∉ incomplete_druleids →
  zbx_is_time_suffix (zbx_substitute_simple_macros (delay_str drule)) = Some delay →
  resolve_timeouts (dr_dchecks drule)
    (pd_tmt_simple st, pd_tmt_agent st, pd_tmt_snmp st) (dr_unique_dcheckid drule)
  = inl (tmts, dchecks', unique) →
  let drule' :=
    mk_drule (dr_druleid drule) (delay_str drule) dchecks' unique (dr_revision drule) in
  let queue_capacity := u64 (DISCOVERER_QUEUE_MAX_SIZE - env_pending_checks_count env) in
  let out := process_rule drule' (u64 (queue_capacity - pd_queue_checks_count st)) in
  pro_queue_capacity out ≠ 0 →
  let job := discoverer_job_create drule' (pro_dchecks_common out) (pro_ipranges out) in
  let st' := process_discovery_step incomplete_druleids st (env, drule) in
  pd_jobs st'
  = pd_jobs st
      ++ [mk_job (job_druleid job) (drule_revision job) (workers_used job)
            (workers_max job) (job_status job) (tasks job ++ pro_tasks out)]
  ∧ pd_rule_count st' = pd_rule_count st + 1
  ∧ pd_queue_checks_count st' = u64 (queue_capacity - pro_queue_capacity out)
  ∧ pd_drule_errors st' = pd_drule_errors st
  ∧ pd_err_druleids st' = pd_err_druleids st
  ∧ pd_check_counts st ⊆ pd_check_counts st'
  ∧ (∀ k v, (k, v) ∈ pro_check_counts out → is_Some (pd_check_counts st' !! k))
  ∧ pd_calls st'
    = pd_calls st
        ++ (if program_type_server then [discovery_clean_services (dr_druleid drule)]
            else [])
        ++ [zbx_dc_drule_queue (env_now env) (dr_druleid drule) delay].
Proof.
  intros Hjob Hinc Hdelay Htmt drule' queue_capacity out Hroom job st'.
  subst st' job out queue_capacity drule'.
  unfold process_discovery_step, process_discovery_rule.
  rewrite (bool_decide_eq_false_2 _ Hjob), (bool_decide_eq_false_2 _ Hinc). cbn [orb].
  rewrite Hdelay. cbn [pd_set_delay pd_tmt_simple pd_tmt_agent pd_tmt_snmp
                       pd_queue_checks_count].
  rewrite Htmt. rewrite decide_False by congruence.
  cbn. split_and!; try done.
  - apply zbx_hashset_insert_fold_subseteq.
  - intros k v Hin. by eapply zbx_hashset_insert_fold_lookup.
Qed.

End SchedulerMore.

(** ** The scheduler loop *)

Section ThreadProperties.
Context `{Constants} `{TaskCollaborators} `{WorkerCollaborators} `{ThreadCollaborators}.
Variable dhostid_after : list db_call → Z.




Lemma host_reg_fold_sentinels time_now druleids results :
  let results' :=
    fold_left (λ results druleid',
                 discover_results_host_reg results druleid' 0 EmptyString time_now)
      druleids results in
  (∀ d, d ∈ druleids →
     results' !! (d, EmptyString)
     = Some (default (mk_results d EmptyString (Some EmptyString) time_now 0 0 [])
               (results !! (d, EmptyString))))
  ∧ results ⊆ results'
  ∧ (∀ k, k.2 ≠ EmptyString → results' !! k = results !! k).
Proof.
  revert results. induction druleids as [|d0 druleids IH]; intros results; cbn [fold_left].
  { split_and!; [|done..]. intros d Hd. by apply elem_of_nil in Hd. }
  destruct (IH (discover_results_host_reg results d0 0 EmptyString time_now))
    as (I1 & I2 & I3).
  assert (results ⊆ discover_results_host_reg results d0 0 EmptyString time_now) as Hsub.
  { unfold discover_results_host_reg.
    destruct (results !! (d0, EmptyString)) eqn:Hk; [done|]. by apply insert_subseteq. }
  split_and!.
  - intros d [-> |Hd]%elem_of_cons.
    + eapply lookup_weaken; [apply host_reg_lookup|done].
    + rewrite (I1 d Hd). destruct (decide (d = d0)) as [-> |Hne].
      * rewrite host_reg_lookup. by destruct (results !! (d0, EmptyString)).
      * rewrite host_reg_lookup_ne by congruence. done.
  - by etrans.
  - intros k Hk. rewrite I3 by done. apply host_reg_lookup_ne.
    destruct k as [kd kip]. cbn in Hk. congruence.
Qed.

(** X20: after process_discovery the scheduler registers an entry with the
    empty address for every rule in err_druleids, a new empty one unless
    the cache has one; the cache entries it had are kept and those with
    an address are untouched; the outstanding counts it had are kept, and
    when rules were expanded every new count has an entry. *)
Theorem commit_registers_sentinels m pd time_now :
  let m' := discoverer_thread_commit m pd time_now in
  (∀ d, d ∈ pd_err_druleids pd →
     m_results m' !! (d, EmptyString)
     = Some (default (mk_results d EmptyString (Some EmptyString) time_now 0 0 [])
               (m_results m !! (d, EmptyString))))
  ∧ m_results m ⊆ m_results m'
  ∧ (∀ k, k.2 ≠ EmptyString → m_results m' !! k = m_results m !! k)
  ∧ m_incomplete_checks_count m ⊆ m_incomplete_checks_count m'
  ∧ (∀ k c, pd_check_counts pd !! k = Some c → 0 < pd_rule_count pd →
       is_Some (m_incomplete_checks_count m' !! k)).
Proof.
  intros m'.
  assert (m_results m'
          = fold_left (λ results druleid',
                         discover_results_host_reg results druleid' 0 EmptyString time_now)
              (pd_err_druleids pd) (m_results m)) as Hres.
  { subst m'. unfold discoverer_thread_commit.
    destruct (decide (0 < pd_rule_count pd)); cbn [m_results];
      destruct (decide (length (pd_err_druleids pd) ≠ 0%nat)) as [?|Hz]; try done;
      (destruct (pd_err_druleids pd); [done|]; exfalso; by apply Hz). }
  rewrite Hres.
  destruct (host_reg_fold_sentinels time_now (pd_err_druleids pd) (m_results m))
    as (S1 & S2 & S3).
  split_and!; [done..| |].
  - subst m'. unfold discoverer_thread_commit.
    destruct (decide (0 < pd_rule_count pd)); cbn [m_incomplete_checks_count]; [|done].
    apply zbx_hashset_insert_fold_subseteq.
  - intros k c Hk Hpos. subst m'. unfold discoverer_thread_commit.
    rewrite decide_True by done. cbn [m_incomplete_checks_count].
    apply zbx_hashset_insert_fold_lookup with c. by apply elem_of_map_to_list.
Qed.

Lemma thread_commit_job_eq queue job_refs job :
  thread_commit_job (queue, job_refs) job
  = (mk_queue (queue_jobs queue ++ [job_druleid job]) (pending_checks_count queue)
       (snmpv3_allowed_workers queue) (queue_errors queue),
     <[job_druleid job := job_set_status job DISCOVERER_JOB_STATUS_QUEUED]> job_refs).
Proof. done. Qed.

Lemma thread_commit_jobs_invariant jobs queue job_refs m0 :
  worker_invariant (mk_manager queue job_refs (m_results m0) (m_incomplete_checks_count m0)) →
  NoDup (job_druleid <$> jobs) →
  (∀ job, job ∈ jobs →
     job_refs !! job_druleid job = None
     ∧ (job_druleid job ∉ queue_jobs queue)
     ∧ (workers_max job = 0 ∨ workers_used job < workers_max job)) →
  let st := fold_left thread_commit_job jobs (queue, job_refs) in
  worker_invariant (mk_manager st.1 st.2 (m_results m0) (m_incomplete_checks_count m0))
  ∧ pending_checks_count st.1 = pending_checks_count queue
  ∧ (∀ job, job ∈ jobs →
       job_druleid job ∈ queue_jobs st.1
       ∧ st.2 !! job_druleid job = Some (job_set_status job DISCOVERER_JOB_STATUS_QUEUED))
  ∧ job_refs ⊆ st.2
  ∧ queue_jobs queue `prefix_of` queue_jobs st.1.
Proof.
  revert queue job_refs.
  induction jobs as [|job jobs IH]; intros queue job_refs Hinv Hnd Hnew; cbn [fold_left].
  { split_and!; [done..| |done|done]. intros job Hjob. by apply elem_of_nil in Hjob. }
  rewrite fmap_cons in Hnd. apply NoDup_cons in Hnd as [Hjob Hnd].
  destruct (Hnew job (list_elem_of_here _ _)) as (Href & Hq & Hroom).
  rewrite thread_commit_job_eq.
  set (queue1 := mk_queue (queue_jobs queue ++ [job_druleid job])
                   (pending_checks_count queue) (snmpv3_allowed_workers queue)
                   (queue_errors queue)).
  set (job1 := job_set_status job DISCOVERER_JOB_STATUS_QUEUED).
  destruct Hinv as [Wnd Wkey Wcap Wq]. cbn [m_queue m_job_refs] in *.
  assert (worker_invariant
            (mk_manager queue1 (<[job_druleid job := job1]> job_refs) (m_results m0)
               (m_incomplete_checks_count m0))) as Hinv1.
  { split; cbn [m_queue m_job_refs queue1 queue_jobs].
    - apply NoDup_app. split_and!; [done| |apply NoDup_singleton].
      intros x Hx ->%list_elem_of_singleton. done.
    - intros r j [[<- <-]|[_ Hj]]%lookup_insert_Some; [done|by eapply Wkey].
    - intros r j [[<- <-]|[_ Hj]]%lookup_insert_Some; [|by eapply Wcap].
      subst job1. cbn. lia.
    - intros r j [[<- <-]|[Hne Hj]]%lookup_insert_Some Hin; [done|].
      apply elem_of_app in Hin as [Hin| ->%list_elem_of_singleton]; [by eapply Wq|done]. }
  destruct (IH queue1 (<[job_druleid job := job1]> job_refs) Hinv1 Hnd)
    as (I1 & I2 & I3 & I4 & I5).
  { intros job' Hjob'. destruct (Hnew job' (list_elem_of_further _ _ _ Hjob'))
      as (Href' & Hq' & Hroom').
    assert (job_druleid job' ≠ job_druleid job) as Hne.
    { intros Heq. apply Hjob. rewrite <- Heq. by apply list_elem_of_fmap_2. }
    split_and!; [by rewrite lookup_insert_ne|..|done].
    cbn [queue1 queue_jobs]. intros [?| ?%list_elem_of_singleton]%elem_of_app; done. }
  split_and!; [done|done| | |].
  - intros job' [-> |Hjob']%elem_of_cons; [|by apply I3]. split.
    + eapply elem_of_prefix; [|exact I5]. cbn [queue1 queue_jobs]. apply elem_of_snoc.
    + eapply lookup_weaken; [|exact I4]. by rewrite lookup_insert_eq.
  - etrans; [|exact I4]. by apply insert_subseteq.
  - etrans; [|exact I5]. cbn [queue1 queue_jobs]. by apply prefix_app_r.
Qed.

(** X21: handing the new jobs to the workers keeps the invariant of the
    job queue, provided the jobs are of distinct rules that have no job
    yet and have a worker to spare. The jobs known before stay, the queue
    only grows at its end, each new job is queued with status QUEUED, and
    the pending checks grow by the sum of the new counts modulo 2^64.
    When no rule was expanded the queue and the jobs are left as they
    are. *)
Theorem commit_keeps_worker_invariant m pd time_now :
  worker_invariant m →
  NoDup (job_druleid <$> pd_jobs pd) →
  (∀ job, job ∈ pd_jobs pd →
     m_job_refs m !! job_druleid job = None
     ∧ (job_druleid job ∉ queue_jobs (m_queue m))
     ∧ (workers_max job = 0 ∨ workers_used job < workers_max job)) →
  let m' := discoverer_thread_commit m pd time_now in
  worker_invariant m'
  ∧ m_job_refs m ⊆ m_job_refs m'
  ∧ queue_jobs (m_queue m) `prefix_of` queue_jobs (m_queue m')
  ∧ (0 < pd_rule_count pd →
       (∀ job, job ∈ pd_jobs pd →
          job_druleid job ∈ queue_jobs (m_queue m')
          ∧ m_job_refs m' !! job_druleid job
            = Some (job_set_status job DISCOVERER_JOB_STATUS_QUEUED))
       ∧ pending_checks_count (m_queue m')
         = u64 (pending_checks_count (m_queue m)
                + fold_left (λ queued count, u64 (queued + count.2))
                    (map_to_list (pd_check_counts pd)) 0))
  ∧ (¬ 0 < pd_rule_count pd → m_queue m' = m_queue m ∧ m_job_refs m' = m_job_refs m).
Proof.
  intros Hinv Hnd Hnew m'. subst m'. unfold discoverer_thread_commit.
  set (results' := if decide (length (pd_err_druleids pd) ≠ 0%nat) then _ else _).
  destruct (decide (0 < pd_rule_count pd)) as [Hpos|Hpos].
  2:{ cbn [m_queue m_job_refs]. split_and!; try done.
      destruct Hinv as [? ? ? ?]. by split. }
  set (queue := queue_set_pending (m_queue m) _).
  destruct (thread_commit_jobs_invariant (pd_jobs pd) queue (m_job_refs m) m)
    as (I1 & I2 & I3 & I4 & I5); [|done|done|].
  { destruct Hinv as [? ? ? ?]. by split. }
  cbn [m_queue m_job_refs]. split_and!; try done.
  destruct I1 as [? ? ? ?]. by split.
Qed.

End ThreadProperties.

(** ** Port lists *)

Lemma strchr_cons a s c :
  strchr (String a s) c
  = if decide (a = c) then Some (EmptyString, s)
    else match strchr s c with
         | Some (before, after) => Some (String a before, after)
         | None => None
         end.
Proof. done. Qed.

Lemma strchr_None s c :
  strchr s c = None ↔ Forall (λ a, a ≠ c) (String.list_ascii_of_string s).
Proof.
  induction s as [|a s IH]; [by split|].
  rewrite strchr_cons. cbn [String.list_ascii_of_string]. rewrite Forall_cons.
  destruct (decide (a = c)) as [-> |Hne]; [split; [done|tauto]|].
  destruct (strchr s c) as [[before after]|].
  - split; [done|]. intros [_ Hs]. by apply IH in Hs.
  - split; [|done]. intros _. split; [done|]. by apply IH.
Qed.

Lemma strchr_app s c t :
  strchr s c = None → strchr (s +:+ String c t) c = Some (s, t).
Proof.
  induction s as [|a s IH].
  - intros _. change (EmptyString +:+ String c t) with (String c t).
    by rewrite strchr_cons, decide_True.
  - rewrite string_app_cons, !strchr_cons.
    destruct (decide (a = c)); [done|].
    destruct (strchr s c) as [[before after]|] eqn:Hs; [done|].
    intros _. by rewrite IH.
Qed.

Section PortRangesProperties.
Context `{LibcCollaborators}.

Lemma dcheck_port_ranges_loop_pieces pieces turns ranges :
  Forall comma_free pieces →
  (String.length (String.concat "," pieces) < turns)%nat →
  dcheck_port_ranges_loop turns (String.concat "," pieces) ranges
  = ranges ++ (port_range <$> (if decide (last pieces = Some EmptyString)
                               then removelast pieces else pieces)).
Proof.
  revert turns ranges. induction pieces as [|piece pieces IH]; intros turns ranges Hfree Hlen.
  { destruct turns; [cbn in Hlen; lia|]. cbn. by rewrite app_nil_r. }
  apply Forall_cons in Hfree as [Hpiece Hfree].
  apply strchr_None in Hpiece.
  destruct turns as [|turns]; [lia|].
  destruct pieces as [|piece' pieces].
  - cbn [String.concat] in *. destruct piece as [|a piece].
    + cbn. by rewrite app_nil_r.
    + cbn [dcheck_port_ranges_loop]. rewrite Hpiece. by rewrite decide_False.
  - change (String.concat "," (piece :: piece' :: pieces))
      with (piece +:+ String ","%char (String.concat "," (piece' :: pieces))) in *.
    cbn [dcheck_port_ranges_loop].
    rewrite (strchr_app _ _ _ Hpiece).
    rewrite IH; [|done|].
    2:{ rewrite string_app_length in Hlen. cbn [String.length] in Hlen. lia. }
    assert (piece +:+ String ","%char (String.concat "," (piece' :: pieces)) ≠ EmptyString) as Hne.
    { by destruct piece. }
    destruct (piece +:+ String ","%char (String.concat "," (piece' :: pieces))) eqn:Heq; [done|].
    rewrite <- (assoc_L (++)). f_equal.
    change (last (piece :: piece' :: pieces)) with (last (piece' :: pieces)).
    destruct (decide (last (piece' :: pieces) = Some EmptyString)); [|done].
    done.
Qed.

(** X22: dcheck_port_ranges_get reads a comma separated list piece by
    piece. For pieces without a comma, joined by commas, it appends one
    range per piece in order (from the numbers before and after the first
    dash, or twice the number of a piece without a dash); an empty last
    piece, that is a trailing comma or the empty text, gives no range,
    while an empty piece elsewhere is read like any other. *)
Theorem dcheck_port_ranges_get_pieces pieces ranges :
  Forall comma_free pieces →
  dcheck_port_ranges_get (String.concat "," pieces) ranges
  = ranges ++ (port_range <$> (if decide (last pieces = Some EmptyString)
                               then removelast pieces else pieces)).
Proof.
  intros Hfree. unfold dcheck_port_ranges_get.
  apply dcheck_port_ranges_loop_pieces; [done|lia].
Qed.

End PortRangesProperties.

(** ** Clean-up of hosts and services *)

Section CleanServicesProperties.
Import CleanServices.
Context `{Collaborators}.

Lemma uniq_elem_of values x : x ∈ zbx_vector_uint64_uniq values ↔ x ∈ values.
Proof.
  induction values as [|a values IH]; [done|].
  cbn [zbx_vector_uint64_uniq]. destruct values as [|b values].
  - done.
  - destruct (decide (a = b)) as [-> |Hne].
    + rewrite IH. rewrite !elem_of_cons. tauto.
    + rewrite elem_of_cons, IH. by rewrite (elem_of_cons (b :: values)).
Qed.

Lemma sort_elem_of values x : x ∈ zbx_vector_uint64_sort values ↔ x ∈ values.
Proof. unfold zbx_vector_uint64_sort. by rewrite merge_sort_Permutation. Qed.

Lemma remove_noorder_Permutation values i :
  (i < length values)%nat →
  zbx_vector_uint64_remove_noorder values i ≡ₚ delete i values
  ∧ take i (zbx_vector_uint64_remove_noorder values i) = take i values
  ∧ length (zbx_vector_uint64_remove_noorder values i) = (length values - 1)%nat.
Proof.
  intros Hi. unfold zbx_vector_uint64_remove_noorder.
  destruct values as [|x l _] using rev_ind; [cbn in Hi; lia|].
  rewrite last_snoc, length_app. cbn [length].
  replace (length l + 1 - 1)%nat with (length l) by lia.
  rewrite length_app in Hi. cbn [length] in Hi.
  destruct (decide (i = length l)) as [-> |Hne].
  - rewrite insert_app_r_alt by lia. rewrite Nat.sub_diag. cbn [insert list_insert].
    rewrite take_app_length.
    rewrite (delete_middle l [] x), app_nil_r.
    split_and!; [done|by rewrite take_ge|done].
  - assert (i < length l)%nat as Hlt by lia.
    destruct (lookup_lt_is_Some_2 l i Hlt) as [d Hd].
    rewrite insert_app_l by done.
    rewrite take_app_length' by by rewrite length_insert.
    rewrite (take_app_le l [x]) by lia.
    rewrite take_insert_ge by lia.
    rewrite length_insert.
    split_and!; [|done|lia].
    rewrite insert_take_drop by done.
    rewrite <- (take_drop_middle l i d Hd) at 3.
    assert (length (take i l) = i) as Hlen by (rewrite length_take; lia).
    rewrite <- (assoc_L (++)). cbn [app].
    rewrite <- Hlen at 3. rewrite delete_middle.
    apply Permutation_app_head. rewrite Permutation_cons_append. done.
Qed.

Lemma clean_dhosts_loop_Permutation turns keep_dhostids del_dhostids i :
  (length del_dhostids - i ≤ turns)%nat →
  (i ≤ length del_dhostids)%nat →
  clean_dhosts_loop turns keep_dhostids del_dhostids i
  ≡ₚ take i del_dhostids ++ filter (λ d, d ∉ keep_dhostids) (drop i del_dhostids).
Proof.
  revert del_dhostids i.
  induction turns as [|turns IH]; intros del i Hturns Hi; cbn [clean_dhosts_loop].
  { rewrite take_ge, drop_ge by lia. by rewrite app_nil_r. }
  destruct (del !! i) as [d|] eqn:Hd.
  2:{ apply lookup_ge_None in Hd. rewrite take_ge, drop_ge by lia. by rewrite app_nil_r. }
  pose proof (lookup_lt_Some _ _ _ Hd) as Hlt.
  rewrite (drop_S _ _ _ Hd), filter_cons.
  destruct (bool_decide_reflect (d ∈ keep_dhostids)) as [Hkeep|Hkeep].
  - rewrite decide_False by tauto.
    destruct (remove_noorder_Permutation del i Hlt) as (Hperm & Htake & Hlen).
    rewrite IH by lia. rewrite Htake. apply Permutation_app_head, filter_Permutation.
    rewrite delete_take_drop in Hperm.
    rewrite <- (take_drop i (zbx_vector_uint64_remove_noorder del i)) in Hperm.
    rewrite Htake in Hperm. by apply Permutation_app_inv_l in Hperm.
  - rewrite decide_True by done. rewrite IH by lia.
    rewrite (take_S_r _ _ _ Hd), <- (assoc_L (++)). done.
Qed.

Lemma clean_rows_fold iprange rows st :
  let st' := fold_left (clean_rows_step iprange) rows st in
  (∀ h, h ∈ st'.1.1 ↔
     h ∈ st.1.1
     ∨ ∃ row s, row ∈ rows ∧ row_dhostid row = h ∧ row_dserviceid row = Some s
         ∧ zbx_ip_in_list iprange (row_ip row) = true)
  ∧ (∀ h, h ∈ st'.1.2 ↔
       h ∈ st.1.2
       ∨ ∃ row, row ∈ rows ∧ row_dhostid row = h
           ∧ (row_dserviceid row = None ∨ zbx_ip_in_list iprange (row_ip row) = false))
  ∧ (∀ s, s ∈ st'.2 ↔
       s ∈ st.2
       ∨ ∃ row, row ∈ rows ∧ row_dserviceid row = Some s
           ∧ zbx_ip_in_list iprange (row_ip row) = false).
Proof.
  revert st. induction rows as [|row rows IH]; intros st; cbn [fold_left].
  { split_and!; intros x; (split; [auto|]).
    - intros [?|(r & ? & Hr & _)]; [done|by apply elem_of_nil in Hr].
    - intros [?|(r & Hr & _)]; [done|by apply elem_of_nil in Hr].
    - intros [?|(r & Hr & _)]; [done|by apply elem_of_nil in Hr]. }
  destruct (IH (clean_rows_step iprange st row)) as (I1 & I2 & I3).
  unfold clean_rows_step in I1, I2, I3.
  split_and!; intros x; rewrite ?I1, ?I2, ?I3; clear I1 I2 I3.
  - destruct (row_dserviceid row) as [s|] eqn:Hs;
      [destruct (zbx_ip_in_list iprange (row_ip row)) eqn:Hin|]; cbn [negb fst snd].
    + rewrite elem_of_app, list_elem_of_singleton. split.
      * intros [[?| ->]|(r & s' & Hr & ?)]; auto.
        -- right. exists row, s. split; [apply list_elem_of_here|done].
        -- right. exists r, s'. split; [by apply list_elem_of_further|done].
      * intros [?|(r & s' & [-> |Hr]%elem_of_cons & Hh & ?)]; auto.
        right. by exists r, s'.
    + split.
      * intros [?|(r & s' & Hr & ?)]; auto.
        right. exists r, s'. split; [by apply list_elem_of_further|done].
      * intros [?|(r & s' & [-> |Hr]%elem_of_cons & Hh & Hs' & Hin')]; auto; [congruence|].
        right. by exists r, s'.
    + split.
      * intros [?|(r & s' & Hr & ?)]; auto.
        right. exists r, s'. split; [by apply list_elem_of_further|done].
      * intros [?|(r & s' & [-> |Hr]%elem_of_cons & Hh & Hs' & Hin')]; auto; [congruence|].
        right. by exists r, s'.
  - destruct (row_dserviceid row) as [s|] eqn:Hs;
      [destruct (zbx_ip_in_list iprange (row_ip row)) eqn:Hin|]; cbn [negb fst snd].
    + split.
      * intros [?|(r & Hr & ?)]; auto.
        right. exists r. split; [by apply list_elem_of_further|done].
      * intros [?|(r & [-> |Hr]%elem_of_cons & Hh & Hor)]; auto.
        -- destruct Hor; congruence.
        -- right. by exists r.
    + rewrite elem_of_app, list_elem_of_singleton. split.
      * intros [[?| ->]|(r & Hr & ?)]; auto.
        -- right. exists row. split; [apply list_elem_of_here|auto].
        -- right. exists r. split; [by apply list_elem_of_further|done].
      * intros [?|(r & [-> |Hr]%elem_of_cons & Hh & ?)]; auto.
        right. by exists r.
    + rewrite elem_of_app, list_elem_of_singleton. split.
      * intros [[?| ->]|(r & Hr & ?)]; auto.
        -- right. exists row. split; [apply list_elem_of_here|auto].
        -- right. exists r. split; [by apply list_elem_of_further|done].
      * intros [?|(r & [-> |Hr]%elem_of_cons & Hh & ?)]; auto.
        right. by exists r.
  - destruct (row_dserviceid row) as [s|] eqn:Hs;
      [destruct (zbx_ip_in_list iprange (row_ip row)) eqn:Hin|]; cbn [negb fst snd].
    + split.
      * intros [?|(r & Hr & ?)]; auto.
        right. exists r. split; [by apply list_elem_of_further|done].
      * intros [?|(r & [-> |Hr]%elem_of_cons & Hs' & Hin')]; auto; [congruence|].
        right. by exists r.
    + rewrite elem_of_app, list_elem_of_singleton. split.
      * intros [[?| ->]|(r & Hr & ?)]; auto.
        -- right. exists row. split; [apply list_elem_of_here|auto].
        -- right. exists r. split; [by apply list_elem_of_further|done].
      * intros [?|(r & [-> |Hr]%elem_of_cons & Hs' & ?)]; auto.
        -- left; right. congruence.
        -- right. by exists r.
    + split.
      * intros [?|(r & Hr & ?)]; auto.
        right. exists r. split; [by apply list_elem_of_further|done].
      * intros [?|(r & [-> |Hr]%elem_of_cons & Hs' & Hin')]; auto; [congruence|].
        right. by exists r.
Qed.

(** X23: what discovery_clean_services deletes, when the rows are those of
    the left join (a host with a NULL service row has no other row). It
    deletes exactly the services whose address is outside the range of
    the rule, and exactly the hosts that have no service inside the
    range; each statement is issued only when it has ids, services
    first, and the ids are sorted. *)
Theorem clean_services_deletes iprange rows :
  (∀ row row', row ∈ rows → row' ∈ rows → row_dserviceid row = None →
     row_dhostid row' = row_dhostid row → row_dserviceid row' = None) →
  ∃ dserviceids dhostids,
    discovery_clean_services (Some iprange) rows
    = (if decide (dserviceids = []) then [] else [delete_from_dservices dserviceids])
        ++ (if decide (dhostids = []) then [] else [delete_from_dhosts dhostids])
    ∧ (∀ s, s ∈ dserviceids ↔
         ∃ row, row ∈ rows ∧ row_dserviceid row = Some s
           ∧ zbx_ip_in_list iprange (row_ip row) = false)
    ∧ (∀ h, h ∈ dhostids ↔
         (∃ row, row ∈ rows ∧ row_dhostid row = h)
         ∧ ∀ row s, row ∈ rows → row_dhostid row = h → row_dserviceid row = Some s →
             zbx_ip_in_list iprange (row_ip row) = false)
    ∧ Sorted Z.le dserviceids ∧ Sorted Z.le dhostids.
Proof.
  intros Hjoin. unfold discovery_clean_services.
  destruct (clean_rows_fold iprange rows ([], [], [])) as (Hkeep & Hdel & Hsrv).
  set (st := fold_left (clean_rows_step iprange) rows ([], [], [])) in *.
  cbn [fst snd] in Hkeep, Hdel, Hsrv.
  cbn zeta.
  set (del_dhostids := if decide (length st.2 ≠ 0%nat)
                       then clean_dhosts_loop _ _ _ _ else _).
  exists (zbx_vector_uint64_sort st.2), (zbx_vector_uint64_sort del_dhostids).
  assert (∀ l : list Z, zbx_vector_uint64_sort l = [] ↔ length l = 0%nat) as Hnil.
  { intros l. unfold zbx_vector_uint64_sort. split.
    - intros Hs. pose proof (merge_sort_Permutation Z.le l) as Hp. rewrite Hs in Hp.
      by rewrite <- Hp.
    - intros ->%nil_length_inv. done. }
  split_and!.
  - f_equal.
    + destruct (decide (length st.2 ≠ 0%nat)) as [Hn|Hn].
      * rewrite decide_False; [done|]. by rewrite Hnil.
      * rewrite decide_True; [done|]. apply Hnil. lia.
    + destruct (decide (length del_dhostids ≠ 0%nat)) as [Hn|Hn].
      * rewrite decide_False; [done|]. by rewrite Hnil.
      * rewrite decide_True; [done|]. apply Hnil. lia.
  - intros s. rewrite sort_elem_of, Hsrv. split; [|auto].
    intros [Hn|?]; [by apply elem_of_nil in Hn|done].
  - intros h. rewrite sort_elem_of. subst del_dhostids.
    destruct (decide (length st.2 ≠ 0%nat)) as [Hn|Hn].
    + rewrite clean_dhosts_loop_Permutation by lia.
      rewrite take_0, drop_0, app_nil_l, list_elem_of_filter.
      rewrite !uniq_elem_of, !sort_elem_of, Hkeep, Hdel. split.
      * intros [Hnk [Hnil'|(row & Hrow & Hh & _)]]; [by apply elem_of_nil in Hnil'|].
        split; [by exists row|]. intros row' s Hrow' Hh' Hs.
        destruct (zbx_ip_in_list iprange (row_ip row')) eqn:Hin; [|done].
        exfalso. apply Hnk. right. by exists row', s.
      * intros [(row & Hrow & Hh) Hall]. split.
        -- intros [Hnil'|(row' & s & Hrow' & Hh' & Hs & Hin)];
             [by apply elem_of_nil in Hnil'|].
           rewrite (Hall row' s Hrow' Hh' Hs) in Hin. done.
        -- right. exists row. split_and!; [done..|].
           destruct (row_dserviceid row) as [s|] eqn:Hs; [|auto]. right. by eapply Hall.
    + assert (st.2 = []) as Hempty by (destruct st.2; [done|cbn in Hn; lia]).
      rewrite Hdel. split.
      * intros [Hnil'|(row & Hrow & Hh & Hor)]; [by apply elem_of_nil in Hnil'|].
        split; [by exists row|]. intros row' s Hrow' Hh' Hs.
        destruct Hor as [Hnull|Hout].
        -- rewrite (Hjoin row row' Hrow Hrow' Hnull) in Hs by congruence. done.
        -- destruct (row_dserviceid row) as [s0|] eqn:Hs0.
           ++ exfalso. assert (s0 ∈ st.2) as Hin0; [|rewrite Hempty in Hin0;
                by apply elem_of_nil in Hin0].
              apply Hsrv. right. by exists row.
           ++ rewrite (Hjoin row row' Hrow Hrow' Hs0) in Hs by congruence. done.
      * intros [(row & Hrow & Hh) Hall]. right. exists row. split_and!; [done..|].
        destruct (row_dserviceid row) as [s|] eqn:Hs; [|auto]. right. by eapply Hall.
  - apply Sorted_merge_sort, _.
  - apply Sorted_merge_sort, _.
Qed.

(** A rule without a row in drules leaves the tables alone. *)
Lemma clean_services_no_rule rows : discovery_clean_services None rows = [].
Proof. done. Qed.

End CleanServicesProperties.

(** ** The ICMP sweep *)

(** *** The results vector seen by rule and address *)

Lemma vector_of_elem m vr r : vector_of m vr → r ∈ vr ↔ m !! result_key r = Some r.
Proof.
  intros [Hwk Hp]. rewrite Hp, list_elem_of_fmap. split.
  - intros ([k r'] & -> & Hin%elem_of_map_to_list). cbn.
    by rewrite (Hwk _ _ Hin).
  - intros Hr. exists (result_key r, r). split; [done|]. by apply elem_of_map_to_list.
Qed.

Lemma vector_of_NoDup m vr : vector_of m vr → NoDup (result_key <$> vr).
Proof.
  intros [Hwk Hp]. rewrite Hp.
  assert (result_key <$> (map_to_list m).*2 = (map_to_list m).*1) as ->.
  { rewrite <- list_fmap_compose. apply Forall_fmap_ext_1, Forall_forall.
    intros [k r] Hin%elem_of_map_to_list. cbn. by apply Hwk. }
  apply NoDup_fst_map_to_list.
Qed.

Lemma vector_of_result_at m vr k : vector_of m vr → result_at vr k = m !! k.
Proof.
  intros Hv. unfold result_at, results_ptr_bsearch.
  destruct (list_find _ vr) as [[i r]|] eqn:Hfind; cbn.
  - apply list_find_Some in Hfind as (Hi & <- & _).
    apply list_elem_of_lookup_2 in Hi. symmetry. by apply (vector_of_elem m vr).
  - destruct (m !! k) as [r|] eqn:Hk; [|done].
    pose proof (proj1 Hv _ _ Hk) as Hkey. rewrite <- Hkey in Hk.
    apply (vector_of_elem m vr r Hv) in Hk.
    apply list_find_None in Hfind.
    by destruct (proj1 (Forall_forall _ _) Hfind r Hk).
Qed.

Lemma vector_of_exists vr :
  NoDup (result_key <$> vr) →
  vector_of (list_to_map ((λ r, (result_key r, r)) <$> vr)) vr.
Proof.
  intros Hnd.
  assert (NoDup ((λ r, (result_key r, r)) <$> vr).*1) as Hnd'.
  { by rewrite <- list_fmap_compose. }
  split.
  - intros k r Hk. apply elem_of_list_to_map in Hk; [|done].
    apply list_elem_of_fmap in Hk as (r' & [= -> ->] & _). done.
  - rewrite map_to_list_to_map by done.
    rewrite <- list_fmap_compose. by rewrite list_fmap_id.
Qed.

Lemma vector_of_insert_new m vr x vr' :
  vector_of m vr → m !! result_key x = None → vr' ≡ₚ x :: vr →
  vector_of (<[result_key x := x]> m) vr'.
Proof.
  intros [Hwk Hp] Hnone Hp'. split.
  - intros k r [[<- <-]|[_ Hk]]%lookup_insert_Some; [done|by apply Hwk].
  - rewrite Hp', map_to_list_insert by done. cbn. by rewrite Hp.
Qed.

Lemma vector_of_replace m vr i r x :
  vector_of m vr → vr !! i = Some r → result_key x = result_key r →
  vector_of (<[result_key r := x]> m) (<[i := x]> vr).
Proof.
  intros Hv Hi Hkey. pose proof Hv as [Hwk Hp].
  assert (m !! result_key r = Some r) as Hr.
  { apply (vector_of_elem m vr r Hv). by eapply list_elem_of_lookup_2. }
  split.
  - intros k r' [[<- <-]|[_ Hk]]%lookup_insert_Some; [done|by apply Hwk].
  - assert (i < length vr)%nat as Hlt by by eapply lookup_lt_Some.
    rewrite insert_take_drop by done.
    rewrite <- Permutation_middle.
    rewrite <- (insert_delete_eq m), map_to_list_insert by apply lookup_delete_eq.
    cbn. apply Permutation_cons; [done|].
    rewrite <- delete_take_drop.
    apply (Permutation_cons_inv (a := r)).
    rewrite <- (delete_Permutation vr i r Hi), Hp.
    by rewrite <- (map_to_list_delete m _ _ Hr).
Qed.

Section IcmpResults.
Context `{Constants} `{TaskCollaborators} `{IcmpCollaborators}.

Lemma icmp_result_fill_key dcheckid' h r :
  result_key (icmp_result_fill dcheckid' h r) = result_key r.
Proof. done. Qed.

Lemma icmp_result_step_view druleid' dcheck_idx task dcheckid' time_now m vr h :
  vector_of m vr →
  (dcheck_idx = 0%nat → 0 ≠ fping_rcv h → m !! (druleid', fping_addr h) = None) →
  vector_of
    (icmp_answer_commit druleid' (task_unique_dcheckid task) dcheckid' time_now m h)
    (icmp_result_step druleid' dcheck_idx task dcheckid' time_now vr h).
Proof.
  intros Hv Hfresh. unfold icmp_answer_commit, icmp_result_step.
  destruct (decide (0 = fping_rcv h)) as [|Hrcv]; [done|].
  fold (icmp_result_new druleid' (task_unique_dcheckid task) time_now (fping_addr h)).
  set (new := icmp_result_new _ _ _ _).
  assert (result_key new = (druleid', fping_addr h)) as Hnew by done.
  destruct (decide (dcheck_idx = 0%nat)) as [Hidx|Hidx].
  - rewrite (Hfresh Hidx Hrcv). cbn [default]. rewrite decide_False by (intros ?; done).
    rewrite <- Hnew, <- (icmp_result_fill_key dcheckid' h new).
    apply (vector_of_insert_new m vr); [done| |].
    + rewrite icmp_result_fill_key, Hnew. by apply Hfresh.
    + by rewrite Permutation_app_comm.
  - pose proof (vector_of_result_at m vr (druleid', fping_addr h) Hv) as Hat.
    unfold result_at in Hat.
    destruct (results_ptr_bsearch vr (druleid', fping_addr h)) as [[i r]|] eqn:Hfind;
      cbn in Hat; rewrite <- Hat; cbn [default].
    + apply list_find_Some in Hfind as (Hi & Hkey & _). rewrite <- Hkey.
      by apply vector_of_replace.
    + rewrite decide_True by done.
      rewrite <- Hnew, <- (icmp_result_fill_key dcheckid' h new).
      apply (vector_of_insert_new m vr); [done| |].
      * by rewrite icmp_result_fill_key, Hnew.
      * unfold zbx_vector_discoverer_results_ptr_insert.
        rewrite <- Permutation_middle. by rewrite take_drop.
Qed.

Lemma icmp_answer_commit_fold druleid' unique dcheckid' time_now hosts m :
  NoDup (fping_addr <$> hosts) →
  let m' := fold_left (icmp_answer_commit druleid' unique dcheckid' time_now) hosts m in
  (∀ h, h ∈ hosts → 0 ≠ fping_rcv h →
     m' !! (druleid', fping_addr h)
     = Some (icmp_result_fill dcheckid' h
               (default (icmp_result_new druleid' unique time_now (fping_addr h))
                  (m !! (druleid', fping_addr h)))))
  ∧ (∀ k, (∀ h, h ∈ hosts → 0 ≠ fping_rcv h → (druleid', fping_addr h) ≠ k) →
       m' !! k = m !! k).
Proof.
  revert m. induction hosts as [|h0 hosts IH]; intros m Hnd m'; subst m'.
  { split; [by intros h ?%elem_of_nil|done]. }
  cbn [fmap list_fmap] in Hnd. apply NoDup_cons in Hnd as [Hnotin Hnd].
  cbn [fold_left].
  destruct (IH (icmp_answer_commit druleid' unique dcheckid' time_now m h0) Hnd)
    as [Hset Hkeep].
  assert (∀ h, h ∈ hosts →
            icmp_answer_commit druleid' unique dcheckid' time_now m h0
              !! (druleid', fping_addr h) = m !! (druleid', fping_addr h)) as Hother.
  { intros h Hh. unfold icmp_answer_commit. destruct (decide _); [done|].
    apply lookup_insert_ne. intros [= Heq]. apply Hnotin. rewrite Heq.
    by apply list_elem_of_fmap_2. }
  split.
  - intros h [-> |Hh]%elem_of_cons Hrcv.
    + rewrite Hkeep.
      * unfold icmp_answer_commit. rewrite decide_False by done.
        by rewrite lookup_insert_eq.
      * intros h' Hh' _ [= Heq]. apply Hnotin. rewrite <- Heq.
        by apply list_elem_of_fmap_2.
    + rewrite (Hset h Hh Hrcv). by rewrite Hother.
  - intros k Hk. rewrite Hkeep.
    + unfold icmp_answer_commit. destruct (decide _) as [|Hrcv]; [done|].
      apply lookup_insert_ne. apply Hk; [apply list_elem_of_here|done].
    + intros h Hh. apply Hk. by apply list_elem_of_further.
Qed.

Lemma icmp_result_fold_view druleid' dcheck_idx task dcheckid' time_now hosts m vr :
  NoDup (fping_addr <$> hosts) →
  (dcheck_idx = 0%nat →
     ∀ h, h ∈ hosts → 0 ≠ fping_rcv h → m !! (druleid', fping_addr h) = None) →
  vector_of m vr →
  vector_of
    (fold_left (icmp_answer_commit druleid' (task_unique_dcheckid task) dcheckid' time_now)
       hosts m)
    (fold_left (icmp_result_step druleid' dcheck_idx task dcheckid' time_now) hosts vr).
Proof.
  revert m vr. induction hosts as [|h0 hosts IH]; intros m vr Hnd Hfresh Hv; [done|].
  cbn [fmap list_fmap] in Hnd. apply NoDup_cons in Hnd as [Hnotin Hnd].
  cbn [fold_left]. apply IH; [done| |].
  - intros Hidx h Hh Hrcv. unfold icmp_answer_commit.
    destruct (decide _); [by apply Hfresh; [|apply list_elem_of_further|]|].
    rewrite lookup_insert_ne; [by apply Hfresh; [|apply list_elem_of_further|]|].
    intros [= Heq]. apply Hnotin. rewrite Heq. by apply list_elem_of_fmap_2.
  - apply icmp_result_step_view; [done|].
    intros Hidx Hrcv. apply Hfresh; [done|apply list_elem_of_here|done].
Qed.

Lemma icmp_result_proc_view druleid' dcheck_idx task dcheck time_now hosts m vr :
  NoDup (fping_addr <$> hosts) →
  (dcheck_idx = 0%nat →
     ∀ h, h ∈ hosts → 0 ≠ fping_rcv h → m !! (druleid', fping_addr h) = None) →
  vector_of m vr →
  vector_of
    (fold_left (icmp_answer_commit druleid' (task_unique_dcheckid task)
                  (dc_dcheckid dcheck) time_now) hosts m)
    (discovery_icmp_result_proc druleid' dcheck_idx task dcheck time_now hosts vr).
Proof.
  intros Hnd Hfresh Hv. unfold discovery_icmp_result_proc.
  pose proof (icmp_result_fold_view druleid' dcheck_idx task (dc_dcheckid dcheck)
                time_now hosts m vr Hnd Hfresh Hv) as [Hwk Hp].
  destruct (decide (dcheck_idx = 0%nat)); [|by split].
  split; [done|]. unfold zbx_vector_discoverer_results_ptr_sort.
  by rewrite merge_sort_Permutation.
Qed.

End IcmpResults.

(** *** The order of the results vector *)

Lemma string_compare_trans (a b c : string) :
  String.compare a b ≠ Gt → String.compare b c ≠ Gt → String.compare a c ≠ Gt.
Proof.
  revert b c. induction a as [|x a IH]; intros [|y b] [|z c]; cbn; try done.
  unfold Ascii.compare.
  destruct (N.compare_spec (N_of_ascii x) (N_of_ascii y)) as [Hxy|Hxy|Hxy];
    destruct (N.compare_spec (N_of_ascii y) (N_of_ascii z)) as [Hyz|Hyz|Hyz];
    destruct (N.compare_spec (N_of_ascii x) (N_of_ascii z)) as [Hxz|Hxz|Hxz];
    try done; try lia.
  apply IH.
Qed.

Lemma discoverer_result_compare_antisym r1 r2 :
  discoverer_result_compare r2 r1 = CompOpp (discoverer_result_compare r1 r2).
Proof.
  unfold discoverer_result_compare.
  rewrite (Z.compare_antisym (druleid r1)), (String.compare_antisym (ip r2) (ip r1)).
  by destruct (druleid r1 ?= druleid r2).
Qed.

#[global] Instance results_le_total : Total results_le.
Proof.
  intros r1 r2. unfold results_le. rewrite (discoverer_result_compare_antisym r1 r2).
  destruct (discoverer_result_compare r1 r2); cbn; auto.
Qed.

#[global] Instance results_le_trans : Transitive results_le.
Proof.
  intros r1 r2 r3. unfold results_le, discoverer_result_compare.
  destruct (Z.compare_spec (druleid r1) (druleid r2)) as [H12|H12|H12];
    destruct (Z.compare_spec (druleid r2) (druleid r3)) as [H23|H23|H23];
    destruct (Z.compare_spec (druleid r1) (druleid r3)) as [H13|H13|H13];
    try done; try lia.
  apply string_compare_trans.
Qed.

Lemma results_le_key r1 r2 r1' r2' :
  result_key r1' = result_key r1 → result_key r2' = result_key r2 →
  results_le r1 r2 → results_le r1' r2'.
Proof.
  unfold results_le, discoverer_result_compare, result_key.
  by intros [= -> ->] [= -> ->].
Qed.

Lemma results_sorted_same_keys vr vr' :
  Forall2 (λ r r', result_key r' = result_key r) vr vr' →
  StronglySorted results_le vr → StronglySorted results_le vr'.
Proof.
  induction 1 as [|r r' vr vr' Hkey Hrest IH]; [done|].
  intros [Hall Hs]%StronglySorted_cons. apply StronglySorted_cons.
  split; [|by apply IH].
  clear IH Hs. induction Hrest as [|x x' l l' Hx Hl IH]; [done|].
  apply Forall_cons in Hall as [? ?]. apply Forall_cons. split; [|by apply IH].
  by apply (results_le_key r x).
Qed.

Lemma results_sorted_replace vr i r x :
  StronglySorted results_le vr → vr !! i = Some r → result_key x = result_key r →
  StronglySorted results_le (<[i := x]> vr).
Proof.
  intros Hs Hi Hkey. apply (results_sorted_same_keys vr); [|done].
  rewrite <- (list_insert_id vr i r Hi) at 1.
  apply Forall2_insert; [|done]. by apply Forall_Forall2_diag, Forall_true.
Qed.

Lemma results_sorted_insert vr r x :
  StronglySorted results_le vr → result_key x = result_key r →
  StronglySorted results_le
    (zbx_vector_discoverer_results_ptr_insert vr x
       (zbx_vector_discoverer_results_ptr_nearestindex vr r)).
Proof.
  intros Hs Hkey.
  unfold zbx_vector_discoverer_results_ptr_insert,
    zbx_vector_discoverer_results_ptr_nearestindex.
  destruct (list_find _ vr) as [[i y]|] eqn:Hfind.
  - apply list_find_Some in Hfind as (Hi & Hy & Hbefore).
    rewrite <- (take_drop i vr) in Hs.
    apply StronglySorted_app in Hs as (Hcross & Htake & Hdrop).
    assert (Forall (results_le x) (drop i vr)) as Hafter.
    { rewrite (drop_S _ _ _ Hi) in Hdrop |- *.
      apply StronglySorted_cons in Hdrop as [Hall _].
      apply Forall_cons. split; [by apply (results_le_key r y)|].
      eapply Forall_impl; [exact Hall|]. intros z Hz. cbn beta in Hz.
      apply (results_le_key r z); [done..|]. by etrans. }
    apply StronglySorted_app_2; [|done|by apply StronglySorted_cons].
    intros x1 x2 Hx1 [-> |Hx2]%elem_of_cons; [|by apply Hcross].
    apply list_elem_of_lookup in Hx1 as [j Hj].
    apply lookup_take_Some in Hj as [Hj Hlt].
    apply (results_le_key x1 r); [done..|].
    destruct (total results_le x1 r) as [?|Hle]; [done|].
    by destruct (Hbefore j x1 Hj Hlt).
  - apply list_find_None in Hfind. rewrite take_ge, drop_ge by done.
    apply StronglySorted_app_2; [|done|by repeat constructor].
    intros x1 x2 Hx1 ->%list_elem_of_singleton.
    apply (results_le_key x1 r); [done..|].
    destruct (total results_le x1 r) as [?|Hle]; [done|].
    by destruct (proj1 (Forall_forall _ _) Hfind x1 Hx1).
Qed.

Section IcmpSorted.
Context `{Constants} `{TaskCollaborators} `{IcmpCollaborators}.

Lemma icmp_result_proc_sorted druleid' dcheck_idx task dcheck time_now hosts vr :
  StronglySorted results_le vr →
  StronglySorted results_le
    (discovery_icmp_result_proc druleid' dcheck_idx task dcheck time_now hosts vr).
Proof.
  intros Hs. unfold discovery_icmp_result_proc.
  destruct (decide (dcheck_idx = 0%nat)) as [|Hidx].
  { apply StronglySorted_merge_sort; apply _. }
  revert vr Hs. induction hosts as [|h hosts IH]; intros vr Hs; [done|].
  cbn [fold_left]. apply IH. unfold icmp_result_step.
  destruct (decide (0 = fping_rcv h)); [done|].
  rewrite (decide_False (P := dcheck_idx = 0%nat)) by done.
  destruct (results_ptr_bsearch vr (druleid', fping_addr h)) as [[i r]|] eqn:Hfind.
  - apply list_find_Some in Hfind as (Hi & _ & _). by eapply results_sorted_replace.
  - rewrite decide_True by done. by apply results_sorted_insert.
Qed.

End IcmpSorted.

(** *** How the answers of the batches add up *)

Lemma elem_of_concat {A} (ls : list (list A)) (x : A) :
  x ∈ concat ls ↔ ∃ l, l ∈ ls ∧ x ∈ l.
Proof.
  induction ls as [|l0 ls IH]; cbn [concat].
  - split; [by intros ?%elem_of_nil|by intros (l & ?%elem_of_nil & _)].
  - rewrite elem_of_app, IH. split.
    + intros [?|(l & ? & ?)]; [exists l0|exists l]; split; try done;
        [apply list_elem_of_here|by apply list_elem_of_further].
    + intros (l & [-> |?]%elem_of_cons & ?); [by left|right; by exists l].
Qed.

Section IcmpAnswers.
Context `{Constants} `{TaskCollaborators} `{IcmpCollaborators}.

Lemma fping_addr_new (pending : list string) :
  fping_addr <$> (fping_host_new <$> pending) = pending.
Proof. rewrite <- list_fmap_compose. apply list_fmap_id. Qed.

Lemma icmp_answered_addr dcheck pings h :
  ping_keeps_addrs → icmp_answered dcheck pings h → fping_addr h ∈ concat pings.
Proof.
  intros Hkeeps (b & hosts' & Hb & Hping & Hh & _). apply elem_of_concat.
  exists b. split; [done|]. apply Hkeeps in Hping.
  rewrite <- Hping. by apply list_elem_of_fmap_2.
Qed.

Lemma icmp_answered_app dcheck pings1 pings2 h :
  icmp_answered dcheck (pings1 ++ pings2) h
  ↔ icmp_answered dcheck pings1 h ∨ icmp_answered dcheck pings2 h.
Proof.
  unfold icmp_answered. split.
  - intros (b & hosts' & [?|?]%elem_of_app & ?); [left|right]; by exists b, hosts'.
  - intros [(b & hosts' & ? & ?)|(b & hosts' & ? & ?)]; exists b, hosts';
      (split; [apply elem_of_app; by auto|done]).
Qed.

Lemma icmp_answered_singleton dcheck b hosts' h :
  zbx_ping dcheck (fping_host_new <$> b) = inl hosts' →
  icmp_answered dcheck [b] h ↔ h ∈ hosts' ∧ 0 ≠ fping_rcv h.
Proof.
  intros Hping. unfold icmp_answered. split.
  - intros (b' & hosts'' & ->%list_elem_of_singleton & Hping' & ?).
    rewrite Hping in Hping'. by injection Hping' as <-.
  - intros ?. exists b, hosts'. split; [apply list_elem_of_here|done].
Qed.

Lemma icmp_sweep_results_nil druleid' unique dcheck time_now old :
  icmp_sweep_results druleid' unique dcheck time_now [] old old.
Proof. split; [|done]. by intros h (b & ? & ?%elem_of_nil & _). Qed.

Lemma icmp_sweep_results_failed druleid' unique dcheck time_now b e old :
  zbx_ping dcheck (fping_host_new <$> b) = inr e →
  icmp_sweep_results druleid' unique dcheck time_now [b] old old.
Proof.
  intros Hping. split; [|done].
  intros h (b' & hosts' & ->%list_elem_of_singleton & Hping' & _). congruence.
Qed.

Lemma icmp_sweep_results_batch druleid' unique dcheck time_now b hosts' m :
  zbx_ping dcheck (fping_host_new <$> b) = inl hosts' →
  NoDup (fping_addr <$> hosts') →
  icmp_sweep_results druleid' unique dcheck time_now [b] (m !!.)
    (fold_left (icmp_answer_commit druleid' unique (dc_dcheckid dcheck) time_now)
       hosts' m !!.).
Proof.
  intros Hping Hnd.
  destruct (icmp_answer_commit_fold druleid' unique (dc_dcheckid dcheck) time_now hosts'
              m Hnd) as [Hset Hkeep].
  split.
  - intros h [Hh Hrcv]%(icmp_answered_singleton _ _ hosts'); [|done]. by apply Hset.
  - intros k Hk. apply Hkeep. intros h Hh Hrcv. apply Hk.
    by apply (icmp_answered_singleton _ _ hosts').
Qed.

Lemma icmp_sweep_results_app druleid' unique dcheck time_now pings1 pings2 old mid new :
  ping_keeps_addrs →
  (∀ a, a ∈ concat pings1 → a ∉ concat pings2) →
  icmp_sweep_results druleid' unique dcheck time_now pings1 old mid →
  icmp_sweep_results druleid' unique dcheck time_now pings2 mid new →
  icmp_sweep_results druleid' unique dcheck time_now (pings1 ++ pings2) old new.
Proof.
  intros Hkeeps Hdisj [Hset1 Hkeep1] [Hset2 Hkeep2]. split.
  - intros h [Hh|Hh]%icmp_answered_app.
    + rewrite Hkeep2; [by apply Hset1|].
      intros h' Hh' [= Heq]. apply (Hdisj (fping_addr h)).
      * by eapply icmp_answered_addr.
      * rewrite <- Heq. by eapply icmp_answered_addr.
    + rewrite (Hset2 h Hh). rewrite Hkeep1; [done|].
      intros h' Hh' [= Heq]. apply (Hdisj (fping_addr h')).
      * by eapply icmp_answered_addr.
      * rewrite Heq. by eapply icmp_answered_addr.
  - intros k Hk. rewrite Hkeep2, Hkeep1; [done|..];
      intros h Hh; apply Hk, icmp_answered_app; auto.
Qed.

End IcmpAnswers.

(** *** The sweep of one check *)

Section IcmpBatches.
Context `{Constants} `{TaskCollaborators} `{IcmpCollaborators}.

Lemma discover_icmp_loop_spec druleid' dcheck_idx task dcheck worker_max stop time_now
    ips :
  let size := Z.to_nat (Z.max 1 worker_max) in
  ∀ reads pending results pings,
  (length pending < size)%nat →
  ∃ pending' results' new reads' err,
    discover_icmp_loop druleid' dcheck_idx task dcheck worker_max stop time_now ips reads
      (fping_host_new <$> pending) results pings
    = (fping_host_new <$> pending', results', pings ++ new, reads', err)
    ∧ Forall (λ b, length b = size) new
    ∧ (reads < reads')%nat
    ∧ match err with
      | None =>
          (length pending' < size)%nat
          ∧ concat new ++ pending' `prefix_of` pending ++ ips
          ∧ Forall (ping_ok dcheck) new
          ∧ ((∀ n, (reads ≤ n)%nat → stop n = false) →
               concat new ++ pending' = pending ++ ips)
      | Some e =>
          ∃ before, new = before ++ [pending']
            ∧ concat new `prefix_of` pending ++ ips
            ∧ Forall (ping_ok dcheck) before
            ∧ zbx_ping dcheck (fping_host_new <$> pending') = inr e
      end
    ∧ (ping_keeps_addrs → NoDup (pending ++ ips) →
       ∀ m, vector_of m results → StronglySorted results_le results →
         (dcheck_idx = 0%nat →
            ∀ ip', ip' ∈ pending ++ ips → m !! (druleid', ip') = None) →
         ∃ m', vector_of m' results' ∧ StronglySorted results_le results'
           ∧ icmp_sweep_results druleid' (task_unique_dcheckid task) dcheck time_now new
               (m !!.) (m' !!.)).
Proof.
  intros size. induction ips as [|ip' ips IH]; intros reads pending results pings Hlen.
  - exists pending, results, [], (S reads), None. cbn [discover_icmp_loop].
    rewrite !app_nil_r. split; [by destruct (stop reads)|].
    split; [done|]. split; [lia|]. split; [by split_and!|].
    intros _ _ m Hv Hs _. exists m. split_and!; [done..|].
    apply icmp_sweep_results_nil.
  - cbn [discover_icmp_loop]. destruct (stop reads) eqn:Hstop.
    { exists pending, results, [], (S reads), None. rewrite app_nil_r.
      split; [done|]. split; [done|]. split; [lia|]. split.
      - split; [done|]. split; [by apply prefix_app_r|]. split; [done|].
        intros Hnever. rewrite Hnever in Hstop; [done|lia].
      - intros _ _ m Hv Hs _. exists m. split_and!; [done..|].
        apply icmp_sweep_results_nil. }
    change (mk_fping_host ip' 0 None) with (fping_host_new ip').
    assert ((fping_host_new <$> pending) ++ [fping_host_new ip']
            = fping_host_new <$> (pending ++ [ip'])) as -> by by rewrite fmap_app.
    rewrite length_fmap, length_app. cbn [length].
    assert ((pending ++ [ip']) ++ ips = pending ++ ip' :: ips) as Hassoc
      by by rewrite <- (assoc_L (++)).
    destruct (bool_decide_reflect (worker_max > Z.of_nat (length pending + 1)))
      as [Hroom|Hfull].
    + destruct (IH (S reads) (pending ++ [ip']) results pings)
        as (pending' & results' & new & reads' & err & -> & Hsize & Hreads & Herr & Hres).
      { rewrite length_app. cbn [length]. subst size. lia. }
      exists pending', results', new, reads', err. rewrite Hassoc in Herr, Hres.
      split; [done|]. split; [done|]. split; [lia|]. split; [|done].
      destruct err as [e|]; [done|].
      destruct Herr as (? & ? & ? & Hall). split_and!; try done.
      intros Hnever. apply Hall. intros n Hn. apply Hnever. lia.
    + assert (length (pending ++ [ip']) = size) as Hbatch.
      { rewrite length_app. cbn [length]. subst size. lia. }
      rewrite fping_addr_new.
      destruct (zbx_ping dcheck (fping_host_new <$> pending ++ [ip'])) as [hosts'|e]
        eqn:Hping.
      * destruct (IH (S reads) [] (discovery_icmp_result_proc druleid' dcheck_idx task
                                     dcheck time_now hosts' results)
                    (pings ++ [pending ++ [ip']]))
          as (pending' & results' & new & reads' & err & Hrun & Hsize & Hreads & Herr
              & Hres).
        { cbn [length]. subst size. lia. }
        cbn [fmap list_fmap] in Hrun. rewrite Hrun.
        exists pending', results', ((pending ++ [ip']) :: new), reads', err.
        split; [by rewrite <- (assoc_L (++))|].
        split; [by apply Forall_cons|]. split; [lia|].
        assert (ping_ok dcheck (pending ++ [ip'])) as Hok by by exists hosts'.
        assert (concat new `prefix_of` ips) as Hnew.
        { destruct err as [e|]; [by destruct Herr as (? & _ & ? & _)|].
          destruct Herr as (_ & Hpre & _). by eapply prefix_app_l. }
        split.
        { cbn [concat]. rewrite <- !(assoc_L (++)). cbn [app] in *.
          destruct err as [e|].
          - destruct Herr as (before & -> & Hpre & Hbefore & Hfail).
            exists ((pending ++ [ip']) :: before).
            split; [done|].
            split; [by apply prefix_app, (prefix_app [ip'])|].
            split; [by apply Forall_cons|done].
          - destruct Herr as (? & Hpre & ? & Hall). split_and!; try done.
            + by apply prefix_app, (prefix_app [ip']).
            + by apply Forall_cons.
            + intros Hnever. do 2 f_equal. apply Hall. intros n Hn. apply Hnever. lia. }
        intros Hkeeps Hnd m Hv Hs Hfresh.
        pose proof (Hkeeps _ _ _ Hping) as Haddrs.
        rewrite <- Hassoc in Hnd. apply NoDup_app in Hnd as (Hnd1 & Hdisj & Hnd2).
        assert (NoDup (fping_addr <$> hosts')) as Hndh by by rewrite Haddrs.
        pose proof (icmp_sweep_results_batch druleid' (task_unique_dcheckid task) dcheck
                      time_now _ hosts' m Hping Hndh) as Hbatch1.
        set (m1 := fold_left _ hosts' m) in Hbatch1.
        assert (vector_of m1
                  (discovery_icmp_result_proc druleid' dcheck_idx task dcheck time_now
                     hosts' results)) as Hv1.
        { apply icmp_result_proc_view; [done| |done].
          intros Hidx h Hh _. apply Hfresh; [done|]. rewrite <- Hassoc.
          apply elem_of_app. left. rewrite <- Haddrs. by apply list_elem_of_fmap_2. }
        destruct (Hres Hkeeps Hnd2 m1 Hv1
                    (icmp_result_proc_sorted druleid' dcheck_idx task dcheck time_now
                       hosts' results Hs)) as (m' & Hv' & Hs' & Hsweep).
        { intros Hidx ip'' Hip''. cbn [app] in Hip''.
          rewrite (proj2 Hbatch1).
          - apply Hfresh; [done|]. rewrite <- Hassoc. apply elem_of_app. by right.
          - intros h Hh [= Heq]. apply (Hdisj ip''); [|done].
            apply (icmp_answered_addr _ _ _ Hkeeps) in Hh. cbn [concat] in Hh.
            rewrite app_nil_r in Hh. by rewrite <- Heq. }
        exists m'. split; [done|]. split; [done|].
        apply (icmp_sweep_results_app _ _ _ _ [_] new _ (m1 !!.)); [done| |done..].
        intros a Ha Ha'. cbn [concat] in Ha. rewrite app_nil_r in Ha.
        apply (Hdisj a Ha). by eapply elem_of_prefix.
      * exists (pending ++ [ip']), results, [pending ++ [ip']], (S reads), (Some e).
        split; [done|]. split; [by apply Forall_singleton|]. split; [lia|].
        split.
        { exists []. split; [done|]. cbn [concat]. rewrite app_nil_r.
          split; [|done]. apply prefix_app. by apply (prefix_app_r [ip'] [ip']). }
        intros _ _ m Hv Hs _. exists m. split; [done|]. split; [done|].
        by eapply icmp_sweep_results_failed.
Qed.

Lemma discover_icmp_spec druleid' task dcheck_idx dcheck worker_max results stop
    time_now :
  dchecks task !! dcheck_idx = Some dcheck →
  let size :=
    Z.to_nat (Z.max 1 (if decide (0 = worker_max)
                       then DISCOVERER_JOB_TASKS_INPROGRESS_MAX else worker_max)) in
  let ips := zbx_iprange_uniq_ips (ipranges task) in
  ∃ out,
    discover_icmp druleid' task dcheck_idx worker_max results stop time_now = Some out
    ∧ (concat (icmp_pings out) `prefix_of` ips
       ∧ Forall (λ b, (1 ≤ length b ≤ size)%nat) (icmp_pings out)
       ∧ (∀ i b, icmp_pings out !! i = Some b → (S i < length (icmp_pings out))%nat →
            length b = size ∧ ping_ok dcheck b)
       ∧ (icmp_ret out = true →
            icmp_error out = None ∧ Forall (ping_ok dcheck) (icmp_pings out))
       ∧ (icmp_ret out = false →
            ∃ b err, last (icmp_pings out) = Some b
              ∧ zbx_ping dcheck (fping_host_new <$> b) = inr err
              ∧ icmp_error out = Some err)
       ∧ ((∀ n, stop n = false) → icmp_ret out = true →
            concat (icmp_pings out) = ips))
    ∧ (ping_keeps_addrs → NoDup ips →
       ∀ m, vector_of m results → StronglySorted results_le results →
         (dcheck_idx = 0%nat → ∀ ip', ip' ∈ ips → m !! (druleid', ip') = None) →
         ∃ m', vector_of m' (icmp_results out)
           ∧ StronglySorted results_le (icmp_results out)
           ∧ icmp_sweep_results druleid' (task_unique_dcheckid task) dcheck time_now
               (icmp_pings out) (m !!.) (m' !!.)).
Proof.
  intros Hdcheck size ips. unfold discover_icmp. rewrite Hdcheck. fold ips.
  set (wm := if decide (0 = worker_max) then _ else _) in *.
  assert (1 ≤ size)%nat as Hsize1 by (subst size; lia).
  destruct (discover_icmp_loop_spec druleid' dcheck_idx task dcheck wm stop time_now
              ips 0 [] results [])
    as (pending' & results' & new & reads' & err & Hrun & Hsize & _ & Herr & Hres);
    [cbn [length]; fold size; lia|].
  fold size in Hsize, Herr. cbn [fmap list_fmap app] in Hrun, Hres. rewrite Hrun.
  clear Hrun.
  assert (∀ before b i b0, Forall (λ b, length b = size) before →
            Forall (ping_ok dcheck) before →
            (before ++ [b]) !! i = Some b0 → (S i < length (before ++ [b]))%nat →
            length b0 = size ∧ ping_ok dcheck b0) as Hinner.
  { intros before b i b0 Hs Hok Hi Hlt. rewrite length_app in Hlt. cbn [length] in Hlt.
    rewrite lookup_app_l in Hi by lia. apply list_elem_of_lookup_2 in Hi.
    split; [by eapply (proj1 (Forall_forall _ _) Hs)|
            by eapply (proj1 (Forall_forall _ _) Hok)]. }
  assert (∀ l : list (list string), Forall (λ b, length b = size) l →
            Forall (λ b, (1 ≤ length b ≤ size)%nat) l) as Hbounds.
  { intros l Hl. eapply Forall_impl; [exact Hl|]. intros b Hb. cbn beta in Hb. lia. }
  destruct err as [e|].
  - destruct Herr as (before & -> & Hpre & Hbefore & Hfail).
    eexists. split; [done|]. cbn [icmp_pings icmp_ret icmp_error icmp_results].
    split; [|done].
    split; [done|]. split; [by apply Hbounds|].
    split.
    { intros i b0. apply Hinner; [|done]. by apply Forall_app in Hsize as [? _]. }
    split; [done|]. split; [|done].
    intros _. exists pending', e. by rewrite last_snoc.
  - destruct Herr as (Hlen & Hpre & Hok & Hall). cbn [app] in *.
    rewrite length_fmap.
    destruct (stop reads') eqn:Hstop; cbn [negb andb].
    { eexists. split; [done|]. cbn [icmp_pings icmp_ret icmp_error icmp_results].
      split; [|done].
      split; [by eapply prefix_app_l|]. split; [by apply Hbounds|].
      split.
      { intros i b0 Hi _. apply list_elem_of_lookup_2 in Hi.
        split; [by eapply (proj1 (Forall_forall _ _) Hsize)|
                by eapply (proj1 (Forall_forall _ _) Hok)]. }
      split; [done|]. split; [done|].
      intros Hnever. by rewrite Hnever in Hstop. }
    destruct (bool_decide_reflect (length pending' = 0%nat)) as [Hnil|Hsome]; cbn [negb].
    { apply nil_length_inv in Hnil as ->. rewrite app_nil_r in Hpre, Hall.
      eexists. split; [done|]. cbn [icmp_pings icmp_ret icmp_error icmp_results].
      split; [|done].
      split; [done|]. split; [by apply Hbounds|].
      split.
      { intros i b0 Hi _. apply list_elem_of_lookup_2 in Hi.
        split; [by eapply (proj1 (Forall_forall _ _) Hsize)|
                by eapply (proj1 (Forall_forall _ _) Hok)]. }
      split; [done|]. split; [done|].
      intros Hnever _. apply Hall. intros n _. apply Hnever. }
    rewrite fping_addr_new.
    assert (Forall (λ b, (1 ≤ length b ≤ size)%nat) (new ++ [pending'])) as Hb.
    { apply Forall_app. split; [by apply Hbounds|]. apply Forall_singleton. lia. }
    assert (concat (new ++ [pending']) = concat new ++ pending') as Hcat.
    { rewrite concat_app. cbn [concat]. by rewrite app_nil_r. }
    assert (NoDup ips → (∀ a, a ∈ concat new → a ∉ concat [pending'])
                        ∧ NoDup pending' ∧ ∀ a, a ∈ pending' → a ∈ ips) as Hparts.
    { intros Hnd. destruct Hpre as [rest Hrest]. rewrite Hrest in Hnd.
      apply NoDup_app in Hnd as ((Hn1 & Hdisj & Hn2)%NoDup_app & _ & _).
      split_and!; [|done|].
      - intros a Ha. cbn [concat]. rewrite app_nil_r. by apply Hdisj.
      - intros a Ha. rewrite Hrest. apply elem_of_app. left. apply elem_of_app. by right. }
    destruct (zbx_ping dcheck (fping_host_new <$> pending')) as [hosts'|e] eqn:Hping.
    + eexists. split; [done|]. cbn [icmp_pings icmp_ret icmp_error icmp_results].
      rewrite Hcat. split.
      { split; [done|]. split; [done|].
        split; [intros i b0; by apply Hinner|].
        split.
        { intros _. split; [done|]. apply Forall_app. split; [done|].
          apply Forall_singleton. by exists hosts'. }
        split; [done|].
        intros Hnever _. apply Hall. intros n _. apply Hnever. }
      intros Hkeeps Hnd m Hv Hs Hfresh.
      destruct (Hres Hkeeps Hnd m Hv Hs Hfresh) as (m1 & Hv1 & Hs1 & Hsw1).
      destruct (Hparts Hnd) as (Hdisj & Hndp & Hsub).
      pose proof (Hkeeps _ _ _ Hping) as Haddrs.
      assert (NoDup (fping_addr <$> hosts')) as Hndh by by rewrite Haddrs.
      pose proof (icmp_sweep_results_batch druleid' (task_unique_dcheckid task) dcheck
                    time_now _ hosts' m1 Hping Hndh) as Hbatch1.
      set (m2 := fold_left _ hosts' m1) in Hbatch1.
      exists m2. split.
      { apply icmp_result_proc_view; [done| |done].
        intros Hidx h Hh _.
        assert (fping_addr h ∈ pending') as Hhp.
        { rewrite <- Haddrs. by apply list_elem_of_fmap_2. }
        rewrite (proj2 Hsw1).
        - apply Hfresh; [done|]. by apply Hsub.
        - intros h' Hh' [= Heq]. apply (Hdisj (fping_addr h')).
          + by eapply icmp_answered_addr.
          + cbn [concat]. rewrite app_nil_r. by rewrite Heq. }
      split; [by apply icmp_result_proc_sorted|].
      by apply (icmp_sweep_results_app _ _ _ _ new [_] _ (m1 !!.)).
    + eexists. split; [done|]. cbn [icmp_pings icmp_ret icmp_error icmp_results].
      rewrite Hcat. split.
      { split; [done|]. split; [done|].
        split; [intros i b0; by apply Hinner|].
        split; [done|]. split; [|done].
        intros _. exists pending', e. by rewrite last_snoc. }
      intros Hkeeps Hnd m Hv Hs Hfresh.
      destruct (Hres Hkeeps Hnd m Hv Hs Hfresh) as (m1 & Hv1 & Hs1 & Hsw1).
      destruct (Hparts Hnd) as (Hdisj & _ & _).
      exists m1. split; [done|]. split; [done|].
      apply (icmp_sweep_results_app _ _ _ _ new [_] _ (m1 !!.)); [done..|].
      by eapply icmp_sweep_results_failed.
Qed.

(** X24: how discover_icmp batches the addresses of the range. The
    addresses pinged are, in order, the first addresses the range yields,
    each once; every batch has between one and worker_max addresses (the
    default DISCOVERER_JOB_TASKS_INPROGRESS_MAX when worker_max is 0, one
    when it is negative), and every batch but the last is full and was
    pinged with success. The call returns FAIL exactly when its last ping
    failed, and then *error is the message of that ping; when it returns
    SUCCEED no ping failed, and unless the worker was asked to stop every
    address of the range was pinged. *)
Theorem discover_icmp_batches druleid' task dcheck_idx dcheck worker_max results stop
    time_now :
  dchecks task !! dcheck_idx = Some dcheck →
  let size :=
    Z.to_nat (Z.max 1 (if decide (0 = worker_max)
                       then DISCOVERER_JOB_TASKS_INPROGRESS_MAX else worker_max)) in
  let ips := zbx_iprange_uniq_ips (ipranges task) in
  ∃ out,
    discover_icmp druleid' task dcheck_idx worker_max results stop time_now = Some out
    ∧ concat (icmp_pings out) `prefix_of` ips
    ∧ Forall (λ b, (1 ≤ length b ≤ size)%nat) (icmp_pings out)
    ∧ (∀ i b, icmp_pings out !! i = Some b → (S i < length (icmp_pings out))%nat →
         length b = size ∧ ping_ok dcheck b)
    ∧ (icmp_ret out = true →
         icmp_error out = None ∧ Forall (ping_ok dcheck) (icmp_pings out))
    ∧ (icmp_ret out = false →
         ∃ b err, last (icmp_pings out) = Some b
           ∧ zbx_ping dcheck (fping_host_new <$> b) = inr err
           ∧ icmp_error out = Some err)
    ∧ ((∀ n, stop n = false) → icmp_ret out = true → concat (icmp_pings out) = ips).
Proof.
  intros Hdcheck size ips.
  destruct (discover_icmp_spec druleid' task dcheck_idx dcheck worker_max results stop
              time_now Hdcheck) as (out & Hout & Hbatches & _).
  by exists out.
Qed.

(** X25: what discover_icmp does to the results vector, when zbx_ping
    leaves the addresses of its hosts alone, the range yields distinct
    addresses, the vector is sorted by rule and address without
    duplicates and, for the first check, has no result for an address of
    the range. The vector stays sorted and free of duplicates; a host
    that a successful ping left with an answer has a result with one more
    service (port 0, status Up, the id of the check), made from the
    result it had or from a new one, and takes the dnsname of the ping
    when it had none; every other result is as it was. *)
Theorem discover_icmp_results druleid' task dcheck_idx dcheck worker_max results stop
    time_now :
  dchecks task !! dcheck_idx = Some dcheck →
  ping_keeps_addrs →
  NoDup (zbx_iprange_uniq_ips (ipranges task)) →
  NoDup (result_key <$> results) →
  StronglySorted results_le results →
  (dcheck_idx = 0%nat →
     ∀ ip', ip' ∈ zbx_iprange_uniq_ips (ipranges task) →
       result_at results (druleid', ip') = None) →
  ∃ out,
    discover_icmp druleid' task dcheck_idx worker_max results stop time_now = Some out
    ∧ NoDup (result_key <$> icmp_results out)
    ∧ StronglySorted results_le (icmp_results out)
    ∧ icmp_sweep_results druleid' (task_unique_dcheckid task) dcheck time_now
        (icmp_pings out) (result_at results) (result_at (icmp_results out)).
Proof.
  intros Hdcheck Hkeeps Hnd Hkeys Hs Hfresh.
  destruct (discover_icmp_spec druleid' task dcheck_idx dcheck worker_max results stop
              time_now Hdcheck) as (out & Hout & _ & Hres).
  pose proof (vector_of_exists results Hkeys) as Hv.
  set (m := list_to_map _) in Hv.
  destruct (Hres Hkeeps Hnd m Hv Hs) as (m' & Hv' & Hs' & Hset & Hkeep).
  { intros Hidx ip' Hip'. rewrite <- (vector_of_result_at m results) by done.
    by apply Hfresh. }
  exists out. split; [done|]. split; [by eapply vector_of_NoDup|]. split; [done|].
  split.
  - intros h Hh. rewrite (vector_of_result_at m' _ _ Hv'), (vector_of_result_at m _ _ Hv).
    by apply Hset.
  - intros k Hk. rewrite (vector_of_result_at m' _ _ Hv'), (vector_of_result_at m _ _ Hv).
    by apply Hkeep.
Qed.

End IcmpBatches.

(** *** The sweep of all checks and its merge *)

Section IcmpNetCheck.
Context `{Constants} `{TaskCollaborators} `{IcmpCollaborators}.

Lemma icmp_gathered_fold druleid' unique time_now answer ds ip' r0 :
  let f := λ r dcheck,
    if decide (0 = fping_rcv (answer dcheck ip')) then r
    else Some (icmp_result_fill (dc_dcheckid dcheck) (answer dcheck ip')
                 (default (icmp_result_new druleid' unique time_now ip') r)) in
  let r := fold_left f ds r0 in
  from_option services [] r = from_option services [] r0 ++ icmp_up_services answer ds ip'
  ∧ (r = None ↔ r0 = None ∧ icmp_up_services answer ds ip' = [])
  ∧ ((∀ x, r0 = Some x → result_key x = (druleid', ip')) →
     ∀ x, r = Some x → result_key x = (druleid', ip')).
Proof.
  intros f. revert r0. induction ds as [|dcheck ds IH]; intros r0 r; subst r.
  { cbn. rewrite app_nil_r. split_and!; [done| |done].
    split; [done|by intros [? _]]. }
  cbn [fold_left icmp_up_services omap list_omap].
  fold (icmp_up_services answer ds ip').
  destruct (IH (f r0 dcheck)) as (Hsvc & Hnone & Hkey). subst f. cbn beta in *.
  destruct (decide (0 = fping_rcv (answer dcheck ip'))) as [|Hrcv]; [done|].
  split_and!.
  - rewrite Hsvc. cbn [from_option icmp_result_fill services].
    rewrite <- (assoc_L (++)). f_equal. by destruct r0.
  - rewrite Hnone. split; [by intros [? _]|by intros [_ ?]].
  - intros Hr0. apply Hkey. intros x [= <-]. rewrite icmp_result_fill_key.
    destruct r0 as [x0|]; [by apply Hr0|done].
Qed.

Lemma icmp_gathered_snoc druleid' unique time_now answer ds dcheck ip' :
  icmp_gathered druleid' unique time_now answer (ds ++ [dcheck]) ip'
  = if decide (0 = fping_rcv (answer dcheck ip'))
    then icmp_gathered druleid' unique time_now answer ds ip'
    else Some (icmp_result_fill (dc_dcheckid dcheck) (answer dcheck ip')
                 (default (icmp_result_new druleid' unique time_now ip')
                    (icmp_gathered druleid' unique time_now answer ds ip'))).
Proof. unfold icmp_gathered. by rewrite fold_left_app. Qed.

Lemma net_check_icmp_fold druleid' task worker_max stop time_now answer :
  (∀ i n, stop i n = false) →
  (∀ dcheck batch,
     zbx_ping dcheck (fping_host_new <$> batch) = inl (answer dcheck <$> batch)) →
  (∀ dcheck ip', fping_addr (answer dcheck ip') = ip') →
  NoDup (zbx_iprange_uniq_ips (ipranges task)) →
  ∀ k, (k ≤ length (dchecks task))%nat →
  let ips := zbx_iprange_uniq_ips (ipranges task) in
  let st :=
    fold_left (net_check_icmp_step druleid' task worker_max stop time_now) (seq 0 k)
      (mk_discover_icmp_out true [] None [], []) in
  icmp_ret st.1 = true ∧ icmp_error st.1 = None ∧ length st.2 = k
  ∧ (∀ pings, pings ∈ st.2 → concat pings = ips)
  ∧ ∃ m, vector_of m (icmp_results st.1)
      ∧ StronglySorted results_le (icmp_results st.1)
      ∧ (∀ ip', ip' ∈ ips →
           m !! (druleid', ip')
           = icmp_gathered druleid' (task_unique_dcheckid task) time_now answer
               (take k (dchecks task)) ip')
      ∧ (∀ key, (∀ ip', ip' ∈ ips → key ≠ (druleid', ip')) → m !! key = None).
Proof.
  intros Hstop Hanswer Haddr Hnd k. induction k as [|k IH]; intros Hk ips st; subst st.
  { cbn. split_and!; try done; [by intros ? ?%elem_of_nil|].
    exists ∅. split_and!; try done. constructor. }
  rewrite seq_S, fold_left_app. cbn [fold_left Nat.add].
  destruct IH as (Hret & Herr & Hlen & Hpings & m & Hv & Hs & Hips & Hother); [lia|].
  destruct (fold_left _ (seq 0 k) _) as [prev sweeps]. cbn [fst snd] in *.
  unfold net_check_icmp_step. cbn [fst snd]. rewrite Hret.
  destruct (lookup_lt_is_Some_2 (dchecks task) k) as [dcheck Hdcheck]; [lia|].
  destruct (discover_icmp_spec druleid' task k dcheck worker_max (icmp_results prev)
              (stop k) time_now Hdcheck)
    as (out & -> & (_ & _ & _ & Hok & Hfail & Hall) & Hres).
  cbn [fst snd].
  assert (ping_keeps_addrs) as Hkeeps.
  { intros d b hosts'. rewrite Hanswer. intros [= <-].
    rewrite <- list_fmap_compose. rewrite <- (list_fmap_id b) at 2.
    apply list_fmap_ext. intros ? a _. apply Haddr. }
  assert (icmp_ret out = true) as Hret'.
  { destruct (icmp_ret out) eqn:Hr; [done|].
    destruct (Hfail eq_refl) as (b & e & _ & Hping & _). by rewrite Hanswer in Hping. }
  destruct (Hok Hret') as [Herr' _].
  pose proof (Hall (Hstop k) Hret') as Hcat. fold ips in Hcat.
  destruct (Hres Hkeeps Hnd m Hv Hs) as (m' & Hv' & Hs' & Hset & Hkeep).
  { intros -> ip' Hip'. by rewrite (Hips ip' Hip'). }
  split; [done|]. split; [done|]. split; [rewrite length_app; cbn; lia|].
  split.
  { intros pings [?| ->%list_elem_of_singleton]%elem_of_app; [by apply Hpings|done]. }
  assert (∀ h, icmp_answered dcheck (icmp_pings out) h
               ↔ ∃ ip', ip' ∈ ips ∧ h = answer dcheck ip' ∧ 0 ≠ fping_rcv h) as Hans.
  { intros h. split.
    - intros (b & hosts' & Hb & Hping & Hh & Hrcv). rewrite Hanswer in Hping.
      injection Hping as <-. apply list_elem_of_fmap in Hh as (a & -> & Ha).
      exists a. split; [|done]. rewrite <- Hcat. apply elem_of_concat. by exists b.
    - intros (ip' & Hip' & -> & Hrcv). rewrite <- Hcat in Hip'.
      apply elem_of_concat in Hip' as (b & Hb & Hip').
      exists b, (answer dcheck <$> b). split; [done|]. split; [done|].
      split; [by apply list_elem_of_fmap_2|done]. }
  exists m'. split; [done|]. split; [done|]. split.
  - intros ip' Hip'. rewrite (take_S_r _ _ _ Hdcheck), icmp_gathered_snoc.
    destruct (decide (0 = fping_rcv (answer dcheck ip'))) as [Hrcv|Hrcv].
    + rewrite Hkeep; [by apply Hips|].
      intros h (a & Ha & -> & Hr)%Hans [= Heq]. rewrite Haddr in Heq. by subst a.
    + pose proof (Hset (answer dcheck ip')) as Hset'.
      rewrite Haddr in Hset'. rewrite Hset'; [by rewrite (Hips ip' Hip')|].
      apply Hans. by exists ip'.
  - intros key Hkey. rewrite Hkeep; [by apply Hother|].
    intros h (a & Ha & -> & _)%Hans Heq. rewrite Haddr in Heq. by apply (Hkey a).
Qed.

Lemma results_merge_no_src task time_now check_counts hr_dst vr_src :
  let ips := zbx_iprange_uniq_ips (ipranges task) in
  let n := discoverer_task_check_count_get task in
  let st' := discover_results_merge check_counts hr_dst vr_src task time_now in
  NoDup (check_count_key (task_druleid task) <$> ips) →
  ∀ ip', ip' ∈ ips →
    results_ptr_bsearch vr_src (task_druleid task, ip') = None →
    (∀ c, check_counts !! check_count_key (task_druleid task) ip' = Some c → c ≠ 0 →
       st'.1.1 !! check_count_key (task_druleid task) ip' = Some (u64 (c - n))
       ∧ (u64 (c - n) = 0 →
            st'.1.2 !! (task_druleid task, ip')
            = Some (default (mk_results (task_druleid task) ip' (Some EmptyString) time_now
                               (task_unique_dcheckid task) 0 [])
                      (hr_dst !! (task_druleid task, ip'))))
       ∧ (u64 (c - n) ≠ 0 →
            st'.1.2 !! (task_druleid task, ip') = hr_dst !! (task_druleid task, ip')))
    ∧ (no_outstanding check_counts (check_count_key (task_druleid task) ip') →
         st'.1.1 !! check_count_key (task_druleid task) ip'
         = check_counts !! check_count_key (task_druleid task) ip'
         ∧ st'.1.2 !! (task_druleid task, ip') = hr_dst !! (task_druleid task, ip')).
Proof.
  intros ips n st' Hnodup ip' Hip Hfind. subst st'.
  unfold discover_results_merge, no_outstanding.
  fold ips. clearbody ips.
  apply list_elem_of_split in Hip as (before & after & ->).
  rewrite fmap_app, fmap_cons in Hnodup.
  apply NoDup_app in Hnodup as (_ & Hbefore & [Hafter _]%NoDup_cons).
  assert (check_count_key (task_druleid task) ip'
          ∉ check_count_key (task_druleid task) <$> before) as Hkb.
  { intros Hin. apply (Hbefore _ Hin). apply list_elem_of_here. }
  assert (ip' ∉ before) as Hib.
  { intros Hin. apply Hkb. by apply list_elem_of_fmap_2. }
  assert (ip' ∉ after) as Hia.
  { intros Hin. apply Hafter. by apply list_elem_of_fmap_2. }
  rewrite fold_left_app. cbn [fold_left].
  destruct (results_merge_fold_frame task time_now before (check_counts, hr_dst, vr_src))
    as (Bcc & Bhr & Bvr).
  destruct (fold_left _ before _) as [[cc1 hr1] vr1]. cbn [fst snd] in Bcc, Bhr, Bvr.
  destruct (results_merge_fold_frame task time_now after
              (results_merge_step task time_now (cc1, hr1, vr1) ip'))
    as (Acc & Ahr & _).
  destruct (results_merge_step_no_result task time_now cc1 hr1 vr1 ip' (Bvr _ Hfind))
    as (_ & Hlive & Hdead).
  rewrite Acc, Ahr by done. rewrite <- (Bcc _ Hkb), <- (Bhr _ Hib). split.
  - intros c Hc Hnz. destruct (Hlive c Hc Hnz) as (Hcount & Hzero & Hrest).
    split_and!; [done|done|]. intros Hne. by rewrite Hrest.
  - intros Hd. destruct (Hdead Hd) as [-> ->]. done.
Qed.

(** X26: an ICMP task from the first ping to the commit, when the worker
    is not asked to stop, no ping fails, the answer to a ping depends on
    the check and the address only, and the addresses of the range give
    distinct keys. The call returns SUCCEED and every check pings every
    address of the range once. For an address with an outstanding count
    that is not 0, the count drops by the check count of the task; if the
    address answered a check its cache entry gains one Up service for
    each check it answered, in the order of the checks; if it answered
    none, an empty entry is registered when the count reaches 0 and the
    cache is left alone otherwise. An address without outstanding count
    changes neither its count nor its cache entry. *)
Theorem net_check_icmp_sweep check_counts results druleid' task worker_max stop time_now
    answer :
  let ips := zbx_iprange_uniq_ips (ipranges task) in
  let n := discoverer_task_check_count_get task in
  let out := discoverer_net_check_icmp check_counts results druleid' task worker_max stop
               time_now in
  druleid' = task_druleid task →
  (∀ i reads, stop i reads = false) →
  (∀ dcheck batch,
     zbx_ping dcheck (fping_host_new <$> batch) = inl (answer dcheck <$> batch)) →
  (∀ dcheck ip', fping_addr (answer dcheck ip') = ip') →
  NoDup (check_count_key druleid' <$> ips) →
  nci_ret out = true ∧ nci_error out = None
  ∧ length (nci_pings out) = length (dchecks task)
  ∧ (∀ pings, pings ∈ nci_pings out → concat pings = ips)
  ∧ ∀ ip', ip' ∈ ips →
      let key := check_count_key druleid' ip' in
      let up := icmp_up_services answer (dchecks task) ip' in
      (∀ c, check_counts !! key = Some c → c ≠ 0 →
         nci_check_counts out !! key = Some (u64 (c - n))
         ∧ (up ≠ [] →
              ∃ dst, nci_results out !! (druleid', ip') = Some dst
                ∧ services dst
                  = from_option services [] (results !! (druleid', ip')) ++ up)
         ∧ (up = [] → u64 (c - n) = 0 →
              nci_results out !! (druleid', ip')
              = Some (default (mk_results druleid' ip' (Some EmptyString) time_now
                                 (task_unique_dcheckid task) 0 [])
                        (results !! (druleid', ip'))))
         ∧ (up = [] → u64 (c - n) ≠ 0 →
              nci_results out !! (druleid', ip') = results !! (druleid', ip')))
      ∧ (no_outstanding check_counts key →
           nci_check_counts out !! key = check_counts !! key
           ∧ nci_results out !! (druleid', ip') = results !! (druleid', ip')).
Proof.
  intros ips n out -> Hstop Hanswer Haddr Hndk. subst out.
  assert (NoDup ips) as Hnd by by eapply NoDup_fmap_1.
  destruct (net_check_icmp_fold (task_druleid task) task worker_max stop time_now answer
              Hstop Hanswer Haddr Hnd (length (dchecks task)))
    as (Hret & Herr & Hlen & Hpings & m & Hv & Hs & Hips & _); [done|].
  rewrite take_ge in Hips by done.
  unfold discoverer_net_check_icmp.
  destruct (fold_left _ (seq 0 (length (dchecks task))) _) as [last sweeps].
  cbn [fst snd nci_ret nci_error nci_pings nci_check_counts nci_results] in *.
  split; [done|]. split; [done|]. split; [done|]. split; [done|].
  intros ip' Hip'. fold ips in Hips.
  pose proof (Hips ip' Hip') as Hm.
  destruct (icmp_gathered_fold (task_druleid task) (task_unique_dcheckid task) time_now
              answer (dchecks task) ip' None) as (Hsvc & Hnone & Hkey).
  fold (icmp_gathered (task_druleid task) (task_unique_dcheckid task) time_now answer
          (dchecks task) ip') in Hsvc, Hnone, Hkey.
  cbn [from_option app] in Hsvc.
  destruct (icmp_gathered _ _ _ _ _ _) as [src|] eqn:Hg.
  - cbn [from_option] in Hsvc.
    pose proof (Hkey ltac:(done) src eq_refl) as Hsrc_key.
    assert (icmp_up_services answer (dchecks task) ip' ≠ []) as Hup.
    { intros Hnil. discriminate (proj2 Hnone (conj eq_refl Hnil)). }
    assert (druleid src = task_druleid task ∧ ip src = ip') as [Hdr Hip_src]
      by (by injection Hsrc_key).
    assert (src ∈ icmp_results last) as Hsrc.
    { apply (vector_of_elem m _ src Hv). by rewrite Hsrc_key. }
    assert (ip src ∈ ips) as Hin by by rewrite Hip_src.
    destruct (results_merge_src_in_range task time_now check_counts results
                (icmp_results last) Hndk (vector_of_NoDup _ _ Hv) src Hsrc Hdr Hin)
      as [Hlive Hdead].
    rewrite Hip_src, Hsrc_key in Hlive, Hdead.
    split.
    + intros c Hc Hnz. destruct (Hlive c Hc Hnz) as (_ & Hcount & dst & Hdst & Hdsvc).
      split; [done|]. split; [|by split].
      intros _. exists dst. split; [done|]. by rewrite Hdsvc, Hsvc.
    + intros Hno. by destruct (Hdead Hno) as (_ & ? & ?).
  - assert (icmp_up_services answer (dchecks task) ip' = []) as Hup
      by by destruct (proj1 Hnone eq_refl).
    assert (results_ptr_bsearch (icmp_results last) (task_druleid task, ip') = None)
      as Hfind.
    { pose proof (vector_of_result_at m _ (task_druleid task, ip') Hv) as Hat.
      rewrite Hm in Hat. unfold result_at in Hat.
      by destruct (results_ptr_bsearch _ _). }
    destruct (results_merge_no_src task time_now check_counts results (icmp_results last)
                Hndk ip' Hip' Hfind) as [Hlive Hdead].
    split; [|done].
    intros c Hc Hnz. destruct (Hlive c Hc Hnz) as (Hcount & Hzero & Hrest).
    split; [done|]. split; [done|]. split; [by intros _|by intros _].
Qed.

Lemma results_merge_counts task time_now check_counts hr_dst vr_src :
  let ips := zbx_iprange_uniq_ips (ipranges task) in
  let n := discoverer_task_check_count_get task in
  let st' := discover_results_merge check_counts hr_dst vr_src task time_now in
  NoDup (check_count_key (task_druleid task) <$> ips) →
  ∀ ip', ip' ∈ ips →
    let key := check_count_key (task_druleid task) ip' in
    (∀ c, check_counts !! key = Some c → c ≠ 0 → st'.1.1 !! key = Some (u64 (c - n)))
    ∧ (no_outstanding check_counts key → st'.1.1 !! key = check_counts !! key).
Proof.
  intros ips n st' Hnodup ip' Hip key. subst st' key.
  unfold discover_results_merge, no_outstanding. fold ips. clearbody ips.
  apply list_elem_of_split in Hip as (before & after & ->).
  rewrite fmap_app, fmap_cons in Hnodup.
  apply NoDup_app in Hnodup as (_ & Hbefore & [Hafter _]%NoDup_cons).
  assert (check_count_key (task_druleid task) ip'
          ∉ check_count_key (task_druleid task) <$> before) as Hkb.
  { intros Hin. apply (Hbefore _ Hin). apply list_elem_of_here. }
  rewrite fold_left_app. cbn [fold_left].
  destruct (results_merge_fold_frame task time_now before (check_counts, hr_dst, vr_src))
    as (Bcc & _ & _).
  destruct (fold_left _ before _) as [[cc1 hr1] vr1]. cbn [fst snd] in Bcc.
  destruct (results_merge_fold_frame task time_now after
              (results_merge_step task time_now (cc1, hr1, vr1) ip'))
    as (Acc & _ & _).
  rewrite Acc by done. rewrite <- (Bcc _ Hkb). unfold results_merge_step. split.
  - intros c Hc Hnz. rewrite (check_count_decrease_Some _ _ _ _ c) by done.
    destruct (results_ptr_bsearch vr1 _) as [[i src]|]; cbn [fst snd];
      apply lookup_insert_eq.
  - intros Hdead.
    apply (check_count_decrease_None _ _ _ (discoverer_task_check_count_get task))
      in Hdead.
    by rewrite Hdead.
Qed.

Lemma net_check_icmp_fold_ret druleid' task worker_max stop time_now k :
  (k ≤ length (dchecks task))%nat →
  let st :=
    fold_left (net_check_icmp_step druleid' task worker_max stop time_now) (seq 0 k)
      (mk_discover_icmp_out true [] None [], []) in
  (length st.2 ≤ k)%nat
  ∧ (icmp_ret st.1 = true → icmp_error st.1 = None ∧ length st.2 = k)
  ∧ (icmp_ret st.1 = false →
       ∃ i dcheck pings b err,
         dchecks task !! i = Some dcheck ∧ length st.2 = S i
         ∧ last st.2 = Some pings ∧ last pings = Some b
         ∧ zbx_ping dcheck (fping_host_new <$> b) = inr err
         ∧ icmp_error st.1 = Some err).
Proof.
  induction k as [|k IH]; intros Hk st; subst st.
  { cbn. by split_and!. }
  rewrite seq_S, fold_left_app. cbn [fold_left Nat.add].
  destruct IH as (Hlen & Htrue & Hfalse); [lia|].
  destruct (fold_left _ (seq 0 k) _) as [prev sweeps]. cbn [fst snd] in *.
  unfold net_check_icmp_step. cbn [fst snd].
  destruct (icmp_ret prev) eqn:Hret.
  2:{ cbn [fst snd]. rewrite Hret. split; [lia|]. split; [done|]. intros _.
      by apply Hfalse. }
  destruct (Htrue eq_refl) as [_ Hlenk].
  destruct (lookup_lt_is_Some_2 (dchecks task) k) as [dcheck Hdcheck]; [lia|].
  destruct (discover_icmp_spec druleid' task k dcheck worker_max (icmp_results prev)
              (stop k) time_now Hdcheck)
    as (out & -> & (_ & _ & _ & Hok & Hfail & _) & _).
  cbn [fst snd]. rewrite length_app. cbn [length].
  split; [lia|]. split.
  - intros Hout. destruct (Hok Hout) as [? _]. split; [done|lia].
  - intros Hout. destruct (Hfail Hout) as (b & err & Hlast & Hping & Herr).
    exists k, dcheck, (icmp_pings out), b, err.
    split; [done|]. split; [lia|]. split; [by rewrite last_snoc|done].
Qed.

(** X27: discoverer_net_check_icmp commits whatever the pings did. It
    sweeps the checks in order and stops after the first sweep that
    fails: it returns FAIL exactly then, with the message of the failed
    ping in *error, and SUCCEED with *error untouched after a sweep of
    every check. In both cases the merge runs: every address of the range
    with an outstanding count that is not 0 has it lowered by the check
    count of the task, also after a failed ping or a stop, and an address
    without outstanding count keeps what it has. *)
Theorem net_check_icmp_commits check_counts results druleid' task worker_max stop
    time_now :
  let ips := zbx_iprange_uniq_ips (ipranges task) in
  let n := discoverer_task_check_count_get task in
  let out := discoverer_net_check_icmp check_counts results druleid' task worker_max stop
               time_now in
  (length (nci_pings out) ≤ length (dchecks task))%nat
  ∧ (nci_ret out = true →
       nci_error out = None ∧ length (nci_pings out) = length (dchecks task))
  ∧ (nci_ret out = false →
       ∃ i dcheck pings b err,
         dchecks task !! i = Some dcheck ∧ length (nci_pings out) = S i
         ∧ last (nci_pings out) = Some pings ∧ last pings = Some b
         ∧ zbx_ping dcheck (fping_host_new <$> b) = inr err
         ∧ nci_error out = Some err)
  ∧ (NoDup (check_count_key (task_druleid task) <$> ips) →
     ∀ ip', ip' ∈ ips →
       let key := check_count_key (task_druleid task) ip' in
       (∀ c, check_counts !! key = Some c → c ≠ 0 →
          nci_check_counts out !! key = Some (u64 (c - n)))
       ∧ (no_outstanding check_counts key →
            nci_check_counts out !! key = check_counts !! key)).
Proof.
  intros ips n out. subst out.
  destruct (net_check_icmp_fold_ret druleid' task worker_max stop time_now
              (length (dchecks task))) as (Hlen & Htrue & Hfalse); [done|].
  unfold discoverer_net_check_icmp.
  destruct (fold_left _ (seq 0 (length (dchecks task))) _) as [last sweeps].
  cbn [fst snd nci_ret nci_error nci_pings nci_check_counts nci_results] in *.
  split; [done|]. split; [done|]. split; [done|].
  intros Hnd ip' Hip'. by apply results_merge_counts.
Qed.

End IcmpNetCheck.

(** ** Jobs known to the manager *)

Section JobsTracked.
Context `{Constants} `{TaskCollaborators} `{WorkerCollaborators} `{ThreadCollaborators}.

Lemma jobs_tracked_take m time_now out :
  worker_invariant m → jobs_tracked m →
  worker_take m time_now = Some out → jobs_tracked (wt_manager out).
Proof.
  intros [Hnodup Hkey Hcap Hqueued] Htr. unfold worker_take, discoverer_queue_pop.
  destruct (queue_jobs (m_queue m)) as [|ref rest] eqn:Hq; [done|].
  apply NoDup_cons in Hnodup as [Hnotin Hrest].
  assert (∀ r job, r ≠ ref → m_job_refs m !! r = Some job →
            0 ≤ workers_used job
            ∧ ((r ∈ rest ∧ job_status job = DISCOVERER_JOB_STATUS_QUEUED)
               ∨ ((r ∉ rest) ∧ job_status job ≠ DISCOVERER_JOB_STATUS_QUEUED
                  ∧ 0 < workers_used job))) as Hothers.
  { intros r job Hne Hjob. destruct (Htr r job Hjob) as [Hpos Hcase].
    rewrite Hq in Hcase.
    split; [done|]. destruct Hcase as [[Hin ?]|(Hout & ? & ?)].
    - left. split; [|done]. by apply elem_of_cons in Hin as [?|?].
    - right. split; [|done]. intros Hin. apply Hout. by apply list_elem_of_further. }
  assert (∀ r job, r ≠ ref → m_job_refs m !! r = Some job →
            0 ≤ workers_used job
            ∧ ((r ∈ rest ++ [ref] ∧ job_status job = DISCOVERER_JOB_STATUS_QUEUED)
               ∨ ((r ∉ rest ++ [ref]) ∧ job_status job ≠ DISCOVERER_JOB_STATUS_QUEUED
                  ∧ 0 < workers_used job))) as Hothers'.
  { intros r job Hne Hjob. destruct (Hothers r job Hne Hjob) as [Hpos Hcase].
    split; [done|]. destruct Hcase as [[Hin ?]|(Hout & ? & ?)].
    - left. split; [|done]. apply elem_of_app. by left.
    - right. split; [|done].
      by intros [?|?%list_elem_of_singleton]%elem_of_app. }
  destruct (m_job_refs m !! ref) as [job|] eqn:Hjob.
  2:{ intros [= <-] r j Hj. cbn [wt_manager m_job_refs m_queue queue_jobs] in *.
      apply Hothers; [|done]. intros ->. congruence. }
  pose proof (Hkey _ _ Hjob) as Hid. destruct (Htr _ _ Hjob) as [Hpos _].
  unfold discoverer_task_pop.
  destruct (tasks job) as [|task tasks'] eqn:Htasks.
  - destruct (decide (0 = workers_used job)) as [Hz|Hnz]; intros [= <-] r j Hj;
      cbn [wt_manager worker_job_remove m_job_refs m_queue queue_jobs] in *.
    + rewrite Hid in Hj. apply lookup_delete_Some in Hj as [Hne Hj]. by apply Hothers.
    + apply lookup_insert_Some in Hj as [[<- <-]|[Hne Hj]]; [|by apply Hothers].
      cbn [job_set_status workers_used job_status]. split; [done|]. right.
      split; [done|]. split; [done|lia].
  - unfold worker_dispatch.
    cbn [job_set_workers_used workers_max workers_used job_druleid job_status tasks].
    destruct (bool_decide (0 = workers_max job)
              || negb (bool_decide (workers_used job + 1 = workers_max job)));
      intros [= <-] r j Hj;
      cbn [wt_manager m_job_refs m_queue queue_jobs discoverer_queue_push
           queue_set_pending job_set_status job_druleid fst snd] in *;
      apply lookup_insert_Some in Hj as [[<- <-]|[Hne Hj]].
    + cbn [workers_used job_status job_set_status job_set_workers_used].
      split; [lia|]. left. split; [|done].
      rewrite Hid. apply elem_of_app. right. apply list_elem_of_here.
    + rewrite Hid. by apply Hothers'.
    + cbn [workers_used job_status job_set_status job_set_workers_used]. split; [lia|]. right.
      split; [done|]. split; [done|lia].
    + by apply Hothers.
Qed.

Lemma jobs_tracked_finish m ref dcheck_type error' time_now :
  abort_keeps_job →
  worker_invariant m → jobs_tracked m →
  (∀ job, m_job_refs m !! ref = Some job → 0 < workers_used job) →
  jobs_tracked (worker_finish m ref dcheck_type error' time_now).1.
Proof.
  intros Habort [Hnodup Hkey Hcap Hqueued] Htr Hheld. unfold worker_finish.
  destruct (m_job_refs m !! ref) as [job|] eqn:Hjob; [|done].
  pose proof (Hkey _ _ Hjob) as Hid. pose proof (Hheld _ eq_refl) as Hused.
  destruct (Htr _ _ Hjob) as [_ Hcase].
  set (job1 := job_set_workers_used job (workers_used job - 1)).
  assert (∃ job2 pending errors,
    match error' with
    | Some e => discoverer_job_abort job1 (pending_checks_count (m_queue m))
                  (queue_errors (m_queue m)) e
    | None => (job1, pending_checks_count (m_queue m), queue_errors (m_queue m))
    end = (job2, pending, errors)
    ∧ job_druleid job2 = ref ∧ workers_used job2 = workers_used job - 1
    ∧ job_status job2 = job_status job)
    as (job2 & pending & errors & -> & Hid2 & Hused2 & Hst2).
  { destruct error' as [e|].
    - destruct (Habort job1 (pending_checks_count (m_queue m))
                  (queue_errors (m_queue m)) e) as (? & ? & ? & ?).
      destruct (discoverer_job_abort _ _ _ _) as [[job2 pending] errors].
      subst job1.
      cbn [fst snd job_set_workers_used job_druleid workers_used workers_max job_status]
        in *.
      exists job2, pending, errors. split_and!; [done|congruence..].
    - exists job1, (pending_checks_count (m_queue m)), (queue_errors (m_queue m)).
      by split_and!. }
  destruct (decide (job_status job2 = DISCOVERER_JOB_STATUS_WAITING)) as [Hw|Hw].
  - rewrite Hst2 in Hw.
    assert (ref ∉ queue_jobs (m_queue m)) as Hout.
    { destruct Hcase as [[_ ?]|[? _]]; [congruence|done]. }
    intros r j Hj.
    cbn [fst snd discoverer_queue_push m_queue m_job_refs queue_jobs job_set_status
         job_druleid] in *.
    rewrite Hid2.
    apply lookup_insert_Some in Hj as [[<- <-]|[Hne Hj]].
    + cbn [workers_used job_status job_set_status job_set_workers_used].
      split; [lia|]. left. split; [|done].
      apply elem_of_app. right. apply list_elem_of_here.
    + destruct (Htr r j Hj) as [Hpos Hc]. split; [done|].
      destruct Hc as [[Hin ?]|(Ho & ? & ?)].
      * left. split; [|done]. apply elem_of_app. by left.
      * right. split; [|done].
        by intros [?|?%list_elem_of_singleton]%elem_of_app.
  - destruct (decide (job_status job2 = DISCOVERER_JOB_STATUS_REMOVING
                      ∧ 0 = workers_used job2)) as [Hr|Hr];
      intros r j Hj;
      cbn [fst snd worker_job_remove m_queue m_job_refs queue_jobs] in *.
    + rewrite Hid2 in Hj. apply lookup_delete_Some in Hj as [Hne Hj]. by apply Htr.
    + apply lookup_insert_Some in Hj as [[<- <-]|[Hne Hj]]; [|by apply Htr].
      split; [lia|]. rewrite Hst2. destruct Hcase as [[Hin Hq]|(Hout & Hnq & _)].
      * by left.
      * right. split; [done|]. split; [done|].
        destruct (job_status job) eqn:Hs; [done|congruence|].
        destruct (decide (0 = workers_used job2)); [|lia].
        destruct Hr. split; congruence.
Qed.

Lemma jobs_tracked_commit_fold jobs queue job_refs results counts :
  jobs_tracked (mk_manager queue job_refs results counts) →
  NoDup (job_druleid <$> jobs) →
  (∀ job, job ∈ jobs →
     job_refs !! job_druleid job = None
     ∧ (job_druleid job ∉ queue_jobs queue) ∧ 0 ≤ workers_used job) →
  let st := fold_left thread_commit_job jobs (queue, job_refs) in
  jobs_tracked (mk_manager st.1 st.2 results counts).
Proof.
  revert queue job_refs.
  induction jobs as [|job jobs IH]; intros queue job_refs Htr Hnd Hnew; cbn [fold_left].
  { done. }
  rewrite fmap_cons in Hnd. apply NoDup_cons in Hnd as [Hjob Hnd].
  destruct (Hnew job (list_elem_of_here _ _)) as (Href & Hq & Hpos).
  rewrite thread_commit_job_eq. apply IH; [|done|].
  - intros r j Hj. cbn [m_job_refs m_queue queue_jobs] in *.
    apply lookup_insert_Some in Hj as [[<- <-]|[Hne Hj]].
    + split; [done|]. left. split; [|done]. apply elem_of_app. right.
      apply list_elem_of_here.
    + destruct (Htr r j Hj) as [? Hc]. split; [done|].
      destruct Hc as [[Hin ?]|(Ho & ? & ?)].
      * left. split; [|done]. apply elem_of_app. by left.
      * right. split; [|done].
        by intros [?|?%list_elem_of_singleton]%elem_of_app.
  - intros job' Hjob'.
    destruct (Hnew job' (list_elem_of_further _ _ _ Hjob')) as (Href' & Hq' & Hpos').
    assert (job_druleid job' ≠ job_druleid job) as Hne.
    { intros Heq. apply Hjob. rewrite <- Heq. by apply list_elem_of_fmap_2. }
    split_and!; [by rewrite lookup_insert_ne| |done].
    cbn [queue_jobs]. by intros [?|?%list_elem_of_singleton]%elem_of_app.
Qed.

Lemma jobs_tracked_commit m pd time_now :
  jobs_tracked m →
  NoDup (job_druleid <$> pd_jobs pd) →
  (∀ job, job ∈ pd_jobs pd →
     m_job_refs m !! job_druleid job = None
     ∧ (job_druleid job ∉ queue_jobs (m_queue m)) ∧ 0 ≤ workers_used job) →
  jobs_tracked (discoverer_thread_commit m pd time_now).
Proof.
  intros Htr Hnd Hnew. unfold discoverer_thread_commit.
  destruct (decide (0 < pd_rule_count pd)); [|done].
  by apply jobs_tracked_commit_fold.
Qed.

Lemma thread_revisions_fold_jobs revisions its st :
  tasks_free_keeps_job →
  let st' := fold_left (thread_revisions_step revisions) its st in
  ∀ ref job', st'.2 !! ref = Some job' →
    (∃ job, st.2 !! ref = Some job ∧ workers_used job' = workers_used job
       ∧ job_status job' = job_status job)
    ∨ (∃ it, it ∈ its ∧ it.1 = ref ∧ workers_used job' = workers_used it.2
         ∧ job_status job' = job_status it.2).
Proof.
  intros Hkeeps. revert st. induction its as [|it its IH]; intros st st'; subst st'.
  { cbn. intros ref job' Hj. left. by exists job'. }
  cbn [fold_left]. intros ref job' Hj.
  destruct (IH _ ref job' Hj) as [(job & Hjob & Hu & Hs)|(it' & Hit' & ?)].
  - unfold thread_revisions_step in Hjob.
    destruct (revision_changed revisions it.2); cbn [fst snd] in Hjob.
    + apply lookup_insert_Some in Hjob as [[<- <-]|[_ Hjob]].
      * right. exists it. destruct (Hkeeps it.2) as [Hu' Hs'].
        split; [apply list_elem_of_here|]. split; [done|]. split; congruence.
      * left. by exists job.
    + left. by exists job.
  - right. exists it'. split; [by apply list_elem_of_further|done].
Qed.

Lemma jobs_tracked_revisions m drule_errors revisions :
  tasks_free_keeps_job → jobs_tracked m →
  jobs_tracked (tr_manager (discoverer_thread_revisions m drule_errors revisions)).
Proof.
  intros Hkeeps Htr ref job'. unfold discoverer_thread_revisions.
  cbn [tr_manager m_job_refs m_queue queue_jobs].
  assert (∀ job, m_job_refs m !! ref = Some job →
            workers_used job' = workers_used job → job_status job' = job_status job →
            0 ≤ workers_used job'
            ∧ ((ref ∈ queue_jobs (m_queue m)
                ∧ job_status job' = DISCOVERER_JOB_STATUS_QUEUED)
               ∨ ((ref ∉ queue_jobs (m_queue m))
                  ∧ job_status job' ≠ DISCOVERER_JOB_STATUS_QUEUED
                  ∧ 0 < workers_used job'))) as Hsame.
  { intros job Hjob -> ->. by apply Htr. }
  destruct revisions as [revisions'|]; cbn [fst snd]; [|by apply Htr].
  intros Hj.
  destruct (thread_revisions_fold_jobs revisions' (map_to_list (m_job_refs m))
              ([], pending_checks_count (m_queue m), m_job_refs m) Hkeeps ref job' Hj)
    as [(job & Hjob & Hu & Hs)|([r job] & Hit%elem_of_map_to_list & <- & Hu & Hs)].
  - by apply (Hsame job).
  - by apply (Hsame job).
Qed.

(** X28: no job is lost sight of. If every job the manager knows is
    either in the queue with status Queued, or out of the queue, Waiting
    or Removing, and held by at least one worker, then this is still so
    after a worker took a job from the queue, after a worker that holds a
    task of a job finished it, after the scheduler handed over new jobs
    (of distinct rules, unknown so far, with no negative worker count),
    and after the check of the revisions. The worker steps assume that
    discoverer_job_abort, and the check of the revisions that
    discoverer_job_tasks_free, leave the worker counter and the status
    of a job alone. *)
Theorem jobs_stay_tracked m time_now :
  worker_invariant m → jobs_tracked m →
  (∀ out, worker_take m time_now = Some out → jobs_tracked (wt_manager out))
  ∧ (∀ ref dcheck_type error',
       abort_keeps_job →
       (∀ job, m_job_refs m !! ref = Some job → 0 < workers_used job) →
       jobs_tracked (worker_finish m ref dcheck_type error' time_now).1)
  ∧ (∀ pd,
       NoDup (job_druleid <$> pd_jobs pd) →
       (∀ job, job ∈ pd_jobs pd →
          m_job_refs m !! job_druleid job = None
          ∧ (job_druleid job ∉ queue_jobs (m_queue m)) ∧ 0 ≤ workers_used job) →
       jobs_tracked (discoverer_thread_commit m pd time_now))
  ∧ (∀ drule_errors revisions,
       tasks_free_keeps_job →
       jobs_tracked (tr_manager (discoverer_thread_revisions m drule_errors revisions))).
Proof.
  intros Hinv Htr. split_and!.
  - intros out. by apply jobs_tracked_take.
  - intros ref dcheck_type error' Habort Hheld. by apply jobs_tracked_finish.
  - intros pd Hnd Hnew. by apply jobs_tracked_commit.
  - intros drule_errors revisions Hkeeps. by apply jobs_tracked_revisions.
Qed.

End JobsTracked.

(** ** The drainer: what is written for a host *)

Section DrainServices.
Context `{Constants}.
Variable dhostid_after : list db_call → Z.

Lemma services_update_calls_plain druleid' ip' dns now' unique services' :
  let cs := services_update_calls druleid' ip' dns now' unique services' in
  service_updates cs = cs ∧ host_lookups cs = [] ∧ service_downs cs = []
  ∧ events_processed cs = 0%nat ∧ events_cleaned cs = 0%nat.
Proof.
  induction services' as [|s l (IH1 & IH2 & IH3 & IH4 & IH5)]; cbn in *; [done|].
  split_and!; [by f_equal|done..].
Qed.

Lemma process_services_written druleid' ip' dns now' unique services' :
  let cs := (process_services dhostid_after druleid' ip' dns now' unique services').2 in
  service_updates cs = services_update_calls druleid' ip' dns now' unique services'
  ∧ host_lookups cs = (if decide (services' = []) then [(druleid', ip')] else [])
  ∧ service_downs cs `sublist_of` [now']
  ∧ events_processed cs = 0%nat ∧ events_cleaned cs = 0%nat.
Proof.
  intros cs. subst cs. unfold process_services.
  destruct (services_update_calls_plain druleid' ip' dns now' unique services')
    as (M1 & M2 & M3 & M4 & M5).
  unfold service_updates, host_lookups, service_downs, events_processed, events_cleaned
    in *.
  destruct (decide (length services' = 0%nat)) as [Hlen|Hlen]; cbn [snd];
    destruct (decide (dhostid_after _ = 0));
    rewrite ?omap_app, ?filter_app, ?length_app, ?M1, ?M2, ?M3, ?M4, ?M5; cbn;
    rewrite ?app_nil_r.
  all: try (apply nil_length_inv in Hlen as ->).
  all: try rewrite decide_True by done.
  all: try (rewrite decide_False by (intros ->; done)).
  all: split_and!; try done; try (by apply sublist_nil_l).
Qed.

Lemma process_results_emit_written events_cbs errs calls r :
  ∃ added,
    (process_results_emit dhostid_after events_cbs (errs, calls) r).2 = calls ++ added
    ∧ service_updates added
      = concat ((λ r, services_update_calls (druleid r) (ip r)
                        (default EmptyString (dnsname r)) (now r) (unique_dcheckid r)
                        (services r)) <$> host_results [r])
    ∧ host_lookups added
      = (λ r, (druleid r, ip r)) <$> filter (λ r, services r = []) (host_results [r])
    ∧ service_downs added `sublist_of` (now <$> host_results [r])
    ∧ events_processed added
      = (if has_process_events_cb events_cbs then length (host_results [r]) else 0%nat)
    ∧ events_cleaned added
      = (if has_clean_events_cb events_cbs then length (host_results [r]) else 0%nat).
Proof.
  unfold process_results_emit, host_results. rewrite filter_cons, filter_nil.
  destruct (decide (ip r = EmptyString)) as [Hip|Hip].
  { rewrite decide_False by tauto.
    destruct (drule_error_search errs (druleid r)) as [[j e]|]; cbn [snd];
      eexists; (split; [done|]); cbn;
      by destruct (has_process_events_cb events_cbs), (has_clean_events_cb events_cbs). }
  destruct (dnsname r) as [dns|] eqn:Hdns.
  2:{ rewrite decide_False by (intros [_ [? ?]]; done).
      exists []. rewrite app_nil_r. cbn.
      by destruct (has_process_events_cb events_cbs), (has_clean_events_cb events_cbs). }
  rewrite decide_True by (split; [done|by eexists]).
  pose proof (process_services_written (druleid r) (ip r) dns (now r)
                (unique_dcheckid r) (services r)) as (P1 & P2 & P3 & P4 & P5).
  destruct (process_services _ _ _ _ _ _ _) as [hs cs]. cbn [snd] in *.
  eexists. split; [done|].
  unfold service_updates, host_lookups, service_downs, events_processed, events_cleaned
    in *.
  rewrite !omap_app, !filter_app, !length_app, P1, P2, P4, P5. cbn [fmap list_fmap concat].
  rewrite Hdns, filter_cons, filter_nil. cbn [default length].
  split_and!.
  - destruct (has_process_events_cb events_cbs), (has_clean_events_cb events_cbs);
      cbn; by rewrite !app_nil_r.
  - destruct (decide (services r = []));
      destruct (has_process_events_cb events_cbs), (has_clean_events_cb events_cbs);
      cbn; by rewrite ?app_nil_r.
  - destruct (has_process_events_cb events_cbs), (has_clean_events_cb events_cbs);
      cbn; by rewrite ?app_nil_r.
  - destruct (has_process_events_cb events_cbs), (has_clean_events_cb events_cbs);
      cbn; rewrite ?filter_cons_True, ?filter_cons_False by done; done.
  - destruct (has_process_events_cb events_cbs), (has_clean_events_cb events_cbs);
      cbn; rewrite ?filter_cons_True, ?filter_cons_False by done; done.
Qed.

Lemma host_results_cons r vector :
  host_results (r :: vector) = host_results [r] ++ host_results vector.
Proof. unfold host_results. by rewrite <- filter_app. Qed.

Lemma process_results_emit_fold_written events_cbs vector errs calls :
  ∃ added,
    (fold_left (process_results_emit dhostid_after events_cbs) vector (errs, calls)).2
    = calls ++ added
    ∧ service_updates added
      = concat ((λ r, services_update_calls (druleid r) (ip r)
                        (default EmptyString (dnsname r)) (now r) (unique_dcheckid r)
                        (services r)) <$> host_results vector)
    ∧ host_lookups added
      = (λ r, (druleid r, ip r)) <$> filter (λ r, services r = []) (host_results vector)
    ∧ service_downs added `sublist_of` (now <$> host_results vector)
    ∧ events_processed added
      = (if has_process_events_cb events_cbs then length (host_results vector)
         else 0%nat)
    ∧ events_cleaned added
      = (if has_clean_events_cb events_cbs then length (host_results vector) else 0%nat).
Proof.
  revert errs calls. induction vector as [|r vector IH]; intros errs calls.
  { exists []. cbn. rewrite app_nil_r. split_and!; try done;
      by destruct (has_process_events_cb events_cbs), (has_clean_events_cb events_cbs). }
  cbn [fold_left].
  destruct (process_results_emit_written events_cbs errs calls r)
    as (added1 & Hc1 & S1 & L1 & D1 & P1 & C1).
  destruct (process_results_emit dhostid_after events_cbs (errs, calls) r)
    as [errs1 calls1]. cbn [snd] in Hc1. subst calls1.
  destruct (IH errs1 (calls ++ added1)) as (added & Hc & S2 & L2 & D2 & P2 & C2).
  exists (added1 ++ added). rewrite Hc, (assoc_L (++)). split; [done|].
  rewrite host_results_cons.
  unfold service_updates, host_lookups, service_downs, events_processed, events_cleaned
    in *.
  rewrite !omap_app, !filter_app, !fmap_app, !length_app, concat_app, S1, S2, L1, L2,
    P1, P2, C1, C2.
  split_and!; [done|done|by apply sublist_app|..];
    by destruct (has_process_events_cb events_cbs), (has_clean_events_cb events_cbs).
Qed.

(** X29: what a cycle of the drainer writes for the hosts. The service
    updates are, in order, those of the services of every result handed
    on with an address and a dnsname, each service once, with the
    result's rule, address, dnsname, time and unique check; a host is
    looked up with zbx_discovery_find_host exactly for such a result
    without services; the other services of a host are marked down at
    most once per such result, at its time; and the events are processed
    and cleaned once per such result when the callback is set, never
    otherwise. A result without dnsname writes nothing. *)
Theorem process_results_written entries results check_counts del_druleids
    drule_errors events_cbs :
  let out := process_results_in_order dhostid_after entries results check_counts
               del_druleids drule_errors events_cbs in
  let hosts := host_results (pr_vector out) in
  service_updates (pr_calls out)
  = concat ((λ r, services_update_calls (druleid r) (ip r)
                    (default EmptyString (dnsname r)) (now r) (unique_dcheckid r)
                    (services r)) <$> hosts)
  ∧ host_lookups (pr_calls out)
    = (λ r, (druleid r, ip r)) <$> filter (λ r, services r = []) hosts
  ∧ service_downs (pr_calls out) `sublist_of` (now <$> hosts)
  ∧ events_processed (pr_calls out)
    = (if has_process_events_cb events_cbs then length hosts else 0%nat)
  ∧ events_cleaned (pr_calls out)
    = (if has_clean_events_cb events_cbs then length hosts else 0%nat).
Proof.
  intros out hosts. subst hosts out. rewrite process_results_in_order_calls.
  set (out := process_results_in_order _ _ _ _ _ _ _).
  destruct (process_results_emit_fold_written events_cbs (pr_vector out) drule_errors
              [zbx_discovery_open]) as (added & Hc & S & L & D & P & C).
  destruct (pr_vector out) as [|r vector] eqn:Hv.
  { cbn. split_and!; try done;
      by destruct (has_process_events_cb events_cbs), (has_clean_events_cb events_cbs). }
  rewrite Hc. clear Hc Hv. set (hosts := host_results (r :: vector)) in *.
  clearbody hosts.
  unfold service_updates, host_lookups, service_downs, events_processed, events_cleaned
    in *.
  rewrite !omap_app, !filter_app, !length_app, S, L, P, C. cbn.
  rewrite !app_nil_r. split_and!; [done|done|done|..]; rewrite !decide_False by done; cbn; lia.
Qed.

End DrainServices.

(** ** The entry with the empty ip, from the removal of the job to the drainer *)

Lemma filter_none {A} (P : A → Prop) `{∀ x, Decision (P x)} (l : list A) :
  Forall (λ x, ¬ P x) l → filter P l = [].
Proof.
  induction 1 as [|x l Hx _ IH]; [done|]. by rewrite filter_cons_False.
Qed.

Lemma no_drule_update_updates d calls :
  no_drule_update d calls ↔ d ∉ (drule_updates calls).*1.
Proof.
  unfold no_drule_update, drule_updates. rewrite list_elem_of_fmap. split.
  - intros Hno ([d' t] & -> & Hin). apply list_elem_of_omap in Hin as (c & Hc & Heq).
    destruct c; try done. injection Heq as -> ->. by apply (Hno _ _ Hc).
  - intros Hno err t Hin. apply Hno. exists (d, t). split; [done|].
    apply list_elem_of_omap. by eexists.
Qed.

Lemma no_drule_update_app d l1 l2 :
  no_drule_update d (l1 ++ l2) ↔ no_drule_update d l1 ∧ no_drule_update d l2.
Proof.
  unfold no_drule_update. split.
  - intros Hno. split; intros err t Hin; apply (Hno err t), elem_of_app; auto.
  - intros [Hno1 Hno2] err t [Hin|Hin]%elem_of_app; [by apply (Hno1 err t)|].
    by apply (Hno2 err t).
Qed.

Section SentinelDrain.
Context `{Constants}.
Variable dhostid_after : list db_call → Z.

(** A result that is not the entry with the empty ip of rule [d] takes
    no error of that rule. *)
Lemma process_results_emit_other d events_cbs errs calls r :
  ¬ rule_sentinel d r →
  errors_of d (process_results_emit dhostid_after events_cbs (errs, calls) r).1
  = errors_of d errs.
Proof.
  intros Hr. unfold process_results_emit.
  destruct (decide (ip r = EmptyString)) as [Hip|Hip].
  - destruct (drule_error_search errs (druleid r)) as [[j e]|] eqn:Hfind; [|done].
    apply list_find_Some in Hfind as (Hj & He & _). cbn [fst].
    unfold errors_of. rewrite <- (take_drop_middle errs j e Hj) at 2.
    rewrite delete_take_drop, !filter_app, filter_cons_False; [done|].
    intros Hd. apply Hr. split; [done|congruence].
  - destruct (dnsname r); [destruct (process_services _ _ _ _ _ _ _)|]; done.
Qed.

(** The entry with the empty ip of rule [d] takes the first pending error
    of the rule, if there is one, and writes it with the rule's update. *)
Lemma process_results_emit_sentinel d events_cbs errs calls r :
  rule_sentinel d r →
  let out := process_results_emit dhostid_after events_cbs (errs, calls) r in
  errors_of d out.1 = tail (errors_of d errs)
  ∧ out.2 = calls ++ [zbx_discovery_update_drule d (error <$> head (errors_of d errs))
                        (now r)].
Proof.
  intros [Hip <-]. unfold process_results_emit. rewrite decide_True by done.
  unfold drule_error_search, errors_of.
  destruct (list_find _ errs) as [[j e]|] eqn:Hfind; cbn [fst snd].
  - apply list_find_Some in Hfind as (Hj & He & Hfirst).
    assert (filter (λ e, err_druleid e = druleid r) (take j errs) = []) as Htake.
    { apply filter_none, Forall_lookup. intros i e' Hi.
      apply lookup_take_Some in Hi as [Hi Hlt]. by apply (Hfirst i). }
    rewrite <- (take_drop_middle errs j e Hj) at 2 3.
    rewrite delete_take_drop, !filter_app, Htake, filter_cons_True by done. done.
  - apply list_find_None in Hfind. by rewrite (filter_none _ _ Hfind).
Qed.

Lemma process_results_emit_fold_other d events_cbs vector errs calls :
  Forall (λ r, ¬ rule_sentinel d r) vector →
  let out := fold_left (process_results_emit dhostid_after events_cbs) vector
               (errs, calls) in
  errors_of d out.1 = errors_of d errs
  ∧ ∃ added, out.2 = calls ++ added ∧ no_drule_update d added.
Proof.
  intros Hvec out. split.
  - subst out. revert errs calls.
    induction Hvec as [|r vector Hr _ IH]; intros errs calls; [done|].
    cbn [fold_left].
    destruct (process_results_emit dhostid_after events_cbs (errs, calls) r)
      as [errs1 calls1] eqn:Hstep.
    rewrite IH. by rewrite <- (process_results_emit_other d events_cbs errs calls r Hr),
      Hstep.
  - destruct (process_results_emit_fold_calls dhostid_after events_cbs vector errs calls)
      as (_ & _ & _ & added & Hc & _ & Hd & _).
    exists added. split; [exact Hc|].
    apply no_drule_update_updates. rewrite Hd, <- list_fmap_compose.
    intros (r & Heq & Hin)%list_elem_of_fmap. cbn in Heq.
    apply list_elem_of_filter in Hin as [Hip Hin].
    rewrite Forall_forall in Hvec. by apply (Hvec r Hin).
Qed.

(** The vector handed on holds the entry with the empty ip of rule [d]
    once: one update of the rule, with the first pending error. *)
Lemma process_results_emit_fold_sentinel d events_cbs v1 r v2 errs calls :
  rule_sentinel d r →
  Forall (λ r, ¬ rule_sentinel d r) v1 →
  Forall (λ r, ¬ rule_sentinel d r) v2 →
  let out := fold_left (process_results_emit dhostid_after events_cbs) (v1 ++ r :: v2)
               (errs, calls) in
  errors_of d out.1 = tail (errors_of d errs)
  ∧ ∃ added1 added2,
      out.2 = calls ++ added1
                ++ zbx_discovery_update_drule d (error <$> head (errors_of d errs)) (now r)
                :: added2
      ∧ no_drule_update d added1 ∧ no_drule_update d added2.
Proof.
  intros Hr Hv1 Hv2 out. subst out. rewrite fold_left_app. cbn [fold_left].
  destruct (process_results_emit_fold_other d events_cbs v1 errs calls Hv1)
    as (He1 & added1 & Hc1 & Hn1).
  destruct (fold_left _ v1 (errs, calls)) as [errs1 calls1]. cbn [fst snd] in *.
  destruct (process_results_emit_sentinel d events_cbs errs1 calls1 r Hr) as (He & Hc).
  destruct (process_results_emit dhostid_after events_cbs (errs1, calls1) r)
    as [errs2 calls2]. cbn [fst snd] in *.
  destruct (process_results_emit_fold_other d events_cbs v2 errs2 calls2 Hv2)
    as (He2 & added2 & Hc2 & Hn2).
  split; [by rewrite He2, He, He1|].
  exists added1, added2. split; [|done].
  rewrite Hc2, Hc, Hc1, He1, <- !(assoc_L (++)). done.
Qed.

(** What one cycle of the drainer does with the entry with the empty ip
    of rule [d]. *)
Lemma process_results_sentinel entries results check_counts del_druleids
    drule_errors events_cbs d sentinel :
  let out := process_results_in_order dhostid_after entries results check_counts
               del_druleids drule_errors events_cbs in
  well_keyed results →
  entries ≡ₚ (map_to_list results).*2 →
  results !! (d, EmptyString) = Some sentinel →
  (d ∉ del_druleids → no_outstanding check_counts (check_count_key d EmptyString) →
     sentinel ∈ pr_vector out ∨ pr_ret out = 1)
  ∧ (sentinel ∈ pr_vector out →
       one_drule_update d (error <$> head (errors_of d drule_errors)) (now sentinel)
         (pr_calls out)
       ∧ errors_of d (pr_drule_errors out) = tail (errors_of d drule_errors)
       ∧ pr_results out !! (d, EmptyString) = None)
  ∧ (sentinel ∉ pr_vector out →
       no_drule_update d (pr_calls out)
       ∧ errors_of d (pr_drule_errors out) = errors_of d drule_errors
       ∧ pr_results out !! (d, EmptyString)
         = if decide (d ∈ del_druleids ∨ d ∈ err_druleid <$> drule_errors)
           then None else Some sentinel)
  ∧ (d ∈ del_druleids → sentinel ∉ pr_vector out).
Proof.
  intros out Hwk Hperm Hs.
  destruct (entries_of_cache results entries Hwk Hperm) as [Hnd Hin].
  pose proof (Hwk _ _ Hs) as Hkey. unfold result_key in Hkey.
  injection Hkey as Hdr Hip.
  assert (rule_sentinel d sentinel) as Hsent by done.
  assert (sentinel ∈ entries) as Hvisit.
  { apply Hin. unfold result_key. by rewrite Hdr, Hip. }
  pose proof (process_results_in_order_calls dhostid_after entries results check_counts
                del_druleids drule_errors events_cbs) as Hcalls.
  pose proof (process_results_in_order_errors dhostid_after entries results check_counts
                del_druleids drule_errors events_cbs) as Herrs.
  destruct (process_results_in_order_scan dhostid_after entries results check_counts
              del_druleids drule_errors events_cbs) as (Hvec & _ & Hret).
  destruct (process_results_in_order_fields dhostid_after entries results check_counts
              del_druleids drule_errors events_cbs) as (Hres & _ & _).
  cbv zeta in Hcalls, Herrs. fold out in Hcalls, Herrs, Hvec, Hret, Hres.
  pose proof (cache_invariant_fold del_druleids results entries [] _ Hwk
                (λ r Hr, proj1 (Hin r) Hr) Hnd
                (cache_invariant_init del_druleids results
                   (process_results_incompletecheckscount_remove check_counts
                      del_druleids))) as Hcache.
  pose proof (scan_invariant_fold del_druleids _ entries []
                (mk_scan results _ ∅ [] 0 0)
                (scan_invariant_init del_druleids results
                   (process_results_incompletecheckscount_remove check_counts
                      del_druleids))) as Hscan.
  rewrite app_nil_l in Hcache, Hscan.
  unfold process_results_scan in Hvec, Hret, Hres.
  set (st := fold_left (process_results_step del_druleids) entries _) in *.
  destruct Hcache as [Cvec Cnd Csub Cgone Ckept].
  destruct Hscan as [_ Ssub _ Svisited].
  rewrite <- Hvec in Cvec, Cnd, Cgone, Ckept, Svisited.
  assert (∀ r, r ∈ pr_vector out → rule_sentinel d r → r = sentinel) as Huniq.
  { intros r Hr [Hrip Hrd]. destruct (Cvec r Hr) as [Hre _].
    apply Hin in Hre. unfold result_key in Hre. rewrite Hrip, Hrd, Hs in Hre.
    congruence. }
  split_and!.
  - intros Hdel Hnone.
    destruct (Svisited sentinel Hvisit) as [Hd|[Hv|[_ [Hb|(c & Hc & Hnz)]]]].
    + by rewrite Hdr in Hd.
    + by left.
    + right. rewrite Hret. by rewrite bool_decide_eq_true_2.
    + exfalso. rewrite Hdr, Hip in Hc.
      assert (check_counts !! check_count_key d EmptyString = Some c) as Hc'.
      { eapply lookup_weaken; [exact Hc|].
        etrans; [exact Ssub|]. apply map_filter_subseteq. }
      destruct Hnone as [Hn|Hn]; rewrite Hn in Hc'; congruence.
  - intros Hv.
    destruct (list_elem_of_split _ _ Hv) as (v1 & v2 & Hsplit).
    rewrite Hsplit in Cnd.
    apply NoDup_app in Cnd as (_ & Hdisj & [Hnv2 _]%NoDup_cons).
    assert (Forall (λ r, ¬ rule_sentinel d r) v1) as Hv1.
    { apply Forall_forall. intros r Hr Hrs.
      assert (r = sentinel) as -> by
        (apply Huniq; [rewrite Hsplit; apply elem_of_app; by left|done]).
      apply (Hdisj sentinel Hr), list_elem_of_here. }
    assert (Forall (λ r, ¬ rule_sentinel d r) v2) as Hv2.
    { apply Forall_forall. intros r Hr Hrs.
      assert (r = sentinel) as -> by
        (apply Huniq; [rewrite Hsplit; apply elem_of_app; right;
                       by apply list_elem_of_further|done]).
      done. }
    destruct (process_results_emit_fold_sentinel d events_cbs v1 sentinel v2 drule_errors
                [zbx_discovery_open] Hsent Hv1 Hv2)
      as (He & added1 & added2 & Hc & Hn1 & Hn2).
    rewrite <- Hsplit in He, Hc.
    split_and!.
    + rewrite Hcalls. rewrite Hsplit at 1.
      destruct v1; cbn [app]; rewrite Hc;
        (exists ([zbx_discovery_open] ++ added1), (added2 ++ [zbx_discovery_close]);
         split; [by rewrite <- !(assoc_L (++))|]);
        rewrite !no_drule_update_app; split_and!; try done;
        intros ?? [=]%list_elem_of_singleton.
    + by rewrite Herrs.
    + rewrite Hres. apply map_lookup_filter_None. left.
      replace (d, EmptyString) with (result_key sentinel)
        by (unfold result_key; by rewrite Hdr, Hip).
      apply Cgone; auto.
  - intros Hv.
    assert (Forall (λ r, ¬ rule_sentinel d r) (pr_vector out)) as Hnone.
    { apply Forall_forall. intros r Hr Hrs. apply Hv. by rewrite <- (Huniq r Hr Hrs). }
    destruct (process_results_emit_fold_other d events_cbs (pr_vector out) drule_errors
                [zbx_discovery_open] Hnone) as (He & added & Hc & Hn).
    split_and!.
    + rewrite Hcalls. destruct (pr_vector out); [by intros ?? ?%elem_of_nil|].
      rewrite Hc, !no_drule_update_app. split_and!; try done;
        intros ?? [=]%list_elem_of_singleton.
    + by rewrite Herrs.
    + rewrite Hres.
      destruct (decide (d ∈ del_druleids ∨ d ∈ err_druleid <$> drule_errors))
        as [[Hdel|Herr]|Hnot].
      * apply map_lookup_filter_None. left.
        replace (d, EmptyString) with (result_key sentinel)
          by (unfold result_key; by rewrite Hdr, Hip).
        apply Cgone; [done|]. left. by rewrite Hdr.
      * apply map_lookup_filter_None. right. intros x Hx.
        pose proof (lookup_weaken _ _ _ _ Hx Csub) as Hx'.
        rewrite Hs in Hx'. injection Hx' as <-. cbn. rewrite Hdr. tauto.
      * apply map_lookup_filter_Some.
        destruct (Ckept _ _ Hs) as [Hk|[_ [Hd|Hv']]].
        -- split; [done|]. cbn. rewrite Hdr. tauto.
        -- rewrite Hdr in Hd. tauto.
        -- done.
  - intros Hdel Hv. destruct (Cvec _ Hv) as [_ Hnd']. by rewrite Hdr in Hnd'.
Qed.
End SentinelDrain.

Section SentinelTheorem.
Context `{Constants} `{TaskCollaborators} `{WorkerCollaborators}.
Variable dhostid_after : list db_call → Z.

(** C10: whenever the worker passes a job to discoverer_job_remove, in
    the branch for an exhausted task list with no worker left as well as
    in the branch for a job in state Removing whose last worker has
    finished, it first registers the entry with the empty ip for the
    job's rule in the result cache (a new empty entry unless one is there
    already), for every finished rule and not only for failed ones. In
    its loop over the results handed on the drainer updates the rule of
    such an entry with the first pending error of the rule, which it
    takes out of the error vector, or without an error when none is
    pending. What it does with the entry in a cycle, in which the iterator
    hands out every entry of the cache once and each entry is stored
    under its own key, depends on the cycle. When the rule is not deleted and no count is outstanding under the
    entry's key, the entry is handed on unless the cycle reaches the
    batch limit. When it is handed on, the rule is updated once: with the
    first pending error of the rule, which leaves the error vector, or
    without an error when none is pending; and the entry leaves the
    cache. When it is not handed on, the rule is not updated in the cycle
    and keeps its pending errors; the entry is then dropped from the
    cache if the rule is deleted or has a pending error, and waits there
    otherwise. The entry of a deleted rule is never handed on. *)
Theorem job_removal_registers_sentinel m time_now :
  (∀ out druleid', worker_take m time_now = Some out →
     wt_removed out = Some druleid' →
     m_job_refs (wt_manager out) !! druleid' = None
     ∧ m_results (wt_manager out) !! (druleid', EmptyString)
       = Some (default (mk_results druleid' EmptyString (Some EmptyString) time_now 0 0 [])
                 (m_results m !! (druleid', EmptyString))))
  ∧ (∀ ref queue job, discoverer_queue_pop (m_queue m) = Some (ref, queue) →
       m_job_refs m !! ref = Some job → tasks job = [] → workers_used job = 0 →
       ∃ out, worker_take m time_now = Some out
              ∧ wt_removed out = Some (job_druleid job))
  ∧ (∀ ref dcheck_type error' druleid',
       (worker_finish m ref dcheck_type error' time_now).2 = Some druleid' →
       let m' := (worker_finish m ref dcheck_type error' time_now).1 in
       m_job_refs m' !! druleid' = None
       ∧ m_results m' !! (druleid', EmptyString)
         = Some (default (mk_results druleid' EmptyString (Some EmptyString) time_now 0 0 [])
                   (m_results m !! (druleid', EmptyString))))
  ∧ (∀ ref job dcheck_type, m_job_refs m !! ref = Some job →
       job_status job = DISCOVERER_JOB_STATUS_REMOVING → workers_used job = 1 →
       (worker_finish m ref dcheck_type None time_now).2 = Some (job_druleid job))
  ∧ (∀ events_cbs drule_errors calls result,
       ip result = EmptyString →
       (∀ j e, drule_errors !! j = Some e → err_druleid e = druleid result →
          (∀ i e', drule_errors !! i = Some e' → (i < j)%nat →
             err_druleid e' ≠ druleid result) →
          process_results_emit dhostid_after events_cbs (drule_errors, calls) result
          = (delete j drule_errors,
             calls ++ [zbx_discovery_update_drule (druleid result) (Some (error e))
                         (now result)]))
       ∧ ((∀ e, e ∈ drule_errors → err_druleid e ≠ druleid result) →
          process_results_emit dhostid_after events_cbs (drule_errors, calls) result
          = (drule_errors,
             calls ++ [zbx_discovery_update_drule (druleid result) None (now result)])))
  ∧ (∀ entries results check_counts del_druleids drule_errors events_cbs d sentinel,
       let out := process_results_in_order dhostid_after entries results check_counts
                    del_druleids drule_errors events_cbs in
       well_keyed results →
       entries ≡ₚ (map_to_list results).*2 →
       results !! (d, EmptyString) = Some sentinel →
       (d ∉ del_druleids →
          no_outstanding check_counts (check_count_key d EmptyString) →
          sentinel ∈ pr_vector out ∨ pr_ret out = 1)
       ∧ (sentinel ∈ pr_vector out →
            one_drule_update d (error <$> head (errors_of d drule_errors)) (now sentinel)
              (pr_calls out)
            ∧ errors_of d (pr_drule_errors out) = tail (errors_of d drule_errors)
            ∧ pr_results out !! (d, EmptyString) = None)
       ∧ (sentinel ∉ pr_vector out →
            no_drule_update d (pr_calls out)
            ∧ errors_of d (pr_drule_errors out) = errors_of d drule_errors
            ∧ pr_results out !! (d, EmptyString)
              = if decide (d ∈ del_druleids ∨ d ∈ err_druleid <$> drule_errors)
                then None else Some sentinel)
       ∧ (d ∈ del_druleids → sentinel ∉ pr_vector out)).
Proof.
  split_and!.
  - intros out d. unfold worker_take.
    destruct (discoverer_queue_pop _) as [[ref queue]|]; [|done].
    destruct (m_job_refs m !! ref) as [job|]; [|by intros [= <-]].
    destruct (discoverer_task_pop job) as [[task job']|].
    { destruct (worker_dispatch _ _ _) as [[? ?] ?]. by intros [= <-]. }
    destruct (decide (0 = workers_used job)); intros [= <-]; [|done].
    cbn. intros [= <-]. split; [apply lookup_delete_eq|apply host_reg_lookup].
  - intros ref queue job Hpop Hjob Htasks Hused. unfold worker_take, discoverer_task_pop.
    rewrite Hpop, Hjob, Htasks, decide_True by done. eauto.
  - intros ref dcheck_type error' d. unfold worker_finish.
    destruct (m_job_refs m !! ref) as [job|]; [|done].
    destruct (match error' with Some _ => _ | None => _ end) as [[job2 pending] errors].
    destruct (decide (job_status job2 = _)); [done|].
    destruct (decide (_ ∧ _)); [|done].
    cbn. intros [= <-]. split; [apply lookup_delete_eq|apply host_reg_lookup].
  - intros ref job dcheck_type Hjob Hst Hused. unfold worker_finish. rewrite Hjob.
    cbn [job_set_workers_used job_status workers_used].
    rewrite decide_False by (rewrite Hst; done).
    rewrite decide_True by (rewrite Hst, Hused; done). done.
  - intros events_cbs drule_errors calls result Hip. split.
    + intros j e Hj He Hfirst. unfold process_results_emit.
      rewrite decide_True by done.
      assert (drule_error_search drule_errors (druleid result) = Some (j, e)) as ->;
        [|done].
      apply list_find_Some. split_and!; [done|done|]. intros i e' Hi Hlt. eauto.
    + intros Hnone. unfold process_results_emit. rewrite decide_True by done.
      assert (drule_error_search drule_errors (druleid result) = None) as ->; [|done].
      apply list_find_None, Forall_forall. auto.
  - intros entries results check_counts del_druleids drule_errors events_cbs d sentinel
      out Hwk Hperm Hs.
    exact (process_results_sentinel dhostid_after entries results check_counts
             del_druleids drule_errors events_cbs d sentinel Hwk Hperm Hs).
Qed.
End SentinelTheorem.

(** * Worked examples *)


#[local] Existing Instance example_constants.
#[local] Existing Instance example_task_collaborators.
#[local] Existing Instance example_scheduler_collaborators.
#[local] Existing Instance example_worker_collaborators.

Example example_drain_calls :
  pr_calls example_drain
  = [zbx_discovery_open;
     zbx_discovery_update_service 1 7 0 "10.0.0.1" "alpha" 23 1 EmptyString 100;
     zbx_discovery_update_service 1 7 0 "10.0.0.1" "alpha" 22 0 EmptyString 100;
     zbx_discovery_update_host 1 "10.0.0.1" "alpha" 0 100;
     zbx_discovery_find_host 1 "10.0.0.2";
     zbx_discovery_update_host 1 "10.0.0.2" EmptyString 1 100;
     zbx_discovery_update_service 1 7 0 "10.0.0.3" EmptyString 23 1 EmptyString 100;
     zbx_discovery_update_host 1 "10.0.0.3" EmptyString 1 100;
     zbx_discovery_close].
Proof. vm_compute. reflexivity. Qed.

Lemma process_results_host_status_witness :
  DOBJECT_STATUS_UP ≠ -1
  ∧ zbx_discovery_update_host 1 "10.0.0.1" "alpha" 0 100 ∈ pr_calls example_drain
  ∧ ∃ result, result ∈ pr_vector example_drain ∧ druleid result = 1
      ∧ ip result = "10.0.0.1" ∧ dnsname result = Some "alpha" ∧ now result = 100
      ∧ (services result ≠ [] →
           0 = DOBJECT_STATUS_UP ↔
           ∃ s, s ∈ services result ∧ status s = DOBJECT_STATUS_UP)
      ∧ (services result = [] → 0 = DOBJECT_STATUS_DOWN).
Proof.
  assert (DOBJECT_STATUS_UP ≠ -1) as Hup by (vm_compute; discriminate).
  assert (zbx_discovery_update_host 1 "10.0.0.1" "alpha" 0 100 ∈ pr_calls example_drain)
    as Hcall.
  { rewrite example_drain_calls. do 3 apply list_elem_of_further. apply list_elem_of_here. }
  split; [exact Hup|]. split; [exact Hcall|].
  exact (proj2 (process_results_host_status (λ _, 0) [host1; host2; host3] example_cache
                  ∅ [] [] no_callbacks Hup) 1 "10.0.0.1" "alpha" 0 100 Hcall).
Defined.

Lemma process_results_batch_witness :
  pr_ret example_drain = 0
  ∧ host2 ∈ [host1; host2; host3]
  ∧ (druleid host2 ∈ ([] : list Z)
     ∨ host2 ∈ pr_vector example_drain
     ∨ ∃ c, (∅ : check_counts_hashset) !! check_count_key (druleid host2) (ip host2)
            = Some c ∧ c ≠ 0).
Proof.
  assert (pr_ret example_drain = 0) as Hret by (vm_compute; reflexivity).
  assert (host2 ∈ [host1; host2; host3]) as Hin
    by (apply list_elem_of_further, list_elem_of_here).
  split; [exact Hret|]. split; [exact Hin|].
  exact (proj1 (proj2 (proj2 (proj2 (process_results_batch (λ _, 0)
                                       [host1; host2; host3] example_cache ∅ [] []
                                       no_callbacks))))
           Hret host2 Hin).
Defined.

Example silent_hosts_last : ip <$> last silent_hosts = Some "10.0.3.232".
Proof. vm_compute. reflexivity. Qed.

(** The claim of at most 1000 partials per cycle and of a flag that tells
    that completed work remains fails both ways: 1001 completed partials
    without services are flushed in one cycle, and the flag is set after
    a single partial with 1000 services although the cache is empty. *)
Lemma process_results_batch_counterexample :
  (length (pr_vector (process_results (λ _, 0) (cache_of silent_hosts) ∅ [] []
                        no_callbacks)) = 1001%nat)
  ∧ pr_vector (process_results (λ _, 0) (cache_of [swept_host]) ∅ [] [] no_callbacks)
    = [swept_host]
  ∧ pr_results (process_results (λ _, 0) (cache_of [swept_host]) ∅ [] [] no_callbacks) = ∅
  ∧ pr_ret (process_results (λ _, 0) (cache_of [swept_host]) ∅ [] [] no_callbacks) = 1
  ∧ discoverer_thread_sleeptime
      (pr_ret (process_results (λ _, 0) (cache_of [swept_host]) ∅ [] [] no_callbacks)) 60
    = 0.
Proof. split_and!; vm_compute; reflexivity. Qed.

Lemma check_count_decrease_spec_witness :
  ({[(1, "10.0.0.1") := 1]} : check_counts_hashset) !! check_count_key 1 "10.0.0.1" = Some 1
  ∧ 0 < 1 ∧ 1 < 3 ∧ 3 - 1 ≤ 2 ^ 64
  ∧ ∃ check_counts',
      discoverer_check_count_decrease {[(1, "10.0.0.1") := 1]} 1 "10.0.0.1" 3
      = Some (check_counts', 2 ^ 64 - (3 - 1)).
Proof.
  assert (({[(1, "10.0.0.1") := 1]} : check_counts_hashset)
            !! check_count_key 1 "10.0.0.1" = Some 1) as Hc by (vm_compute; reflexivity).
  split; [exact Hc|]. split; [lia|]. split; [lia|]. split; [lia|].
  apply (proj2 (proj2 (check_count_decrease_spec {[(1, "10.0.0.1") := 1]} 1
                         "10.0.0.1" 3)) 1 Hc); lia.
Defined.

Lemma results_merge_host_down_witness :
  NoDup (check_count_key (task_druleid icmp_task)
           <$> zbx_iprange_uniq_ips (ipranges icmp_task))
  ∧ "10.0.0.2" ∈ zbx_iprange_uniq_ips (ipranges icmp_task)
  ∧ results_ptr_bsearch [icmp_answer] (task_druleid icmp_task, "10.0.0.2") = None
  ∧ one_check_each !! check_count_key (task_druleid icmp_task) "10.0.0.2" = Some 1
  ∧ 1 ≠ 0
  ∧ u64 (1 - discoverer_task_check_count_get icmp_task) = 0
  ∧ (discover_results_merge one_check_each ∅ [icmp_answer] icmp_task 50).1.2
      !! (task_druleid icmp_task, "10.0.0.2")
    = Some (mk_results 1 "10.0.0.2" (Some EmptyString) 50 0 0 []).
Proof.
  assert (NoDup (check_count_key (task_druleid icmp_task)
                   <$> zbx_iprange_uniq_ips (ipranges icmp_task))) as Hnodup.
  { apply (bool_decide_unpack _). vm_compute. exact I. }
  assert ("10.0.0.2" ∈ zbx_iprange_uniq_ips (ipranges icmp_task)) as Hin
    by (apply list_elem_of_further, list_elem_of_here).
  assert (results_ptr_bsearch [icmp_answer] (task_druleid icmp_task, "10.0.0.2") = None)
    as Hfind by (vm_compute; reflexivity).
  assert (one_check_each !! check_count_key (task_druleid icmp_task) "10.0.0.2" = Some 1)
    as Hc by (vm_compute; reflexivity).
  assert (u64 (1 - discoverer_task_check_count_get icmp_task) = 0) as Hzero
    by (vm_compute; reflexivity).
  refine (conj Hnodup (conj Hin (conj Hfind (conj Hc (conj _ (conj Hzero _)))))); [lia|].
  exact (proj1 (proj2 (proj1 (results_merge_host_down icmp_task 50 one_check_each ∅
                                [icmp_answer] Hnodup "10.0.0.2" Hin Hfind)
                         1 Hc ltac:(lia))) Hzero).
Defined.

(** No probe produced a result for 10.0.0.2, the address is in the range
    of the task, and still the full merge inserts nothing for it: after
    the ICMP sweep a TCP check of the address is outstanding. *)
Lemma results_merge_host_down_counterexample :
  "10.0.0.2" ∈ zbx_iprange_uniq_ips (ipranges icmp_task)
  ∧ results_ptr_bsearch [icmp_answer] (task_druleid icmp_task, "10.0.0.2") = None
  ∧ (discover_results_merge two_checks_each ∅ [icmp_answer] icmp_task 50).1.2
      !! (task_druleid icmp_task, "10.0.0.2") = None
  ∧ (discover_results_merge two_checks_each ∅ [icmp_answer] icmp_task 50).1.1
      !! (task_druleid icmp_task, "10.0.0.2") = Some 1.
Proof.
  split_and!; try (vm_compute; reflexivity).
  apply list_elem_of_further, list_elem_of_here.
Qed.

Lemma commit_without_outstanding_is_dropped_witness :
  no_outstanding ∅ (check_count_key 1 "10.0.0.1")
  ∧ state_ip ldap_task = "10.0.0.1"
  ∧ nc_ret (discoverer_net_check_common ∅ example_cache 1 ldap_task true "alpha" 200)
    = true
  ∧ nc_results (discoverer_net_check_common ∅ example_cache 1 ldap_task true "alpha" 200)
    = example_cache
  ∧ nc_check_counts
      (discoverer_net_check_common ∅ example_cache 1 ldap_task true "alpha" 200) = ∅.
Proof.
  assert (no_outstanding ∅ (check_count_key 1 "10.0.0.1")) as Hdead
    by (left; apply lookup_empty).
  pose proof (proj1 (commit_without_outstanding_is_dropped ∅ example_cache 1 ldap_task
                       "10.0.0.1" Hdead) true "alpha" 200 eq_refl)
    as (Hret & Hres & Hcc & _).
  exact (conj Hdead (conj eq_refl (conj Hret (conj Hres Hcc)))).
Defined.

Lemma worker_dispatch_push_or_wait_witness :
  (workers_max capped_job = 0 ∨ workers_used capped_job < workers_max capped_job)
  ∧ workers_used (worker_dispatch idle_queue capped_job icmp_task).1.2 = 0 + 1
  ∧ (workers_max capped_job = 0
     ∨ workers_used (worker_dispatch idle_queue capped_job icmp_task).1.2
       < workers_max capped_job →
     queue_jobs (worker_dispatch idle_queue capped_job icmp_task).1.1 = [] ++ [1]
     ∧ job_status (worker_dispatch idle_queue capped_job icmp_task).1.2
       = DISCOVERER_JOB_STATUS_QUEUED
     ∧ (worker_dispatch idle_queue capped_job icmp_task).2 = true).
Proof.
  assert (workers_max capped_job = 0 ∨ workers_used capped_job < workers_max capped_job)
    as Hroom by (right; vm_compute; reflexivity).
  pose proof (worker_dispatch_push_or_wait idle_queue capped_job icmp_task Hroom)
    as (Hused & Hpush & _).
  exact (conj Hroom (conj Hused Hpush)).
Defined.

Lemma partrange_merge_spec_witness :
  NoDup ((λ r, check_count_key (task_druleid range_task) (ip r))
           <$> [partial_done; partial_half])
  ∧ partial_done ∈ [partial_done; partial_half]
  ∧ ((0 ≠ 0 ∨ processed_checks_per_ip partial_done = checks_per_ip range_task)
     ∧ ∃ c, two_checks_each !! check_count_key (task_druleid range_task) (ip partial_done)
            = Some c ∧ c ≠ 0)
  ∧ (partial_done
       ∉ (discover_results_partrange_merge two_checks_each ∅ [partial_done; partial_half]
            range_task 0).2)
  ∧ ∃ dst,
      (discover_results_partrange_merge two_checks_each ∅ [partial_done; partial_half]
         range_task 0).1.2 !! result_key partial_done = Some dst
      ∧ services dst
        = from_option services [] ((∅ : results_hashset) !! result_key partial_done)
            ++ services partial_done.
Proof.
  assert (NoDup ((λ r, check_count_key (task_druleid range_task) (ip r))
                   <$> [partial_done; partial_half])) as Hnodup.
  { apply (bool_decide_unpack _). vm_compute. exact I. }
  assert (partial_done ∈ [partial_done; partial_half]) as Hin by apply list_elem_of_here.
  assert ((0 ≠ 0 ∨ processed_checks_per_ip partial_done = checks_per_ip range_task)
          ∧ ∃ c, two_checks_each
                   !! check_count_key (task_druleid range_task) (ip partial_done) = Some c
                 ∧ c ≠ 0) as Hmerges.
  { split; [right; reflexivity|]. exists 2. split; [vm_compute; reflexivity|lia]. }
  pose proof (proj1 (partrange_merge_spec range_task 0 two_checks_each ∅
                       [partial_done; partial_half] Hnodup partial_done Hin) Hmerges)
    as [Hgone Hdst].
  exact (conj Hnodup (conj Hin (conj Hmerges (conj Hgone Hdst)))).
Defined.

(** With [force] set, the partial whose processed_checks_per_ip differs
    from the task's checks_per_ip is merged all the same: it leaves the
    source vector and its services reach the cache. *)
Lemma partrange_merge_spec_counterexample :
  processed_checks_per_ip partial_half ≠ checks_per_ip range_task
  ∧ (discover_results_partrange_merge two_checks_each ∅ [partial_half] range_task 1).2 = []
  ∧ services
      <$> (discover_results_partrange_merge two_checks_each ∅ [partial_half] range_task 1).1.2
            !! result_key partial_half
    = Some (services partial_half).
Proof. split_and!; [vm_compute; discriminate|vm_compute; reflexivity..]. Qed.



Lemma process_discovery_queue_full_witness :
  (dr_druleid rule4 ∉ env_job_refs busy_env)
  ∧ (dr_druleid rule4 ∉ (∅ : gset Z))
  ∧ zbx_is_time_suffix (zbx_substitute_simple_macros (delay_str rule4)) = Some 30
  ∧ resolve_timeouts (dr_dchecks rule4)
      (pd_tmt_simple pd_start, pd_tmt_agent pd_start, pd_tmt_snmp pd_start)
      (dr_unique_dcheckid rule4)
    = inl ((3, 0, 0), [mk_dcheck 8 4 SVC_LDAP 0 3; mk_dcheck 9 4 SVC_TCP 0 3], 0)
  ∧ pro_queue_capacity
      (process_rule
         (mk_drule 4 "30s" [mk_dcheck 8 4 SVC_LDAP 0 3; mk_dcheck 9 4 SVC_TCP 0 3] 0 1)
         (u64 (u64 (DISCOVERER_QUEUE_MAX_SIZE - env_pending_checks_count busy_env)
               - pd_queue_checks_count pd_start))) = 0
  ∧ pd_drule_errors (process_discovery_step ∅ pd_start (busy_env, rule4))
    = [mk_drule_error 4 "discoverer queue is full, skipping discovery rule"]
  ∧ pd_jobs (process_discovery_step ∅ pd_start (busy_env, rule4)) = []
  ∧ pd_check_counts (process_discovery_step ∅ pd_start (busy_env, rule4)) = ∅.
Proof.
  assert (dr_druleid rule4 ∉ env_job_refs busy_env) as Hjob by apply not_elem_of_nil.
  assert (dr_druleid rule4 ∉ (∅ : gset Z)) as Hinc by apply not_elem_of_empty.
  assert (zbx_is_time_suffix (zbx_substitute_simple_macros (delay_str rule4)) = Some 30)
    as Hdelay by (vm_compute; reflexivity).
  assert (resolve_timeouts (dr_dchecks rule4)
            (pd_tmt_simple pd_start, pd_tmt_agent pd_start, pd_tmt_snmp pd_start)
            (dr_unique_dcheckid rule4)
          = inl ((3, 0, 0), [mk_dcheck 8 4 SVC_LDAP 0 3; mk_dcheck 9 4 SVC_TCP 0 3], 0))
    as Htmt by (vm_compute; reflexivity).
  assert (pro_queue_capacity
            (process_rule
               (mk_drule (dr_druleid rule4) (delay_str rule4)
                  [mk_dcheck 8 4 SVC_LDAP 0 3; mk_dcheck 9 4 SVC_TCP 0 3] 0
                  (dr_revision rule4))
               (u64 (u64 (DISCOVERER_QUEUE_MAX_SIZE - env_pending_checks_count busy_env)
                     - pd_queue_checks_count pd_start))) = 0)
    as Hfull by (vm_compute; reflexivity).
  pose proof (process_discovery_queue_full ∅ busy_env pd_start rule4 30 (3, 0, 0)
                [mk_dcheck 8 4 SVC_LDAP 0 3; mk_dcheck 9 4 SVC_TCP 0 3] 0
                Hjob Hinc Hdelay Htmt Hfull)
    as (Herr & _ & Hjobs & Hcounts & _).
  exact (conj Hjob (conj Hinc (conj Hdelay (conj Htmt (conj Hfull
           (conj Herr (conj Hjobs Hcounts))))))).
Defined.

Lemma busy_manager_invariant : worker_invariant busy_manager.
Proof.
  split; cbn [busy_manager m_queue m_job_refs queue_jobs].
  - apply NoDup_singleton.
  - by intros r j [<- <-]%lookup_singleton_Some.
  - intros r j [<- <-]%lookup_singleton_Some. right. cbn. lia.
  - intros r j [<- <-]%lookup_singleton_Some _. split; [done|]. right. cbn. lia.
Qed.

Lemma worker_invariant_take_witness :
  worker_invariant busy_manager
  ∧ ∃ out, worker_take busy_manager 300 = Some out
           ∧ wt_notify out = false
           ∧ worker_invariant (wt_manager out).
Proof.
  split; [exact busy_manager_invariant|].
  eexists. split; [vm_compute; reflexivity|]. split; [reflexivity|].
  eapply (worker_invariant_take busy_manager 300); [exact busy_manager_invariant|].
  vm_compute. reflexivity.
Defined.

Lemma example_abort_keeps_job : abort_keeps_job.
Proof. intros job pending errors e. by split_and!. Qed.

Lemma worker_invariant_finish_witness :
  abort_keeps_job
  ∧ worker_invariant busy_manager
  ∧ worker_invariant (worker_finish busy_manager 1 SVC_LDAP (Some "no handle") 300).1.
Proof.
  split; [exact example_abort_keeps_job|]. split; [exact busy_manager_invariant|].
  exact (worker_invariant_finish busy_manager 1 SVC_LDAP (Some "no handle") 300
           example_abort_keeps_job busy_manager_invariant).
Defined.

Lemma process_discovery_skipped_witness :
  (dr_druleid rule3 ∈ env_job_refs (mk_pd_env 1000 0 [3])
   ∨ dr_druleid rule3 ∈ (∅ : gset Z))
  ∧ pd_drule_errors (process_discovery_step ∅ pd_start (mk_pd_env 1000 0 [3], rule3))
    = pd_drule_errors pd_start
  ∧ pd_calls (process_discovery_step ∅ pd_start (mk_pd_env 1000 0 [3], rule3))
    = pd_calls pd_start
        ++ (if program_type_server then [discovery_clean_services (dr_druleid rule3)]
            else [])
        ++ [zbx_dc_drule_queue (env_now (mk_pd_env 1000 0 [3])) (dr_druleid rule3)
              (pd_delay pd_start)].
Proof.
  assert (dr_druleid rule3 ∈ env_job_refs (mk_pd_env 1000 0 [3])
          ∨ dr_druleid rule3 ∈ (∅ : gset Z)) as Hskip
    by (left; apply list_elem_of_here).
  pose proof (process_discovery_skipped ∅ (mk_pd_env 1000 0 [3]) pd_start rule3 Hskip)
    as (Herr & _ & _ & Hcalls).
  exact (conj Hskip (conj Herr Hcalls)).
Defined.

Lemma check_count_key_fits_witness :
  (String.length "192.168.100.200" < CHECK_COUNT_IP_SIZE)%nat
  ∧ check_count_key 5 "192.168.100.200" = (5, "192.168.100.200").
Proof.
  assert (String.length "192.168.100.200" < CHECK_COUNT_IP_SIZE)%nat as Hlen
    by (vm_compute; lia).
  exact (conj Hlen (check_count_key_fits 5 "192.168.100.200" Hlen)).
Defined.

Lemma cycle_cache_well_keyed : well_keyed cycle_cache.
Proof.
  change (map_Forall (λ k r, result_key r = k) cycle_cache).
  apply (bool_decide_unpack _). vm_compute. exact I.
Qed.

Lemma cycle_entries_visit : cycle_entries ≡ₚ (map_to_list cycle_cache).*2.
Proof.
  unfold cycle_cache, cache_of. rewrite map_to_list_to_map.
  - rewrite <- list_fmap_compose. by rewrite list_fmap_id.
  - apply (bool_decide_unpack _). vm_compute. exact I.
Qed.

Example cycle_drain_vector : pr_vector cycle_drain = [host1; host2].
Proof. vm_compute. reflexivity. Qed.

Lemma process_results_partition_witness :
  well_keyed cycle_cache
  ∧ cycle_entries ≡ₚ (map_to_list cycle_cache).*2
  ∧ cycle_cache !! result_key stale_host = Some stale_host
  ∧ (stale_host ∈ pr_vector cycle_drain
     ∨ pr_results cycle_drain !! result_key stale_host = Some stale_host
     ∨ druleid stale_host ∈ [5]
     ∨ druleid stale_host ∈ err_druleid <$> [])
  ∧ pr_results cycle_drain ⊆ cycle_cache.
Proof.
  assert (cycle_cache !! result_key stale_host = Some stale_host) as Hstale
    by (vm_compute; reflexivity).
  pose proof (process_results_partition (λ _, 0) cycle_entries cycle_cache cycle_counts
                [5] [] no_callbacks cycle_cache_well_keyed cycle_entries_visit)
    as (_ & _ & Hsub & _ & Hall).
  exact (conj cycle_cache_well_keyed (conj cycle_entries_visit
           (conj Hstale (conj (Hall _ _ Hstale) Hsub)))).
Defined.

Lemma process_results_leftover_witness :
  NoDup cycle_entries
  ∧ (∃ r, r ∈ cycle_entries ∧ druleid r = 2 ∧ (2 ∉ [5]) ∧ (r ∉ pr_vector cycle_drain))
  ∧ 2 ∈ pr_incomplete_druleids cycle_drain
  ∧ pr_unsaved_checks cycle_drain
    = u64 (services_num
             (filter (λ r, (druleid r ∉ [5]) ∧ (r ∉ pr_vector cycle_drain)) cycle_entries)).
Proof.
  assert (NoDup cycle_entries) as Hnd.
  { apply (bool_decide_unpack _). vm_compute. exact I. }
  assert (∃ r, r ∈ cycle_entries ∧ druleid r = 2 ∧ (2 ∉ [5])
               ∧ (r ∉ pr_vector cycle_drain)) as Hleft.
  { exists waiting_host. rewrite cycle_drain_vector.
    split_and!; [|done|..]; apply (bool_decide_unpack _); vm_compute; exact I. }
  pose proof (process_results_leftover (λ _, 0) cycle_entries cycle_cache cycle_counts
                [5] [] no_callbacks Hnd) as [Hinc Huns].
  exact (conj Hnd (conj Hleft (conj (proj2 (Hinc 2) Hleft) Huns))).
Defined.

Lemma cache_writers_keep_keys_witness :
  well_keyed cycle_cache
  ∧ well_keyed (discover_results_host_reg cycle_cache 9 0 EmptyString 300)
  ∧ well_keyed (discover_results_merge one_check_each cycle_cache [icmp_answer]
                  icmp_task 300).1.2.
Proof.
  pose proof (cache_writers_keep_keys cycle_cache cycle_cache_well_keyed)
    as (Hreg & _ & _ & Hmerge & _).
  exact (conj cycle_cache_well_keyed
           (conj (Hreg 9 0 EmptyString 300)
              (Hmerge one_check_each [icmp_answer] icmp_task 300))).
Defined.

Lemma results_merge_moves_witness :
  let st' := discover_results_merge two_checks_each cycle_cache [icmp_answer]
               icmp_task 300 in
  NoDup (check_count_key (task_druleid icmp_task)
           <$> zbx_iprange_uniq_ips (ipranges icmp_task))
  ∧ StronglySorted results_le [icmp_answer]
  ∧ NoDup (result_key <$> [icmp_answer])
  ∧ icmp_answer ∈ [icmp_answer]
  ∧ druleid icmp_answer = task_druleid icmp_task
  ∧ ip icmp_answer ∈ zbx_iprange_uniq_ips (ipranges icmp_task)
  ∧ two_checks_each !! check_count_key 1 "10.0.0.1" = Some 2
  ∧ (icmp_answer ∉ st'.2)
  ∧ st'.1.1 !! check_count_key 1 "10.0.0.1" = Some 1
  ∧ ∃ dst, st'.1.2 !! result_key icmp_answer = Some dst
      ∧ services dst = services host1 ++ services icmp_answer.
Proof.
  cbv zeta.
  assert (NoDup (check_count_key (task_druleid icmp_task)
                   <$> zbx_iprange_uniq_ips (ipranges icmp_task))) as Hips.
  { apply (bool_decide_unpack _). vm_compute. exact I. }
  assert (StronglySorted results_le [icmp_answer]) as Hsorted
    by (repeat constructor).
  assert (NoDup (result_key <$> [icmp_answer])) as Hkeys.
  { apply (bool_decide_unpack _). vm_compute. exact I. }
  assert (icmp_answer ∈ [icmp_answer]) as Hin by apply list_elem_of_here.
  assert (druleid icmp_answer = task_druleid icmp_task) as Hrule by reflexivity.
  assert (ip icmp_answer ∈ zbx_iprange_uniq_ips (ipranges icmp_task)) as Hip
    by apply list_elem_of_here.
  assert (two_checks_each !! check_count_key 1 "10.0.0.1" = Some 2) as Hcount
    by (vm_compute; reflexivity).
  assert ((2 : Z) ≠ 0) as Hnz by lia.
  pose proof (results_merge_moves icmp_task 300 two_checks_each cycle_cache [icmp_answer]
                Hips Hsorted Hkeys icmp_answer Hin Hrule) as [Hrange _].
  pose proof (Hrange Hip) as [Hlive _].
  pose proof (Hlive 2 Hcount Hnz) as (Hgone & Hleft & Hdst).
  exact (conj Hips (conj Hsorted (conj Hkeys (conj Hin (conj Hrule (conj Hip
           (conj Hcount (conj Hgone (conj Hleft Hdst))))))))).
Defined.

Lemma net_check_common_commit_witness :
  let out := discoverer_net_check_common two_checks_each cycle_cache 1 ldap_task true
               "alpha.example" 300 in
  dchecks ldap_task !! index_dcheck ldap_task = Some (mk_dcheck 8 1 SVC_LDAP 0 3)
  ∧ discover_service (mk_dcheck 8 1 SVC_LDAP 0 3) true = true
  ∧ two_checks_each !! check_count_key 1 (state_ip ldap_task) = Some 2
  ∧ nc_ret out = true
  ∧ nc_check_counts out
    = <[check_count_key 1 (state_ip ldap_task) := u64 (2 - 1)]> two_checks_each
  ∧ ∃ dst, nc_results out !! (1, state_ip ldap_task) = Some dst
      ∧ services dst
        = from_option services [] (cycle_cache !! (1, state_ip ldap_task))
            ++ [mk_dservice 8 (state_port ldap_task mod 2 ^ 16) DOBJECT_STATUS_UP
                  EmptyString].
Proof.
  cbv zeta.
  assert (dchecks ldap_task !! index_dcheck ldap_task = Some (mk_dcheck 8 1 SVC_LDAP 0 3))
    as Hdcheck by reflexivity.
  assert (discover_service (mk_dcheck 8 1 SVC_LDAP 0 3) true = true) as Hup by reflexivity.
  assert (two_checks_each !! check_count_key 1 (state_ip ldap_task) = Some 2) as Hcount
    by (vm_compute; reflexivity).
  assert ((2 : Z) ≠ 0) as Hnz by lia.
  pose proof (net_check_common_commit two_checks_each cycle_cache 1 ldap_task
                (mk_dcheck 8 1 SVC_LDAP 0 3) true "alpha.example" 300 Hdcheck)
    as [_ Hprobe].
  pose proof (Hprobe 2 Hup Hcount Hnz) as (Hret & _ & Hcounts & _ & dst & Hdst & Hsvc & _).
  exact (conj Hdcheck (conj Hup (conj Hcount (conj Hret (conj Hcounts
           (ex_intro _ dst (conj Hdst Hsvc))))))).
Defined.

Lemma resolve_timeouts_assigns_witness :
  resolve_timeouts (dr_dchecks rule6) (0, 0, 0) 0
  = inl ((3, 0, 0),
         [mk_dcheck 10 6 SVC_TCP 0 3; mk_dcheck 11 6 SVC_LDAP 1 3;
          mk_dcheck 12 6 SVC_AGENT 0 0], 11)
  ∧ first_uniq (dr_dchecks rule6) = 1%nat
  ∧ dr_dchecks rule6 !! 2%nat = Some (mk_dcheck 12 6 SVC_AGENT 0 0)
  ∧ 11 = from_option (λ p : nat * zbx_dc_dcheck_t, dc_dcheckid p.2) 0
           (list_find (λ d, dc_uniq d ≠ 0) (dr_dchecks rule6)).
Proof.
  assert (resolve_timeouts (dr_dchecks rule6) (0, 0, 0) 0
          = inl ((3, 0, 0),
                 [mk_dcheck 10 6 SVC_TCP 0 3; mk_dcheck 11 6 SVC_LDAP 1 3;
                  mk_dcheck 12 6 SVC_AGENT 0 0], 11)) as Hres by reflexivity.
  assert (first_uniq (dr_dchecks rule6) = 1%nat) as Hfirst by reflexivity.
  pose proof (resolve_timeouts_assigns _ _ _ _ _ _ Hres) as (_ & _ & Hafter & Hunique & _).
  exact (conj Hres (conj Hfirst
           (conj (Hafter 2%nat (mk_dcheck 12 6 SVC_AGENT 0 0) eq_refl
                    ltac:(rewrite Hfirst; lia))
              Hunique))).
Defined.

Lemma process_discovery_invalid_timeout_witness :
  let st' := process_discovery_step (H0 := snmp_timeout_collaborators) ∅ pd_start
               (quiet_env, rule5) in
  (dr_druleid rule5 ∉ env_job_refs quiet_env)
  ∧ (dr_druleid rule5 ∉ (∅ : gset Z))
  ∧ resolve_timeouts (H0 := snmp_timeout_collaborators) (dr_dchecks rule5) (0, 0, 0) 0
    = inr ((3, 0, 0),
           invalid_global_timeout ITEM_TYPE_SNMP "3x")
  ∧ (23 ≤ MAX_STRING_LEN)%nat
  ∧ pd_drule_errors st'
    = [mk_drule_error 5 (invalid_global_timeout ITEM_TYPE_SNMP "3x")]
  ∧ pd_err_druleids st' = [5]
  ∧ pd_jobs st' = []
  ∧ pd_calls st' = [discovery_clean_services 5; zbx_dc_drule_queue 1000 5 30].
Proof.
  cbv zeta.
  assert (dr_druleid rule5 ∉ env_job_refs quiet_env) as Hjob.
  { apply (bool_decide_unpack _). vm_compute. exact I. }
  assert (dr_druleid rule5 ∉ (∅ : gset Z)) as Hinc by apply not_elem_of_empty.
  assert (zbx_is_time_suffix (SchedulerCollaborators := snmp_timeout_collaborators)
            (zbx_substitute_simple_macros (SchedulerCollaborators := snmp_timeout_collaborators)
               (delay_str rule5)) = Some 30) as Hdelay by reflexivity.
  assert (resolve_timeouts (H0 := snmp_timeout_collaborators) (dr_dchecks rule5) (0, 0, 0) 0
          = inr ((3, 0, 0), invalid_global_timeout ITEM_TYPE_SNMP "3x")) as Htmt
    by reflexivity.
  assert (23 ≤ MAX_STRING_LEN)%nat as Hlen by (cbn; lia).
  pose proof (process_discovery_invalid_timeout (H0 := snmp_timeout_collaborators)
                ∅ quiet_env pd_start rule5 30 _ _ Hjob Hinc Hdelay Htmt Hlen)
    as (_ & _ & Herr & Hids & Hjobs & _ & _ & _ & Hcalls).
  exact (conj Hjob (conj Hinc (conj Htmt (conj Hlen (conj Herr (conj Hids
           (conj Hjobs Hcalls))))))).
Defined.

Lemma process_discovery_job_created_witness :
  let st' := process_discovery_step ∅ pd_start (quiet_env, rule4) in
  (dr_druleid rule4 ∉ env_job_refs quiet_env)
  ∧ (dr_druleid rule4 ∉ (∅ : gset Z))
  ∧ resolve_timeouts (dr_dchecks rule4) (0, 0, 0) 0
    = inl ((3, 0, 0), [mk_dcheck 8 4 SVC_LDAP 0 3; mk_dcheck 9 4 SVC_TCP 0 3], 0)
  ∧ length (pd_jobs st') = 1%nat
  ∧ pd_rule_count st' = 1
  ∧ pd_queue_checks_count st' = 2
  ∧ pd_drule_errors st' = []
  ∧ pd_calls st' = [discovery_clean_services 4; zbx_dc_drule_queue 1000 4 30].
Proof.
  cbv zeta.
  assert (dr_druleid rule4 ∉ env_job_refs quiet_env) as Hjob.
  { apply (bool_decide_unpack _). vm_compute. exact I. }
  assert (dr_druleid rule4 ∉ (∅ : gset Z)) as Hinc by apply not_elem_of_empty.
  assert (zbx_is_time_suffix (zbx_substitute_simple_macros (delay_str rule4)) = Some 30)
    as Hdelay by reflexivity.
  assert (resolve_timeouts (dr_dchecks rule4) (0, 0, 0) 0
          = inl ((3, 0, 0), [mk_dcheck 8 4 SVC_LDAP 0 3; mk_dcheck 9 4 SVC_TCP 0 3], 0))
    as Htmt by reflexivity.
  pose proof (process_discovery_job_created ∅ quiet_env pd_start rule4 30 _ _ _
                Hjob Hinc Hdelay Htmt ltac:(vm_compute; discriminate))
    as (Hjobs & Hcount & Hchecks & Herr & _ & _ & _ & Hcalls).
  exact (conj Hjob (conj Hinc (conj Htmt (conj (f_equal length Hjobs) (conj Hcount
           (conj Hchecks (conj Herr Hcalls))))))).
Defined.

(** Rules 1 and 3 are due, and the process is asked to stop while rule 1
    is handled: the loop reaches rule 1 only, which is cleaned and queued
    again; rule 3 is neither. *)
Lemma process_discovery_accounting_witness :
  let running := λ k : nat, bool_decide (k < 1)%nat in
  let drules := [(quiet_env, rule1); (quiet_env, rule3)] in
  let out := process_discovery_running running 0 ∅ ∅ [] [] drules in
  running 1%nat = false
  ∧ (∀ j, (j < 1)%nat → running j = true)
  ∧ take 1 drules = [(quiet_env, rule1)]
  ∧ requeued (pd_calls out) = [(1000, 1)]
  ∧ cleaned (pd_calls out) = [1]
  ∧ pd_rule_count out = Z.of_nat (length (pd_jobs out)).
Proof.
  intros running drules out.
  assert (running 1%nat = false) as Hstop by reflexivity.
  assert (∀ j, (j < 1)%nat → running j = true) as Hrun.
  { intros j Hj. subst running. cbn beta. by rewrite bool_decide_eq_true_2. }
  assert (take 1 drules = [(quiet_env, rule1)]) as Htake by reflexivity.
  pose proof (process_discovery_accounting running 0 ∅ ∅ [] [] drules)
    as (_ & _ & Hreached & Hcount & Hqueued & Hcleaned & _).
  specialize (Hreached 1%nat ltac:(cbn; lia) Hstop Hrun).
  rewrite Hreached, Htake in Hqueued, Hcleaned.
  exact (conj Hstop (conj Hrun (conj Htake (conj Hqueued (conj Hcleaned Hcount))))).
Defined.

#[local] Existing Instance example_thread_collaborators.


Lemma commit_keeps_worker_invariant_witness :
  let m' := discoverer_thread_commit busy_manager rule4_scheduled 1000 in
  worker_invariant busy_manager
  ∧ NoDup (job_druleid <$> pd_jobs rule4_scheduled)
  ∧ 0 < pd_rule_count rule4_scheduled
  ∧ worker_invariant m'
  ∧ queue_jobs (m_queue m') = [1; 4]
  ∧ pending_checks_count (m_queue m')
    = u64 (pending_checks_count (m_queue busy_manager)
           + fold_left (λ queued count, u64 (queued + count.2))
               (map_to_list (pd_check_counts rule4_scheduled)) 0).
Proof.
  cbv zeta.
  pose proof busy_manager_invariant as Hinv.
  assert (NoDup (job_druleid <$> pd_jobs rule4_scheduled)) as Hnd.
  { apply (bool_decide_unpack _). vm_compute. exact I. }
  assert (∀ job, job ∈ pd_jobs rule4_scheduled →
            m_job_refs busy_manager !! job_druleid job = None
            ∧ (job_druleid job ∉ queue_jobs (m_queue busy_manager))
            ∧ (workers_max job = 0 ∨ workers_used job < workers_max job)) as Hnew.
  { apply Forall_forall. apply (bool_decide_unpack _). vm_compute. exact I. }
  assert (0 < pd_rule_count rule4_scheduled) as Hpos by (vm_compute; reflexivity).
  assert (queue_jobs (m_queue (discoverer_thread_commit busy_manager rule4_scheduled 1000))
          = [1; 4]) as Hqueue by (vm_compute; reflexivity).
  pose proof (commit_keeps_worker_invariant busy_manager rule4_scheduled 1000
                Hinv Hnd Hnew) as (Hinv' & _ & _ & Hrun & _).
  pose proof (Hrun Hpos) as [_ Hpending].
  exact (conj Hinv (conj Hnd (conj Hpos (conj Hinv' (conj Hqueue Hpending))))).
Defined.

#[local] Existing Instance example_libc_collaborators.

Lemma dcheck_port_ranges_get_pieces_witness :
  Forall comma_free ["22"; "80-90"; EmptyString]
  ∧ dcheck_port_ranges_get "22,80-90," [] = [mk_range 22 22; mk_range 80 90]
  ∧ dcheck_port_ranges_get "22,80-90," []
    = [] ++ (port_range <$> (if decide (last ["22"; "80-90"; EmptyString]
                                        = Some EmptyString)
                             then removelast ["22"; "80-90"; EmptyString]
                             else ["22"; "80-90"; EmptyString])).
Proof.
  assert (Forall comma_free ["22"; "80-90"; EmptyString]) as Hfree.
  { repeat first [ apply Forall_nil_2 | apply Forall_cons_2 | discriminate
                 | progress (unfold comma_free; cbn [String.list_ascii_of_string]) ]. }
  assert (dcheck_port_ranges_get "22,80-90," [] = [mk_range 22 22; mk_range 80 90])
    as Hrun by (vm_compute; reflexivity).
  exact (conj Hfree (conj Hrun
           (dcheck_port_ranges_get_pieces ["22"; "80-90"; EmptyString] [] Hfree))).
Defined.

#[local] Existing Instance example_clean_collaborators.

Example discovered_rows_cleaned :
  CleanServices.discovery_clean_services (Some "10.0.0.1") discovered_rows
  = [CleanServices.delete_from_dservices [12; 21]; CleanServices.delete_from_dhosts [2; 3]].
Proof. vm_compute. reflexivity. Qed.

Lemma clean_services_deletes_witness :
  (∀ row row', row ∈ discovered_rows → row' ∈ discovered_rows →
     CleanServices.row_dserviceid row = None →
     CleanServices.row_dhostid row' = CleanServices.row_dhostid row →
     CleanServices.row_dserviceid row' = None)
  ∧ ∃ dserviceids dhostids,
      CleanServices.discovery_clean_services (Some "10.0.0.1") discovered_rows
      = (if decide (dserviceids = []) then []
         else [CleanServices.delete_from_dservices dserviceids])
          ++ (if decide (dhostids = []) then []
              else [CleanServices.delete_from_dhosts dhostids])
      ∧ (12 ∈ dserviceids) ∧ (11 ∉ dserviceids) ∧ (1 ∉ dhostids) ∧ (3 ∈ dhostids).
Proof.
  assert (∀ row row', row ∈ discovered_rows → row' ∈ discovered_rows →
            CleanServices.row_dserviceid row = None →
            CleanServices.row_dhostid row' = CleanServices.row_dhostid row →
            CleanServices.row_dserviceid row' = None) as Hjoin.
  { intros row row' Hrow Hrow' Hnone Hsame. unfold discovered_rows in Hrow, Hrow'.
    repeat (apply elem_of_cons in Hrow as [-> |Hrow]);
      try (by apply elem_of_nil in Hrow); try discriminate Hnone.
    repeat (apply elem_of_cons in Hrow' as [-> |Hrow']);
      try (by apply elem_of_nil in Hrow'); try discriminate Hsame.
    reflexivity. }
  destruct (clean_services_deletes "10.0.0.1" discovered_rows Hjoin)
    as (dserviceids & dhostids & Hcalls & Hsrv & Hhost & _).
  split; [exact Hjoin|].
  exists dserviceids, dhostids. split; [exact Hcalls|].
  pose proof (Hcalls) as Hrun. rewrite discovered_rows_cleaned in Hrun.
  assert (dserviceids = [12; 21] ∧ dhostids = [2; 3]) as [-> ->].
  { destruct (decide (dserviceids = [])), (decide (dhostids = [])); cbn in Hrun;
      by simplify_eq. }
  split_and!; apply (bool_decide_unpack _); vm_compute; exact I.
Defined.

#[local] Existing Instance example_icmp_collaborators.

Lemma example_ping_answers dcheck batch :
  zbx_ping dcheck (fping_host_new <$> batch) = inl (example_answer dcheck <$> batch).
Proof. cbn. by rewrite <- list_fmap_compose. Qed.

Lemma example_answer_addr dcheck ip' : fping_addr (example_answer dcheck ip') = ip'.
Proof. unfold example_answer. by destruct (bool_decide _). Qed.

Lemma example_ping_keeps_addrs : ping_keeps_addrs.
Proof.
  intros dcheck batch hosts'. rewrite example_ping_answers. intros [= <-].
  rewrite <- list_fmap_compose. rewrite <- (list_fmap_id batch) at 2.
  apply list_fmap_ext. intros ? a _. apply example_answer_addr.
Qed.

Lemma discover_icmp_batches_witness :
  dchecks icmp_task !! 0%nat = Some (mk_dcheck 7 1 SVC_ICMPPING 0 3)
  ∧ ∃ out, discover_icmp 1 icmp_task 0 1 [] never_stop 100 = Some out
      ∧ icmp_pings out = [["10.0.0.1"]; ["10.0.0.2"]]
      ∧ concat (icmp_pings out) `prefix_of` zbx_iprange_uniq_ips (ipranges icmp_task)
      ∧ Forall (λ b, (1 ≤ length b ≤ 1)%nat) (icmp_pings out)
      ∧ icmp_ret out = true.
Proof.
  assert (dchecks icmp_task !! 0%nat = Some (mk_dcheck 7 1 SVC_ICMPPING 0 3)) as Hdcheck
    by reflexivity.
  assert (icmp_pings <$> discover_icmp 1 icmp_task 0 1 [] never_stop 100
          = Some [["10.0.0.1"]; ["10.0.0.2"]]) as Hrun by (vm_compute; reflexivity).
  assert (icmp_ret <$> discover_icmp 1 icmp_task 0 1 [] never_stop 100 = Some true)
    as Hret by (vm_compute; reflexivity).
  destruct (discover_icmp_batches 1 icmp_task 0 (mk_dcheck 7 1 SVC_ICMPPING 0 3) 1 []
              never_stop 100 Hdcheck) as (out & Hout & Hpre & Hsize & _).
  rewrite Hout in Hrun, Hret. injection Hrun as Hrun. injection Hret as Hret.
  exact (conj Hdcheck (ex_intro _ out (conj Hout (conj Hrun (conj Hpre
           (conj Hsize Hret)))))).
Defined.

Lemma discover_icmp_results_witness :
  dchecks icmp_task !! 0%nat = Some (mk_dcheck 7 1 SVC_ICMPPING 0 3)
  ∧ ping_keeps_addrs
  ∧ NoDup (zbx_iprange_uniq_ips (ipranges icmp_task))
  ∧ ∃ out, discover_icmp 1 icmp_task 0 0 [] never_stop 100 = Some out
      ∧ icmp_results out = [icmp_answer]
      ∧ NoDup (result_key <$> icmp_results out)
      ∧ StronglySorted results_le (icmp_results out).
Proof.
  assert (dchecks icmp_task !! 0%nat = Some (mk_dcheck 7 1 SVC_ICMPPING 0 3)) as Hdcheck
    by reflexivity.
  assert (NoDup (zbx_iprange_uniq_ips (ipranges icmp_task))) as Hnd.
  { apply (bool_decide_unpack _). vm_compute. exact I. }
  assert (NoDup (result_key <$> [])) as Hkeys by constructor.
  assert (StronglySorted results_le []) as Hs by constructor.
  assert (0%nat = 0%nat →
          ∀ ip', ip' ∈ zbx_iprange_uniq_ips (ipranges icmp_task) →
            result_at [] (1, ip') = None) as Hfresh by done.
  assert (icmp_results <$> discover_icmp 1 icmp_task 0 0 [] never_stop 100
          = Some [icmp_answer]) as Hrun by (vm_compute; reflexivity).
  destruct (discover_icmp_results 1 icmp_task 0 (mk_dcheck 7 1 SVC_ICMPPING 0 3) 0 []
              never_stop 100 Hdcheck example_ping_keeps_addrs Hnd Hkeys Hs Hfresh)
    as (out & Hout & Hnd' & Hs' & _).
  rewrite Hout in Hrun. injection Hrun as Hrun.
  exact (conj Hdcheck (conj example_ping_keeps_addrs (conj Hnd
           (ex_intro _ out (conj Hout (conj Hrun (conj Hnd' Hs'))))))).
Defined.

Lemma net_check_icmp_sweep_witness :
  let out := discoverer_net_check_icmp one_check_each ∅ 1 icmp_task 0 (λ _, never_stop)
               100 in
  1 = task_druleid icmp_task
  ∧ (∀ dcheck batch,
       zbx_ping dcheck (fping_host_new <$> batch) = inl (example_answer dcheck <$> batch))
  ∧ (∀ dcheck ip', fping_addr (example_answer dcheck ip') = ip')
  ∧ NoDup (check_count_key 1 <$> zbx_iprange_uniq_ips (ipranges icmp_task))
  ∧ nci_ret out = true
  ∧ nci_check_counts out !! check_count_key 1 "10.0.0.1" = Some 0
  ∧ (∃ dst, nci_results out !! (1, "10.0.0.1") = Some dst
       ∧ services dst = [mk_dservice 7 0 DOBJECT_STATUS_UP EmptyString])
  ∧ nci_results out !! (1, "10.0.0.2")
    = Some (mk_results 1 "10.0.0.2" (Some EmptyString) 100 0 0 []).
Proof.
  cbv zeta.
  assert (1 = task_druleid icmp_task) as Hrule by reflexivity.
  assert (∀ i reads : nat, (λ _ : nat, never_stop) i reads = false) as Hstop by done.
  assert (NoDup (check_count_key 1 <$> zbx_iprange_uniq_ips (ipranges icmp_task)))
    as Hnd.
  { apply (bool_decide_unpack _). vm_compute. exact I. }
  pose proof (net_check_icmp_sweep one_check_each ∅ 1 icmp_task 0 (λ _, never_stop) 100
                example_answer Hrule Hstop example_ping_answers example_answer_addr Hnd)
    as (Hret & _ & _ & _ & Hips).
  assert ("10.0.0.1" ∈ zbx_iprange_uniq_ips (ipranges icmp_task)) as Hip1
    by apply list_elem_of_here.
  assert ("10.0.0.2" ∈ zbx_iprange_uniq_ips (ipranges icmp_task)) as Hip2
    by (apply list_elem_of_further, list_elem_of_here).
  assert (one_check_each !! check_count_key 1 "10.0.0.1" = Some 1) as Hc1
    by (vm_compute; reflexivity).
  assert (one_check_each !! check_count_key 1 "10.0.0.2" = Some 1) as Hc2
    by (vm_compute; reflexivity).
  assert ((1 : Z) ≠ 0) as Hnz by lia.
  destruct (Hips _ Hip1) as [Hlive1 _]. destruct (Hips _ Hip2) as [Hlive2 _].
  destruct (Hlive1 1 Hc1 Hnz) as (Hcount1 & Hup1 & _).
  destruct (Hlive2 1 Hc2 Hnz) as (_ & _ & Hdown2 & _).
  exact (conj Hrule (conj example_ping_answers (conj example_answer_addr (conj Hnd
           (conj Hret (conj Hcount1
              (conj (Hup1 ltac:(vm_compute; discriminate))
                 (Hdown2 eq_refl eq_refl)))))))).
Defined.

Lemma busy_manager_tracked : jobs_tracked busy_manager.
Proof.
  unfold jobs_tracked. cbn [busy_manager m_queue m_job_refs queue_jobs].
  intros r j [<- <-]%lookup_singleton_Some. cbn. split; [lia|]. left.
  split; [apply list_elem_of_here|done].
Qed.

Lemma jobs_stay_tracked_witness :
  worker_invariant busy_manager
  ∧ jobs_tracked busy_manager
  ∧ abort_keeps_job
  ∧ (∃ out, worker_take busy_manager 300 = Some out ∧ jobs_tracked (wt_manager out))
  ∧ jobs_tracked (worker_finish busy_manager 1 SVC_LDAP (Some "no handle") 300).1.
Proof.
  pose proof (jobs_stay_tracked busy_manager 300 busy_manager_invariant
                busy_manager_tracked) as (Htake & Hfinish & _).
  assert (∀ job, m_job_refs busy_manager !! 1 = Some job → 0 < workers_used job) as Hheld.
  { cbn [busy_manager m_job_refs]. intros job [_ <-]%lookup_singleton_Some. cbn. lia. }
  assert (∃ out, worker_take busy_manager 300 = Some out) as [out Hout]
    by (eexists; vm_compute; reflexivity).
  exact (conj busy_manager_invariant (conj busy_manager_tracked
           (conj example_abort_keeps_job
              (conj (ex_intro _ out (conj Hout (Htake out Hout)))
                 (Hfinish 1 SVC_LDAP (Some "no handle") example_abort_keeps_job
                    Hheld))))).
Defined.

Lemma job_removal_registers_sentinel_witness :
  let out := mk_worker_take_out
               (worker_job_remove drained_manager (mk_queue [] 0 1 [])
                  (mk_job 1 1 0 0 DISCOVERER_JOB_STATUS_QUEUED []) 300)
               None false (Some 1) in
  let cache := m_results (wt_manager out) in
  let drain := process_results_in_order (λ _, 0) [rule1_sentinel] cache ∅ []
                 [rule1_error] no_callbacks in
  worker_take drained_manager 300 = Some out
  ∧ wt_removed out = Some 1
  ∧ m_job_refs (wt_manager out) !! 1 = None
  ∧ cache !! (1, EmptyString) = Some rule1_sentinel
  ∧ well_keyed cache
  ∧ [rule1_sentinel] ≡ₚ (map_to_list cache).*2
  ∧ (1 ∉ ([] : list Z))
  ∧ no_outstanding ∅ (check_count_key 1 EmptyString)
  ∧ pr_ret drain = 0
  ∧ rule1_sentinel ∈ pr_vector drain
  ∧ one_drule_update 1 (Some "timeout") 300 (pr_calls drain)
  ∧ errors_of 1 (pr_drule_errors drain) = []
  ∧ pr_results drain !! (1, EmptyString) = None.
Proof.
  intros out cache drain.
  assert (worker_take drained_manager 300 = Some out) as Htake by reflexivity.
  assert (wt_removed out = Some 1) as Hremoved by reflexivity.
  assert (cache = {[(1, EmptyString) := rule1_sentinel]}) as Hcache by reflexivity.
  assert (well_keyed cache) as Hwk.
  { rewrite Hcache. by intros k r [<- <-]%lookup_singleton_Some. }
  assert ([rule1_sentinel] ≡ₚ (map_to_list cache).*2) as Hperm.
  { rewrite Hcache, map_to_list_singleton. done. }
  assert (1 ∉ ([] : list Z)) as Hdel by apply not_elem_of_nil.
  assert (no_outstanding ∅ (check_count_key 1 EmptyString)) as Hnone
    by (left; apply lookup_empty).
  assert (pr_ret drain = 0) as Hret by (vm_compute; reflexivity).
  pose proof (job_removal_registers_sentinel (λ _, 0) drained_manager 300)
    as (Hreg & _ & _ & _ & _ & Hdrain).
  destruct (Hreg out 1 Htake Hremoved) as [Hgone Hsentinel].
  destruct (Hdrain [rule1_sentinel] cache ∅ [] [rule1_error] no_callbacks 1
              rule1_sentinel Hwk Hperm Hsentinel) as (Hon & Hupdate & _ & _).
  assert (rule1_sentinel ∈ pr_vector drain) as Hin.
  { destruct (Hon Hdel Hnone) as [Hin|Hbatch]; [exact Hin|].
    exfalso. fold drain in Hbatch. rewrite Hret in Hbatch. discriminate Hbatch. }
  destruct (Hupdate Hin) as (Hone & Herrs & Hleft).
  exact (conj Htake (conj Hremoved (conj Hgone (conj Hsentinel (conj Hwk (conj Hperm
           (conj Hdel (conj Hnone (conj Hret (conj Hin
             (conj Hone (conj Herrs Hleft)))))))))))).
Defined.

(** The job of rule 1 is removed and the entry with the empty ip of the
    rule is registered. In the first cycle the configuration has dropped
    rule 1 in the meantime: the drainer clears the entry, hands nothing
    on and makes no call. In the second cycle the thousand services of
    10.0.0.9 are visited first and fill the batch while an error of rule
    1 is pending: the scan leaves the entry in the cache, from where it
    is removed with the results of the failed rule; the error stays
    pending. In both cycles the finished rule gets no update. *)
Lemma job_removal_registers_sentinel_counterexample :
  let out := mk_worker_take_out
               (worker_job_remove drained_manager (mk_queue [] 0 1 [])
                  (mk_job 1 1 0 0 DISCOVERER_JOB_STATUS_QUEUED []) 300)
               None false (Some 1) in
  let cache := m_results (wt_manager out) in
  let deleted := process_results (λ _, 0) cache ∅ [1] [] no_callbacks in
  let deferred :=
    process_results_in_order (λ _, 0) [swept_host; rule1_sentinel]
      (<[result_key swept_host := swept_host]> cache) ∅ [] [rule1_error] no_callbacks in
  worker_take drained_manager 300 = Some out
  ∧ wt_removed out = Some 1
  ∧ cache !! (1, EmptyString) = Some rule1_sentinel
  ∧ pr_vector deleted = []
  ∧ pr_calls deleted = []
  ∧ pr_results deleted !! (1, EmptyString) = None
  ∧ pr_vector deferred = [swept_host]
  ∧ drule_updates (pr_calls deferred) = []
  ∧ pr_results deferred !! (1, EmptyString) = None
  ∧ pr_drule_errors deferred = [rule1_error]
  ∧ pr_ret deferred = 1.
Proof. split_and!; vm_compute; reflexivity. Qed.
